(** * Graph search core of the motion primitive library: A*, LPA*, trace-back

    A shallow embedding of [include/mpl_planner/common/graph_search.h]
    (class [GraphSearch]: [Astar], [LPAstar], [recoverTraj]) together with
    the parts of the state space it drives, and the properties of the
    natural-language specification stated over it.

    Conventions of the embedding.
    - [decimal_t] values are exact: an integer, or one of the IEEE special
      values +inf, -inf, NaN.  Rounding and overflow of a [double] are not
      modelled, and a cost that is not an integer cannot be written; the
      special values follow IEEE arithmetic and comparison.  The
      statements below therefore say which sum the code stores or
      compares, and how the stored values compare; none of them is a bound
      on a sum of costs over several edges, which rounding would break.
    - [State] objects live in a store addressed by natural numbers; a
      [StatePtr] is an address or null.  The hash map, the priority queue
      and [best_child_] hold pointers, so that several references to one
      object see the same mutations.  The store never frees: an address
      that no pointer of the workspace holds any more stands for an object
      the C++ code has destroyed with its last [shared_ptr], and the
      statements below are about the objects the workspace still reaches.
    - Undefined behaviour of the C++ code (dereferencing a null pointer,
      [top()] on an empty queue, indexing a vector out of range) is an
      explicit fault result; loops that need not terminate take fuel.
    - Printing (the [verbose_] flag) is not modelled. *)

From Stdlib Require Import ZArith List Bool Lia.
From stdpp Require Import base option list gmap.

Open Scope Z_scope.

(** ** decimal_t *)

Module Decimal.

Inductive decimal : Type :=
| Fin (z : Z)
| PInf
| NInf
| NaN.

Definition add (x y : decimal) : decimal :=
  match x, y with
  | NaN, _ | _, NaN => NaN
  | PInf, NInf | NInf, PInf => NaN
  | PInf, _ | _, PInf => PInf
  | NInf, _ | _, NInf => NInf
  | Fin a, Fin b => Fin (a + b)
  end.

Definition mul (x y : decimal) : decimal :=
  match x, y with
  | NaN, _ | _, NaN => NaN
  | Fin a, Fin b => Fin (a * b)
  | Fin a, PInf | PInf, Fin a =>
      if a =? 0 then NaN else if 0 <? a then PInf else NInf
  | Fin a, NInf | NInf, Fin a =>
      if a =? 0 then NaN else if 0 <? a then NInf else PInf
  | PInf, PInf | NInf, NInf => PInf
  | PInf, NInf | NInf, PInf => NInf
  end.

(** [x < y]; false as soon as one side is NaN. *)
Definition ltb (x y : decimal) : bool :=
  match x, y with
  | NaN, _ | _, NaN => false
  | Fin a, Fin b => a <? b
  | NInf, NInf => false
  | NInf, _ => true
  | _, NInf => false
  | PInf, _ => false
  | Fin _, PInf => true
  end.

(** [x == y]; NaN is not equal to itself. *)
Definition eqb (x y : decimal) : bool :=
  match x, y with
  | Fin a, Fin b => a =? b
  | PInf, PInf | NInf, NInf => true
  | _, _ => false
  end.

Definition gtb (x y : decimal) : bool := ltb y x.
Definition leb (x y : decimal) : bool := ltb x y || eqb x y.
Definition geb (x y : decimal) : bool := leb y x.
Definition neqb (x y : decimal) : bool := negb (eqb x y).

(** [std::isinf] *)
Definition isinf (x : decimal) : bool :=
  match x with PInf | NInf => true | _ => false end.

(** [std::min(a, b)] is [(b < a) ? b : a]. *)
Definition min (a b : decimal) : decimal := if ltb b a then b else a.

(** An ordinary cost: a number or +inf. *)
Definition ordinary (x : decimal) : Prop :=
  match x with Fin _ | PInf => True | _ => False end.

Definition lt (x y : decimal) : Prop := ltb x y = true.

(** Unchanged, or strictly smaller. *)
Definition noninc (new old : decimal) : Prop := new = old \/ lt new old.

End Decimal.
Export Decimal.

(** ** Data model *)

(** Modelled from the spec: [MPL::Key], the identifier of a discretized
    state, is declared outside graph_search.h; the search only compares
    keys and looks them up in the hash map.  Integers stand for them. *)
Abbreviation Key := Z (only parsing).

(** Modelled from the spec: the [Coord] template parameter.  The search
    reads only its time [t]; [pos] stands for the rest of the
    configuration. *)
Record Coord : Type := mkCoord { pos : Z; t : decimal }.

(** [Key()] and [Coord()] *)
Definition Key_default : Key := 0.
Definition Coord_default : Coord := mkCoord 0 (Fin 0).

(** Modelled from the spec: a motion primitive is what [forward_action]
    makes of a start and an action id; the search only collects them. *)
Record Primitive : Type := mkPrimitive { pr_start : Coord; pr_action : Z }.

Definition Trajectory : Type := list Primitive.

(** Addresses of [State] objects, and handles of queue entries. *)
Abbreviation addr := nat (only parsing).
Abbreviation handle := nat (only parsing).

(** [StatePtr<Coord>]: [None] is the null pointer. *)
Definition StatePtr : Type := option addr.

(** Modelled from the spec: [State] is declared in state_space.h, which is
    not among the sources.  The fields are the ones graph_search.h reads
    and writes; [g], [rhs] start at +inf (data model of the spec), the
    flags at false, the vectors empty.  The spec gives no initial [h];
    it is +inf here, which makes the priority of a fresh node +inf as the
    spec requires of the goal sentinel. *)
Record State : Type := mkState {
  hashkey : Key;
  coord : Coord;
  succ_coord : list Coord;
  succ_hashkey : list Key;
  succ_action_id : list Z;
  succ_action_cost : list decimal;
  pred_hashkey : list Key;
  pred_action_id : list Z;
  pred_action_cost : list decimal;
  heapkey : option handle;
  g : decimal;
  rhs : decimal;
  h : decimal;
  iterationopened : bool;
  iterationclosed : bool
}.

(** [State(key, coord)] *)
Definition State_init (k : Key) (c : Coord) : State :=
  mkState k c [] [] [] [] [] [] [] None PInf PInf PInf false false.

Definition set_g (x : decimal) (s : State) : State :=
  mkState (hashkey s) (coord s) (succ_coord s) (succ_hashkey s)
    (succ_action_id s) (succ_action_cost s) (pred_hashkey s)
    (pred_action_id s) (pred_action_cost s) (heapkey s)
    x (rhs s) (h s) (iterationopened s) (iterationclosed s).

Definition set_rhs (x : decimal) (s : State) : State :=
  mkState (hashkey s) (coord s) (succ_coord s) (succ_hashkey s)
    (succ_action_id s) (succ_action_cost s) (pred_hashkey s)
    (pred_action_id s) (pred_action_cost s) (heapkey s)
    (g s) x (h s) (iterationopened s) (iterationclosed s).

Definition set_h (x : decimal) (s : State) : State :=
  mkState (hashkey s) (coord s) (succ_coord s) (succ_hashkey s)
    (succ_action_id s) (succ_action_cost s) (pred_hashkey s)
    (pred_action_id s) (pred_action_cost s) (heapkey s)
    (g s) (rhs s) x (iterationopened s) (iterationclosed s).

Definition set_heapkey (x : option handle) (s : State) : State :=
  mkState (hashkey s) (coord s) (succ_coord s) (succ_hashkey s)
    (succ_action_id s) (succ_action_cost s) (pred_hashkey s)
    (pred_action_id s) (pred_action_cost s) x
    (g s) (rhs s) (h s) (iterationopened s) (iterationclosed s).

Definition set_iterationopened (x : bool) (s : State) : State :=
  mkState (hashkey s) (coord s) (succ_coord s) (succ_hashkey s)
    (succ_action_id s) (succ_action_cost s) (pred_hashkey s)
    (pred_action_id s) (pred_action_cost s) (heapkey s)
    (g s) (rhs s) (h s) x (iterationclosed s).

Definition set_iterationclosed (x : bool) (s : State) : State :=
  mkState (hashkey s) (coord s) (succ_coord s) (succ_hashkey s)
    (succ_action_id s) (succ_action_cost s) (pred_hashkey s)
    (pred_action_id s) (pred_action_cost s) (heapkey s)
    (g s) (rhs s) (h s) (iterationopened s) x.

(** [pred_hashkey.push_back], [pred_action_cost.push_back],
    [pred_action_id.push_back] *)
Definition push_pred_hashkey (k : Key) (s : State) : State :=
  mkState (hashkey s) (coord s) (succ_coord s) (succ_hashkey s)
    (succ_action_id s) (succ_action_cost s) (pred_hashkey s ++ [k])
    (pred_action_id s) (pred_action_cost s) (heapkey s)
    (g s) (rhs s) (h s) (iterationopened s) (iterationclosed s).

Definition push_pred_action_cost (c : decimal) (s : State) : State :=
  mkState (hashkey s) (coord s) (succ_coord s) (succ_hashkey s)
    (succ_action_id s) (succ_action_cost s) (pred_hashkey s)
    (pred_action_id s) (pred_action_cost s ++ [c]) (heapkey s)
    (g s) (rhs s) (h s) (iterationopened s) (iterationclosed s).

Definition push_pred_action_id (a : Z) (s : State) : State :=
  mkState (hashkey s) (coord s) (succ_coord s) (succ_hashkey s)
    (succ_action_id s) (succ_action_cost s) (pred_hashkey s)
    (pred_action_id s ++ [a]) (pred_action_cost s) (heapkey s)
    (g s) (rhs s) (h s) (iterationopened s) (iterationclosed s).

(** The four successor vectors of a node, replaced together. *)
Definition set_succ (cs : list Coord) (ks : list Key) (ids : list Z)
    (costs : list decimal) (s : State) : State :=
  mkState (hashkey s) (coord s) cs ks ids costs (pred_hashkey s)
    (pred_action_id s) (pred_action_cost s) (heapkey s)
    (g s) (rhs s) (h s) (iterationopened s) (iterationclosed s).

(** What [get_succ] fills in: four parallel vectors. *)
Record Successors : Type := mkSuccessors {
  sc_coord : list Coord;
  sc_key : list Key;
  sc_cost : list decimal;
  sc_act_id : list Z
}.

(** Modelled from the spec: the environment interface [env_base], declared
    outside graph_search.h, with the four methods the search calls.  The
    out-parameters of [get_succ] are returned as a record, and
    [forward_action] returns the primitive it fills in. *)
Record env_base : Type := mkEnv {
  is_goal : Coord -> bool;
  get_heur : Coord -> decimal;
  get_succ : Coord -> Successors;
  forward_action : Coord -> Z -> Primitive
}.

(** Modelled from the spec: the priority queue ([pq_], declared in
    state_space.h) is a min-queue of pairs (priority, node) with stable
    handles.  Entries are kept in insertion order; [top] is the first entry
    no other entry is strictly below, which fixes the tie-breaking the spec
    leaves open. *)
Record heap_elem : Type := mkElem {
  el_handle : handle;
  first : decimal;
  second : addr
}.

Record priorityQueue : Type := mkQueue {
  elems : list heap_elem;
  next_handle : handle
}.

Fixpoint pq_min (best : heap_elem) (l : list heap_elem) : heap_elem :=
  match l with
  | [] => best
  | e :: l' => if ltb (first e) (first best) then pq_min e l' else pq_min best l'
  end.

Definition pq_top (q : priorityQueue) : option heap_elem :=
  match elems q with
  | [] => None
  | e :: l => Some (pq_min e l)
  end.

Definition pq_is_empty (q : priorityQueue) : bool :=
  match elems q with [] => true | _ => false end.

Definition pq_remove (hd : handle) (q : priorityQueue) : priorityQueue :=
  mkQueue (filter (fun e => el_handle e ≠ hd) (elems q)) (next_handle q).

Definition pq_insert (f : decimal) (a : addr) (q : priorityQueue)
  : handle * priorityQueue :=
  (next_handle q,
   mkQueue (elems q ++ [mkElem (next_handle q) f a]) (S (next_handle q))).

Definition pq_has (hd : handle) (q : priorityQueue) : bool :=
  existsb (fun e => Nat.eqb (el_handle e) hd) (elems q).

(** The entry of a handle takes the priority [f]. *)
Definition pq_set_first (hd : handle) (f : decimal) (q : priorityQueue)
  : priorityQueue :=
  mkQueue
    (map (fun e => if Nat.eqb (el_handle e) hd
                   then mkElem (el_handle e) f (second e) else e) (elems q))
    (next_handle q).

(** Modelled from the spec: the workspace [StateSpace], declared in
    state_space.h, with the members graph_search.h reads and writes: the
    queue, the hash map and the search parameters.  [store] holds the
    [State] objects the shared pointers point to, so that two pointers to
    one node see the same fields. *)
Record StateSpace : Type := mkSS {
  store : list State;
  pq_ : priorityQueue;
  hm_ : gmap Key addr;
  eps_ : decimal;
  dt_ : decimal;
  max_t_ : decimal;
  expand_iteration_ : Z;
  best_child_ : list addr
}.

Definition with_store (x : list State) (ss : StateSpace) : StateSpace :=
  mkSS x (pq_ ss) (hm_ ss) (eps_ ss) (dt_ ss) (max_t_ ss)
    (expand_iteration_ ss) (best_child_ ss).

Definition with_pq (x : priorityQueue) (ss : StateSpace) : StateSpace :=
  mkSS (store ss) x (hm_ ss) (eps_ ss) (dt_ ss) (max_t_ ss)
    (expand_iteration_ ss) (best_child_ ss).

Definition with_hm (x : gmap Key addr) (ss : StateSpace) : StateSpace :=
  mkSS (store ss) (pq_ ss) x (eps_ ss) (dt_ ss) (max_t_ ss)
    (expand_iteration_ ss) (best_child_ ss).

Definition with_max_t (x : decimal) (ss : StateSpace) : StateSpace :=
  mkSS (store ss) (pq_ ss) (hm_ ss) (eps_ ss) (dt_ ss) x
    (expand_iteration_ ss) (best_child_ ss).

Definition with_expand_iteration (x : Z) (ss : StateSpace) : StateSpace :=
  mkSS (store ss) (pq_ ss) (hm_ ss) (eps_ ss) (dt_ ss) (max_t_ ss)
    x (best_child_ ss).

Definition with_best_child (x : list addr) (ss : StateSpace) : StateSpace :=
  mkSS (store ss) (pq_ ss) (hm_ ss) (eps_ ss) (dt_ ss) (max_t_ ss)
    (expand_iteration_ ss) x.

(** A fresh workspace with the given heuristic weight and time step. *)
Definition StateSpace_init (eps dt : decimal) : StateSpace :=
  mkSS [] (mkQueue [] 0%nat) ∅ eps dt PInf 0 [].

(** ** Operations on the workspace: state and faults *)

Inductive fault : Type :=
| EmptyQueue      (* top() or pop() on an empty queue *)
| NullPointer     (* dereferencing a null or dangling pointer *)
| OutOfRange      (* indexing a vector past its end *)
| InvalidHandle   (* using a handle that is not in the queue *)
| IntOverflow.    (* incrementing an int at INT_MAX *)

Inductive res (A : Type) : Type :=
| Ok (a : A)
| Fault (f : fault)
| OutOfFuel.
Arguments Ok {A} a.
Arguments Fault {A} f.
Arguments OutOfFuel {A}.

Definition Op (A : Type) : Type := StateSpace -> res (A * StateSpace).

#[global] Instance Op_ret : MRet Op := fun A a ss => Ok (a, ss).
#[global] Instance Op_bind : MBind Op := fun A B f m ss =>
  match m ss with
  | Ok (a, ss') => f a ss'
  | Fault e => Fault e
  | OutOfFuel => OutOfFuel
  end.

Definition raise {A} (e : fault) : Op A := fun _ => Fault e.
Definition out_of_fuel {A} : Op A := fun _ => OutOfFuel.
Definition gets {A} (f : StateSpace -> A) : Op A := fun ss => Ok (f ss, ss).
Definition modify_ss (f : StateSpace -> StateSpace) : Op unit :=
  fun ss => Ok (tt, f ss).

(** [*p] for a non-null pointer *)
Definition load (a : addr) : Op State := fun ss =>
  match store ss !! a with
  | Some s => Ok (s, ss)
  | None => Fault NullPointer
  end.

(** [p->field = ...] *)
Definition modify (a : addr) (f : State -> State) : Op unit := fun ss =>
  match store ss !! a with
  | Some s => Ok (tt, with_store (<[a := f s]> (store ss)) ss)
  | None => Fault NullPointer
  end.

(** [std::make_shared<State<Coord>>(key, coord)] *)
Definition new_State (k : Key) (c : Coord) : Op addr := fun ss =>
  Ok (length (store ss), with_store (store ss ++ [State_init k c]) ss).

(** Dereferencing a possibly null pointer. *)
Definition nonnull (p : StatePtr) : Op addr :=
  match p with
  | Some a => mret a
  | None => raise NullPointer
  end.

(** [hm_[k]] read: a null pointer when the key has no node.  (The null
    entry that [operator[]] leaves behind is not told apart from no entry.) *)
Definition hm_at (k : Key) : Op StatePtr := gets (fun ss => hm_ ss !! k).

(** [hm_[k] = p] *)
Definition hm_set (k : Key) (a : addr) : Op unit :=
  modify_ss (fun ss => with_hm (<[k := a]> (hm_ ss)) ss).

(** [v[i]] on a vector *)
Definition index {A} (l : list A) (i : nat) : Op A :=
  match l !! i with
  | Some x => mret x
  | None => raise OutOfRange
  end.

Definition pq_empty : Op bool := gets (fun ss => pq_is_empty (pq_ ss)).

Definition pq_top_op : Op heap_elem := fun ss =>
  match pq_top (pq_ ss) with
  | Some e => Ok (e, ss)
  | None => Fault EmptyQueue
  end.

Definition pq_pop : Op unit := fun ss =>
  match pq_top (pq_ ss) with
  | Some e => Ok (tt, with_pq (pq_remove (el_handle e) (pq_ ss)) ss)
  | None => Fault EmptyQueue
  end.

Definition pq_push (f : decimal) (a : addr) : Op handle := fun ss =>
  let '(hd, q) := pq_insert f a (pq_ ss) in Ok (hd, with_pq q ss).

(** Writing [f] through [heapkey] and [pq_.increase(heapkey)]: the entry takes its new
    priority; the spec asks the queue to accept a move in either direction. *)
Definition pq_update (hk : option handle) (f : decimal) : Op unit := fun ss =>
  match hk with
  | Some hd =>
      if pq_has hd (pq_ ss)
      then Ok (tt, with_pq (pq_set_first hd f (pq_ ss)) ss)
      else Fault InvalidHandle
  | None => Fault InvalidHandle
  end.

Definition pq_erase (hd : handle) : Op unit :=
  modify_ss (fun ss => with_pq (pq_remove hd (pq_ ss)) ss).

(** [for (unsigned s = 0; s < n; ++s) body(s)] *)
Fixpoint for_each (l : list nat) (body : nat -> Op unit) : Op unit :=
  match l with
  | [] => mret tt
  | s :: l' => body s ;; for_each l' body
  end.

Fixpoint fold_each {A} (l : list nat) (body : nat -> A -> Op A) (acc : A)
  : Op A :=
  match l with
  | [] => mret acc
  | s :: l' => acc' ← body s acc; fold_each l' body acc'
  end.

Definition INT_MAX : Z := 2147483647.

(** ** The search *)

(** Why an iteration of the main loop ends the search, or does not. *)
Inductive verdict : Type :=
| GoalReached        (* break: is_goal *)
| MaxTimeReached     (* break: time horizon *)
| MaxExpandReached   (* return: expansion cap *)
| QueueEmpty         (* return: priority queue is empty *)
| Converged          (* LPAstar: the loop condition is false *)
| Continue.

#[global] Instance verdict_eq_dec : EqDecision verdict.
Proof. solve_decision. Defined.

Section GraphSearch.

Variable ENV : env_base.

(** [ss_ptr->eps_ == 0 ? 0 : ENV->get_heur(c)] *)
Definition heur_of (eps : decimal) (c : Coord) : decimal :=
  if eqb eps (Fin 0) then Fin 0 else get_heur ENV c.

(** *** recoverTraj *)

(** One round of the scan over the predecessors of the node [c]:
    [acc] is [(min_rhs, min_g, min_id)]. *)
Definition scan_pred (c : State) (i : nat) (acc : decimal * decimal * Z)
  : Op (decimal * decimal * Z) :=
  let '(min_rhs, min_g, min_id) := acc in
  key ← index (pred_hashkey c) i;
  p ← hm_at key;
  a ← nonnull p;
  sp ← load a;
  cost ← index (pred_action_cost c) i;
  if gtb min_rhs (add (g sp) cost) then
    mret (add (g sp) cost, g sp, Z.of_nat i)
  else if negb (isinf cost) && eqb min_rhs (add (g sp) cost) then
    if ltb min_g (g sp) then mret (min_rhs, g sp, Z.of_nat i)
    else mret acc
  else mret acc.

(** The scan over all predecessors of [c] (lines 396-417). *)
Definition scan (c : State) : Op (decimal * decimal * Z) :=
  fold_each (seq 0 (length (pred_hashkey c))) (scan_pred c) (PInf, PInf, -1).

Definition best_child_push (a : addr) : Op unit :=
  modify_ss (fun ss => with_best_child (best_child_ ss ++ [a]) ss).

(** The [while] loop of [recoverTraj]; [prs] in push order. *)
Fixpoint recover_loop (fuel : nat) (start_key : Key) (curr : addr)
    (prs : list Primitive) : Op (list Primitive) :=
  match fuel with
  | O => out_of_fuel
  | S fuel' =>
      c ← load curr;
      match pred_hashkey c with
      | [] => mret prs
      | _ :: _ =>
          best_child_push curr ;;
          '(_, _, min_id) ← scan c;
          if 0 <=? min_id then
            key ← index (pred_hashkey c) (Z.to_nat min_id);
            action_idx ← index (pred_action_id c) (Z.to_nat min_id);
            p ← hm_at key;
            parent ← nonnull p;
            sp ← load parent;
            let prs' := prs ++ [forward_action ENV (coord sp) action_idx] in
            if hashkey sp =? start_key then
              best_child_push parent ;; mret prs'
            else recover_loop fuel' start_key parent prs'
          else mret prs
      end
  end.

Definition recoverTraj (fuel : nat) (currNode_ptr : addr) (start_key : Key)
  : Op Trajectory :=
  modify_ss (with_best_child []) ;;
  prs ← recover_loop fuel start_key currNode_ptr [];
  modify_ss (fun ss => with_best_child (rev (best_child_ ss)) ss) ;;
  mret (rev prs).

(** *** Astar *)

(** The start node, made when the queue is empty (lines 52-64). *)
Definition astar_init (start_coord : Coord) (start_key : Key) : Op unit :=
  emp ← pq_empty;
  if (emp : bool) then
    a ← new_State start_key start_coord;
    modify a (set_g (Fin 0)) ;;
    eps ← gets eps_;
    modify a (set_h (heur_of eps start_coord)) ;;
    s ← load a;
    let fval := add (g s) (mul eps (h s)) in
    hk ← pq_push fval a;
    modify a (set_heapkey (Some hk)) ;;
    modify a (set_iterationopened true) ;;
    modify a (set_iterationclosed false) ;;
    hm_set start_key a
  else mret tt.

(** A node for a key that has none (lines 91-93, and 291-293 in LPAstar):
    the new object is put into the hash map and takes its heuristic. *)
Definition make_child (sk : Key) (sc : Coord) : Op addr :=
  v ← new_State sk sc;
  hm_set sk v ;;
  eps ← gets eps_;
  sv ← load v;
  modify v (set_h (heur_of eps (coord sv))) ;;
  mret v.

(** Get child (lines 89-100). *)
Definition astar_child (sc : Coord) (sk : Key) : Op addr :=
  p ← hm_at sk;
  match p with
  | Some v => mret v
  | None => make_child sk sc
  end.

(** The predecessor edge from [curr], pushed onto the three vectors of [v]
    (lines 106-108, and 312-314 in LPAstar). *)
Definition record_pred (curr v : addr) (cost : decimal) (act : Z) : Op unit :=
  cu ← load curr;
  modify v (push_pred_hashkey (hashkey cu)) ;;
  modify v (push_pred_action_cost cost) ;;
  modify v (push_pred_action_id act).

(** The attempt to improve the value of the successor (lines 111-148). *)
Definition astar_relax (curr v : addr) (cost : decimal) : Op unit :=
  cu ← load curr;
  let tentative_gval := add (g cu) cost in
  sv ← load v;
  if ltb tentative_gval (g sv) then
    modify v (set_g tentative_gval) ;;
    sv ← load v;
    eps ← gets eps_;
    let fval := add (g sv) (mul eps (h sv)) in
    if iterationopened sv && negb (iterationclosed sv) then
      pq_update (heapkey sv) fval
    else
      hk ← pq_push fval v;
      modify v (set_heapkey (Some hk)) ;;
      modify v (set_iterationopened true)
  else mret tt.

(** The body of the successor loop past the [isinf] test (lines 89-148),
    for the successor with the given coordinate, key, cost and action. *)
Definition astar_succ (curr : addr) (sc : Coord) (sk : Key) (cost : decimal)
    (act : Z) : Op unit :=
  v ← astar_child sc sk;
  record_pred curr v cost act ;;
  astar_relax curr v cost.

(** Round [s] of the successor loop (lines 84-149). *)
Definition astar_process (curr : addr) (succ : Successors) (s : nat)
  : Op unit :=
  cost ← index (sc_cost succ) s;
  if isinf cost then mret tt
  else
    sk ← index (sc_key succ) s;
    sc ← index (sc_coord succ) s;
    act ← index (sc_act_id succ) s;
    astar_succ curr sc sk cost act.

(** Pop and expand (lines 69-149): the popped node is returned. *)
Definition astar_expand : Op addr :=
  e ← pq_top_op;
  let curr := second e in
  pq_pop ;;
  modify curr (set_iterationclosed true) ;;
  cu ← load curr;
  let succ := get_succ ENV (coord cu) in
  for_each (seq 0 (length (sc_coord succ))) (astar_process curr succ) ;;
  mret curr.

(** The tests that follow the expansion of [curr] (lines 151-179). *)
Definition astar_checks (curr : addr) (expand_iteration max_expand : Z)
    (max_t : decimal) : Op verdict :=
  cu ← load curr;
  if is_goal ENV (coord cu) then mret GoalReached
  else if ltb (Fin 0) max_t && geb (t (coord cu)) max_t && negb (isinf (g cu))
  then mret MaxTimeReached
  else if (0 <? max_expand) && (max_expand <=? expand_iteration)
  then mret MaxExpandReached
  else
    emp ← pq_empty;
    if (emp : bool) then mret QueueEmpty else mret Continue.

(** [while (true)]: returns the last popped node, the verdict and the
    value of [expand_iteration]. *)
Fixpoint astar_loop (fuel : nat) (expand_iteration max_expand : Z)
    (max_t : decimal) : Op (addr * verdict * Z) :=
  match fuel with
  | O => out_of_fuel
  | S fuel' =>
      if INT_MAX <=? expand_iteration then raise IntOverflow
      else
        let expand_iteration := expand_iteration + 1 in
        curr ← astar_expand;
        v ← astar_checks curr expand_iteration max_expand max_t;
        match v with
        | Continue => astar_loop fuel' expand_iteration max_expand max_t
        | _ => mret (curr, v, expand_iteration)
        end
  end.

(** What follows the loop (lines 170, 178 and 182-198), for the last
    popped node, the verdict and the count of expansions. *)
Definition astar_finish (fuel : nat) (start_key : Key) (traj : Trajectory)
    (r : addr * verdict * Z) : Op (bool * Trajectory) :=
  let '(curr, v, expand_iteration) := r in
  match v with
  | MaxExpandReached | QueueEmpty => mret (false, traj)
  | _ =>
      modify_ss (with_expand_iteration expand_iteration) ;;
      traj' ← recoverTraj fuel curr start_key;
      mret (true, traj')
  end.

(** [bool Astar(start_coord, start_key, ENV, ss_ptr, traj, max_expand,
    max_t)].  The result is the returned [bool] with the value of the
    output parameter [traj], which is the caller's when the function does
    not assign it.  [return 0] at line 48 converts to [false]. *)
Definition Astar (fuel : nat) (start_coord : Coord) (start_key : Key)
    (traj : Trajectory) (max_expand : Z) (max_t : decimal)
  : Op (bool * Trajectory) :=
  if is_goal ENV start_coord then mret (false, traj)
  else
    astar_init start_coord start_key ;;
    r ← astar_loop fuel 0 max_expand max_t;
    astar_finish fuel start_key traj r.

(** *** The state space operations LPAstar calls *)

(** Modelled from the spec: [calculateKey] is defined in state_space.h,
    which is not among the sources.  It is the scalar the queue compares,
    [min(g, rhs) + eps * h]. *)
Definition calculateKey (a : addr) : Op decimal :=
  s ← load a;
  eps ← gets eps_;
  mret (add (min (g s) (rhs s)) (mul eps (h s))).

(** One predecessor's share in the new [rhs]: an edge of infinite cost
    does not contribute. *)
Definition rhs_pred (c : State) (i : nat) (acc : decimal) : Op decimal :=
  key ← index (pred_hashkey c) i;
  cost ← index (pred_action_cost c) i;
  if isinf cost then mret acc
  else
    p ← hm_at key;
    a ← nonnull p;
    sp ← load a;
    mret (min acc (add (g sp) cost)).

(** Modelled from the spec: [updateNode] is defined in state_space.h,
    which is not among the sources.  Following section 4.3 of the spec:
    a node other than the start takes as [rhs] the least [p.g + cost] over
    its predecessors; its queue entry, if it has a handle, is removed; it is
    inserted with its priority when [g ≠ rhs] and [coord.t ≤ max_t]; it is
    marked opened and not closed.  The spec does not say how the start is
    recognised: the start key is passed along. *)
Definition updateNode (start_key : Key) (a : addr) : Op unit :=
  s ← load a;
  (if hashkey s =? start_key then mret tt
   else
     r ← fold_each (seq 0 (length (pred_hashkey s))) (rhs_pred s) PInf;
     modify a (set_rhs r)) ;;
  s ← load a;
  match heapkey s with
  | Some hk => pq_erase hk
  | None => mret tt
  end ;;
  max_t ← gets max_t_;
  (if neqb (g s) (rhs s) && leb (t (coord s)) max_t then
     key ← calculateKey a;
     hk ← pq_push key a;
     modify a (set_heapkey (Some hk))
   else mret tt) ;;
  modify a (set_iterationopened true) ;;
  modify a (set_iterationclosed false).

(** *** LPAstar *)

(** [v.resize(n)] *)
Definition resize {A} (n : nat) (d : A) (l : list A) : list A :=
  take n l ++ replicate (n - length l) d.

(** [v[i] = x] *)
Definition assign {A} (l : list A) (i : nat) (x : A) : Op (list A) :=
  if decide (i < length l)%nat then mret (<[i := x]> l) else raise OutOfRange.

(** The search for [currNode_ptr->hashkey] among the predecessors
    (lines 304-310): the first position, or -1. *)
Fixpoint find_pred (k : Key) (l : list Key) (i : Z) : Z :=
  match l with
  | [] => -1
  | x :: l' => if x =? k then i else find_pred k l' (i + 1)
  end.

(** The start node, made when the hash map has none (lines 232-246). *)
Definition lpastar_init (start_coord : Coord) (start_key : Key) : Op unit :=
  p ← hm_at start_key;
  match p with
  | Some _ => mret tt
  | None =>
      a ← new_State start_key start_coord;
      modify a (set_g PInf) ;;
      modify a (set_rhs (Fin 0)) ;;
      eps ← gets eps_;
      modify a (set_h (heur_of eps start_coord)) ;;
      key ← calculateKey a;
      hk ← pq_push key a;
      modify a (set_heapkey (Some hk)) ;;
      modify a (set_iterationopened true) ;;
      modify a (set_iterationclosed false) ;;
      hm_set start_key a
  end.

(** The goal node before the loop (lines 248-252). *)
Definition lpastar_goal : Op addr :=
  sentinel ← new_State Key_default Coord_default;
  bc ← gets best_child_;
  match last bc with
  | None => mret sentinel
  | Some b =>
      sb ← load b;
      if is_goal ENV (coord sb) then mret b else mret sentinel
  end.

(** Get child (lines 289-294). *)
Definition lpastar_child (succ : Successors) (s : nat) (sk : Key) : Op addr :=
  p ← hm_at sk;
  match p with
  | Some v => mret v
  | None =>
      sc ← index (sc_coord succ) s;
      make_child sk sc
  end.

(** Store the successor on the expanded node (lines 296-302). *)
Definition lpastar_store_succ (curr : addr) (succ : Successors) (s : nat)
    (sk : Key) : Op unit :=
  sc ← index (sc_coord succ) s;
  act ← index (sc_act_id succ) s;
  cost ← index (sc_cost succ) s;
  cu ← load curr;
  cs ← assign (succ_coord cu) s sc;
  ks ← assign (succ_hashkey cu) s sk;
  ids ← assign (succ_action_id cu) s act;
  costs ← assign (succ_action_cost cu) s cost;
  modify curr (set_succ cs ks ids costs).

(** The predecessor edge, pushed unless the key of [curr] is among the
    predecessors of [v] already (lines 304-315). *)
Definition lpastar_record_pred (curr v : addr) (succ : Successors) (s : nat)
  : Op unit :=
  sv ← load v;
  cu ← load curr;
  if find_pred (hashkey cu) (pred_hashkey sv) 0 =? -1 then
    cost ← index (sc_cost succ) s;
    act ← index (sc_act_id succ) s;
    record_pred curr v cost act
  else mret tt.

(** Round [s] of the successor loop (lines 288-318). *)
Definition lpastar_process (start_key : Key) (curr : addr) (explored : bool)
    (succ : Successors) (s : nat) : Op unit :=
  sk ← index (sc_key succ) s;
  v ← lpastar_child succ s sk;
  (if explored then lpastar_store_succ curr succ s sk else mret tt) ;;
  lpastar_record_pred curr v succ s ;;
  updateNode start_key v.

(** Pop, make consistent and expand (lines 257-318). *)
Definition lpastar_expand (start_key : Key) : Op addr :=
  e ← pq_top_op;
  let curr := second e in
  pq_pop ;;
  modify curr (set_iterationclosed true) ;;
  cu ← load curr;
  (if gtb (g cu) (rhs cu) then modify curr (set_g (rhs cu))
   else modify curr (set_g PInf) ;; updateNode start_key curr) ;;
  cu ← load curr;
  let cached :=
    mkSuccessors (succ_coord cu) (succ_hashkey cu) (succ_action_cost cu)
                 (succ_action_id cu) in
  '(explored, succ) ←
    match succ_hashkey cu with
    | [] =>
        let succ := get_succ ENV (coord cu) in
        let n := length (sc_coord succ) in
        modify curr (fun s =>
          set_succ (resize n Coord_default (succ_coord s))
                   (resize n Key_default (succ_hashkey s))
                   (resize n 0 (succ_action_id s))
                   (resize n (Fin 0) (succ_action_cost s)) s) ;;
        mret (true, succ)
    | _ :: _ => mret (false, cached)
    end;
  for_each (seq 0 (length (sc_key succ)))
           (lpastar_process start_key curr explored succ) ;;
  mret curr.

(** What follows the expansion of [curr] (lines 320-339): the goal node
    for the next round, and the verdict. *)
Definition lpastar_checks (curr goal : addr) (expand_iteration max_expand : Z)
    (max_t : decimal) : Op (addr * verdict) :=
  cu ← load curr;
  let goal' := if is_goal ENV (coord cu) || ltb (Fin 0) max_t
               then curr else goal in
  if (0 <? max_expand) && (max_expand <=? expand_iteration)
  then mret (goal', MaxExpandReached)
  else
    emp ← pq_empty;
    if (emp : bool) then mret (goal', QueueEmpty) else mret (goal', Continue).

(** The loop condition (lines 255-256); [top()] is evaluated first. *)
Definition lpastar_cond (goal : addr) : Op bool :=
  e ← pq_top_op;
  kg ← calculateKey goal;
  sg ← load goal;
  mret (ltb (first e) kg || neqb (rhs sg) (g sg)).

(** The [while] loop (lines 255-340): returns the goal node, the verdict
    and the value of [expand_iteration]. *)
Fixpoint lpastar_loop (fuel : nat) (start_key : Key) (goal : addr)
    (expand_iteration max_expand : Z) (max_t : decimal)
  : Op (addr * verdict * Z) :=
  match fuel with
  | O => out_of_fuel
  | S fuel' =>
      c ← lpastar_cond goal;
      if (c : bool) then
        if INT_MAX <=? expand_iteration then raise IntOverflow
        else
          let expand_iteration := expand_iteration + 1 in
          curr ← lpastar_expand start_key;
          '(goal', v) ← lpastar_checks curr goal expand_iteration max_expand
                                       max_t;
          match v with
          | Continue =>
              lpastar_loop fuel' start_key goal' expand_iteration max_expand
                           max_t
          | _ => mret (goal', v, expand_iteration)
          end
      else mret (goal, Converged, expand_iteration)
  end.

(** What follows the loop (lines 330, 338 and 342-376). *)
Definition lpastar_finish (fuel : nat) (start_key : Key) (traj : Trajectory)
    (r : addr * verdict * Z) : Op (decimal * Trajectory) :=
  let '(goal, v, expand_iteration) := r in
  match v with
  | MaxExpandReached | QueueEmpty => mret (PInf, traj)
  | _ =>
      traj' ← recoverTraj fuel goal start_key;
      modify_ss (with_expand_iteration expand_iteration) ;;
      sg ← load goal;
      mret (g sg, traj')
  end.

(** [decimal_t LPAstar(start_coord, start_key, ENV, ss_ptr, traj,
    max_expand, max_t)]: the returned value with the value of the output
    parameter [traj]. *)
Definition LPAstar (fuel : nat) (start_coord : Coord) (start_key : Key)
    (traj : Trajectory) (max_expand : Z) (max_t : decimal)
  : Op (decimal * Trajectory) :=
  if is_goal ENV start_coord then mret (Fin 0, traj)
  else
    modify_ss (with_max_t (if ltb (Fin 0) max_t then max_t else PInf)) ;;
    lpastar_init start_coord start_key ;;
    goal ← lpastar_goal;
    r ← lpastar_loop fuel start_key goal 0 max_expand max_t;
    lpastar_finish fuel start_key traj r.

End GraphSearch.

(** ** Sample environments *)

(** A finite graph: an edge leads from one position to another, with a
    cost and an action id; every edge takes one unit of time. *)
Record edge : Type := mkEdge {
  e_from : Z; e_to : Z; e_cost : decimal; e_act : Z
}.

Definition graph_env (edges : list edge) (goal : Z) (heur : Z -> decimal)
  : env_base :=
  mkEnv
    (fun c => pos c =? goal)
    (fun c => heur (pos c))
    (fun c =>
       let es := filter (fun e => e_from e = pos c) edges in
       mkSuccessors
         (map (fun e => mkCoord (e_to e) (add (t c) (Fin 1))) es)
         (map e_to es) (map e_cost es) (map e_act es))
    mkPrimitive.

Definition no_heur : Z -> decimal := fun _ => Fin 0.

(** 0 -> 1 -> 2, with a dearer direct edge 0 -> 2. *)
Definition line_env : env_base :=
  graph_env [mkEdge 0 1 (Fin 1) 10; mkEdge 1 2 (Fin 1) 11;
             mkEdge 0 2 (Fin 5) 12] 2 no_heur.

(** One edge, 0 -> 1, blocked by an obstacle: its cost is +inf. *)
Definition blocked_env : env_base :=
  graph_env [mkEdge 0 1 PInf 10] 2 no_heur.

(** A start without successors; the goal, 1, is out of reach. *)
Definition dead_end_env : env_base := graph_env [] 1 no_heur.

(** A fresh workspace with [eps_ = 1] and [dt_ = 1], and a start at
    position [p] and time 0. *)
Definition ss0 : StateSpace := StateSpace_init (Fin 1) (Fin 1).
Definition at_pos (p : Z) : Coord := mkCoord p (Fin 0).

(** The workspace an operation leaves behind, for the next one. *)
Definition after {A} (r : res (A * StateSpace)) : StateSpace :=
  match r with
  | Ok (_, ss) => ss
  | _ => ss0
  end.

(** LPAstar on [line_env] from position 0 with the time horizon 3, when
    it enters its loop, and after the expansion of its first round. *)
Definition lpa_ss : StateSpace :=
  after ((modify_ss (with_max_t (Fin 3)) ;;
          lpastar_init line_env (at_pos 0) 0 ;;
          lpastar_goal line_env) ss0).

Definition lpa_ss1 : StateSpace := after (lpastar_expand line_env 0 lpa_ss).

(** Astar on [line_env] from position 0 at time 5, when it enters its
    loop, and after the expansion of its first round. *)
Definition late_ss : StateSpace :=
  after (astar_init line_env (mkCoord 0 (Fin 5)) 0 ss0).

Definition late_ss1 : StateSpace := after (astar_expand line_env late_ss).

(** The successors of position 0 in [blocked_env], and the workspaces of
    Astar and of LPAstar on it when they enter their loops. *)
Definition blocked_succ : Successors := get_succ blocked_env (at_pos 0).

Definition blocked_ss : StateSpace :=
  after (astar_init blocked_env (at_pos 0) 0 ss0).

Definition blocked_lpa_ss : StateSpace :=
  after ((modify_ss (with_max_t PInf) ;;
          lpastar_init blocked_env (at_pos 0) 0 ;;
          lpastar_goal blocked_env) ss0).

Definition blocked_lpa_ss1 : StateSpace :=
  after (lpastar_process blocked_env 0 0%nat false blocked_succ 0%nat
                         blocked_lpa_ss).

(** Astar and LPAstar on [dead_end_env] when they enter their loops. *)
Definition dead_end_ss : StateSpace :=
  after (astar_init dead_end_env (at_pos 0) 0 ss0).

Definition dead_end_lpa_ss : StateSpace :=
  after ((modify_ss (with_max_t PInf) ;;
          lpastar_init dead_end_env (at_pos 0) 0 ;;
          lpastar_goal dead_end_env) ss0).

(** The graph of [line_env] with the distance to the goal as heuristic,
    and fresh workspaces with [eps_ = 0] and [eps_ = 1]. *)
Definition heur_env : env_base :=
  graph_env [mkEdge 0 1 (Fin 1) 10; mkEdge 1 2 (Fin 1) 11;
             mkEdge 0 2 (Fin 5) 12] 2 (fun p => Fin (2 - p)).

Definition ss_eps0 : StateSpace := StateSpace_init (Fin 0) (Fin 1).

Definition heur_traj : Trajectory :=
  [mkPrimitive (at_pos 0) 10; mkPrimitive (mkCoord 1 (Fin 1)) 11].

Definition eps0_ss' : StateSpace :=
  after (Astar heur_env 10 (at_pos 0) 0 [] (-1) (Fin 0) ss_eps0).

Definition eps1_ss' : StateSpace :=
  after (LPAstar heur_env 10 (at_pos 0) 0 [] (-1) (Fin 0) ss0).

(** Two ways of the same cost from 0 to 3: the edge 0 -> 3 of cost 2,
    and 0 -> 1 -> 3 with two edges of cost 1.  [tie_ss] is the workspace
    Astar leaves from position 0; the goal node is at address 2. *)
Definition tie_env : env_base :=
  graph_env [mkEdge 0 1 (Fin 1) 10; mkEdge 0 3 (Fin 2) 12;
             mkEdge 1 3 (Fin 1) 11] 3 no_heur.

Definition tie_ss : StateSpace :=
  after (Astar tie_env 10 (at_pos 0) 0 [] (-1) (Fin 0) ss0).

Definition tie_traj : Trajectory :=
  [mkPrimitive (at_pos 0) 10; mkPrimitive (mkCoord 1 (Fin 1)) 11].

(** ** Facts about decimal values *)

Lemma dec_lt_trans x y z : lt x y -> lt y z -> lt x z.
Proof.
  unfold lt; destruct x, y, z; simpl; try congruence; lia.
Qed.

Lemma dec_lt_irrefl x : ~ lt x x.
Proof. unfold lt; destruct x; simpl; try congruence; lia. Qed.

Lemma noninc_refl x : noninc x x.
Proof. now left. Qed.

Lemma noninc_trans x y z : noninc x y -> noninc y z -> noninc x z.
Proof.
  intros [-> | Hxy] [-> | Hyz]; [now left | now right | now right |].
  right; eapply dec_lt_trans; eassumption.
Qed.

Lemma eqb_eq x y : eqb x y = true -> x = y.
Proof. destruct x, y; simpl; try congruence. intros H; f_equal; lia. Qed.

Lemma add_zero_r x : add x (Fin 0) = x.
Proof. destruct x; simpl; try reflexivity. f_equal; lia. Qed.

(** ** Reasoning about operations *)

Lemma bind_Ok {A B} (m : Op A) (f : A -> Op B) ss b ss' :
  (m ≫= f) ss = Ok (b, ss') ->
  exists a ss1, m ss = Ok (a, ss1) /\ f a ss1 = Ok (b, ss').
Proof.
  unfold mbind, Op_bind. destruct (m ss) as [[a ss1] | e |]; try discriminate.
  intros H. exists a, ss1. split; [reflexivity | exact H].
Qed.

Lemma bind_eq {A B} (m : Op A) (f : A -> Op B) ss a ss1 :
  m ss = Ok (a, ss1) -> (m ≫= f) ss = f a ss1.
Proof. unfold mbind, Op_bind. intros ->. reflexivity. Qed.

Lemma ret_Ok {A} (a b : A) ss ss' :
  mret (M := Op) a ss = Ok (b, ss') -> b = a /\ ss' = ss.
Proof. unfold mret, Op_ret. intros H; inversion H; auto. Qed.

Lemma gets_Ok {A} (f : StateSpace -> A) ss b ss' :
  gets f ss = Ok (b, ss') -> b = f ss /\ ss' = ss.
Proof. unfold gets. intros H; inversion H; auto. Qed.

Lemma modify_ss_Ok f ss b ss' :
  modify_ss f ss = Ok (b, ss') -> ss' = f ss.
Proof. unfold modify_ss. intros H; inversion H; auto. Qed.

Lemma load_Ok a ss s ss' :
  load a ss = Ok (s, ss') -> store ss !! a = Some s /\ ss' = ss.
Proof.
  unfold load. destruct (store ss !! a); intros H; inversion H; auto.
Qed.

Lemma load_eq a ss s : store ss !! a = Some s -> load a ss = Ok (s, ss).
Proof. unfold load. intros ->. reflexivity. Qed.

Lemma modify_Ok a f ss b ss' :
  modify a f ss = Ok (b, ss') ->
  exists s, store ss !! a = Some s /\
            ss' = with_store (<[a := f s]> (store ss)) ss.
Proof.
  unfold modify. destruct (store ss !! a) as [s|]; intros H; inversion H.
  exists s; auto.
Qed.

Lemma modify_eq a f ss s :
  store ss !! a = Some s ->
  modify a f ss = Ok (tt, with_store (<[a := f s]> (store ss)) ss).
Proof. unfold modify. intros ->. reflexivity. Qed.

Lemma new_State_Ok k c ss a ss' :
  new_State k c ss = Ok (a, ss') ->
  a = length (store ss) /\
  ss' = with_store (store ss ++ [State_init k c]) ss.
Proof. unfold new_State. intros H; inversion H; auto. Qed.

Lemma nonnull_Ok p ss a ss' :
  nonnull p ss = Ok (a, ss') -> p = Some a /\ ss' = ss.
Proof.
  destruct p; simpl; intros H; [apply ret_Ok in H as [-> ->]; auto|].
  discriminate.
Qed.

Lemma index_Ok {A} (l : list A) i ss x ss' :
  index l i ss = Ok (x, ss') -> l !! i = Some x /\ ss' = ss.
Proof.
  unfold index. destruct (l !! i); intros H;
    [apply ret_Ok in H as [-> ->]; auto | discriminate].
Qed.

Lemma index_eq {A} (l : list A) i x ss :
  l !! i = Some x -> index l i ss = Ok (x, ss).
Proof. unfold index. intros ->. reflexivity. Qed.

Lemma assign_Ok {A} (l : list A) i x ss l' ss' :
  assign l i x ss = Ok (l', ss') -> l' = <[i := x]> l /\ ss' = ss.
Proof.
  unfold assign. destruct (decide (i < length l)%nat); intros H;
    [apply ret_Ok in H as [-> ->]; auto | discriminate].
Qed.

Lemma pq_top_op_Ok ss e ss' :
  pq_top_op ss = Ok (e, ss') -> pq_top (pq_ ss) = Some e /\ ss' = ss.
Proof.
  unfold pq_top_op. destruct (pq_top (pq_ ss)); intros H; inversion H; auto.
Qed.

Lemma pq_pop_Ok ss b ss' :
  pq_pop ss = Ok (b, ss') -> exists q, ss' = with_pq q ss.
Proof.
  unfold pq_pop. destruct (pq_top (pq_ ss)); intros H; inversion H; eauto.
Qed.

Lemma pq_push_Ok f a ss hk ss' :
  pq_push f a ss = Ok (hk, ss') -> exists q, ss' = with_pq q ss.
Proof. unfold pq_push. simpl. intros H; inversion H; eauto. Qed.

Lemma pq_update_Ok hk f ss b ss' :
  pq_update hk f ss = Ok (b, ss') -> exists q, ss' = with_pq q ss.
Proof.
  unfold pq_update. destruct hk; [|discriminate].
  destruct (pq_has _ _); intros H; inversion H; eauto.
Qed.

(** Decomposing a successful run into the runs of its parts. *)
Ltac op_inv :=
  repeat match goal with
  | H : (_ ≫= _) _ = Ok _ |- _ =>
      let a := fresh "x" in let s := fresh "ss" in
      let H1 := fresh "Hm" in let H2 := fresh "Hk" in
      apply bind_Ok in H; destruct H as (a & s & H1 & H2)
  | H : mret _ _ = Ok _ |- _ => apply ret_Ok in H; destruct H; subst
  | H : gets _ _ = Ok _ |- _ => apply gets_Ok in H; destruct H; subst
  | H : hm_at _ _ = Ok _ |- _ => apply gets_Ok in H; destruct H; subst
  | H : pq_empty _ = Ok _ |- _ => apply gets_Ok in H; destruct H; subst
  | H : modify_ss _ _ = Ok _ |- _ => apply modify_ss_Ok in H; subst
  | H : hm_set _ _ _ = Ok _ |- _ => apply modify_ss_Ok in H; subst
  | H : pq_erase _ _ = Ok _ |- _ => apply modify_ss_Ok in H; subst
  | H : best_child_push _ _ = Ok _ |- _ => apply modify_ss_Ok in H; subst
  | H : load _ _ = Ok _ |- _ =>
      let E := fresh "Hld" in apply load_Ok in H; destruct H as [E ?]; subst
  | H : nonnull _ _ = Ok _ |- _ => apply nonnull_Ok in H; destruct H; subst
  | H : index _ _ _ = Ok _ |- _ =>
      let E := fresh "Hix" in apply index_Ok in H; destruct H as [E ?]; subst
  | H : assign _ _ _ _ = Ok _ |- _ => apply assign_Ok in H; destruct H; subst
  | H : pq_top_op _ = Ok _ |- _ =>
      let E := fresh "Htop" in
      apply pq_top_op_Ok in H; destruct H as [E ?]; subst
  | H : raise _ _ = Ok _ |- _ => discriminate H
  | H : out_of_fuel _ = Ok _ |- _ => discriminate H
  | H : Fault _ = Ok _ |- _ => discriminate H
  | H : OutOfFuel = Ok _ |- _ => discriminate H
  | H : Ok _ = Ok _ |- _ => inversion H; clear H; subst
  | H : (_, _) = (_, _) |- _ => inversion H; clear H; subst
  | H : _ _ = Ok _ |- _ => progress cbv zeta in H
  end.

(** The same, through the tests of the operation. *)
Ltac op_case :=
  match goal with
  | H : (if ?b then _ else _) _ = Ok _ |- _ => destruct b eqn:?
  | H : (match ?x with _ => _ end) _ = Ok _ |- _ => destruct x eqn:?
  end.

Ltac op_all := repeat first [progress op_inv | op_case].

(** ** Frames: what an operation leaves alone *)

(** [frame P Q N ss ss']: from [ss] to [ss'] every object is still there
    and related to its old value by [P], every object made in between
    satisfies [N], which may depend on [eps_], the hash maps are related by
    [Q], and [eps_] is the same. *)
Definition frame (P : State -> State -> Prop)
    (Q : gmap Key addr -> gmap Key addr -> Prop) (N : decimal -> State -> Prop)
    (ss ss' : StateSpace) : Prop :=
  Q (hm_ ss) (hm_ ss') /\
  eps_ ss' = eps_ ss /\
  (length (store ss) <= length (store ss'))%nat /\
  (forall a s, store ss !! a = Some s ->
               exists s', store ss' !! a = Some s' /\ P s s') /\
  (forall a s', (length (store ss) <= a)%nat ->
                store ss' !! a = Some s' -> N (eps_ ss) s').

(** Every successful run of [m] is framed. *)
Definition keeps (P : State -> State -> Prop)
    (Q : gmap Key addr -> gmap Key addr -> Prop) (N : decimal -> State -> Prop)
    {A} (m : Op A) : Prop :=
  forall ss x ss', m ss = Ok (x, ss') -> frame P Q N ss ss'.

Section Frame.

Context (P : State -> State -> Prop) (Q : gmap Key addr -> gmap Key addr -> Prop)
  (N : decimal -> State -> Prop).
Context `{!Reflexive P, !Transitive P, !Reflexive Q, !Transitive Q}.
Hypothesis N_P : forall e s s', N e s -> P s s' -> N e s'.

Lemma frame_refl ss : frame P Q N ss ss.
Proof.
  repeat split; [reflexivity | lia | |].
  - intros a s Hs. exists s. split; [exact Hs | reflexivity].
  - intros a s' Hle Hs. apply lookup_lt_Some in Hs. lia.
Qed.

Lemma frame_trans ss1 ss2 ss3 :
  frame P Q N ss1 ss2 -> frame P Q N ss2 ss3 -> frame P Q N ss1 ss3.
Proof.
  intros (Hq1 & He1 & Hl1 & Hs1 & Hn1) (Hq2 & He2 & Hl2 & Hs2 & Hn2).
  repeat split; [etransitivity; eassumption | congruence | lia | |].
  - intros a s Hs. destruct (Hs1 a s Hs) as (s2 & Hs2' & HP1).
    destruct (Hs2 a s2 Hs2') as (s3 & Hs3 & HP2).
    exists s3. split; [exact Hs3 | etransitivity; eassumption].
  - intros a s3 Hle Hs3.
    destruct (store ss2 !! a) as [s2|] eqn:E2.
    + destruct (Hs2 a s2 E2) as (s3' & Hs3' & HP).
      assert (s3' = s3) as -> by congruence.
      eapply N_P; [eapply Hn1; eassumption | exact HP].
    + apply lookup_ge_None in E2. rewrite <- He1. eapply Hn2; eassumption.
Qed.

(** A change of the queue, [max_t_], [expand_iteration_] or
    [best_child_] alone. *)
Lemma frame_same ss ss' :
  store ss' = store ss -> hm_ ss' = hm_ ss -> eps_ ss' = eps_ ss ->
  frame P Q N ss ss'.
Proof.
  intros Hst Hhm He. unfold frame. rewrite Hst, Hhm, He.
  repeat split; [reflexivity | lia | |].
  - intros a s Hs. exists s. split; [exact Hs | reflexivity].
  - intros a s' Hle Hs. apply lookup_lt_Some in Hs. lia.
Qed.

(** A change of the hash map alone. *)
Lemma frame_hm ss m :
  Q (hm_ ss) m -> frame P Q N ss (with_hm m ss).
Proof.
  intros HQ. repeat split; simpl; [exact HQ | lia | |].
  - intros a s Hs. exists s. split; [exact Hs | reflexivity].
  - intros a s' Hle Hs. apply lookup_lt_Some in Hs. lia.
Qed.

(** A new object. *)
Lemma frame_new ss s :
  N (eps_ ss) s -> frame P Q N ss (with_store (store ss ++ [s]) ss).
Proof.
  intros HN. repeat split; simpl; [reflexivity | rewrite length_app; lia | |].
  - intros a s0 Hs. exists s0. split; [|reflexivity].
    rewrite lookup_app_l; [exact Hs | eapply lookup_lt_Some; exact Hs].
  - intros a s' Hle Hs. rewrite lookup_app_r in Hs by exact Hle.
    destruct (a - length (store ss))%nat; simpl in Hs; [|discriminate].
    congruence.
Qed.

(** A write to one object, when the written value is related to the old. *)
Lemma frame_modify ss a s s' :
  store ss !! a = Some s -> P s s' ->
  frame P Q N ss (with_store (<[a := s']> (store ss)) ss).
Proof.
  intros Hs HP.
  repeat split; simpl; [reflexivity | rewrite length_insert; lia | |].
  - intros b sb Hb. destruct (decide (a = b)) as [<- | Hne].
    + exists s'. rewrite list_lookup_insert_eq
        by (eapply lookup_lt_Some; exact Hs).
      split; [reflexivity | congruence].
    + exists sb. rewrite list_lookup_insert_ne by exact Hne.
      split; [exact Hb | reflexivity].
  - intros b s0 Hle Hb. apply lookup_lt_Some in Hb.
    rewrite length_insert in Hb. lia.
Qed.

Lemma keeps_ret {A} (a : A) : keeps P Q N (mret a).
Proof. intros ss x ss' H. op_inv. apply frame_refl. Qed.

Lemma keeps_bind {A B} (m : Op A) (f : A -> Op B) :
  keeps P Q N m -> (forall a, keeps P Q N (f a)) -> keeps P Q N (m ≫= f).
Proof.
  intros Hm Hf ss x ss' H. op_inv.
  eapply frame_trans; [eapply Hm | eapply Hf]; eassumption.
Qed.

Lemma keeps_gets {A} (f : StateSpace -> A) : keeps P Q N (gets f).
Proof. intros ss x ss' H. op_inv. apply frame_refl. Qed.

Lemma keeps_load a : keeps P Q N (load a).
Proof. intros ss x ss' H. op_inv. apply frame_refl. Qed.

Lemma keeps_nonnull p : keeps P Q N (nonnull p).
Proof. intros ss x ss' H. op_inv. apply frame_refl. Qed.

Lemma keeps_index {A} (l : list A) i : keeps P Q N (index l i).
Proof. intros ss x ss' H. op_inv. apply frame_refl. Qed.

Lemma keeps_assign {A} (l : list A) i x : keeps P Q N (assign l i x).
Proof. intros ss y ss' H. op_inv. apply frame_refl. Qed.

Lemma keeps_raise {A} e : keeps P Q N (raise (A := A) e).
Proof. intros ss x ss' H. discriminate H. Qed.

Lemma keeps_out_of_fuel {A} : keeps P Q N (out_of_fuel (A := A)).
Proof. intros ss x ss' H. discriminate H. Qed.

Lemma keeps_pq_top_op : keeps P Q N pq_top_op.
Proof.
  intros ss x ss' H. apply pq_top_op_Ok in H as [_ ->]. apply frame_refl.
Qed.

Lemma keeps_pq_pop : keeps P Q N pq_pop.
Proof.
  intros ss x ss' H. apply pq_pop_Ok in H as [q ->]. now apply frame_same.
Qed.

Lemma keeps_pq_push f a : keeps P Q N (pq_push f a).
Proof.
  intros ss x ss' H. apply pq_push_Ok in H as [q ->]. now apply frame_same.
Qed.

Lemma keeps_pq_update hk f : keeps P Q N (pq_update hk f).
Proof.
  intros ss x ss' H. apply pq_update_Ok in H as [q ->]. now apply frame_same.
Qed.

Lemma keeps_pq_erase hd : keeps P Q N (pq_erase hd).
Proof. intros ss x ss' H. op_inv. now apply frame_same. Qed.

Lemma keeps_pq_empty : keeps P Q N pq_empty.
Proof. apply keeps_gets. Qed.

Lemma keeps_hm_at k : keeps P Q N (hm_at k).
Proof. apply keeps_gets. Qed.

Lemma keeps_best_child_push a : keeps P Q N (best_child_push a).
Proof. intros ss x ss' H. op_inv. now apply frame_same. Qed.

Lemma keeps_with_best_child f :
  keeps P Q N (modify_ss (fun ss => with_best_child (f ss) ss)).
Proof. intros ss x ss' H. op_inv. now apply frame_same. Qed.

Lemma keeps_clear_best_child : keeps P Q N (modify_ss (with_best_child [])).
Proof. intros ss x ss' H. op_inv. now apply frame_same. Qed.

Lemma keeps_with_expand_iteration n :
  keeps P Q N (modify_ss (with_expand_iteration n)).
Proof. intros ss x ss' H. op_inv. now apply frame_same. Qed.

Lemma keeps_with_max_t x : keeps P Q N (modify_ss (with_max_t x)).
Proof. intros ss y ss' H. op_inv. now apply frame_same. Qed.

Lemma keeps_new_State k c :
  (forall e, N e (State_init k c)) -> keeps P Q N (new_State k c).
Proof.
  intros HN ss x ss' H. apply new_State_Ok in H as [-> ->].
  apply frame_new, HN.
Qed.

Lemma keeps_modify a f : (forall s, P s (f s)) -> keeps P Q N (modify a f).
Proof.
  intros Hf ss x ss' H. apply modify_Ok in H as (s & Hs & ->).
  apply (frame_modify ss a s (f s) Hs (Hf s)).
Qed.

Lemma keeps_hm_set k a :
  (forall m, Q m (<[k := a]> m)) -> keeps P Q N (hm_set k a).
Proof. intros HQ ss x ss' H. op_inv. apply frame_hm, HQ. Qed.

Lemma keeps_for_each l body :
  (forall s, keeps P Q N (body s)) -> keeps P Q N (for_each l body).
Proof.
  intros Hb. induction l as [| s l IH]; simpl.
  - apply keeps_ret.
  - apply keeps_bind; [apply Hb | intros _; exact IH].
Qed.

Lemma keeps_fold_each {A} l (body : nat -> A -> Op A) acc :
  (forall s x, keeps P Q N (body s x)) -> keeps P Q N (fold_each l body acc).
Proof.
  intros Hb. revert acc. induction l as [| s l IH]; intros acc; simpl.
  - apply keeps_ret.
  - apply keeps_bind; [apply Hb | intros x; apply IH].
Qed.

End Frame.

(** Frames under the knowledge of what one object holds. *)
Definition keeps_at (P : State -> State -> Prop)
    (Q : gmap Key addr -> gmap Key addr -> Prop) (N : decimal -> State -> Prop)
    (a : addr) (s : State) {A} (m : Op A) : Prop :=
  forall ss x ss', store ss !! a = Some s -> m ss = Ok (x, ss') ->
                   frame P Q N ss ss'.

Section FrameAt.

Context (P : State -> State -> Prop) (Q : gmap Key addr -> gmap Key addr -> Prop)
  (N : decimal -> State -> Prop).
Context `{!Reflexive P, !Transitive P, !Reflexive Q, !Transitive Q}.
Hypothesis N_P : forall e s s', N e s -> P s s' -> N e s'.

Lemma keeps_at_any a s {A} (m : Op A) : keeps P Q N m -> keeps_at P Q N a s m.
Proof. intros Hm ss x ss' _ H. eapply Hm; exact H. Qed.

Lemma keeps_load_at a {B} (k : State -> Op B) :
  (forall s, keeps_at P Q N a s (k s)) -> keeps P Q N (load a ≫= k).
Proof. intros Hk ss x ss' H. op_inv. eapply Hk; eassumption. Qed.

Lemma keeps_at_modify a s f {B} (k : unit -> Op B) :
  P s (f s) -> (forall u, keeps P Q N (k u)) ->
  keeps_at P Q N a s (modify a f ≫= k).
Proof.
  intros HP Hk ss x ss' Hs H. op_inv.
  apply modify_Ok in Hm as (s0 & Hs0 & ->).
  assert (s0 = s) as -> by congruence.
  eapply (frame_trans P Q N N_P); [eapply frame_modify; eassumption |].
  eapply Hk; eassumption.
Qed.

Lemma keeps_new_State_at k c {B} (f : addr -> Op B) :
  (forall e, N e (State_init k c)) ->
  (forall a, keeps_at P Q N a (State_init k c) (f a)) ->
  keeps P Q N (new_State k c ≫= f).
Proof.
  intros HN Hf ss x ss' H. op_inv.
  apply new_State_Ok in Hm as [-> ->].
  eapply (frame_trans P Q N N_P); [exact (frame_new P Q N _ _ (HN _)) |].
  eapply Hf; [|eassumption]. simpl.
  rewrite lookup_app_r by lia. now rewrite Nat.sub_diag.
Qed.

End FrameAt.

(** Frames already proved, for the operations of the search. *)
Create HintDb keeps_db.

(** The structure of an operation, taken apart: what is left are the
    conditions on the objects written, the objects made and the hash map. *)
Ltac keeps_struct HNP :=
  repeat first
    [ lazymatch goal with
      | |- Reflexive _ => exact _
      | |- Transitive _ => exact _
      | |- keeps _ _ _ (mret _) => apply keeps_ret
      | |- keeps _ _ _ (raise _) => apply keeps_raise
      | |- keeps _ _ _ out_of_fuel => apply keeps_out_of_fuel
      | |- keeps _ _ _ (load _ ≫= _) => apply keeps_load_at; intros ?
      | |- keeps _ _ _ (new_State _ _ ≫= _) =>
          apply (keeps_new_State_at _ _ _ HNP); [| intros ?]
      | |- keeps _ _ _ (_ ≫= _) => apply (keeps_bind _ _ _ HNP); [| intros ?]
      | |- keeps _ _ _ (for_each _ _) =>
          apply (keeps_for_each _ _ _ HNP); intros ?
      | |- keeps _ _ _ (fold_each _ _ _) =>
          apply (keeps_fold_each _ _ _ HNP); intros ? ?
      | |- keeps _ _ _ (hm_at _) => apply keeps_hm_at
      | |- keeps _ _ _ pq_empty => apply keeps_pq_empty
      | |- keeps _ _ _ (gets _) => apply keeps_gets
      | |- keeps _ _ _ (load _) => apply keeps_load
      | |- keeps _ _ _ (nonnull _) => apply keeps_nonnull
      | |- keeps _ _ _ (index _ _) => apply keeps_index
      | |- keeps _ _ _ (assign _ _ _) => apply keeps_assign
      | |- keeps _ _ _ pq_top_op => apply keeps_pq_top_op
      | |- keeps _ _ _ pq_pop => apply keeps_pq_pop
      | |- keeps _ _ _ (pq_push _ _) => apply keeps_pq_push
      | |- keeps _ _ _ (pq_update _ _) => apply keeps_pq_update
      | |- keeps _ _ _ (pq_erase _) => apply keeps_pq_erase
      | |- keeps _ _ _ (best_child_push _) => apply keeps_best_child_push
      | |- keeps _ _ _ (modify_ss (with_best_child [])) =>
          apply keeps_clear_best_child
      | |- keeps _ _ _ (modify_ss (with_expand_iteration _)) =>
          apply keeps_with_expand_iteration
      | |- keeps _ _ _ (modify_ss (with_max_t _)) => apply keeps_with_max_t
      | |- keeps _ _ _ (modify_ss _) => apply keeps_with_best_child
      | |- keeps _ _ _ (modify _ _) => apply keeps_modify
      | |- keeps _ _ _ (hm_set _ _) => apply keeps_hm_set
      | |- keeps _ _ _ (new_State _ _) => apply keeps_new_State
      | |- keeps _ _ _ (let _ := _ in _) => cbv zeta
      | |- keeps _ _ _ (if ?b then _ else _) => destruct b
      | |- keeps _ _ _ (match ?x with _ => _ end) => destruct x
      | |- keeps_at _ _ _ ?a _ (modify ?a _ ≫= _) =>
          apply (keeps_at_modify _ _ _ HNP); [| intros ?]
      | |- keeps_at _ _ _ _ _ (let _ := _ in _) => cbv zeta
      | |- keeps_at _ _ _ _ _ (if ?b then _ else _) => destruct b eqn:?
      | |- keeps_at _ _ _ _ _ _ => apply keeps_at_any
      | |- keeps _ _ _ _ => solve [auto 1 with keeps_db nocore]
      end ].

(** *** The relations used below *)

(** The hash map may change in any way, or not at all. *)
Definition any_hm : gmap Key addr -> gmap Key addr -> Prop := fun _ _ => True.
Definition same_hm : gmap Key addr -> gmap Key addr -> Prop := eq.

#[global] Instance any_hm_refl : Reflexive any_hm.
Proof. intros m. exact I. Qed.
#[global] Instance any_hm_trans : Transitive any_hm.
Proof. intros m1 m2 m3 _ _. exact I. Qed.
#[global] Instance same_hm_refl : Reflexive same_hm.
Proof. intros m. reflexivity. Qed.
#[global] Instance same_hm_trans : Transitive same_hm.
Proof. intros m1 m2 m3. unfold same_hm. congruence. Qed.

(** The g-value of an object is unchanged or strictly smaller. *)
Definition g_noninc (s s' : State) : Prop := noninc (g s') (g s).

#[global] Instance g_noninc_refl : Reflexive g_noninc.
Proof. intros s. apply noninc_refl. Qed.
#[global] Instance g_noninc_trans : Transitive g_noninc.
Proof. intros s1 s2 s3 H1 H2. eapply noninc_trans; eassumption. Qed.

(** An object made during the call: its g-value is the +inf of its
    creation, or below. *)
Definition g_from_inf (e : decimal) (s : State) : Prop := noninc (g s) PInf.

Lemma g_from_inf_noninc e s s' :
  g_from_inf e s -> g_noninc s s' -> g_from_inf e s'.
Proof. intros H1 H2. eapply noninc_trans; eassumption. Qed.

(** Nothing of an object changes; no object is made. *)
Definition no_new : decimal -> State -> Prop := fun _ _ => False.

Lemma no_new_eq e s s' : no_new e s -> s = s' -> no_new e s'.
Proof. intros []. Qed.

Lemma frame_eq_store ss ss' :
  frame eq same_hm no_new ss ss' ->
  store ss' = store ss /\ hm_ ss' = hm_ ss /\ eps_ ss' = eps_ ss.
Proof.
  intros (Hq & He & Hl & Hs & Hn). repeat split; [|symmetry; exact Hq|exact He].
  apply list_eq. intros a.
  destruct (store ss !! a) as [s|] eqn:E.
  - destruct (Hs a s E) as (s' & Hs' & <-). exact Hs'.
  - destruct (store ss' !! a) as [s'|] eqn:E'; [|reflexivity].
    apply lookup_ge_None in E. destruct (Hn a s' E E').
Qed.

(** ** The g-values during Astar *)

Ltac g_side :=
  first [ solve [intros; left; reflexivity]
        | solve [intros; exact I]
        | solve [right; assumption]
        | solve [right; reflexivity] ].

Ltac g_keeps := keeps_struct g_from_inf_noninc; try g_side.

Lemma astar_init_g ENV sc sk :
  keeps g_noninc any_hm g_from_inf (astar_init ENV sc sk).
Proof. unfold astar_init. g_keeps. Qed.
#[global] Hint Resolve astar_init_g : keeps_db.

Lemma astar_succ_g ENV curr sc sk cost act :
  keeps g_noninc any_hm g_from_inf (astar_succ ENV curr sc sk cost act).
Proof.
  unfold astar_succ, astar_child, make_child, record_pred, astar_relax.
  g_keeps.
Qed.
#[global] Hint Resolve astar_succ_g : keeps_db.

Lemma astar_process_g ENV curr succ s :
  keeps g_noninc any_hm g_from_inf (astar_process ENV curr succ s).
Proof. unfold astar_process. g_keeps. Qed.
#[global] Hint Resolve astar_process_g : keeps_db.

Lemma astar_expand_g ENV :
  keeps g_noninc any_hm g_from_inf (astar_expand ENV).
Proof. unfold astar_expand. g_keeps. Qed.
#[global] Hint Resolve astar_expand_g : keeps_db.

Lemma astar_checks_g ENV curr n max_expand max_t :
  keeps g_noninc any_hm g_from_inf (astar_checks ENV curr n max_expand max_t).
Proof. unfold astar_checks. g_keeps. Qed.
#[global] Hint Resolve astar_checks_g : keeps_db.

Lemma astar_loop_g ENV fuel n max_expand max_t :
  keeps g_noninc any_hm g_from_inf (astar_loop ENV fuel n max_expand max_t).
Proof.
  revert n. induction fuel as [| fuel IH]; intros n; simpl.
  - g_keeps.
  - g_keeps.
Qed.
#[global] Hint Resolve astar_loop_g : keeps_db.

(** *** recoverTraj writes [best_child_] only *)

Ltac same_keeps := keeps_struct no_new_eq.

Lemma scan_pred_same c i acc : keeps eq same_hm no_new (scan_pred c i acc).
Proof. unfold scan_pred. destruct acc as [[min_rhs min_g] min_id]. same_keeps. Qed.
#[global] Hint Resolve scan_pred_same : keeps_db.

Lemma scan_same c : keeps eq same_hm no_new (scan c).
Proof. unfold scan. same_keeps. Qed.
#[global] Hint Resolve scan_same : keeps_db.

Lemma recover_loop_same ENV fuel start_key curr prs :
  keeps eq same_hm no_new (recover_loop ENV fuel start_key curr prs).
Proof.
  revert curr prs. induction fuel as [| fuel IH]; intros curr prs; simpl.
  - same_keeps.
  - same_keeps.
Qed.
#[global] Hint Resolve recover_loop_same : keeps_db.

Lemma recoverTraj_same ENV fuel curr start_key :
  keeps eq same_hm no_new (recoverTraj ENV fuel curr start_key).
Proof. unfold recoverTraj. same_keeps. Qed.

Lemma recoverTraj_store ENV fuel curr start_key ss x ss' :
  recoverTraj ENV fuel curr start_key ss = Ok (x, ss') ->
  store ss' = store ss /\ hm_ ss' = hm_ ss /\ eps_ ss' = eps_ ss.
Proof. intros H. eapply frame_eq_store, recoverTraj_same, H. Qed.

Lemma recoverTraj_keeps P Q N `{!Reflexive P, !Reflexive Q} ENV fuel curr
    start_key :
  keeps P Q N (recoverTraj ENV fuel curr start_key).
Proof.
  intros ss x ss' H. apply recoverTraj_store in H as (Hs & Hh & He).
  now apply frame_same.
Qed.

Lemma recoverTraj_g ENV fuel curr start_key :
  keeps g_noninc any_hm g_from_inf (recoverTraj ENV fuel curr start_key).
Proof. apply recoverTraj_keeps; exact _. Qed.
#[global] Hint Resolve recoverTraj_g : keeps_db.

Lemma Astar_g ENV fuel start_coord start_key traj max_expand max_t :
  keeps g_noninc any_hm g_from_inf
        (Astar ENV fuel start_coord start_key traj max_expand max_t).
Proof. unfold Astar, astar_finish. g_keeps. Qed.

(** ** The start inside the goal region *)

Lemma Astar_at_goal ENV fuel start_coord start_key traj max_expand max_t ss :
  is_goal ENV start_coord = true ->
  Astar ENV fuel start_coord start_key traj max_expand max_t ss
  = Ok ((false, traj), ss).
Proof. intros H. unfold Astar. rewrite H. reflexivity. Qed.

Lemma LPAstar_at_goal ENV fuel start_coord start_key traj max_expand max_t ss :
  is_goal ENV start_coord = true ->
  LPAstar ENV fuel start_coord start_key traj max_expand max_t ss
  = Ok ((Fin 0, traj), ss).
Proof. intros H. unfold LPAstar. rewrite H. reflexivity. Qed.

(** C1.  A start that satisfies [is_goal]: Astar returns at once and leaves
    the workspace as it was (no expansion), but what it returns is [0],
    that is [false], and the caller's trajectory stays as it was passed,
    here one primitive long.  LPAstar, on the same input, returns the cost
    0, which is its success. *)
Theorem Astar_start_in_goal_returns_false :
  Astar line_env 10 (at_pos 2) 2 [mkPrimitive (at_pos 7) 3] (-1) (Fin 0) ss0
  = Ok ((false, [mkPrimitive (at_pos 7) 3]), ss0) /\
  LPAstar line_env 10 (at_pos 2) 2 [mkPrimitive (at_pos 7) 3] (-1) (Fin 0) ss0
  = Ok ((Fin 0, [mkPrimitive (at_pos 7) 3]), ss0).
Proof.
  split.
  - apply Astar_at_goal. reflexivity.
  - apply LPAstar_at_goal. reflexivity.
Qed.

(** ** LPAstar on a workspace whose queue is empty *)

(** The workspace a first call of LPAstar leaves, when the start has no
    successor and is no goal. *)
Definition warm : StateSpace :=
  after (LPAstar dead_end_env 5 (at_pos 0) 0 [] (-1) (Fin 0) ss0).

Lemma lpastar_cond_empty goal ss :
  pq_is_empty (pq_ ss) = true -> lpastar_cond goal ss = Fault EmptyQueue.
Proof.
  intros H. unfold lpastar_cond, mbind, Op_bind, pq_top_op, pq_top.
  unfold pq_is_empty in H.
  destruct (elems (pq_ ss)); [reflexivity | discriminate].
Qed.

(** C10.  A first call of LPAstar pops the start, finds the queue empty
    and returns +inf; the workspace it leaves has the start in the hash map
    and an empty queue.  A second call on that workspace makes no start
    node, and its loop condition reads [top()] of the empty queue. *)
Theorem LPAstar_top_of_empty_queue :
  LPAstar dead_end_env 5 (at_pos 0) 0 [] (-1) (Fin 0) ss0
  = Ok ((PInf, []), warm) /\
  hm_ warm !! 0 = Some 0%nat /\
  pq_is_empty (pq_ warm) = true /\
  forall fuel,
    LPAstar dead_end_env (S fuel) (at_pos 0) 0 [] (-1) (Fin 0) warm
    = Fault EmptyQueue.
Proof.
  split; [vm_compute; reflexivity |].
  split; [vm_compute; reflexivity |].
  split; [vm_compute; reflexivity |].
  intros fuel. vm_compute. reflexivity.
Qed.

Lemma lpastar_loop_empty ENV fuel start_key goal n max_expand max_t ss :
  pq_is_empty (pq_ ss) = true ->
  lpastar_loop ENV (S fuel) start_key goal n max_expand max_t ss
  = Fault EmptyQueue.
Proof.
  intros H. simpl. unfold mbind at 1, Op_bind.
  now rewrite lpastar_cond_empty.
Qed.

(** ** The candidate goal of LPAstar *)

(** C3.  In a round of the LPAstar loop, [u] is the node popped from the
    queue.  After its expansion the goal node of the following rounds is
    [u] when [is_goal(u.coord)] holds or [max_t > 0], each on its own, and
    the old goal node otherwise; with [max_t > 0] it is [u] whatever [u]
    is.  The round hands that goal node to the rest of the loop. *)
Theorem lpastar_candidate_goal ENV fuel start_key goal n max_expand max_t
    ss u ss1 goal' v ss2 :
  lpastar_expand ENV start_key ss = Ok (u, ss1) ->
  lpastar_checks ENV u goal (n + 1) max_expand max_t ss1
  = Ok ((goal', v), ss2) ->
  (exists e, pq_top (pq_ ss) = Some e /\ u = second e) /\
  (exists su,
     store ss1 !! u = Some su /\
     goal' = (if is_goal ENV (coord su) || ltb (Fin 0) max_t
              then u else goal)) /\
  (lt (Fin 0) max_t -> goal' = u) /\
  (lpastar_cond goal ss = Ok (true, ss) -> n < INT_MAX ->
   lpastar_loop ENV (S fuel) start_key goal n max_expand max_t ss
   = match v with
     | Continue =>
         lpastar_loop ENV fuel start_key goal' (n + 1) max_expand max_t ss2
     | _ => Ok ((goal', v, n + 1), ss2)
     end).
Proof.
  intros Hexp Hchk.
  assert (Hgoal : exists su,
     store ss1 !! u = Some su /\
     goal' = (if is_goal ENV (coord su) || ltb (Fin 0) max_t
              then u else goal)).
  { unfold lpastar_checks in Hchk. op_inv. eexists. split; [eassumption|].
    op_all; reflexivity. }
  split; [| split; [exact Hgoal | split]].
  - unfold lpastar_expand in Hexp. op_all; eauto.
  - intros Hlt. destruct Hgoal as (su & _ & ->).
    unfold lt in Hlt. rewrite Hlt, orb_true_r. reflexivity.
  - intros Hcond Hn. simpl.
    erewrite bind_eq by exact Hcond.
    destruct (INT_MAX <=? n) eqn:E; [lia|].
    erewrite bind_eq by exact Hexp.
    erewrite bind_eq by exact Hchk.
    destruct v; reflexivity.
Qed.

(** On [line_env], with the horizon [max_t = 3] set: the first round of
    LPAstar pops the start, which is no goal, and the checks make it the
    goal node of the search in place of the sentinel. *)
Lemma lpastar_candidate_goal_witness :
  lpastar_expand line_env 0 lpa_ss = Ok (0%nat, lpa_ss1) /\
  lpastar_checks line_env 0%nat 1%nat (0 + 1) (-1) (Fin 3) lpa_ss1
  = Ok ((0%nat, Continue), lpa_ss1) /\
  (exists su, store lpa_ss1 !! 0%nat = Some su /\
              is_goal line_env (coord su) = false) /\
  (lt (Fin 0) (Fin 3) -> 0%nat = 0%nat).
Proof.
  assert (H1 : lpastar_expand line_env 0 lpa_ss = Ok (0%nat, lpa_ss1))
    by (vm_compute; reflexivity).
  assert (H2 : lpastar_checks line_env 0%nat 1%nat (0 + 1) (-1) (Fin 3) lpa_ss1
               = Ok ((0%nat, Continue), lpa_ss1))
    by (vm_compute; reflexivity).
  split; [exact H1 | split; [exact H2 | split]].
  - eexists. split; vm_compute; reflexivity.
  - exact (proj1 (proj2 (proj2
      (lpastar_candidate_goal line_env 0 0 1%nat 0 (-1) (Fin 3)
         lpa_ss 0%nat lpa_ss1 0%nat Continue lpa_ss1 H1 H2)))).
Defined.

(** ** Predecessor edges *)

(** The three predecessor vectors of an object. *)
Definition pred_vectors (s : State) : list Key * list decimal * list Z :=
  (pred_hashkey s, pred_action_cost s, pred_action_id s).

(** The predecessor vectors of the object at [v]; of the node of key [k],
    empty when the key has no node. *)
Definition preds_at (ss : StateSpace) (v : addr)
  : list Key * list decimal * list Z :=
  match store ss !! v with
  | Some s => pred_vectors s
  | None => ([], [], [])
  end.

Definition preds_of (ss : StateSpace) (k : Key)
  : list Key * list decimal * list Z :=
  match hm_ ss !! k with
  | Some v => preds_at ss v
  | None => ([], [], [])
  end.

(** One more edge at the end of the three vectors. *)
Definition with_pred (p : list Key * list decimal * list Z) (k : Key)
    (cost : decimal) (act : Z) : list Key * list decimal * list Z :=
  let '(ks, costs, acts) := p in (ks ++ [k], costs ++ [cost], acts ++ [act]).

(** The key and the predecessor vectors of an object stay. *)
Definition same_preds (s s' : State) : Prop :=
  hashkey s' = hashkey s /\ pred_vectors s' = pred_vectors s.

#[global] Instance same_preds_refl : Reflexive same_preds.
Proof. intros s. split; reflexivity. Qed.
#[global] Instance same_preds_trans : Transitive same_preds.
Proof. intros s1 s2 s3 [H1 H2] [H3 H4]. split; congruence. Qed.

Lemma no_new_P {P : State -> State -> Prop} e s s' :
  no_new e s -> P s s' -> no_new e s'.
Proof. intros []. Qed.

Lemma frame_no_new P Q ss ss' a s' :
  frame P Q no_new ss ss' -> store ss' !! a = Some s' ->
  exists s, store ss !! a = Some s.
Proof.
  intros (_ & _ & _ & _ & Hn) Ha.
  destruct (store ss !! a) as [s|] eqn:E; [eauto|].
  apply lookup_ge_None in E. destruct (Hn a s' E Ha).
Qed.

Ltac p_side :=
  first [ solve [intros; split; reflexivity]
        | solve [intros; reflexivity]
        | solve [intros; exact I] ].

Ltac p_keeps := keeps_struct (@no_new_P same_preds); try p_side.

Lemma frame_preds_at Q N ss ss' a s :
  frame same_preds Q N ss ss' -> store ss !! a = Some s ->
  preds_at ss' a = preds_at ss a /\
  exists s', store ss' !! a = Some s' /\ hashkey s' = hashkey s.
Proof.
  intros (_ & _ & _ & Hs & _) Ha. destruct (Hs a s Ha) as (s' & Hs' & Hk & Hp).
  unfold preds_at. rewrite Ha, Hs'. split; [exact Hp | eauto].
Qed.

Lemma astar_relax_preds curr v cost :
  keeps same_preds same_hm no_new (astar_relax curr v cost).
Proof. unfold astar_relax. p_keeps. Qed.

Lemma calculateKey_preds a : keeps same_preds same_hm no_new (calculateKey a).
Proof. unfold calculateKey. p_keeps. Qed.
#[global] Hint Resolve calculateKey_preds : keeps_db.

Lemma rhs_pred_preds c i acc :
  keeps same_preds same_hm no_new (rhs_pred c i acc).
Proof. unfold rhs_pred. p_keeps. Qed.
#[global] Hint Resolve rhs_pred_preds : keeps_db.

Lemma updateNode_preds start_key a :
  keeps same_preds same_hm no_new (updateNode start_key a).
Proof. unfold updateNode. p_keeps. Qed.

Lemma lpastar_store_succ_preds curr succ s sk :
  keeps same_preds same_hm no_new (lpastar_store_succ curr succ s sk).
Proof. unfold lpastar_store_succ. p_keeps. Qed.

(** The operations on one successor, as equations. *)
Lemma make_child_eq ENV sk sc ss :
  make_child ENV sk sc ss
  = Ok (length (store ss),
        with_store (store ss ++ [set_h (heur_of ENV (eps_ ss) sc)
                                       (State_init sk sc)])
                   (with_hm (<[sk := length (store ss)]> (hm_ ss)) ss)).
Proof.
  unfold make_child, mbind, Op_bind, new_State, hm_set, modify_ss, gets, load,
    modify, mret, Op_ret. simpl.
  rewrite lookup_app_r by lia. rewrite Nat.sub_diag. simpl.
  rewrite lookup_app_r by lia. rewrite Nat.sub_diag. simpl.
  rewrite insert_app_r_alt by lia. rewrite Nat.sub_diag. reflexivity.
Qed.

Lemma astar_child_found ENV sc sk ss v :
  hm_ ss !! sk = Some v -> astar_child ENV sc sk ss = Ok (v, ss).
Proof.
  intros H. unfold astar_child, hm_at, gets, mbind, Op_bind. rewrite H.
  reflexivity.
Qed.

Lemma astar_child_new ENV sc sk ss :
  hm_ ss !! sk = None -> astar_child ENV sc sk ss = make_child ENV sk sc ss.
Proof.
  intros H. unfold astar_child, hm_at, gets, mbind, Op_bind. rewrite H.
  reflexivity.
Qed.

Lemma record_pred_eq curr v cost act ss cu sv :
  store ss !! curr = Some cu -> store ss !! v = Some sv ->
  record_pred curr v cost act ss
  = Ok (tt, with_store
              (<[v := push_pred_action_id act
                        (push_pred_action_cost cost
                           (push_pred_hashkey (hashkey cu) sv))]> (store ss))
              ss).
Proof.
  intros Hc Hv. pose proof (lookup_lt_Some _ _ _ Hv) as Hlt.
  unfold record_pred.
  erewrite bind_eq by (apply load_eq; exact Hc).
  erewrite bind_eq by (apply modify_eq; exact Hv).
  erewrite bind_eq
    by (apply modify_eq; simpl; apply list_lookup_insert_eq; exact Hlt).
  erewrite modify_eq
    by (simpl; apply list_lookup_insert_eq; rewrite length_insert; exact Hlt).
  simpl. rewrite !list_insert_insert_eq. reflexivity.
Qed.

Lemma record_pred_Ok curr v cost act ss x ss' :
  record_pred curr v cost act ss = Ok (x, ss') ->
  exists cu sv, store ss !! curr = Some cu /\ store ss !! v = Some sv.
Proof.
  unfold record_pred. intros H. op_inv.
  apply modify_Ok in Hm0 as (sv & Hsv & _). eauto.
Qed.

(** What [record_pred] does to the predecessor vectors. *)
Lemma record_pred_preds curr v cost act ss x ss' cu :
  record_pred curr v cost act ss = Ok (x, ss') ->
  store ss !! curr = Some cu ->
  hm_ ss' = hm_ ss /\
  preds_at ss' v = with_pred (preds_at ss v) (hashkey cu) cost act /\
  (forall a, a <> v -> store ss' !! a = store ss !! a) /\
  (forall a s, store ss !! a = Some s ->
               exists s', store ss' !! a = Some s' /\ hashkey s' = hashkey s).
Proof.
  intros H Hc. destruct (record_pred_Ok _ _ _ _ _ _ _ H) as (cu' & sv & Hc' & Hv).
  assert (cu' = cu) as -> by congruence.
  rewrite (record_pred_eq _ _ _ _ _ _ _ Hc Hv) in H. inversion H; subst; clear H.
  pose proof (lookup_lt_Some _ _ _ Hv) as Hlt.
  split; [reflexivity | split; [| split]].
  - unfold preds_at. simpl. rewrite list_lookup_insert_eq by exact Hlt.
    rewrite Hv. reflexivity.
  - intros a Ha. simpl. now rewrite list_lookup_insert_ne by congruence.
  - intros a s Ha. simpl. destruct (decide (v = a)) as [<- | Hne].
    + rewrite list_lookup_insert_eq by exact Hlt. eexists. split; [reflexivity|].
      simpl. congruence.
    + rewrite list_lookup_insert_ne by exact Hne. eauto.
Qed.

Lemma make_child_spec ENV sk sc ss v ss1 :
  hm_ ss !! sk = None ->
  make_child ENV sk sc ss = Ok (v, ss1) ->
  hm_ ss1 !! sk = Some v /\
  preds_at ss1 v = preds_of ss sk /\
  (forall a s, store ss !! a = Some s -> store ss1 !! a = Some s).
Proof.
  intros Hnone H. rewrite make_child_eq in H. inversion H; subst; clear H.
  simpl. split; [apply lookup_insert_eq | split].
  - unfold preds_at, preds_of. simpl. rewrite Hnone.
    rewrite lookup_app_r by lia. now rewrite Nat.sub_diag.
  - intros a s Ha. rewrite lookup_app_l; [exact Ha |].
    eapply lookup_lt_Some; exact Ha.
Qed.

Lemma astar_child_spec ENV sc sk ss v ss1 :
  astar_child ENV sc sk ss = Ok (v, ss1) ->
  hm_ ss1 !! sk = Some v /\
  preds_at ss1 v = preds_of ss sk /\
  (forall a s, store ss !! a = Some s -> store ss1 !! a = Some s).
Proof.
  intros H. destruct (hm_ ss !! sk) as [v0|] eqn:E.
  - rewrite (astar_child_found _ _ _ _ _ E) in H. inversion H; subst; clear H.
    split; [exact E | split; [| auto]].
    unfold preds_of. now rewrite E.
  - rewrite (astar_child_new _ _ _ _ E) in H.
    eapply make_child_spec; eassumption.
Qed.

Lemma lpastar_child_spec ENV succ s sk ss v ss1 :
  lpastar_child ENV succ s sk ss = Ok (v, ss1) ->
  hm_ ss1 !! sk = Some v /\
  preds_at ss1 v = preds_of ss sk /\
  (forall a s, store ss !! a = Some s -> store ss1 !! a = Some s).
Proof.
  intros H. unfold lpastar_child in H. op_inv.
  destruct (hm_ ss !! sk) as [v0|] eqn:E; op_inv.
  - split; [exact E | split; [| auto]].
    unfold preds_of. now rewrite E.
  - eapply make_child_spec; eassumption.
Qed.

(** Past the recording of the edge, the vectors of [v] stay. *)
Lemma preds_of_frame N ss ss' sk v s :
  frame same_preds same_hm N ss ss' ->
  hm_ ss !! sk = Some v -> store ss !! v = Some s ->
  preds_of ss' sk = preds_at ss v.
Proof.
  intros Hf Hk Hv. destruct (frame_preds_at _ _ _ _ _ _ Hf Hv) as [Hp _].
  destruct Hf as (Hq & _). unfold same_hm in Hq.
  unfold preds_of. rewrite <- Hq, Hk. exact Hp.
Qed.

Lemma find_pred_no k l i : 0 <= i -> (find_pred k l i = -1 <-> k ∉ l).
Proof.
  revert i. induction l as [| x l IH]; intros i Hi; simpl.
  - split; [intros _; apply not_elem_of_nil | reflexivity].
  - destruct (x =? k) eqn:E.
    + apply Z.eqb_eq in E as ->. split; [lia |].
      intros Hn. exfalso. apply Hn. left.
    + apply Z.eqb_neq in E. rewrite IH by lia. rewrite not_elem_of_cons.
      split; [intros H; split; [congruence | exact H] | intros [_ H]; exact H].
Qed.

Lemma astar_succ_preds ENV curr sc sk cost act ss x ss' cu :
  astar_succ ENV curr sc sk cost act ss = Ok (x, ss') ->
  store ss !! curr = Some cu ->
  preds_of ss' sk = with_pred (preds_of ss sk) (hashkey cu) cost act.
Proof.
  intros H Hc. unfold astar_succ in H. op_inv.
  lazymatch goal with
  | H1 : astar_child _ _ _ _ = Ok (?v, _),
    H2 : record_pred _ _ _ _ _ = Ok _,
    H3 : astar_relax _ _ _ _ = Ok _ |- _ =>
      rename H1 into Hchild, H2 into Hrec, H3 into Hrelax, v into v
  end.
  destruct (astar_child_spec _ _ _ _ _ _ Hchild) as (Hhm & Hp & Hold).
  pose proof (Hold _ _ Hc) as Hc1.
  destruct (record_pred_Ok _ _ _ _ _ _ _ Hrec) as (cu' & sv & _ & Hv).
  destruct (record_pred_preds _ _ _ _ _ _ _ _ Hrec Hc1)
    as (Hhm2 & Hp2 & _ & Hk2).
  destruct (Hk2 _ _ Hv) as (sv2 & Hv2 & _).
  pose proof (astar_relax_preds _ _ _ _ _ _ Hrelax) as Hf.
  assert (Hk : hm_ ss2 !! sk = Some x0) by now rewrite Hhm2.
  rewrite (preds_of_frame _ _ _ _ _ _ Hf Hk Hv2). now rewrite Hp2, Hp.
Qed.

Lemma lpastar_record_pred_preds curr v succ s ss x ss' cu :
  lpastar_record_pred curr v succ s ss = Ok (x, ss') ->
  store ss !! curr = Some cu ->
  hm_ ss' = hm_ ss /\
  (exists sv, store ss !! v = Some sv) /\
  (exists sv', store ss' !! v = Some sv') /\
  (hashkey cu ∈ (preds_at ss v).1.1 -> preds_at ss' v = preds_at ss v) /\
  (hashkey cu ∉ (preds_at ss v).1.1 ->
   exists cost act,
     sc_cost succ !! s = Some cost /\ sc_act_id succ !! s = Some act /\
     preds_at ss' v = with_pred (preds_at ss v) (hashkey cu) cost act).
Proof.
  intros H Hc. unfold lpastar_record_pred in H.
  apply bind_Ok in H as (sv & ss1 & Hsv & H).
  apply load_Ok in Hsv as [Hsv ->].
  apply bind_Ok in H as (cu' & ss1 & Hcu & H).
  apply load_Ok in Hcu as [Hcu ->].
  assert (cu' = cu) as -> by congruence.
  assert (Hpa : (preds_at ss v).1.1 = pred_hashkey sv)
    by (unfold preds_at; rewrite Hsv; reflexivity).
  rewrite Hpa.
  destruct (find_pred (hashkey cu) (pred_hashkey sv) 0 =? -1) eqn:E.
  - apply Z.eqb_eq in E. apply (find_pred_no _ _ 0) in E; [|lia].
    apply bind_Ok in H as (cost & ss1 & Hcost & H).
    apply index_Ok in Hcost as [Hcost ->].
    apply bind_Ok in H as (act & ss1 & Hact & H).
    apply index_Ok in Hact as [Hact ->].
    destruct (record_pred_preds _ _ _ _ _ _ _ _ H Hc) as (Hhm & Hp & _ & Hk2).
    destruct (Hk2 _ _ Hsv) as (sv' & Hv' & _).
    split; [exact Hhm | split; [eauto | split; [eauto | split]]].
    + intros Hin. contradiction.
    + intros _. exists cost, act. auto.
  - apply Z.eqb_neq in E. apply ret_Ok in H as [_ ->].
    split; [reflexivity | split; [eauto | split; [eauto | split]]].
    + reflexivity.
    + intros Hn. apply (find_pred_no _ _ 0) in Hn; [contradiction | lia].
Qed.


Lemma lpastar_process_preds ENV start_key curr explored succ s ss x ss' cu sk :
  lpastar_process ENV start_key curr explored succ s ss = Ok (x, ss') ->
  store ss !! curr = Some cu ->
  sc_key succ !! s = Some sk ->
  (exists v sv, hm_ ss' !! sk = Some v /\ store ss' !! v = Some sv) /\
  (hashkey cu ∈ (preds_of ss sk).1.1 -> preds_of ss' sk = preds_of ss sk) /\
  (hashkey cu ∉ (preds_of ss sk).1.1 ->
   exists cost act,
     sc_cost succ !! s = Some cost /\ sc_act_id succ !! s = Some act /\
     preds_of ss' sk = with_pred (preds_of ss sk) (hashkey cu) cost act).
Proof.
  intros H Hc Hsk. unfold lpastar_process in H.
  apply bind_Ok in H as (sk' & ss1 & Hix & H).
  apply index_Ok in Hix as [Hix ->].
  assert (sk' = sk) as -> by congruence.
  apply bind_Ok in H as (v & ss1 & Hchild & H).
  apply bind_Ok in H as (u1 & ss2 & Hstore & H).
  apply bind_Ok in H as (u2 & ss3 & Hrec & Hupd).
  destruct (lpastar_child_spec _ _ _ _ _ _ _ Hchild) as (Hhm & Hp & Hold).
  pose proof (Hold _ _ Hc) as Hc1.
  assert (Hf : frame same_preds same_hm no_new ss1 ss2).
  { destruct explored.
    - eapply lpastar_store_succ_preds; eassumption.
    - apply ret_Ok in Hstore as [_ ->]. apply frame_refl; exact _. }
  destruct (frame_preds_at _ _ _ _ _ _ Hf Hc1) as (_ & cu2 & Hc2 & Hkey).
  destruct (lpastar_record_pred_preds _ _ _ _ _ _ _ _ Hrec Hc2)
    as (Hhm3 & (sv2 & Hv2) & (sv3 & Hv3) & Hin & Hnotin).
  assert (Hhm2 : hm_ ss2 = hm_ ss1) by (symmetry; apply Hf).
  destruct (frame_no_new _ _ _ _ _ _ Hf Hv2) as (sv1 & Hv1).
  assert (Hp2 : preds_at ss2 v = preds_of ss sk).
  { rewrite <- Hp. apply (frame_preds_at _ _ _ _ _ _ Hf Hv1). }
  rewrite Hkey in Hin, Hnotin. rewrite Hp2 in Hin, Hnotin.
  pose proof (updateNode_preds _ _ _ _ _ Hupd) as Hf3.
  assert (Hk3 : hm_ ss3 !! sk = Some v) by now rewrite Hhm3, Hhm2.
  rewrite (preds_of_frame _ _ _ _ _ _ Hf3 Hk3 Hv3).
  split; [| split; [exact Hin | exact Hnotin]].
  destruct (frame_preds_at _ _ _ _ _ _ Hf3 Hv3) as (_ & sv' & Hv' & _).
  exists v, sv'. split; [| exact Hv'].
  destruct Hf3 as (Hq & _). unfold same_hm in Hq. now rewrite <- Hq.
Qed.

(** ** Edges of infinite cost *)

(** C2, as stated, fails for LPAstar.  On [blocked_env] the only edge,
    0 -> 1, has the cost +inf.  LPAstar from position 0 makes a node for
    position 1 all the same and records the edge among its predecessors. *)
Lemma LPAstar_keeps_blocked_edge :
  exists ss',
    LPAstar blocked_env 5 (at_pos 0) 0 [] (-1) (Fin 0) ss0
    = Ok ((PInf, []), ss') /\
    sc_cost (get_succ blocked_env (at_pos 0)) = [PInf] /\
    hm_ ss0 !! 1 = None /\
    exists v sv,
      hm_ ss' !! 1 = Some v /\ store ss' !! v = Some sv /\
      pred_vectors sv = ([0], [PInf], [10]).
Proof.
  eexists. split; [vm_compute; reflexivity |].
  split; [reflexivity | split; [reflexivity |]].
  exists 2%nat. eexists. split; [vm_compute; reflexivity |].
  split; vm_compute; reflexivity.
Qed.

(** C2, amended.  A round of successor processing on an edge of infinite
    cost.  In Astar it leaves the workspace as it is: no node, no
    predecessor edge, no queue entry.  In LPAstar the edge is not skipped:
    after the round the key of the successor has a node, and the edge is
    among its predecessors, appended by the round unless the key of the
    expanded node was there already. *)
Theorem infinite_cost_edges ENV curr succ s ss cost :
  sc_cost succ !! s = Some cost ->
  isinf cost = true ->
  astar_process ENV curr succ s ss = Ok (tt, ss) /\
  (forall start_key explored ss' cu sk,
     lpastar_process ENV start_key curr explored succ s ss = Ok (tt, ss') ->
     store ss !! curr = Some cu ->
     sc_key succ !! s = Some sk ->
     (exists v sv, hm_ ss' !! sk = Some v /\ store ss' !! v = Some sv) /\
     (hashkey cu ∈ (preds_of ss sk).1.1 -> preds_of ss' sk = preds_of ss sk) /\
     (hashkey cu ∉ (preds_of ss sk).1.1 ->
      exists act,
        sc_act_id succ !! s = Some act /\
        preds_of ss' sk = with_pred (preds_of ss sk) (hashkey cu) cost act)).
Proof.
  intros Hcost Hinf. split.
  - unfold astar_process. erewrite bind_eq by (apply index_eq; exact Hcost).
    rewrite Hinf. reflexivity.
  - intros start_key explored ss' cu sk H Hc Hsk.
    destruct (lpastar_process_preds _ _ _ _ _ _ _ _ _ _ _ H Hc Hsk)
      as (Hnode & Hin & Hnotin).
    split; [exact Hnode | split; [exact Hin |]].
    intros Hn. destruct (Hnotin Hn) as (cost' & act & Hcost' & Hact & Hp).
    assert (cost' = cost) as -> by congruence. eauto.
Qed.

(** On [blocked_env], whose only edge costs +inf: Astar leaves the
    workspace as it was, LPAstar records the edge at the child. *)
Lemma infinite_cost_edges_witness :
  astar_process blocked_env 0%nat blocked_succ 0%nat blocked_ss
  = Ok (tt, blocked_ss) /\
  preds_of blocked_lpa_ss 1 = ([], [], []) /\
  preds_of blocked_lpa_ss1 1 = ([0], [PInf], [10]).
Proof.
  assert (Hcost : sc_cost blocked_succ !! 0%nat = Some PInf) by reflexivity.
  pose proof (infinite_cost_edges blocked_env 0%nat blocked_succ 0%nat
                blocked_ss PInf Hcost eq_refl) as [HA _].
  pose proof (infinite_cost_edges blocked_env 0%nat blocked_succ 0%nat
                blocked_lpa_ss PInf Hcost eq_refl) as [_ HL].
  assert (Hc : exists cu, store blocked_lpa_ss !! 0%nat = Some cu /\
                          hashkey cu = 0)
    by (eexists; split; vm_compute; reflexivity).
  destruct Hc as (cu & Hc & Hk).
  assert (F0 : preds_of blocked_lpa_ss 1 = ([], [], []))
    by (vm_compute; reflexivity).
  split; [exact HA | split; [exact F0 |]].
  destruct (HL 0 false blocked_lpa_ss1 cu 1 ltac:(vm_compute; reflexivity)
               Hc eq_refl) as (_ & _ & Hnotin).
  destruct Hnotin as (act & Hact & ->).
  - rewrite F0. apply not_elem_of_nil.
  - rewrite F0, Hk. vm_compute in Hact. injection Hact as <-. reflexivity.
Defined.

(** ** Where Astar writes a g-value *)

Definition same_g (s s' : State) : Prop := g s' = g s.

#[global] Instance same_g_refl : Reflexive same_g.
Proof. intros s. reflexivity. Qed.
#[global] Instance same_g_trans : Transitive same_g.
Proof. intros s1 s2 s3. unfold same_g. congruence. Qed.

Ltac sg_keeps := keeps_struct (@no_new_P same_g); try p_side.

(** The g-value of the object at [a]. *)
Definition g_at (ss : StateSpace) (a : nat) : option decimal :=
  g <$> store ss !! a.

Lemma frame_same_g Q ss ss' a :
  frame same_g Q no_new ss ss' -> g_at ss' a = g_at ss a.
Proof.
  intros Hf. unfold g_at. destruct (store ss !! a) as [s|] eqn:E.
  - destruct Hf as (_ & _ & _ & Hs & _).
    destruct (Hs a s E) as (s' & -> & Hg). simpl. now rewrite Hg.
  - destruct (store ss' !! a) as [s'|] eqn:E'; [|reflexivity].
    destruct (frame_no_new _ _ _ _ _ _ Hf E') as (s & Hs). congruence.
Qed.

(** The attempt to improve a successor: the g-value of [v] becomes the
    tentative value when that is strictly below it, and stays otherwise;
    no other g-value changes. *)
Lemma astar_relax_g curr v cost ss x ss' cu sv :
  astar_relax curr v cost ss = Ok (x, ss') ->
  store ss !! curr = Some cu ->
  store ss !! v = Some sv ->
  g_at ss' v = Some (if ltb (add (g cu) cost) (g sv)
                     then add (g cu) cost else g sv) /\
  (forall a, a <> v -> g_at ss' a = g_at ss a).
Proof.
  intros H Hc Hv. unfold astar_relax in H.
  apply bind_Ok in H as (cu' & ss1 & Hcu & H).
  apply load_Ok in Hcu as [Hcu ->].
  assert (cu' = cu) as -> by congruence. cbv zeta in H.
  apply bind_Ok in H as (sv' & ss1 & Hsv & H).
  apply load_Ok in Hsv as [Hsv ->].
  assert (sv' = sv) as -> by congruence.
  destruct (ltb (add (g cu) cost) (g sv)) eqn:E.
  - apply bind_Ok in H as (u & ss1 & Hmod & H).
    apply modify_Ok in Hmod as (sv' & Hsv' & ->).
    assert (sv' = sv) as -> by congruence.
    assert (Hf : frame same_g same_hm no_new
                   (with_store (<[v := set_g (add (g cu) cost) sv]> (store ss)) ss)
                   ss').
    { revert H. generalize (with_store
        (<[v := set_g (add (g cu) cost) sv]> (store ss)) ss).
      intros ss1 H.
      lazymatch type of H with
      | ?m ss1 = Ok _ =>
          assert (Hk : keeps same_g same_hm no_new m) by sg_keeps
      end.
      eapply Hk, H. }
    pose proof (lookup_lt_Some _ _ _ Hv) as Hlt.
    split.
    + rewrite (frame_same_g _ _ _ v Hf). unfold g_at. simpl.
      now rewrite list_lookup_insert_eq by exact Hlt.
    + intros a Ha. rewrite (frame_same_g _ _ _ a Hf). unfold g_at. simpl.
      now rewrite list_lookup_insert_ne by congruence.
  - apply ret_Ok in H as [_ ->]. split; [|reflexivity].
    unfold g_at. now rewrite Hv.
Qed.

(** The start node Astar makes when the queue is empty: a new object,
    with the g-value 0, under the start key. *)
Lemma astar_init_g0 ENV start_coord start_key ss x ss' :
  astar_init ENV start_coord start_key ss = Ok (x, ss') ->
  pq_is_empty (pq_ ss) = true ->
  hm_ ss' !! start_key = Some (length (store ss)) /\
  g_at ss' (length (store ss)) = Some (Fin 0) /\
  (forall a, a <> length (store ss) -> g_at ss' a = g_at ss a).
Proof.
  intros H Hq. unfold astar_init in H.
  apply bind_Ok in H as (emp & ss1 & He & H).
  apply gets_Ok in He as [-> ->]. rewrite Hq in H.
  apply bind_Ok in H as (a & ss1 & Hnew & H).
  apply new_State_Ok in Hnew as [-> ->].
  apply bind_Ok in H as (u & ss1 & Hmod & H).
  apply modify_Ok in Hmod as (s0 & Hs0 & ->). simpl in Hs0.
  rewrite lookup_app_r in Hs0 by lia. rewrite Nat.sub_diag in Hs0.
  injection Hs0 as <-.
  lazymatch type of H with
  | ?m ?s = Ok _ =>
      assert (Hk : keeps same_g any_hm no_new m) by sg_keeps;
      pose proof (Hk _ _ _ H) as Hf;
      assert (Hg1 : forall a, g_at s a
                = if decide (a = length (store ss)) then Some (Fin 0)
                  else g_at ss a)
  end.
  { intros a. unfold g_at. simpl.
    rewrite insert_app_r_alt by lia. rewrite Nat.sub_diag. simpl.
    case_decide as Ha.
    - subst a. rewrite lookup_app_r by lia. now rewrite Nat.sub_diag.
    - destruct (decide (a < length (store ss))%nat).
      + now rewrite lookup_app_l by lia.
      + rewrite lookup_app_r by lia.
        rewrite (proj2 (lookup_ge_None (store ss) a)) by lia.
        destruct (a - length (store ss))%nat as [|m] eqn:En; [lia|].
        reflexivity. }
  split; [| split].
  - clear Hk Hf Hg1. op_inv. simpl. apply lookup_insert_eq.
  - rewrite (frame_same_g _ _ _ _ Hf), Hg1. now rewrite decide_True.
  - intros a Ha. rewrite (frame_same_g _ _ _ _ Hf), Hg1.
    now rewrite decide_False.
Qed.

(** C9.  The g-values during one call of Astar.  From the workspace the
    call is given to the one it leaves, and likewise over each single round
    of successor processing, every object keeps its g-value or takes a
    strictly smaller one, and every object made in between has the +inf of
    its creation or less.  The writes are these: the attempt to improve a
    successor [v] from the expanded node [cu] writes [cu.g + cost] into
    [v.g] when that is strictly below [v.g], and nothing otherwise; the
    start node, made when the queue is empty, is a new object and gets 0. *)
Theorem Astar_g_monotone ENV :
  (forall fuel start_coord start_key traj max_expand max_t ss r ss',
     Astar ENV fuel start_coord start_key traj max_expand max_t ss
     = Ok (r, ss') ->
     (forall a s, store ss !! a = Some s ->
        exists s', store ss' !! a = Some s' /\ noninc (g s') (g s)) /\
     (forall a s', (length (store ss) <= a)%nat ->
        store ss' !! a = Some s' -> noninc (g s') PInf)) /\
  (forall curr succ s ss ss',
     astar_process ENV curr succ s ss = Ok (tt, ss') ->
     (forall a s, store ss !! a = Some s ->
        exists s', store ss' !! a = Some s' /\ noninc (g s') (g s)) /\
     (forall a s', (length (store ss) <= a)%nat ->
        store ss' !! a = Some s' -> noninc (g s') PInf)) /\
  (forall curr v cost ss ss' cu sv,
     astar_relax curr v cost ss = Ok (tt, ss') ->
     store ss !! curr = Some cu ->
     store ss !! v = Some sv ->
     g_at ss' v = Some (if ltb (add (g cu) cost) (g sv)
                        then add (g cu) cost else g sv) /\
     (forall a, a <> v -> g_at ss' a = g_at ss a)) /\
  (forall start_coord start_key ss ss',
     astar_init ENV start_coord start_key ss = Ok (tt, ss') ->
     pq_is_empty (pq_ ss) = true ->
     hm_ ss' !! start_key = Some (length (store ss)) /\
     g_at ss' (length (store ss)) = Some (Fin 0) /\
     (forall a, a <> length (store ss) -> g_at ss' a = g_at ss a)).
Proof.
  split; [| split; [| split]].
  - intros fuel start_coord start_key traj max_expand max_t ss r ss' H.
    apply Astar_g in H. destruct H as (_ & _ & _ & Hold & Hnew).
    split; [exact Hold | exact Hnew].
  - intros curr succ s ss ss' H.
    apply astar_process_g in H. destruct H as (_ & _ & _ & Hold & Hnew).
    split; [exact Hold | exact Hnew].
  - intros curr v cost ss ss' cu sv H Hc Hv.
    eapply astar_relax_g; eassumption.
  - intros start_coord start_key ss ss' H Hq.
    eapply astar_init_g0; eassumption.
Qed.

(** On [line_env]: a whole call of Astar from a workspace that holds the
    start already. *)
Lemma Astar_g_monotone_witness :
  exists ss',
    Astar line_env 10 (at_pos 0) 0 [] (-1) (Fin 0) late_ss
    = Ok ((true, [mkPrimitive (mkCoord 0 (Fin 5)) 10;
                  mkPrimitive (mkCoord 1 (Fin 6)) 11]), ss') /\
    (forall a s, store late_ss !! a = Some s ->
       exists s', store ss' !! a = Some s' /\ noninc (g s') (g s)) /\
    (forall a s', (length (store late_ss) <= a)%nat ->
       store ss' !! a = Some s' -> noninc (g s') PInf).
Proof.
  eexists. split; [vm_compute; reflexivity |].
  apply (proj1 (Astar_g_monotone line_env) 10%nat (at_pos 0) 0 [] (-1) (Fin 0)
               late_ss (true, [mkPrimitive (mkCoord 0 (Fin 5)) 10;
                               mkPrimitive (mkCoord 1 (Fin 6)) 11])).
  vm_compute; reflexivity.
Defined.

(** ** The cap on expansions *)

(** The verdicts that end a search without failure. *)
Definition reached (v : verdict) : Prop :=
  v = GoalReached \/ v = MaxTimeReached.

Lemma astar_checks_cap ENV curr n max_expand max_t ss v ss' :
  astar_checks ENV curr n max_expand max_t ss = Ok (v, ss') ->
  v <> Converged /\
  (v = MaxExpandReached -> 0 < max_expand <= n) /\
  (0 < max_expand <= n -> reached v \/ v = MaxExpandReached).
Proof.
  unfold astar_checks, reached. intros H. op_inv.
  destruct (is_goal ENV (coord _)); op_inv;
    [split; [discriminate | split; [discriminate | auto]] |].
  destruct (ltb (Fin 0) max_t && _ && _); op_inv;
    [split; [discriminate | split; [discriminate | auto]] |].
  destruct ((0 <? max_expand) && (max_expand <=? n)) eqn:E; op_inv.
  - apply andb_true_iff in E as [E1 E2].
    apply Z.ltb_lt in E1. apply Z.leb_le in E2.
    split; [discriminate | split; [lia | auto]].
  - assert (~ (0 < max_expand <= n)).
    { intros [H1 H2]. apply Z.ltb_lt in H1. apply Z.leb_le in H2.
      rewrite H1, H2 in E. discriminate. }
    destruct (pq_is_empty _); op_inv;
      (split; [discriminate | split; [discriminate | contradiction]]).
Qed.

Lemma astar_loop_cap ENV fuel n max_expand max_t ss u v n' ss' :
  astar_loop ENV fuel n max_expand max_t ss = Ok ((u, v, n'), ss') ->
  n < n' /\
  v <> Continue /\ v <> Converged /\
  (v = MaxExpandReached -> 0 < max_expand <= n') /\
  (0 < max_expand -> n < max_expand ->
   n' <= max_expand /\
   (n' = max_expand -> reached v \/ v = MaxExpandReached)).
Proof.
  revert n ss. induction fuel as [| fuel IH]; intros n ss H; simpl in H;
    [discriminate |].
  destruct (INT_MAX <=? n); [discriminate |]. op_inv.
  lazymatch goal with
  | Hc : astar_checks _ _ _ _ _ _ = Ok (?w, _) |- _ =>
      destruct (astar_checks_cap _ _ _ _ _ _ _ _ Hc) as (Hnc & Hcap & Hat);
      destruct (decide (w = Continue)) as [-> | Hne]
  end.
  - apply IH in Hk0 as (Hlt & Hv1 & Hv2 & Hv3 & Hv4).
    split; [lia | split; [exact Hv1 | split; [exact Hv2 | split; [exact Hv3 |]]]].
    intros Hpos Hn.
    assert (n + 1 < max_expand).
    { destruct (decide (n + 1 < max_expand)) as [|Hge]; [assumption |].
      destruct Hat as [[Hr | Hr] | Hr]; [lia | discriminate.. ]. }
    apply Hv4; assumption.
  - assert (Heq : v = x0 /\ n' = n + 1).
    { destruct x0; op_inv; try congruence; auto. }
    destruct Heq as (-> & ->).
    split; [lia | split; [exact Hne | split; [exact Hnc | split; [exact Hcap |]]]].
    intros Hpos Hn. split; [lia |]. intros Heq. apply Hat. lia.
Qed.

Lemma lpastar_checks_cap ENV curr goal n max_expand max_t ss goal' v ss' :
  lpastar_checks ENV curr goal n max_expand max_t ss = Ok ((goal', v), ss') ->
  v <> Converged /\
  (v = MaxExpandReached -> 0 < max_expand <= n) /\
  (0 < max_expand <= n -> v = MaxExpandReached).
Proof.
  unfold lpastar_checks. intros H. op_inv.
  destruct ((0 <? max_expand) && (max_expand <=? n)) eqn:E; op_inv.
  - apply andb_true_iff in E as [E1 E2].
    apply Z.ltb_lt in E1. apply Z.leb_le in E2.
    split; [discriminate | split; [lia | auto]].
  - assert (~ (0 < max_expand <= n)).
    { intros [H1 H2]. apply Z.ltb_lt in H1. apply Z.leb_le in H2.
      rewrite H1, H2 in E. discriminate. }
    destruct (pq_is_empty _); op_inv;
      (split; [discriminate | split; [discriminate | contradiction]]).
Qed.

Lemma lpastar_loop_cap ENV fuel start_key goal n max_expand max_t ss goal' v
    n' ss' :
  lpastar_loop ENV fuel start_key goal n max_expand max_t ss
  = Ok ((goal', v, n'), ss') ->
  n <= n' /\
  v <> Continue /\
  (v = MaxExpandReached -> 0 < max_expand <= n') /\
  (0 < max_expand -> n < max_expand ->
   n' <= max_expand /\ (n' = max_expand -> v = MaxExpandReached)).
Proof.
  revert n goal ss. induction fuel as [| fuel IH]; intros n goal ss H;
    simpl in H; [discriminate |].
  apply bind_Ok in H as (c & ss1 & Hc & H). destruct c.
  - destruct (INT_MAX <=? n); [discriminate |].
    apply bind_Ok in H as (curr & ss2 & Hexp & H).
    apply bind_Ok in H as ([goal1 w] & ss3 & Hchk & H).
    destruct (lpastar_checks_cap _ _ _ _ _ _ _ _ _ _ Hchk) as (Hnc & Hcap & Hat).
    destruct (decide (w = Continue)) as [-> | Hne].
    + apply IH in H as (Hle & Hv1 & Hv2 & Hv3).
      split; [lia | split; [exact Hv1 | split; [exact Hv2 |]]].
      intros Hpos Hn.
      assert (n + 1 < max_expand).
      { destruct (decide (n + 1 < max_expand)) as [|Hge]; [assumption |].
        assert (Continue = MaxExpandReached) by (apply Hat; lia).
        discriminate. }
      apply Hv3; assumption.
    + assert (Heq : v = w /\ n' = n + 1).
      { destruct w; op_inv; try congruence; auto. }
      destruct Heq as (-> & ->).
      split; [lia | split; [exact Hne | split; [exact Hcap |]]].
      intros Hpos Hn. split; [lia |]. intros Heq. apply Hat. lia.
  - apply ret_Ok in H as [H _]. inversion H; subst; clear H.
    split; [lia | split; [discriminate | split; [discriminate |]]].
    intros Hpos Hn. split; lia.
Qed.

(** An operation that takes no fuel never runs out of it. *)
Definition fuel_free {A} (m : Op A) : Prop := forall ss, m ss <> OutOfFuel.

Lemma fuel_free_bind {A B} (m : Op A) (f : A -> Op B) :
  fuel_free m -> (forall a, fuel_free (f a)) -> fuel_free (m ≫= f).
Proof.
  intros Hm Hf ss. unfold mbind, Op_bind.
  destruct (m ss) as [[a ss1] | e |] eqn:E;
    [apply Hf | discriminate | elim (Hm ss E)].
Qed.

Lemma fuel_free_ret {A} (a : A) : fuel_free (mret a).
Proof. intros ss. discriminate. Qed.

Lemma fuel_free_for_each l body :
  (forall s, fuel_free (body s)) -> fuel_free (for_each l body).
Proof.
  intros Hb. induction l as [| s l IH]; simpl.
  - apply fuel_free_ret.
  - apply fuel_free_bind; [apply Hb | intros _; exact IH].
Qed.

Lemma fuel_free_fold_each {A} l (body : nat -> A -> Op A) acc :
  (forall s x, fuel_free (body s x)) -> fuel_free (fold_each l body acc).
Proof.
  intros Hb. revert acc. induction l as [| s l IH]; intros acc; simpl.
  - apply fuel_free_ret.
  - apply fuel_free_bind; [apply Hb | intros x; apply IH].
Qed.

(** The operations without a loop of their own. *)
Ltac fuel_free_prim :=
  let ss := fresh "ss" in
  intros ss;
  unfold gets, modify_ss, load, modify, new_State, nonnull, hm_at, hm_set,
    index, assign, pq_empty, pq_top_op, pq_pop, pq_push, pq_update, pq_erase,
    raise, mret, Op_ret;
  repeat match goal with
         | |- context [match ?x with _ => _ end] => destruct x
         end;
  discriminate.

Create HintDb fuel_db.

Ltac fuel_free_struct :=
  repeat first
    [ lazymatch goal with
      | |- fuel_free (_ ≫= _) => apply fuel_free_bind; [| intros ?]
      | |- fuel_free (mret _) => apply fuel_free_ret
      | |- fuel_free (for_each _ _) => apply fuel_free_for_each; intros ?
      | |- fuel_free (fold_each _ _ _) =>
          apply fuel_free_fold_each; intros ? ?
      | |- fuel_free (let _ := _ in _) => cbv zeta
      | |- fuel_free (if ?b then _ else _) => destruct b
      | |- fuel_free (match ?x with _ => _ end) => destruct x
      | |- fuel_free _ =>
          first [ solve [auto 1 with fuel_db nocore] | solve [fuel_free_prim] ]
      end ].

Lemma astar_expand_fuel_free ENV : fuel_free (astar_expand ENV).
Proof.
  unfold astar_expand, astar_process, astar_succ, astar_child, make_child,
    record_pred, astar_relax.
  fuel_free_struct.
Qed.

Lemma astar_checks_fuel_free ENV curr n max_expand max_t :
  fuel_free (astar_checks ENV curr n max_expand max_t).
Proof. unfold astar_checks. fuel_free_struct. Qed.

Lemma updateNode_fuel_free start_key a : fuel_free (updateNode start_key a).
Proof. unfold updateNode, rhs_pred, calculateKey. fuel_free_struct. Qed.
#[global] Hint Resolve updateNode_fuel_free : fuel_db.

Lemma lpastar_expand_fuel_free ENV start_key :
  fuel_free (lpastar_expand ENV start_key).
Proof.
  unfold lpastar_expand, lpastar_process, lpastar_child, make_child,
    lpastar_store_succ, lpastar_record_pred, record_pred.
  fuel_free_struct.
Qed.

Lemma lpastar_checks_fuel_free ENV curr goal n max_expand max_t :
  fuel_free (lpastar_checks ENV curr goal n max_expand max_t).
Proof. unfold lpastar_checks. fuel_free_struct. Qed.

Lemma lpastar_cond_fuel_free goal : fuel_free (lpastar_cond goal).
Proof. unfold lpastar_cond, calculateKey. fuel_free_struct. Qed.

(** With the cap set, as many units of fuel as expansions are left to the
    cap let the loop end. *)
Lemma astar_loop_fuel ENV fuel n max_expand max_t ss :
  0 < max_expand -> n < max_expand ->
  (Z.to_nat (max_expand - n) <= fuel)%nat ->
  astar_loop ENV fuel n max_expand max_t ss <> OutOfFuel.
Proof.
  intros Hpos. revert n ss.
  induction fuel as [| fuel IH]; intros n ss Hn Hfuel; [lia |]. simpl.
  destruct (INT_MAX <=? n); [discriminate |].
  unfold mbind at 1, Op_bind.
  destruct (astar_expand ENV ss) as [[curr ss1] | e |] eqn:E1;
    [| discriminate | elim (astar_expand_fuel_free ENV ss E1)].
  unfold mbind at 1, Op_bind.
  destruct (astar_checks ENV curr (n + 1) max_expand max_t ss1)
    as [[v ss2] | e |] eqn:E2;
    [| discriminate | elim (astar_checks_fuel_free _ _ _ _ _ _ E2)].
  destruct (astar_checks_cap _ _ _ _ _ _ _ _ E2) as (_ & _ & Hat).
  destruct v; try discriminate.
  destruct (decide (n + 1 < max_expand)) as [Hlt | Hge].
  - apply IH; lia.
  - destruct Hat as [[Hr | Hr] | Hr]; [lia | discriminate..].
Qed.

Lemma lpastar_loop_fuel ENV fuel start_key goal n max_expand max_t ss :
  0 < max_expand -> n < max_expand ->
  (Z.to_nat (max_expand - n) <= fuel)%nat ->
  lpastar_loop ENV fuel start_key goal n max_expand max_t ss <> OutOfFuel.
Proof.
  intros Hpos. revert n goal ss.
  induction fuel as [| fuel IH]; intros n goal ss Hn Hfuel; [lia |]. simpl.
  unfold mbind at 1, Op_bind.
  destruct (lpastar_cond goal ss) as [[c ss0'] | e |] eqn:E0;
    [| discriminate | elim (lpastar_cond_fuel_free _ _ E0)].
  destruct c; [| discriminate].
  destruct (INT_MAX <=? n); [discriminate |].
  unfold mbind at 1, Op_bind.
  destruct (lpastar_expand ENV start_key ss0') as [[curr ss1] | e |] eqn:E1;
    [| discriminate | elim (lpastar_expand_fuel_free _ _ _ E1)].
  unfold mbind at 1, Op_bind.
  destruct (lpastar_checks ENV curr goal (n + 1) max_expand max_t ss1)
    as [[[goal' v] ss2] | e |] eqn:E2;
    [| discriminate | elim (lpastar_checks_fuel_free _ _ _ _ _ _ _ E2)].
  destruct (lpastar_checks_cap _ _ _ _ _ _ _ _ _ _ E2) as (_ & _ & Hat).
  destruct v; try discriminate.
  destruct (decide (n + 1 < max_expand)) as [Hlt | Hge].
  - apply IH; lia.
  - assert (Continue = MaxExpandReached) by (apply Hat; lia). discriminate.
Qed.




(** ** The heuristic of the nodes a search makes *)

Lemma lookup_snoc {A} (l : list A) x : (l ++ [x]) !! length l = Some x.
Proof. rewrite lookup_app_r by lia. now rewrite Nat.sub_diag. Qed.

Lemma insert_snoc {A} (l : list A) x y :
  <[length l := y]> (l ++ [x]) = l ++ [y].
Proof. rewrite insert_app_r_alt by lia. now rewrite Nat.sub_diag. Qed.

(** The start node of Astar, as an equation. *)
Lemma astar_init_eq ENV sc sk ss :
  pq_is_empty (pq_ ss) = true ->
  astar_init ENV sc sk ss
  = Ok (tt,
        mkSS (store ss ++
                [mkState sk sc [] [] [] [] [] [] []
                   (Some (next_handle (pq_ ss))) (Fin 0) PInf
                   (heur_of ENV (eps_ ss) sc) true false])
             (pq_insert (add (Fin 0) (mul (eps_ ss) (heur_of ENV (eps_ ss) sc)))
                        (length (store ss)) (pq_ ss)).2
             (<[sk := length (store ss)]> (hm_ ss))
             (eps_ ss) (dt_ ss) (max_t_ ss) (expand_iteration_ ss)
             (best_child_ ss)).
Proof.
  intros Hq.
  unfold astar_init, mbind, Op_bind, mret, Op_ret, pq_empty, gets, new_State,
    modify, load, pq_push, hm_set, modify_ss. simpl. rewrite Hq. simpl.
  repeat (rewrite ?lookup_snoc, ?insert_snoc; simpl).
  reflexivity.
Qed.

(** The start node of LPAstar, as an equation. *)
Lemma lpastar_init_eq ENV sc sk ss :
  hm_ ss !! sk = None ->
  lpastar_init ENV sc sk ss
  = Ok (tt,
        mkSS (store ss ++
                [mkState sk sc [] [] [] [] [] [] []
                   (Some (next_handle (pq_ ss))) PInf (Fin 0)
                   (heur_of ENV (eps_ ss) sc) true false])
             (pq_insert (add (min PInf (Fin 0))
                             (mul (eps_ ss) (heur_of ENV (eps_ ss) sc)))
                        (length (store ss)) (pq_ ss)).2
             (<[sk := length (store ss)]> (hm_ ss))
             (eps_ ss) (dt_ ss) (max_t_ ss) (expand_iteration_ ss)
             (best_child_ ss)).
Proof.
  intros Hhm.
  unfold lpastar_init, calculateKey, mbind, Op_bind, mret, Op_ret, hm_at, gets,
    new_State, modify, load, pq_push, hm_set, modify_ss. simpl.
  rewrite Hhm. simpl.
  repeat (rewrite ?lookup_snoc, ?insert_snoc; simpl).
  reflexivity.
Qed.

Lemma lpastar_init_found ENV sc sk ss a :
  hm_ ss !! sk = Some a -> lpastar_init ENV sc sk ss = Ok (tt, ss).
Proof.
  intros Hhm. unfold lpastar_init, hm_at, gets, mbind, Op_bind.
  rewrite Hhm. reflexivity.
Qed.

(** The coordinate and the heuristic of an object stay. *)
Definition static (s s' : State) : Prop :=
  coord s' = coord s /\ h s' = h s.

#[global] Instance static_refl : Reflexive static.
Proof. intros s. split; reflexivity. Qed.
#[global] Instance static_trans : Transitive static.
Proof. intros s1 s2 s3 [H1 H2] [H3 H4]. split; congruence. Qed.

(** The heuristic of an object is what line 57 (93, 240, 293) computes
    from [eps_] and the coordinate. *)
Definition heur_set (ENV : env_base) (e : decimal) (s : State) : Prop :=
  h s = heur_of ENV e (coord s).

Lemma heur_set_static ENV e s s' :
  heur_set ENV e s -> static s s' -> heur_set ENV e s'.
Proof. unfold heur_set. intros H [Hc Hh]. congruence. Qed.

Ltac h_keeps ENV := keeps_struct (heur_set_static ENV); try p_side.

(** A new object under a key, with its heuristic set. *)
Lemma frame_new_node ENV ss s q m :
  heur_set ENV (eps_ ss) s ->
  frame static any_hm (heur_set ENV) ss
        (mkSS (store ss ++ [s]) q m (eps_ ss) (dt_ ss) (max_t_ ss)
              (expand_iteration_ ss) (best_child_ ss)).
Proof.
  intros Hs.
  split; [exact I | split; [reflexivity | split; [simpl; rewrite length_app; lia |]]].
  simpl. split.
  - intros a s0 Ha. exists s0. split; [| reflexivity].
    rewrite lookup_app_l; [exact Ha | eapply lookup_lt_Some; exact Ha].
  - intros a s' Hle Ha. rewrite lookup_app_r in Ha by exact Hle.
    destruct (a - length (store ss))%nat; simpl in Ha; [| discriminate].
    congruence.
Qed.

Lemma make_child_h ENV sk sc :
  keeps static any_hm (heur_set ENV) (make_child ENV sk sc).
Proof.
  intros ss x ss' H. rewrite make_child_eq in H. inversion H; subst; clear H.
  apply (frame_new_node ENV ss). reflexivity.
Qed.
#[global] Hint Resolve make_child_h : keeps_db.

Lemma astar_init_h ENV sc sk :
  keeps static any_hm (heur_set ENV) (astar_init ENV sc sk).
Proof.
  intros ss x ss' H. destruct (pq_is_empty (pq_ ss)) eqn:Hq.
  - rewrite (astar_init_eq _ _ _ _ Hq) in H. inversion H; subst; clear H.
    apply (frame_new_node ENV ss). reflexivity.
  - unfold astar_init, pq_empty, gets, mbind, Op_bind in H. rewrite Hq in H.
    apply ret_Ok in H as [_ ->]. apply frame_refl; exact _.
Qed.
#[global] Hint Resolve astar_init_h : keeps_db.

Lemma lpastar_init_h ENV sc sk :
  keeps static any_hm (heur_set ENV) (lpastar_init ENV sc sk).
Proof.
  intros ss x ss' H. destruct (hm_ ss !! sk) as [a|] eqn:Hhm.
  - rewrite (lpastar_init_found _ _ _ _ _ Hhm) in H.
    inversion H; subst; clear H. apply frame_refl; exact _.
  - rewrite (lpastar_init_eq _ _ _ _ Hhm) in H. inversion H; subst; clear H.
    apply (frame_new_node ENV ss). reflexivity.
Qed.
#[global] Hint Resolve lpastar_init_h : keeps_db.

Lemma astar_succ_h ENV curr sc sk cost act :
  keeps static any_hm (heur_set ENV) (astar_succ ENV curr sc sk cost act).
Proof.
  unfold astar_succ, astar_child, record_pred, astar_relax. h_keeps ENV.
Qed.
#[global] Hint Resolve astar_succ_h : keeps_db.

Lemma astar_process_h ENV curr succ s :
  keeps static any_hm (heur_set ENV) (astar_process ENV curr succ s).
Proof. unfold astar_process. h_keeps ENV. Qed.
#[global] Hint Resolve astar_process_h : keeps_db.

Lemma astar_expand_h ENV : keeps static any_hm (heur_set ENV) (astar_expand ENV).
Proof. unfold astar_expand. h_keeps ENV. Qed.
#[global] Hint Resolve astar_expand_h : keeps_db.

Lemma astar_checks_h ENV curr n max_expand max_t :
  keeps static any_hm (heur_set ENV)
        (astar_checks ENV curr n max_expand max_t).
Proof. unfold astar_checks. h_keeps ENV. Qed.
#[global] Hint Resolve astar_checks_h : keeps_db.

Lemma astar_loop_h ENV fuel n max_expand max_t :
  keeps static any_hm (heur_set ENV) (astar_loop ENV fuel n max_expand max_t).
Proof.
  revert n. induction fuel as [| fuel IH]; intros n; simpl; h_keeps ENV.
Qed.
#[global] Hint Resolve astar_loop_h : keeps_db.

Lemma recoverTraj_h ENV fuel curr start_key :
  keeps static any_hm (heur_set ENV) (recoverTraj ENV fuel curr start_key).
Proof. apply recoverTraj_keeps; exact _. Qed.
#[global] Hint Resolve recoverTraj_h : keeps_db.

Lemma Astar_h ENV fuel start_coord start_key traj max_expand max_t :
  keeps static any_hm (heur_set ENV)
        (Astar ENV fuel start_coord start_key traj max_expand max_t).
Proof. unfold Astar, astar_finish. h_keeps ENV. Qed.

Lemma calculateKey_h ENV a :
  keeps static any_hm (heur_set ENV) (calculateKey a).
Proof. unfold calculateKey. h_keeps ENV. Qed.
#[global] Hint Resolve calculateKey_h : keeps_db.

Lemma updateNode_h ENV start_key a :
  keeps static any_hm (heur_set ENV) (updateNode start_key a).
Proof. unfold updateNode, rhs_pred. h_keeps ENV. Qed.
#[global] Hint Resolve updateNode_h : keeps_db.

Lemma lpastar_process_h ENV start_key curr explored succ s :
  keeps static any_hm (heur_set ENV)
        (lpastar_process ENV start_key curr explored succ s).
Proof.
  unfold lpastar_process, lpastar_child, lpastar_store_succ,
    lpastar_record_pred, record_pred.
  h_keeps ENV.
Qed.
#[global] Hint Resolve lpastar_process_h : keeps_db.

Lemma lpastar_expand_h ENV start_key :
  keeps static any_hm (heur_set ENV) (lpastar_expand ENV start_key).
Proof. unfold lpastar_expand. h_keeps ENV. Qed.
#[global] Hint Resolve lpastar_expand_h : keeps_db.

Lemma lpastar_checks_h ENV curr goal n max_expand max_t :
  keeps static any_hm (heur_set ENV)
        (lpastar_checks ENV curr goal n max_expand max_t).
Proof. unfold lpastar_checks. h_keeps ENV. Qed.
#[global] Hint Resolve lpastar_checks_h : keeps_db.

Lemma lpastar_cond_h ENV goal :
  keeps static any_hm (heur_set ENV) (lpastar_cond goal).
Proof. unfold lpastar_cond. h_keeps ENV. Qed.
#[global] Hint Resolve lpastar_cond_h : keeps_db.

Lemma lpastar_loop_h ENV fuel start_key goal n max_expand max_t :
  keeps static any_hm (heur_set ENV)
        (lpastar_loop ENV fuel start_key goal n max_expand max_t).
Proof.
  revert goal n. induction fuel as [| fuel IH]; intros goal n; simpl;
    h_keeps ENV.
Qed.
#[global] Hint Resolve lpastar_loop_h : keeps_db.

Lemma lpastar_finish_h ENV fuel start_key traj r :
  keeps static any_hm (heur_set ENV) (lpastar_finish ENV fuel start_key traj r).
Proof. unfold lpastar_finish. destruct r as [[goal v] n]. h_keeps ENV. Qed.
#[global] Hint Resolve lpastar_finish_h : keeps_db.

(** The goal sentinel of LPAstar is one more object; nothing else
    changes. *)
Lemma lpastar_goal_store ENV ss goal ss' :
  lpastar_goal ENV ss = Ok (goal, ss') ->
  ss' = with_store (store ss ++ [State_init Key_default Coord_default]) ss.
Proof.
  unfold lpastar_goal. intros H.
  apply bind_Ok in H as (a & ss1 & Hnew & H).
  apply new_State_Ok in Hnew as [-> ->].
  apply bind_Ok in H as (bc & ss1 & Hbc & H).
  apply gets_Ok in Hbc as [-> ->].
  destruct (last _); op_inv; [| reflexivity].
  destruct (is_goal ENV _); op_inv; reflexivity.
Qed.

(** The address of the goal sentinel a call of LPAstar makes: the first
    free address, or the next one when the call makes a start node. *)
Definition lpa_sentinel (ss : StateSpace) (start_key : Key) : nat :=
  (length (store ss) + match hm_ ss !! start_key with
                       | Some _ => 0
                       | None => 1
                       end)%nat.

Lemma lpastar_init_length ENV sc sk ss x ss' :
  lpastar_init ENV sc sk ss = Ok (x, ss') ->
  length (store ss') = lpa_sentinel ss sk.
Proof.
  intros H. unfold lpa_sentinel. destruct (hm_ ss !! sk) as [a|] eqn:Hhm.
  - rewrite (lpastar_init_found _ _ _ _ _ Hhm) in H.
    inversion H; subst; clear H. lia.
  - rewrite (lpastar_init_eq _ _ _ _ Hhm) in H. inversion H; subst; clear H.
    simpl. rewrite length_app. simpl. lia.
Qed.

Lemma LPAstar_h ENV fuel start_coord start_key traj max_expand max_t ss r ss' :
  LPAstar ENV fuel start_coord start_key traj max_expand max_t ss
  = Ok (r, ss') ->
  forall a s',
    (length (store ss) <= a)%nat -> a <> lpa_sentinel ss start_key ->
    store ss' !! a = Some s' ->
    h s' = heur_of ENV (eps_ ss) (coord s').
Proof.
  intros H a s' Hle Hne Ha. unfold LPAstar in H.
  destruct (is_goal ENV start_coord).
  { apply ret_Ok in H as [_ ->]. apply lookup_lt_Some in Ha. lia. }
  apply bind_Ok in H as (u1 & ss1 & H1 & H).
  apply modify_ss_Ok in H1. subst ss1.
  apply bind_Ok in H as (u2 & ss2 & Hinit & H).
  apply bind_Ok in H as (goal & ss3 & Hgoal & H).
  pose proof (lpastar_init_length _ _ _ _ _ _ Hinit) as Hlen.
  change (lpa_sentinel (with_max_t _ ss) start_key)
    with (lpa_sentinel ss start_key) in Hlen.
  apply lpastar_init_h in Hinit. destruct Hinit as (_ & He2 & _ & _ & Hnew2).
  simpl in He2, Hnew2.
  apply lpastar_goal_store in Hgoal. subst ss3.
  assert (Hf : frame static any_hm (heur_set ENV)
                 (with_store (store ss2 ++
                                [State_init Key_default Coord_default]) ss2)
                 ss').
  { revert H. generalize (with_store (store ss2 ++
                            [State_init Key_default Coord_default]) ss2).
    intros ss3 H.
    lazymatch type of H with
    | ?m ss3 = Ok _ =>
        assert (Hk : keeps static any_hm (heur_set ENV) m) by h_keeps ENV
    end.
    eapply Hk, H. }
  destruct Hf as (_ & He3 & _ & Hold3 & Hnew3). simpl in He3, Hold3, Hnew3.
  destruct (decide (a < length (store ss2))%nat) as [Hlt | Hge].
  - destruct (lookup_lt_is_Some_2 (store ss2) a Hlt) as [s2 Hs2].
    destruct (Hold3 a s2) as (s3 & Hs3 & Hst).
    { rewrite lookup_app_l by exact Hlt. exact Hs2. }
    assert (s3 = s') as -> by congruence.
    eapply heur_set_static; [| exact Hst]. eapply Hnew2; eassumption.
  - rewrite <- He2. eapply Hnew3; [| exact Ha].
    rewrite length_app. simpl. lia.
Qed.

(** The queue after an improvement: the entry of the successor, new or
    updated, has the priority [g + eps * h] of its new g-value. *)
Lemma astar_relax_queue curr v cost ss x ss' cu sv :
  astar_relax curr v cost ss = Ok (x, ss') ->
  store ss !! curr = Some cu ->
  store ss !! v = Some sv ->
  ltb (add (g cu) cost) (g sv) = true ->
  pq_ ss' =
    if iterationopened sv && negb (iterationclosed sv)
    then match heapkey sv with
         | Some hd =>
             pq_set_first hd (add (add (g cu) cost) (mul (eps_ ss) (h sv)))
                          (pq_ ss)
         | None => pq_ ss
         end
    else (pq_insert (add (add (g cu) cost) (mul (eps_ ss) (h sv))) v
                    (pq_ ss)).2.
Proof.
  intros H Hc Hv Hlt. pose proof (lookup_lt_Some _ _ _ Hv) as Hlen.
  unfold astar_relax in H.
  erewrite bind_eq in H by (apply load_eq; exact Hc). cbv zeta in H.
  erewrite bind_eq in H by (apply load_eq; exact Hv). rewrite Hlt in H.
  erewrite bind_eq in H by (apply modify_eq; exact Hv).
  erewrite bind_eq in H
    by (apply load_eq; simpl; apply list_lookup_insert_eq; exact Hlen).
  erewrite bind_eq in H by reflexivity.
  cbv zeta in H. simpl in H.
  destruct (iterationopened sv && negb (iterationclosed sv)).
  - unfold pq_update in H. destruct (heapkey sv) as [hd|]; [| discriminate].
    simpl in H. destruct (pq_has hd (pq_ ss)); [| discriminate].
    inversion H; subst; clear H. reflexivity.
  - apply bind_Ok in H as (hk & ss1 & Hpush & H).
    unfold pq_push in Hpush. simpl in Hpush.
    inversion Hpush; subst; clear Hpush.
    apply bind_Ok in H as (u1 & ss1 & Hm1 & H).
    apply modify_Ok in Hm1 as (s1 & _ & ->).
    apply modify_Ok in H as (s2 & _ & ->). reflexivity.
Qed.

Lemma heur_of_eps0 ENV c : heur_of ENV (Fin 0) c = Fin 0.
Proof. reflexivity. Qed.

Lemma heur_of_eps1 ENV c : heur_of ENV (Fin 1) c = get_heur ENV c.
Proof. reflexivity. Qed.

Lemma fval_eps0 x : add x (mul (Fin 0) (Fin 0)) = x.
Proof. apply add_zero_r. Qed.

(** C8.  With [eps_ == 0] every object a call of Astar makes, and every
    object a call of LPAstar makes other than its goal sentinel, has the
    heuristic 0: the start node and the successors alike.  The priorities
    are then the g-values: the start of Astar is queued with 0, a successor
    Astar improves is queued, or its entry updated, with its new g-value,
    and [calculateKey] is [min(g, rhs)].  With [eps_ == 1] the same objects
    have the heuristic [get_heur] gives for their coordinate. *)
Theorem eps_zero_disables_heuristic ENV ss :
  (eps_ ss = Fin 0 ->
   (forall fuel start_coord start_key traj max_expand max_t r ss',
      Astar ENV fuel start_coord start_key traj max_expand max_t ss
      = Ok (r, ss') ->
      forall a s', (length (store ss) <= a)%nat ->
                   store ss' !! a = Some s' -> h s' = Fin 0) /\
   (forall fuel start_coord start_key traj max_expand max_t r ss',
      LPAstar ENV fuel start_coord start_key traj max_expand max_t ss
      = Ok (r, ss') ->
      forall a s', (length (store ss) <= a)%nat ->
                   a <> lpa_sentinel ss start_key ->
                   store ss' !! a = Some s' -> h s' = Fin 0) /\
   (forall start_coord start_key ss',
      astar_init ENV start_coord start_key ss = Ok (tt, ss') ->
      pq_is_empty (pq_ ss) = true ->
      pq_ ss' = (pq_insert (Fin 0) (length (store ss)) (pq_ ss)).2) /\
   (forall curr v cost ss' cu sv,
      astar_relax curr v cost ss = Ok (tt, ss') ->
      store ss !! curr = Some cu -> store ss !! v = Some sv ->
      h sv = Fin 0 ->
      ltb (add (g cu) cost) (g sv) = true ->
      g_at ss' v = Some (add (g cu) cost) /\
      pq_ ss' =
        if iterationopened sv && negb (iterationclosed sv)
        then match heapkey sv with
             | Some hd => pq_set_first hd (add (g cu) cost) (pq_ ss)
             | None => pq_ ss
             end
        else (pq_insert (add (g cu) cost) v (pq_ ss)).2) /\
   (forall a s key ss',
      calculateKey a ss = Ok (key, ss') ->
      store ss !! a = Some s -> h s = Fin 0 ->
      key = min (g s) (rhs s))) /\
  (eps_ ss = Fin 1 ->
   (forall fuel start_coord start_key traj max_expand max_t r ss',
      Astar ENV fuel start_coord start_key traj max_expand max_t ss
      = Ok (r, ss') ->
      forall a s', (length (store ss) <= a)%nat ->
                   store ss' !! a = Some s' ->
                   h s' = get_heur ENV (coord s')) /\
   (forall fuel start_coord start_key traj max_expand max_t r ss',
      LPAstar ENV fuel start_coord start_key traj max_expand max_t ss
      = Ok (r, ss') ->
      forall a s', (length (store ss) <= a)%nat ->
                   a <> lpa_sentinel ss start_key ->
                   store ss' !! a = Some s' ->
                   h s' = get_heur ENV (coord s'))).
Proof.
  split; intros He.
  - split; [| split; [| split; [| split]]].
    + intros fuel start_coord start_key traj max_expand max_t r ss' H a s'
        Hle Ha.
      apply Astar_h in H. destruct H as (_ & _ & _ & _ & Hnew).
      rewrite <- (heur_of_eps0 ENV (coord s')), <- He. eapply Hnew; eassumption.
    + intros fuel start_coord start_key traj max_expand max_t r ss' H a s'
        Hle Hne Ha.
      rewrite <- (heur_of_eps0 ENV (coord s')), <- He.
      eapply LPAstar_h; eassumption.
    + intros start_coord start_key ss' H Hq.
      rewrite (astar_init_eq _ _ _ _ Hq) in H. inversion H; subst; clear H.
      simpl. rewrite He. reflexivity.
    + intros curr v cost ss' cu sv H Hc Hv Hh Hlt. split.
      * destruct (astar_relax_g _ _ _ _ _ _ _ _ H Hc Hv) as [Hg _].
        now rewrite Hlt in Hg.
      * rewrite (astar_relax_queue _ _ _ _ _ _ _ _ H Hc Hv Hlt).
        rewrite He, Hh, fval_eps0. reflexivity.
    + intros a s key ss' H Ha Hh. unfold calculateKey in H.
      erewrite bind_eq in H by (apply load_eq; exact Ha).
      erewrite bind_eq in H by reflexivity.
      apply ret_Ok in H as [-> _]. rewrite He, Hh. apply fval_eps0.
  - split.
    + intros fuel start_coord start_key traj max_expand max_t r ss' H a s'
        Hle Ha.
      apply Astar_h in H. destruct H as (_ & _ & _ & _ & Hnew).
      rewrite <- (heur_of_eps1 ENV (coord s')), <- He. eapply Hnew; eassumption.
    + intros fuel start_coord start_key traj max_expand max_t r ss' H a s'
        Hle Hne Ha.
      rewrite <- (heur_of_eps1 ENV (coord s')), <- He.
      eapply LPAstar_h; eassumption.
Qed.

(** On [heur_env], whose heuristic is 2, 1, 0 along the line: with
    [eps_ = 0] the nodes Astar makes hold [h = 0]; with [eps_ = 1] the nodes
    LPAstar makes hold the heuristic of the environment. *)
Lemma eps_zero_disables_heuristic_witness :
  Astar heur_env 10 (at_pos 0) 0 [] (-1) (Fin 0) ss_eps0
  = Ok ((true, heur_traj), eps0_ss') /\
  map (fun s => get_heur heur_env (coord s)) (store eps0_ss')
  = [Fin 2; Fin 1; Fin 0] /\
  (forall a s', (length (store ss_eps0) <= a)%nat ->
                store eps0_ss' !! a = Some s' -> h s' = Fin 0) /\
  LPAstar heur_env 10 (at_pos 0) 0 [] (-1) (Fin 0) ss0
  = Ok ((PInf, []), eps1_ss') /\
  (forall a s', (length (store ss0) <= a)%nat ->
                a <> lpa_sentinel ss0 0 ->
                store eps1_ss' !! a = Some s' ->
                h s' = get_heur heur_env (coord s')).
Proof.
  assert (HA : Astar heur_env 10 (at_pos 0) 0 [] (-1) (Fin 0) ss_eps0
               = Ok ((true, heur_traj), eps0_ss'))
    by (vm_compute; reflexivity).
  assert (HL : LPAstar heur_env 10 (at_pos 0) 0 [] (-1) (Fin 0) ss0
               = Ok ((PInf, []), eps1_ss'))
    by (vm_compute; reflexivity).
  split; [exact HA | split; [vm_compute; reflexivity | split; [| split]]].
  - exact (proj1 (proj1 (eps_zero_disables_heuristic heur_env ss_eps0) eq_refl)
             10%nat (at_pos 0) 0 [] (-1) (Fin 0) _ _ HA).
  - exact HL.
  - exact (proj2 (proj2 (eps_zero_disables_heuristic heur_env ss0) eq_refl)
             10%nat (at_pos 0) 0 [] (-1) (Fin 0) _ _ HL).
Defined.

(** ** Trace-back *)

(** What the scan reads of predecessor [i] of the node [c]: the g-value
    of the predecessor and the cost of the action. *)
Definition pred_entry (ss : StateSpace) (c : State) (i : nat)
  : option (decimal * decimal) :=
  key ← pred_hashkey c !! i;
  a ← hm_ ss !! key;
  sp ← store ss !! a;
  cost ← pred_action_cost c !! i;
  Some (g sp, cost).

(** What one round of the scan makes of [(min_rhs, min_g, min_id)]. *)
Definition scan_step (gp cost : decimal) (i : nat) (acc : decimal * decimal * Z)
  : decimal * decimal * Z :=
  let '(min_rhs, min_g, min_id) := acc in
  if gtb min_rhs (add gp cost) then (add gp cost, gp, Z.of_nat i)
  else if negb (isinf cost) && eqb min_rhs (add gp cost) then
    if ltb min_g gp then (min_rhs, gp, Z.of_nat i) else acc
  else acc.

Lemma scan_pred_Ok c i acc ss acc' ss' :
  scan_pred c i acc ss = Ok (acc', ss') ->
  ss' = ss /\
  exists gp cost,
    pred_entry ss c i = Some (gp, cost) /\ acc' = scan_step gp cost i acc.
Proof.
  unfold scan_pred. destruct acc as [[min_rhs min_g] min_id]. intros H.
  apply bind_Ok in H as (key & ss1 & Hkey & H).
  apply index_Ok in Hkey as [Hkey ->].
  apply bind_Ok in H as (p & ss1 & Hp & H). apply gets_Ok in Hp as [-> ->].
  apply bind_Ok in H as (a & ss1 & Ha & H). apply nonnull_Ok in Ha as [Ha ->].
  apply bind_Ok in H as (sp & ss1 & Hsp & H). apply load_Ok in Hsp as [Hsp ->].
  apply bind_Ok in H as (cost & ss1 & Hc & H). apply index_Ok in Hc as [Hc ->].
  assert (He : pred_entry ss c i = Some (g sp, cost)).
  { unfold pred_entry. rewrite Hkey. simpl. rewrite Ha. simpl.
    rewrite Hsp. simpl. rewrite Hc. reflexivity. }
  assert (Hfin : ss' = ss /\
                 acc' = scan_step (g sp) cost i (min_rhs, min_g, min_id)).
  { unfold scan_step.
    destruct (gtb min_rhs (add (g sp) cost));
      [apply ret_Ok in H as [-> ->]; auto |].
    destruct (negb (isinf cost) && eqb min_rhs (add (g sp) cost));
      [| apply ret_Ok in H as [-> ->]; auto].
    destruct (ltb min_g (g sp)); apply ret_Ok in H as [-> ->]; auto. }
  destruct Hfin as [-> ->]. eauto.
Qed.

Lemma scan_pred_eq c i acc ss gp cost :
  pred_entry ss c i = Some (gp, cost) ->
  scan_pred c i acc ss = Ok (scan_step gp cost i acc, ss).
Proof.
  unfold pred_entry, scan_pred. destruct acc as [[min_rhs min_g] min_id].
  intros H.
  destruct (pred_hashkey c !! i) as [key|] eqn:Hkey; [| discriminate].
  simpl in H.
  destruct (hm_ ss !! key) as [a|] eqn:Ha; [| discriminate]. simpl in H.
  destruct (store ss !! a) as [sp|] eqn:Hsp; [| discriminate]. simpl in H.
  destruct (pred_action_cost c !! i) as [cost'|] eqn:Hc; [| discriminate].
  simpl in H. injection H as <- <-.
  erewrite bind_eq by (apply index_eq; exact Hkey).
  erewrite bind_eq by (unfold hm_at, gets; reflexivity).
  rewrite Ha. erewrite bind_eq by reflexivity.
  erewrite bind_eq by (apply load_eq; exact Hsp).
  erewrite bind_eq by (apply index_eq; exact Hc).
  unfold scan_step.
  destruct (gtb min_rhs (add (g sp) cost')); [reflexivity |].
  destruct (negb (isinf cost') && eqb min_rhs (add (g sp) cost'));
    [| reflexivity].
  destruct (ltb min_g (g sp)); reflexivity.
Qed.

(** The scan reads the store and the hash map only. *)
Lemma pred_entry_same ss ss' c i :
  store ss' = store ss -> hm_ ss' = hm_ ss ->
  pred_entry ss' c i = pred_entry ss c i.
Proof. intros Hs Hh. unfold pred_entry. now rewrite Hs, Hh. Qed.

Lemma fold_scan_same ss ss' c l acc r :
  store ss' = store ss -> hm_ ss' = hm_ ss ->
  fold_each l (scan_pred c) acc ss = Ok (r, ss) ->
  fold_each l (scan_pred c) acc ss' = Ok (r, ss').
Proof.
  intros Hs Hh. revert acc. induction l as [| i l IH]; intros acc H; simpl in *.
  - apply ret_Ok in H as [-> _]. reflexivity.
  - apply bind_Ok in H as (acc1 & ss1 & H1 & H).
    apply scan_pred_Ok in H1 as (-> & gp & cost & He & ->).
    erewrite bind_eq
      by (apply scan_pred_eq; rewrite (pred_entry_same _ _ _ _ Hs Hh); exact He).
    apply IH, H.
Qed.

Lemma scan_store c ss r ss' : scan c ss = Ok (r, ss') -> ss' = ss.
Proof.
  unfold scan. generalize (PInf, PInf, -1). generalize (seq 0 (length (pred_hashkey c))).
  intros l. revert ss. induction l as [| i l IH]; intros ss acc H; simpl in H.
  - apply ret_Ok in H as [_ ->]. reflexivity.
  - apply bind_Ok in H as (acc1 & ss1 & H1 & H).
    apply scan_pred_Ok in H1 as (-> & _). eapply IH, H.
Qed.

Lemma scan_same_store ss ss' c r :
  store ss' = store ss -> hm_ ss' = hm_ ss ->
  scan c ss = Ok (r, ss) -> scan c ss' = Ok (r, ss').
Proof. unfold scan. apply fold_scan_same. Qed.

Lemma ltb_irrefl x : ltb x x = false.
Proof. destruct x; simpl; try reflexivity. apply Z.ltb_irrefl. Qed.

Lemma ltb_below_inf x y : ltb x y = true -> ltb x PInf = true.
Proof. destruct x, y; simpl; congruence. Qed.

Lemma ltb_inf_l x : ltb PInf x = false.
Proof. destruct x; reflexivity. Qed.

Lemma ltb_trans_false x y z :
  ltb x z = false -> ltb y z = true -> ltb x y = false.
Proof.
  intros Hxz Hyz. destruct (ltb x y) eqn:E; [| reflexivity].
  pose proof (dec_lt_trans _ _ _ E Hyz) as H. unfold lt in H. congruence.
Qed.

Lemma ltb_trans_false_r x y z :
  ltb x y = false -> ltb x z = true -> ltb z y = false.
Proof.
  intros Hxy Hxz. destruct (ltb z y) eqn:E; [| reflexivity].
  pose proof (dec_lt_trans _ _ _ Hxz E) as H. unfold lt in H. congruence.
Qed.

(** What holds of [(min_rhs, min_g, min_id)] after the rounds below [k]:
    no predecessor seen is strictly below [min_rhs]; none of finite action
    cost that equals [min_rhs] has a g-value strictly above [min_g]; and
    either nothing is selected yet, or [min_id] is a predecessor seen whose
    sum is [min_rhs], below +inf, and whose g-value is [min_g]. *)
Definition scan_inv (ss : StateSpace) (c : State) (k : nat)
    (acc : decimal * decimal * Z) : Prop :=
  let '(min_rhs, min_g, min_id) := acc in
  (forall i gp cost, (i < k)%nat -> pred_entry ss c i = Some (gp, cost) ->
     ltb (add gp cost) min_rhs = false) /\
  (forall i gp cost, (i < k)%nat -> pred_entry ss c i = Some (gp, cost) ->
     isinf cost = false -> add gp cost = min_rhs -> ltb min_g gp = false) /\
  ((min_id = -1 /\ min_rhs = PInf /\ min_g = PInf) \/
   (exists m gm cm,
      min_id = Z.of_nat m /\ (m < k)%nat /\
      pred_entry ss c m = Some (gm, cm) /\
      min_rhs = add gm cm /\ min_g = gm /\ ltb min_rhs PInf = true)).

Lemma scan_inv_init ss c : scan_inv ss c 0 (PInf, PInf, -1).
Proof.
  split; [intros; lia | split; [intros; lia | left; auto]].
Qed.

Lemma scan_inv_step ss c k acc gp cost :
  scan_inv ss c k acc ->
  pred_entry ss c k = Some (gp, cost) ->
  scan_inv ss c (S k) (scan_step gp cost k acc).
Proof.
  destruct acc as [[min_rhs min_g] min_id]. intros (Hmin & Htie & Hsel) Hk.
  assert (Hcase : forall i, (i < S k)%nat -> (i < k)%nat \/ i = k) by lia.
  unfold scan_step, gtb.
  destruct (ltb (add gp cost) min_rhs) eqn:E1.
  - (* a strictly smaller sum *)
    split; [| split].
    + intros i gi ci Hi He. destruct (Hcase i Hi) as [Hlt | ->].
      * eapply ltb_trans_false; [eapply Hmin; eassumption | exact E1].
      * rewrite Hk in He. injection He as <- <-. apply ltb_irrefl.
    + intros i gi ci Hi He Hfin Heq. destruct (Hcase i Hi) as [Hlt | ->].
      * pose proof (Hmin i gi ci Hlt He) as Hge. rewrite Heq in Hge.
        congruence.
      * rewrite Hk in He. injection He as <- <-. apply ltb_irrefl.
    + right. exists k, gp, cost.
      repeat split; [lia | exact Hk | eapply ltb_below_inf; exact E1].
  - destruct (negb (isinf cost) && eqb min_rhs (add gp cost)) eqn:E2.
    + apply andb_true_iff in E2 as [Hfin Heq]. apply negb_true_iff in Hfin.
      apply eqb_eq in Heq.
      destruct (ltb min_g gp) eqn:E3.
      * (* the same sum, a strictly larger g-value *)
        split; [| split].
        -- intros i gi ci Hi He. destruct (Hcase i Hi) as [Hlt | ->].
           ++ eapply Hmin; eassumption.
           ++ rewrite Hk in He. injection He as <- <-. exact E1.
        -- intros i gi ci Hi He Hf Hs. destruct (Hcase i Hi) as [Hlt | ->].
           ++ eapply ltb_trans_false_r; [| exact E3].
              eapply Htie; eassumption.
           ++ rewrite Hk in He. injection He as <- <-. apply ltb_irrefl.
        -- right. destruct Hsel as [(_ & _ & Hg) | (m & gm & cm & _ & _ & _ & Hr & _ & Hb)].
           ++ subst min_g. rewrite ltb_inf_l in E3. discriminate.
           ++ exists k, gp, cost.
              repeat split; [lia | exact Hk | exact Heq | exact Hb].
      * split; [| split].
        -- intros i gi ci Hi He. destruct (Hcase i Hi) as [Hlt | ->].
           ++ eapply Hmin; eassumption.
           ++ rewrite Hk in He. injection He as <- <-. exact E1.
        -- intros i gi ci Hi He Hf Hs. destruct (Hcase i Hi) as [Hlt | ->].
           ++ eapply Htie; eassumption.
           ++ rewrite Hk in He. injection He as <- <-. exact E3.
        -- destruct Hsel as [Hs | (m & gm & cm & H1 & H2 & H3)];
             [left; exact Hs | right; exists m, gm, cm].
           split; [exact H1 | split; [lia | exact H3]].
    + split; [| split].
      * intros i gi ci Hi He. destruct (Hcase i Hi) as [Hlt | ->].
        -- eapply Hmin; eassumption.
        -- rewrite Hk in He. injection He as <- <-. exact E1.
      * intros i gi ci Hi He Hf Hs. destruct (Hcase i Hi) as [Hlt | ->].
        -- eapply Htie; eassumption.
        -- rewrite Hk in He. injection He as <- <-. subst min_rhs.
           rewrite Hf in E2. simpl in E2.
           (* the test on the sum fails on a NaN only, which is neither
              +inf nor below it *)
           destruct Hsel as [(_ & Hr & _) | (m & gm & cm & _ & _ & _ & _ & _ & Hb)];
             [rewrite Hr in E2; discriminate |].
           destruct (add gp cost); simpl in E2, Hb; try discriminate.
           rewrite Z.eqb_refl in E2. discriminate.
      * destruct Hsel as [Hs | (m & gm & cm & H1 & H2 & H3)];
          [left; exact Hs | right; exists m, gm, cm].
        split; [exact H1 | split; [lia | exact H3]].
Qed.

Lemma fold_scan_inv ss c n k acc r ss' :
  scan_inv ss c k acc ->
  fold_each (seq k n) (scan_pred c) acc ss = Ok (r, ss') ->
  scan_inv ss c (k + n) r.
Proof.
  revert k acc. induction n as [| n IH]; intros k acc Hinv H; simpl in H.
  - apply ret_Ok in H as [-> _]. now rewrite Nat.add_0_r.
  - apply bind_Ok in H as (acc1 & ss1 & H1 & H).
    apply scan_pred_Ok in H1 as (-> & gp & cost & He & ->).
    replace (k + S n)%nat with (S k + n)%nat by lia.
    eapply IH; [| exact H]. now apply scan_inv_step.
Qed.

Lemma scan_inv_final c ss r ss' :
  scan c ss = Ok (r, ss') ->
  scan_inv ss c (length (pred_hashkey c)) r.
Proof.
  intros H. apply (fold_scan_inv ss c _ 0 (PInf, PInf, -1) r ss');
    [apply scan_inv_init | exact H].
Qed.

Lemma pred_entry_lt ss c i e :
  pred_entry ss c i = Some e -> (i < length (pred_hashkey c))%nat.
Proof.
  unfold pred_entry. destruct (pred_hashkey c !! i) eqn:E; [| discriminate].
  intros _. eapply lookup_lt_Some; exact E.
Qed.

(** The scan selects [min_id]. *)
Definition selects (ss : StateSpace) (c : State) (min_id : Z) : Prop :=
  exists min_rhs min_g, scan c ss = Ok ((min_rhs, min_g, min_id), ss).

(** The step the trace-back takes from the node [c] on the selection
    [min_id]: to the object [sp] at [parent], by the action [act]. *)
Definition takes (ss : StateSpace) (c : State) (min_id : Z) (parent : nat)
    (sp : State) (act : Z) : Prop :=
  0 <= min_id /\
  exists key,
    pred_hashkey c !! Z.to_nat min_id = Some key /\
    pred_action_id c !! Z.to_nat min_id = Some act /\
    hm_ ss !! key = Some parent /\
    store ss !! parent = Some sp.

(** The walk of the trace-back from the object at [curr]: the primitives
    in the order they are collected, the one into [curr] first. *)
Inductive walk (ENV : env_base) (ss : StateSpace) (start_key : Key)
  : nat -> list Primitive -> Prop :=
| walk_no_pred curr c :
    store ss !! curr = Some c -> pred_hashkey c = [] ->
    walk ENV ss start_key curr []
| walk_failure curr c min_id :
    store ss !! curr = Some c -> pred_hashkey c <> [] ->
    selects ss c min_id -> min_id < 0 ->
    walk ENV ss start_key curr []
| walk_to_start curr c min_id parent sp act :
    store ss !! curr = Some c -> pred_hashkey c <> [] ->
    selects ss c min_id -> takes ss c min_id parent sp act ->
    hashkey sp = start_key ->
    walk ENV ss start_key curr [forward_action ENV (coord sp) act]
| walk_on curr c min_id parent sp act prs :
    store ss !! curr = Some c -> pred_hashkey c <> [] ->
    selects ss c min_id -> takes ss c min_id parent sp act ->
    hashkey sp <> start_key ->
    walk ENV ss start_key parent prs ->
    walk ENV ss start_key curr (forward_action ENV (coord sp) act :: prs).

Lemma selects_same ss ss' c min_id :
  store ss' = store ss -> hm_ ss' = hm_ ss ->
  selects ss c min_id -> selects ss' c min_id.
Proof.
  intros Hs Hh (mr & mg & H). exists mr, mg.
  eapply scan_same_store; eassumption.
Qed.

Lemma takes_same ss ss' c min_id parent sp act :
  store ss' = store ss -> hm_ ss' = hm_ ss ->
  takes ss c min_id parent sp act -> takes ss' c min_id parent sp act.
Proof.
  intros Hs Hh (H0 & key & H1 & H2 & H3 & H4). split; [exact H0 |].
  exists key. rewrite Hs, Hh. auto.
Qed.

Lemma walk_same ENV ss ss' start_key curr prs :
  store ss' = store ss -> hm_ ss' = hm_ ss ->
  walk ENV ss start_key curr prs -> walk ENV ss' start_key curr prs.
Proof.
  intros Hs Hh Hw.
  induction Hw;
    [eapply walk_no_pred | eapply walk_failure | eapply walk_to_start
    | eapply walk_on];
    rewrite ?Hs; eauto using selects_same, takes_same.
Qed.

Lemma recover_loop_walk ENV fuel start_key curr acc ss r ss' :
  recover_loop ENV fuel start_key curr acc ss = Ok (r, ss') ->
  exists prs, walk ENV ss start_key curr prs /\ r = acc ++ prs.
Proof.
  revert curr acc ss r ss'.
  induction fuel as [| fuel IH]; intros curr acc ss r ss' H;
    simpl in H; [discriminate |].
  apply bind_Ok in H as (c & ss1 & Hc & H). apply load_Ok in Hc as [Hc ->].
  destruct (pred_hashkey c) as [| k0 ks] eqn:Ep.
  { apply ret_Ok in H as [-> _]. exists []. rewrite app_nil_r.
    split; [eapply walk_no_pred; eassumption | reflexivity]. }
  assert (Hne : pred_hashkey c <> []) by (rewrite Ep; discriminate).
  rewrite <- Ep in H. clear Ep k0 ks.
  apply bind_Ok in H as (u & ss1 & Hpush & H).
  apply modify_ss_Ok in Hpush. subst ss1.
  set (ss1 := with_best_child (best_child_ ss ++ [curr]) ss) in H.
  apply bind_Ok in H as ([[mr mg] min_id] & ss2 & Hscan & H).
  pose proof (scan_store _ _ _ _ Hscan) as ->.
  assert (Hsel : selects ss c min_id).
  { exists mr, mg.
    eapply (scan_same_store ss1 ss); [reflexivity | reflexivity | exact Hscan]. }
  destruct (0 <=? min_id) eqn:E0.
  - apply Z.leb_le in E0.
    apply bind_Ok in H as (key & ss2 & Hkey & H).
    apply index_Ok in Hkey as [Hkey ->].
    apply bind_Ok in H as (act & ss2 & Hact & H).
    apply index_Ok in Hact as [Hact ->].
    apply bind_Ok in H as (p & ss2 & Hp & H). apply gets_Ok in Hp as [-> ->].
    apply bind_Ok in H as (parent & ss2 & Hpar & H).
    apply nonnull_Ok in Hpar as [Hpar ->].
    apply bind_Ok in H as (sp & ss2 & Hsp & H). apply load_Ok in Hsp as [Hsp ->].
    assert (Htakes : takes ss c min_id parent sp act).
    { split; [exact E0 |]. exists key. auto. }
    cbv zeta in H. destruct (hashkey sp =? start_key) eqn:Ek.
    + apply Z.eqb_eq in Ek.
      apply bind_Ok in H as (u2 & ss2 & _ & H). apply ret_Ok in H as [-> _].
      eexists. split; [eapply walk_to_start; eassumption | reflexivity].
    + apply Z.eqb_neq in Ek.
      apply IH in H as (prs & Hw & ->).
      exists (forward_action ENV (coord sp) act :: prs). split.
      * eapply walk_on; try eassumption.
        eapply (walk_same ENV ss1 ss); [reflexivity | reflexivity | exact Hw].
      * now rewrite <- app_assoc.
  - apply Z.leb_gt in E0. apply ret_Ok in H as [-> _].
    exists []. rewrite app_nil_r.
    split; [eapply walk_failure; eassumption | reflexivity].
Qed.

Lemma walk_recover ENV ss start_key curr prs :
  walk ENV ss start_key curr prs ->
  forall ss2 fuel acc,
    store ss2 = store ss -> hm_ ss2 = hm_ ss ->
    (length prs < fuel)%nat ->
    exists ss',
      recover_loop ENV fuel start_key curr acc ss2 = Ok (acc ++ prs, ss') /\
      store ss' = store ss /\ hm_ ss' = hm_ ss.
Proof.
  assert (Hscan : forall ss ss2 c min_id,
            store ss2 = store ss -> hm_ ss2 = hm_ ss ->
            selects ss c min_id ->
            exists mr mg, scan c ss2 = Ok ((mr, mg, min_id), ss2)).
  { intros ss0' ss2 c min_id Hs Hh (mr & mg & H). exists mr, mg.
    eapply (scan_same_store ss0'); [exact Hs | exact Hh | exact H]. }
  intros Hw.
  induction Hw as [curr c Hc Hp | curr c min_id Hc Hp Hsel Hlt
                   | curr c min_id parent sp act Hc Hp Hsel Htk Hk
                   | curr c min_id parent sp act prs Hc Hp Hsel Htk Hk Hw IH];
    intros ss2 fuel acc Hs Hh Hfuel;
    (destruct fuel as [| fuel]; [simpl in Hfuel; lia |]); simpl;
    rewrite <- Hs in Hc;
    erewrite bind_eq by (apply load_eq; exact Hc).
  - rewrite Hp. exists ss2. rewrite app_nil_r. auto.
  - destruct (pred_hashkey c) as [| k0 ks] eqn:Ep; [congruence |].
    erewrite bind_eq by reflexivity.
    destruct (Hscan ss (with_best_child (best_child_ ss2 ++ [curr]) ss2)
                    c min_id Hs Hh Hsel) as (mr & mg & Hsc).
    erewrite bind_eq by exact Hsc. cbv beta iota.
    destruct (0 <=? min_id) eqn:E0; [apply Z.leb_le in E0; lia |].
    eexists. rewrite app_nil_r. split; [reflexivity | auto].
  - destruct Htk as (E0 & key & Hkey & Hact & Hpar & Hsp).
    destruct (pred_hashkey c) as [| k0 ks] eqn:Ep; [congruence |].
    rewrite <- Ep in *.
    erewrite bind_eq by reflexivity.
    destruct (Hscan ss (with_best_child (best_child_ ss2 ++ [curr]) ss2)
                    c min_id Hs Hh Hsel) as (mr & mg & Hsc).
    erewrite bind_eq by exact Hsc. cbv beta iota.
    destruct (0 <=? min_id) eqn:E0'; [| apply Z.leb_gt in E0'; lia].
    erewrite bind_eq by (apply index_eq; exact Hkey).
    erewrite bind_eq by (apply index_eq; exact Hact).
    erewrite bind_eq by (unfold hm_at, gets; reflexivity).
    simpl hm_. rewrite Hh, Hpar.
    erewrite bind_eq by reflexivity.
    erewrite bind_eq by (apply load_eq; simpl; rewrite Hs; exact Hsp).
    cbv zeta. apply Z.eqb_eq in Hk. rewrite Hk.
    erewrite bind_eq by reflexivity.
    eexists. split; [reflexivity | auto].
  - destruct Htk as (E0 & key & Hkey & Hact & Hpar & Hsp).
    destruct (pred_hashkey c) as [| k0 ks] eqn:Ep; [congruence |].
    rewrite <- Ep in *.
    erewrite bind_eq by reflexivity.
    destruct (Hscan ss (with_best_child (best_child_ ss2 ++ [curr]) ss2)
                    c min_id Hs Hh Hsel) as (mr & mg & Hsc).
    erewrite bind_eq by exact Hsc. cbv beta iota.
    destruct (0 <=? min_id) eqn:E0'; [| apply Z.leb_gt in E0'; lia].
    erewrite bind_eq by (apply index_eq; exact Hkey).
    erewrite bind_eq by (apply index_eq; exact Hact).
    erewrite bind_eq by (unfold hm_at, gets; reflexivity).
    simpl hm_. rewrite Hh, Hpar.
    erewrite bind_eq by reflexivity.
    erewrite bind_eq by (apply load_eq; simpl; rewrite Hs; exact Hsp).
    cbv zeta. apply Z.eqb_neq in Hk. rewrite Hk.
    destruct (IH (with_best_child (best_child_ ss2 ++ [curr]) ss2) fuel
                 (acc ++ [forward_action ENV (coord sp) act]) Hs Hh)
      as (ss' & Hrec & Hst & Hhm); [simpl in Hfuel; lia |].
    exists ss'. rewrite Hrec, <- app_assoc. auto.
Qed.

(** One node with an edge to itself, at position 0; the goal is out of
    reach. *)
Definition loop_env : env_base := graph_env [mkEdge 0 0 (Fin 1) 10] 5 no_heur.

(** A workspace of three nodes: the node of key 2 has one recorded
    predecessor, the node of key 1, by an action of the finite cost 1; the
    g-value of that predecessor is +inf. *)
Definition stale_ss : StateSpace :=
  mkSS [mkState 0 (at_pos 0) [] [] [] [] [] [] [] None
                (Fin 0) PInf (Fin 0) true true;
        mkState 1 (mkCoord 1 (Fin 1)) [] [] [] [] [] [] [] None
                PInf PInf (Fin 0) false false;
        mkState 2 (mkCoord 2 (Fin 2)) [] [] [] [] [1] [7] [Fin 1] None
                (Fin 5) PInf (Fin 0) true true]
       (mkQueue [] 0) (<[2 := 2%nat]> (<[1 := 1%nat]> (<[0 := 0%nat]> ∅)))
       (Fin 1) (Fin 1) PInf 0 [].

(** C4, as stated, fails in its two rules for stopping.

    The key of the node the trace-back is at is not tested before a step:
    on [loop_env], with a start at time 5 and the horizon [max_t = 3],
    Astar ends its loop on the start node, whose key is the start key and
    which has its own edge among its predecessors, and the trace-back from
    it takes that step and returns one primitive, where the claim has it
    stop with none.

    And the trace-back stops where a predecessor of finite action cost
    exists: on [stale_ss] the node of key 2, which is not the start key,
    has a predecessor by an action of cost 1, whose g-value is +inf; the
    scan selects nothing and the trace-back returns the empty
    trajectory. *)
Lemma trace_back_stops_elsewhere :
  (exists ss' su,
     Astar loop_env 10 (mkCoord 0 (Fin 5)) 0 [] (-1) (Fin 3) ss0
     = Ok ((true, [mkPrimitive (mkCoord 0 (Fin 5)) 10]), ss') /\
     last (best_child_ ss') = Some 0%nat /\
     store ss' !! 0%nat = Some su /\ hashkey su = 0 /\
     pred_hashkey su = [0]) /\
  (exists c ss',
     store stale_ss !! 2%nat = Some c /\ hashkey c = 2 /\
     pred_entry stale_ss c 0 = Some (PInf, Fin 1) /\
     isinf (Fin 1) = false /\
     scan c stale_ss = Ok ((PInf, PInf, -1), stale_ss) /\
     recoverTraj line_env 10 2%nat 0 stale_ss = Ok ([], ss')).
Proof.
  split.
  - eexists. eexists. split; [vm_compute; reflexivity |].
    split; [reflexivity | split; [vm_compute; reflexivity |]].
    split; reflexivity.
  - eexists. eexists. split; [vm_compute; reflexivity |].
    split; [reflexivity | split; [vm_compute; reflexivity |]].
    split; [reflexivity | split; vm_compute; reflexivity].
Qed.

(** C4, amended.  The trace-back of [recoverTraj] on the workspace [ss].

    The scan over the predecessors of a node [c] reads, of predecessor
    [i], the g-value [gp] of its node and the cost of its action
    ([pred_entry]).  It selects no predecessor ([min_id = -1]) exactly when
    none has [gp + cost] below +inf.  Otherwise the selected predecessor
    has a sum below +inf that no predecessor is strictly below, and among
    the predecessors of finite action cost with that same sum none has a
    g-value strictly above the selected one's.

    The walk ([walk]) starts at the given node and ends at a node without
    predecessors, at a node where the scan selects nothing, or at the first
    node stepped to whose key is the start key; until then it steps to the
    node of the selected predecessor and collects the primitive
    [forward_action] gives for that node and the action of the edge.
    What [recoverTraj] returns is the primitives of the walk in reverse:
    the one collected last, at the start, comes first.  It does return
    them, whatever the walk ended on, when the fuel exceeds their
    number. *)
Theorem trace_back ENV ss start_key :
  (forall c min_rhs min_g min_id ss',
     scan c ss = Ok ((min_rhs, min_g, min_id), ss') ->
     ss' = ss /\ -1 <= min_id /\
     (min_id < 0 ->
      forall i gp cost, pred_entry ss c i = Some (gp, cost) ->
                        ~ lt (add gp cost) PInf) /\
     (0 <= min_id ->
      exists gm cm,
        pred_entry ss c (Z.to_nat min_id) = Some (gm, cm) /\
        min_rhs = add gm cm /\ lt (add gm cm) PInf /\
        (forall i gp cost, pred_entry ss c i = Some (gp, cost) ->
                           ~ lt (add gp cost) (add gm cm)) /\
        (forall i gp cost, pred_entry ss c i = Some (gp, cost) ->
                           isinf cost = false ->
                           add gp cost = add gm cm -> ~ lt gm gp))) /\
  (forall fuel goal traj ss',
     recoverTraj ENV fuel goal start_key ss = Ok (traj, ss') ->
     exists prs, walk ENV ss start_key goal prs /\ traj = rev prs) /\
  (forall goal prs,
     walk ENV ss start_key goal prs ->
     forall fuel, (length prs < fuel)%nat ->
       exists ss', recoverTraj ENV fuel goal start_key ss = Ok (rev prs, ss')).
Proof.
  split; [| split].
  - intros c min_rhs min_g min_id ss' H.
    pose proof (scan_store _ _ _ _ H) as ->.
    pose proof (scan_inv_final _ _ _ _ H) as (Hmin & Htie & Hsel).
    split; [reflexivity |].
    destruct Hsel as [(-> & -> & ->) | (m & gm & cm & -> & Hm & He & -> & -> & Hb)].
    + split; [lia | split; [| intros; lia]].
      intros _ i gp cost He Hlt.
      pose proof (Hmin i gp cost (pred_entry_lt _ _ _ _ He) He) as Hge.
      unfold lt in Hlt. congruence.
    + split; [lia | split; [intros; lia |]].
      intros _. exists gm, cm. rewrite Nat2Z.id.
      split; [exact He | split; [reflexivity | split; [exact Hb | split]]].
      * intros i gp cost Hi Hlt.
        pose proof (Hmin i gp cost (pred_entry_lt _ _ _ _ Hi) Hi) as Hge.
        unfold lt in Hlt. congruence.
      * intros i gp cost Hi Hfin Heq Hlt.
        pose proof (Htie i gp cost (pred_entry_lt _ _ _ _ Hi) Hi Hfin Heq)
          as Hge.
        unfold lt in Hlt. congruence.
  - intros fuel goal traj ss' H. unfold recoverTraj in H.
    apply bind_Ok in H as (u & ss1 & Hclear & H).
    apply modify_ss_Ok in Hclear. subst ss1.
    apply bind_Ok in H as (prs & ss1 & Hloop & H).
    apply bind_Ok in H as (u2 & ss2 & _ & H). apply ret_Ok in H as [-> _].
    apply recover_loop_walk in Hloop as (prs' & Hw & ->).
    exists prs'. split; [| reflexivity].
    eapply (walk_same ENV (with_best_child [] ss) ss);
      [reflexivity | reflexivity | exact Hw].
  - intros goal prs Hw fuel Hfuel. unfold recoverTraj.
    erewrite bind_eq by reflexivity.
    destruct (walk_recover _ _ _ _ _ Hw (with_best_child [] ss) fuel []
                           eq_refl eq_refl Hfuel) as (ss' & Hrec & _).
    erewrite bind_eq by exact Hrec.
    erewrite bind_eq by reflexivity.
    eexists. reflexivity.
Qed.

(** On [tie_env], where two recorded predecessors of the goal give the
    same sum: the scan takes the first, and the trajectory follows it. *)
Lemma trace_back_witness :
  (exists c,
     store tie_ss !! 2%nat = Some c /\
     pred_entry tie_ss c 0 = Some (Fin 0, Fin 2) /\
     pred_entry tie_ss c 1 = Some (Fin 1, Fin 1) /\
     scan c tie_ss = Ok ((Fin 2, Fin 1, 1), tie_ss) /\
     ~ lt (Fin 1) (Fin 0)) /\
  exists ss',
    recoverTraj tie_env 10 2%nat 0 tie_ss = Ok (tie_traj, ss') /\
    exists prs, walk tie_env tie_ss 0 2%nat prs /\ tie_traj = rev prs.
Proof.
  destruct (trace_back tie_env tie_ss 0) as (Hscan & Hwalk & _).
  split.
  - eexists. split; [vm_compute; reflexivity |].
    assert (Hs : scan (mkState 3 (mkCoord 3 (Fin 1)) [] [] [] []
                         [0; 1] [12; 11] [Fin 2; Fin 1] (Some 2%nat)
                         (Fin 2) PInf (Fin 0) true true) tie_ss
                 = Ok ((Fin 2, Fin 1, 1), tie_ss))
      by (vm_compute; reflexivity).
    split; [vm_compute; reflexivity | split; [vm_compute; reflexivity |]].
    split; [exact Hs |].
    destruct (Hscan _ _ _ _ _ Hs) as (_ & _ & _ & Hsel).
    destruct (Hsel ltac:(lia)) as (gm & cm & He & _ & _ & _ & Htie).
    vm_compute in He. injection He as <- <-.
    apply (Htie 0%nat (Fin 0) (Fin 2)); reflexivity.
  - eexists. 
    assert (Hr : recoverTraj tie_env 10 2%nat 0 tie_ss
                 = Ok (tie_traj, after (recoverTraj tie_env 10 2%nat 0 tie_ss)))
      by (vm_compute; reflexivity).
    split; [exact Hr |]. exact (Hwalk _ _ _ _ Hr).
Defined.

(** ** What a search leaves of the workspace *)

(** Every successful run of [m] leaves the part [f] of the workspace as it
    was. *)
Definition preserves {B A} (f : StateSpace -> B) (m : Op A) : Prop :=
  forall ss x ss', m ss = Ok (x, ss') -> f ss' = f ss.

Lemma preserves_ret {B A} (f : StateSpace -> B) (a : A) : preserves f (mret a).
Proof. intros ss x ss' H. op_inv. reflexivity. Qed.

Lemma preserves_bind {B A C} (f : StateSpace -> B) (m : Op A) (k : A -> Op C) :
  preserves f m -> (forall a, preserves f (k a)) -> preserves f (m ≫= k).
Proof.
  intros Hm Hk ss x ss' H. op_inv.
  etransitivity; [eapply Hk | eapply Hm]; eassumption.
Qed.

Lemma preserves_for_each {B} (f : StateSpace -> B) l body :
  (forall s, preserves f (body s)) -> preserves f (for_each l body).
Proof.
  intros Hb. induction l as [| s l IH]; simpl.
  - apply preserves_ret.
  - apply preserves_bind; [apply Hb | intros _; exact IH].
Qed.

Lemma preserves_fold_each {B A} (f : StateSpace -> B) l
    (body : nat -> A -> Op A) acc :
  (forall s x, preserves f (body s x)) -> preserves f (fold_each l body acc).
Proof.
  intros Hb. revert acc. induction l as [| s l IH]; intros acc; simpl.
  - apply preserves_ret.
  - apply preserves_bind; [apply Hb | intros x; apply IH].
Qed.

(** The operations without a loop of their own, on a part that they do not
    write. *)
Ltac preserves_prim :=
  let ss := fresh "ss" in let x := fresh "x" in let ss' := fresh "ss'" in
  let H := fresh "H" in
  intros ss x ss' H;
  unfold gets, modify_ss, load, modify, new_State, nonnull, hm_at, hm_set,
    index, assign, pq_empty, pq_top_op, pq_pop, pq_push, pq_update, pq_erase,
    best_child_push, raise, out_of_fuel, mret, Op_ret in H;
  repeat match type of H with
         | context [match ?x with _ => _ end] => destruct x
         end;
  inversion H; reflexivity.

Create HintDb preserves_db.

Ltac preserves_struct :=
  repeat first
    [ lazymatch goal with
      | |- preserves _ (_ ≫= _) => apply preserves_bind; [| intros ?]
      | |- preserves _ (mret _) => apply preserves_ret
      | |- preserves _ (for_each _ _) => apply preserves_for_each; intros ?
      | |- preserves _ (fold_each _ _ _) =>
          apply preserves_fold_each; intros ? ?
      | |- preserves _ (let _ := _ in _) => cbv zeta
      | |- preserves _ (if ?b then _ else _) => destruct b
      | |- preserves _ (match ?x with _ => _ end) => destruct x
      | |- preserves _ _ =>
          first [ solve [auto 1 with preserves_db nocore]
                | solve [preserves_prim] ]
      end ].

(** The scalar parameters of the workspace, and the outputs of a search
    besides the trajectory. *)
Definition parameters (ss : StateSpace) : decimal * decimal * decimal :=
  (eps_ ss, dt_ ss, max_t_ ss).

Definition outputs (ss : StateSpace) : Z * list nat :=
  (expand_iteration_ ss, best_child_ ss).

Definition scalars (ss : StateSpace)
  : decimal * decimal * decimal * (Z * list nat) :=
  (parameters ss, outputs ss).

Lemma astar_init_scalars ENV sc sk : preserves scalars (astar_init ENV sc sk).
Proof. unfold astar_init. preserves_struct. Qed.

Lemma astar_expand_scalars ENV : preserves scalars (astar_expand ENV).
Proof.
  unfold astar_expand, astar_process, astar_succ, astar_child, make_child,
    record_pred, astar_relax.
  preserves_struct.
Qed.
#[global] Hint Resolve astar_expand_scalars : preserves_db.

Lemma astar_checks_scalars ENV curr n max_expand max_t :
  preserves scalars (astar_checks ENV curr n max_expand max_t).
Proof. unfold astar_checks. preserves_struct. Qed.
#[global] Hint Resolve astar_checks_scalars : preserves_db.

Lemma astar_loop_scalars ENV fuel n max_expand max_t :
  preserves scalars (astar_loop ENV fuel n max_expand max_t).
Proof.
  revert n. induction fuel as [| fuel IH]; intros n; simpl; preserves_struct.
Qed.

(** Trace-back writes [best_child_] and nothing else. *)
Definition but_best_child (ss : StateSpace) :=
  (store ss, pq_ ss, hm_ ss, parameters ss, expand_iteration_ ss).

Lemma recover_loop_rest ENV fuel start_key curr prs :
  preserves but_best_child (recover_loop ENV fuel start_key curr prs).
Proof.
  revert curr prs. induction fuel as [| fuel IH]; intros curr prs; simpl;
    unfold scan, scan_pred; preserves_struct.
Qed.
#[global] Hint Resolve recover_loop_rest : preserves_db.

Lemma recoverTraj_rest ENV fuel curr start_key :
  preserves but_best_child (recoverTraj ENV fuel curr start_key).
Proof. unfold recoverTraj. preserves_struct. Qed.

Lemma preserves_part {B C A} (f : StateSpace -> B) (p : B -> C) (m : Op A) :
  preserves f m -> preserves (fun ss => p (f ss)) m.
Proof. intros Hm ss x ss' H. f_equal. eapply Hm, H. Qed.

(** X1.  When Astar returns [false], the trajectory is the caller's, and
    [expand_iteration_] and [best_child_] are as they were: the outputs of
    the search are written on success only. *)
Theorem Astar_failure_writes_no_output ENV fuel start_coord start_key traj
    max_expand max_t ss traj' ss' :
  Astar ENV fuel start_coord start_key traj max_expand max_t ss
  = Ok ((false, traj'), ss') ->
  traj' = traj /\
  expand_iteration_ ss' = expand_iteration_ ss /\
  best_child_ ss' = best_child_ ss.
Proof.
  unfold Astar. intros H.
  destruct (is_goal ENV start_coord).
  - apply ret_Ok in H as [H ->]. inversion H. auto.
  - apply bind_Ok in H as ([] & ss1 & Hinit & H).
    apply bind_Ok in H as ([[u v] n] & ss2 & Hloop & H).
    apply astar_init_scalars in Hinit. apply astar_loop_scalars in Hloop.
    assert (Hsc : scalars ss2 = scalars ss) by congruence.
    unfold astar_finish in H.
    pose proof (f_equal (fun x => fst (snd x)) Hsc) as He.
    pose proof (f_equal (fun x => snd (snd x)) Hsc) as Hb.
    simpl in He, Hb.
    destruct v; op_inv; try discriminate; auto.
Qed.

(** On [dead_end_env] the queue runs empty after the start. *)
Lemma Astar_failure_writes_no_output_witness :
  exists ss',
    Astar dead_end_env 10 (at_pos 0) 0 [mkPrimitive (at_pos 7) 3] 5 (Fin 0) ss0
    = Ok ((false, [mkPrimitive (at_pos 7) 3]), ss') /\
    expand_iteration_ ss' = expand_iteration_ ss0 /\
    best_child_ ss' = best_child_ ss0.
Proof.
  eexists. split; [vm_compute; reflexivity |].
  eapply (Astar_failure_writes_no_output dead_end_env 10 (at_pos 0) 0
            [mkPrimitive (at_pos 7) 3] 5 (Fin 0) ss0).
  vm_compute; reflexivity.
Defined.

(** ** The time horizon of Astar *)

(** One step of the trace-back loop that goes on: from [curr] to the node
    [parent] of the selected predecessor, whose key is not the start
    key. *)
Lemma recover_loop_step ENV fuel start_key curr acc ss c min_id parent sp act :
  store ss !! curr = Some c -> pred_hashkey c <> [] ->
  selects ss c min_id -> takes ss c min_id parent sp act ->
  hashkey sp <> start_key ->
  recover_loop ENV (S fuel) start_key curr acc ss
  = recover_loop ENV fuel start_key parent
      (acc ++ [forward_action ENV (coord sp) act])
      (with_best_child (best_child_ ss ++ [curr]) ss).
Proof.
  intros Hc Hp (mr & mg & Hsel) (E0 & key & Hkey & Hact & Hpar & Hsp) Hk.
  cbn [recover_loop]. erewrite bind_eq by (apply load_eq; exact Hc).
  destruct (pred_hashkey c) as [| k0 ks] eqn:Ep; [congruence |].
  rewrite <- Ep in *.
  erewrite bind_eq by reflexivity.
  erewrite bind_eq
    by (eapply (scan_same_store ss); [reflexivity | reflexivity | exact Hsel]).
  cbv beta iota.
  destruct (0 <=? min_id) eqn:E0'; [| apply Z.leb_gt in E0'; lia].
  erewrite bind_eq by (apply index_eq; exact Hkey).
  erewrite bind_eq by (apply index_eq; exact Hact).
  erewrite bind_eq
    by (unfold hm_at, gets; cbn [hm_ with_best_child]; rewrite Hpar;
        reflexivity).
  erewrite bind_eq by reflexivity.
  erewrite bind_eq by (apply load_eq; exact Hsp).
  cbv zeta. apply Z.eqb_neq in Hk. rewrite Hk. reflexivity.
Qed.

Lemma bind_out_of_fuel {A B} (m : Op A) (k : A -> Op B) ss :
  m ss = OutOfFuel -> (m ≫= k) ss = OutOfFuel.
Proof. unfold mbind, Op_bind. intros ->. reflexivity. Qed.

(** 0 -> 1 at the cost 1, and between 1 and 2 an edge each way at the cost
    0; the goal is out of reach. *)
Definition cycle_env : env_base :=
  graph_env [mkEdge 0 1 (Fin 1) 10; mkEdge 1 2 (Fin 0) 11;
             mkEdge 2 1 (Fin 0) 12] 5 no_heur.

(** The workspace of Astar on [cycle_env] with its start node, and the one
    its loop leaves under the horizon [max_t = 2], after three
    expansions. *)
Definition cycle_ss : StateSpace :=
  after (astar_init cycle_env (at_pos 0) 0 ss0).
Definition cycle_ss3 : StateSpace :=
  after (astar_loop cycle_env 3 0 (-1) (Fin 2) cycle_ss).

(** On [cycle_ss3] the trace-back goes from the node at 2 to the node at 1
    and back, for ever: the two predecessors of the node at 1 give the same
    sum, and the one of the larger g-value is the node at 2. *)
Lemma cycle_trace_back_never_ends fuel :
  forall acc ss,
    store ss = store cycle_ss3 -> hm_ ss = hm_ cycle_ss3 ->
    recover_loop cycle_env fuel 0 2%nat acc ss = OutOfFuel /\
    recover_loop cycle_env fuel 0 1%nat acc ss = OutOfFuel.
Proof.
  induction fuel as [| fuel IH]; intros acc ss Hs Hh;
    [split; reflexivity |].
  assert (H2 : exists c2 c1,
            store cycle_ss3 !! 2%nat = Some c2 /\
            store cycle_ss3 !! 1%nat = Some c1 /\
            pred_hashkey c2 = [1] /\ pred_action_id c2 = [11] /\
            pred_hashkey c1 = [0; 2] /\ pred_action_id c1 = [10; 12] /\
            hashkey c2 = 2 /\ hashkey c1 = 1 /\
            scan c2 cycle_ss3 = Ok ((Fin 1, Fin 1, 0), cycle_ss3) /\
            scan c1 cycle_ss3 = Ok ((Fin 1, Fin 1, 1), cycle_ss3)).
  { eexists. eexists. split; [vm_compute; reflexivity |].
    split; [vm_compute; reflexivity |].
    do 6 (split; [reflexivity |]).
    split; vm_compute; reflexivity. }
  destruct H2 as (c2 & c1 & Hc2 & Hc1 & Hp2 & Ha2 & Hp1 & Ha1 & Hk2 & Hk1 &
                  Hscan2 & Hscan1).
  assert (Hm1 : hm_ cycle_ss3 !! 1 = Some 1%nat) by (vm_compute; reflexivity).
  assert (Hm2 : hm_ cycle_ss3 !! 2 = Some 2%nat) by (vm_compute; reflexivity).
  split.
  - rewrite (recover_loop_step cycle_env fuel 0 2%nat acc ss c2 0 1%nat c1 11).
    + apply IH; [exact Hs | exact Hh].
    + rewrite Hs. exact Hc2.
    + rewrite Hp2. discriminate.
    + eexists _, _. eapply (scan_same_store cycle_ss3); eassumption.
    + split; [lia |]. exists 1. rewrite Hs, Hh, Hp2, Ha2. auto.
    + rewrite Hk1. discriminate.
  - rewrite (recover_loop_step cycle_env fuel 0 1%nat acc ss c1 1 2%nat c2 12).
    + apply IH; [exact Hs | exact Hh].
    + rewrite Hs. exact Hc1.
    + rewrite Hp1. discriminate.
    + eexists _, _. eapply (scan_same_store cycle_ss3); eassumption.
    + split; [lia |]. exists 2. rewrite Hs, Hh, Hp1, Ha1. auto.
    + rewrite Hk2. discriminate.
Qed.

(** When the trace-back loop from [u] runs out of every fuel, so does what
    follows the Astar loop at the time horizon. *)
Lemma astar_finish_never_ends ENV fuel start_key traj u n ss :
  (forall acc st, store st = store ss -> hm_ st = hm_ ss ->
     recover_loop ENV fuel start_key u acc st = OutOfFuel) ->
  astar_finish ENV fuel start_key traj (u, MaxTimeReached, n) ss = OutOfFuel.
Proof.
  intros H. unfold astar_finish.
  erewrite bind_eq by reflexivity.
  apply bind_out_of_fuel. unfold recoverTraj.
  erewrite bind_eq by reflexivity.
  apply bind_out_of_fuel. apply H; reflexivity.
Qed.

(** C7, as stated, fails where the trace-back does not come to an end.  On
    [cycle_env] with the horizon [max_t = 2] the third expansion pops the
    node at time 2, of the g-value 1, and the loop ends on it as the time
    horizon; the trace-back from it never reaches the start, and Astar
    does not return, whatever the fuel. *)
Lemma horizon_trace_back_never_ends :
  (exists su,
     astar_loop cycle_env 3 0 (-1) (Fin 2) cycle_ss
     = Ok ((2%nat, MaxTimeReached, 3), cycle_ss3) /\
     store cycle_ss3 !! 2%nat = Some su /\
     lt (Fin 0) (Fin 2) /\ geb (t (coord su)) (Fin 2) = true /\
     isinf (g su) = false) /\
  forall fuel,
    Astar cycle_env fuel (at_pos 0) 0 [] (-1) (Fin 2) ss0 = OutOfFuel.
Proof.
  split.
  { eexists. split; [vm_compute; reflexivity |].
    split; [vm_compute; reflexivity |].
    split; [reflexivity | split; reflexivity]. }
  intros fuel.
  destruct fuel as [| [| [| f]]]; [vm_compute; reflexivity.. |].
  assert (Hinit : astar_init cycle_env (at_pos 0) 0 ss0 = Ok (tt, cycle_ss))
    by (vm_compute; reflexivity).
  unfold Astar. change (is_goal cycle_env (at_pos 0)) with false. cbv iota.
  erewrite bind_eq by exact Hinit.
  assert (Hloop : astar_loop cycle_env (S (S (S f))) 0 (-1) (Fin 2) cycle_ss
                  = Ok ((2%nat, MaxTimeReached, 3), cycle_ss3))
    by (vm_compute; reflexivity).
  erewrite bind_eq by exact Hloop.
  apply astar_finish_never_ends. intros acc st Hs Hh.
  apply cycle_trace_back_never_ends; assumption.
Qed.

(** C7, amended.  In a round of the Astar loop that pops and expands [u],
    when [max_t > 0], [u.coord.t >= max_t] and [u.g] is finite, the tests
    end the loop at [u]: as a goal when [is_goal(u.coord)] holds, which is
    tested first, and as the time horizon otherwise, whatever [max_expand]
    and the queue are, which are tested later.  What follows the loop
    stores the count of expansions and traces back from [u]: whatever it
    returns is [true] with the primitives of a walk of the trace-back from
    [u], reversed; and when the trace-back from [u] comes to an end, after
    the primitives [prs], it does return [true] with them, given fuel for
    more than that many steps. *)
Theorem astar_time_horizon ENV fuel fuel' n max_expand max_t ss u ss1 su
    start_key traj :
  n < INT_MAX ->
  astar_expand ENV ss = Ok (u, ss1) ->
  store ss1 !! u = Some su ->
  lt (Fin 0) max_t ->
  geb (t (coord su)) max_t = true ->
  isinf (g su) = false ->
  exists v,
    v = (if is_goal ENV (coord su) then GoalReached else MaxTimeReached) /\
    astar_checks ENV u (n + 1) max_expand max_t ss1 = Ok (v, ss1) /\
    astar_loop ENV (S fuel) n max_expand max_t ss = Ok ((u, v, n + 1), ss1) /\
    (forall r ss',
       astar_finish ENV fuel' start_key traj (u, v, n + 1) ss1 = Ok (r, ss') ->
       expand_iteration_ ss' = n + 1 /\
       exists prs, walk ENV ss1 start_key u prs /\ r = (true, rev prs)) /\
    (forall prs,
       walk ENV ss1 start_key u prs -> (length prs < fuel')%nat ->
       exists ss',
         astar_finish ENV fuel' start_key traj (u, v, n + 1) ss1
         = Ok ((true, rev prs), ss') /\
         expand_iteration_ ss' = n + 1).
Proof.
  intros Hn Hexp Hu Hmax Ht Hg. unfold lt in Hmax.
  assert (Hchk : astar_checks ENV u (n + 1) max_expand max_t ss1
                 = Ok (if is_goal ENV (coord su)
                       then GoalReached else MaxTimeReached, ss1)).
  { unfold astar_checks. erewrite bind_eq by (apply load_eq; exact Hu).
    destruct (is_goal ENV (coord su)); [reflexivity|].
    rewrite Hmax, Ht, Hg. reflexivity. }
  assert (Hfin : astar_finish ENV fuel' start_key traj
                   (u, if is_goal ENV (coord su)
                       then GoalReached else MaxTimeReached, n + 1) ss1
                 = (traj' ← recoverTraj ENV fuel' u start_key;
                    mret (true, traj'))
                     (with_expand_iteration (n + 1) ss1))
    by (destruct (is_goal ENV (coord su)); reflexivity).
  eexists. split; [reflexivity | split; [exact Hchk | split; [| split]]].
  - simpl. destruct (INT_MAX <=? n) eqn:E; [lia|].
    erewrite bind_eq by exact Hexp.
    erewrite bind_eq by exact Hchk.
    destruct (is_goal ENV (coord su)); reflexivity.
  - intros r ss' H. rewrite Hfin in H.
    apply bind_Ok in H as (tr & ss2 & Hrec & H). apply ret_Ok in H as [-> ->].
    pose proof (recoverTraj_store _ _ _ _ _ _ _ Hrec) as (Hs & Hh & _).
    assert (Hei : expand_iteration_ ss2 = n + 1)
      by (exact (f_equal snd (recoverTraj_rest _ _ _ _ _ _ _ Hrec))).
    split; [exact Hei |].
    unfold recoverTraj in Hrec.
    apply bind_Ok in Hrec as (x1 & st1 & H1 & Hrec).
    apply modify_ss_Ok in H1. subst st1.
    apply bind_Ok in Hrec as (prs & st2 & Hloop & Hrec).
    apply bind_Ok in Hrec as (x2 & st3 & _ & Hrec).
    apply ret_Ok in Hrec as [-> _].
    apply recover_loop_walk in Hloop as (prs' & Hw & ->).
    exists prs'. split; [| reflexivity].
    eapply (walk_same ENV _ ss1); [| | exact Hw]; reflexivity.
  - intros prs Hw Hfuel. rewrite Hfin.
    destruct (walk_recover _ _ _ _ _ Hw
                (with_best_child [] (with_expand_iteration (n + 1) ss1))
                fuel' [] eq_refl eq_refl Hfuel) as (ss' & Hrec & _).
    assert (Hrt : recoverTraj ENV fuel' u start_key
                    (with_expand_iteration (n + 1) ss1)
                  = Ok (rev prs,
                        with_best_child (rev (best_child_ ss')) ss')).
    { unfold recoverTraj.
      erewrite bind_eq by reflexivity.
      erewrite bind_eq by exact Hrec.
      erewrite bind_eq by reflexivity. reflexivity. }
    erewrite bind_eq by exact Hrt.
    eexists. split; [reflexivity |].
    exact (f_equal snd (recoverTraj_rest _ _ _ _ _ _ _ Hrt)).
Qed.

(** The workspace of Astar on [line_env] after the expansion of the start,
    and after the expansion of the node at position 1 and time 1. *)
Definition horizon_ss : StateSpace :=
  after (astar_expand line_env (after (astar_init line_env (at_pos 0) 0 ss0))).
Definition horizon_ss1 : StateSpace := after (astar_expand line_env horizon_ss).

(** On [line_env] with the horizon [max_t = 1]: the second round pops the
    node at time 1, the loop ends on it, and the call returns the one
    primitive that leads to it from the start. *)
Lemma astar_time_horizon_witness :
  exists v ss',
    v = MaxTimeReached /\
    astar_loop line_env 3 1 (-1) (Fin 1) horizon_ss
    = Ok ((1%nat, v, 1 + 1), horizon_ss1) /\
    astar_finish line_env 5 0 [] (1%nat, v, 1 + 1) horizon_ss1
    = Ok ((true, [mkPrimitive (at_pos 0) 10]), ss') /\
    expand_iteration_ ss' = 1 + 1.
Proof.
  set (c0 := mkState 0 (at_pos 0) [] [] [] [] [] [] [] (Some 0%nat)
                     (Fin 0) PInf (Fin 0) true true).
  set (c1 := mkState 1 (mkCoord 1 (Fin 1)) [] [] [] [] [0] [10] [Fin 1]
                     (Some 1%nat) (Fin 1) PInf (Fin 0) true true).
  assert (H0 : store horizon_ss1 !! 0%nat = Some c0)
    by (vm_compute; reflexivity).
  assert (H1 : store horizon_ss1 !! 1%nat = Some c1)
    by (vm_compute; reflexivity).
  assert (Hw : walk line_env horizon_ss1 0 1%nat [mkPrimitive (at_pos 0) 10]).
  { apply (walk_to_start line_env horizon_ss1 0 1%nat c1 0 0%nat c0 10).
    - exact H1.
    - discriminate.
    - eexists _, _. vm_compute; reflexivity.
    - split; [lia |]. exists 0.
      split; [reflexivity | split; [reflexivity |]].
      split; [vm_compute; reflexivity | exact H0].
    - reflexivity. }
  destruct (astar_time_horizon line_env 2 5 1 (-1) (Fin 1) horizon_ss 1%nat
              horizon_ss1 c1 0 [])
    as (v & Hv & _ & Hloop & _ & Htotal).
  - reflexivity.
  - vm_compute; reflexivity.
  - exact H1.
  - reflexivity.
  - reflexivity.
  - reflexivity.
  - destruct (Htotal [mkPrimitive (at_pos 0) 10] Hw ltac:(simpl; lia))
      as (ss' & Hfin & Hei).
    exists v, ss'.
    split; [exact Hv | split; [exact Hloop | split; [exact Hfin | exact Hei]]].
Defined.

(** ** What the success of Astar means *)

(** The node the Astar loop ends on, by the verdict. *)
Definition terminal (ENV : env_base) (max_t : decimal) (su : State) : Prop :=
  is_goal ENV (coord su) = true \/
  (lt (Fin 0) max_t /\ geb (t (coord su)) max_t = true /\ isinf (g su) = false).

Lemma astar_checks_verdict ENV curr n max_expand max_t ss v ss' :
  astar_checks ENV curr n max_expand max_t ss = Ok (v, ss') ->
  ss' = ss /\
  (reached v -> exists su, store ss !! curr = Some su /\ terminal ENV max_t su) /\
  (v = Continue -> pq_is_empty (pq_ ss) = false).
Proof.
  unfold astar_checks, reached, terminal. intros H. op_inv.
  destruct (is_goal ENV (coord _)) eqn:Eg; op_inv.
  { split; [reflexivity | split; [eauto | discriminate]]. }
  destruct (ltb (Fin 0) max_t && _ && _) eqn:Et; op_inv.
  { apply andb_true_iff in Et as [Et E3]. apply andb_true_iff in Et as [E1 E2].
    apply negb_true_iff in E3.
    split; [reflexivity | split; [| discriminate]].
    intros _. eexists. split; [eassumption |]. right. auto. }
  destruct ((0 <? max_expand) && (max_expand <=? n)); op_inv.
  { split; [reflexivity | split; [intros [|]; discriminate | discriminate]]. }
  destruct (pq_is_empty (pq_ _)) eqn:Eq; op_inv;
    (split; [reflexivity | split; [intros [|]; discriminate |]]);
    [discriminate | auto].
Qed.

Lemma astar_loop_verdict ENV fuel n max_expand max_t ss u v n' ss' :
  astar_loop ENV fuel n max_expand max_t ss = Ok ((u, v, n'), ss') ->
  reached v -> exists su, store ss' !! u = Some su /\ terminal ENV max_t su.
Proof.
  revert n ss. induction fuel as [| fuel IH]; intros n ss H Hv; simpl in H;
    [discriminate |].
  destruct (INT_MAX <=? n); [discriminate |].
  apply bind_Ok in H as (curr & ss1 & Hexp & H).
  apply bind_Ok in H as (w & ss2 & Hchk & H).
  destruct (astar_checks_verdict _ _ _ _ _ _ _ _ Hchk) as (-> & Hr & _).
  destruct w; try (apply ret_Ok in H as [H ->]; inversion H; subst; auto).
  eapply IH; eassumption.
Qed.

Lemma recoverTraj_walk ENV fuel goal start_key ss traj ss' :
  recoverTraj ENV fuel goal start_key ss = Ok (traj, ss') ->
  exists prs, walk ENV ss' start_key goal prs /\ traj = rev prs.
Proof.
  intros H. pose proof (recoverTraj_store _ _ _ _ _ _ _ H) as (Hs & Hh & _).
  unfold recoverTraj in H.
  apply bind_Ok in H as (u & ss1 & Hclear & H).
  apply modify_ss_Ok in Hclear. subst ss1.
  apply bind_Ok in H as (prs & ss1 & Hloop & H).
  apply bind_Ok in H as (u2 & ss2 & _ & H). apply ret_Ok in H as [-> _].
  apply recover_loop_walk in Hloop as (prs' & Hw & ->).
  exists prs'. split; [| reflexivity].
  eapply (walk_same ENV (with_best_child [] ss) ss'); [exact Hs | exact Hh |].
  exact Hw.
Qed.

(** [k] expansions in a row lead from [ss] to [ss'], the last of them
    popping [u]. *)
Inductive expansions (ENV : env_base)
  : nat -> StateSpace -> nat -> StateSpace -> Prop :=
| expansions_one ss u ss' :
    astar_expand ENV ss = Ok (u, ss') -> expansions ENV 1 ss u ss'
| expansions_more k ss u1 ss1 u ss' :
    astar_expand ENV ss = Ok (u1, ss1) -> expansions ENV k ss1 u ss' ->
    expansions ENV (S k) ss u ss'.

(** The loop counts its expansions. *)
Lemma astar_loop_expansions ENV fuel n max_expand max_t ss u v n' ss' :
  astar_loop ENV fuel n max_expand max_t ss = Ok ((u, v, n'), ss') ->
  exists k, expansions ENV k ss u ss' /\ n' = n + Z.of_nat k.
Proof.
  revert n ss. induction fuel as [| fuel IH]; intros n ss H; simpl in H;
    [discriminate |].
  destruct (INT_MAX <=? n); [discriminate |].
  apply bind_Ok in H as (curr & ss1 & Hexp & H).
  apply bind_Ok in H as (w & ss2 & Hchk & H).
  destruct (astar_checks_verdict _ _ _ _ _ _ _ _ Hchk) as (-> & _ & _).
  destruct w;
    try (apply ret_Ok in H as [H ->]; inversion H; subst;
         exists 1%nat; split; [apply expansions_one; exact Hexp | lia]).
  apply IH in H as (k & Hk & ->).
  exists (S k). split; [eapply expansions_more; eassumption | lia].
Qed.

(** X2.  When Astar returns [true], the loop ended on a node that
    satisfies [is_goal], or lies at or past the time horizon [max_t > 0]
    with a finite g-value.  [expand_iteration_] holds the number of
    expansions made since the start node was seen to, the last of which
    popped that node: at least one and, under a cap, at most
    [max_expand].  The trajectory is the walk of the trace-back from that
    node in the workspace returned, reversed; the trace-back works on the
    objects the expansions left. *)
Theorem Astar_success ENV fuel start_coord start_key traj max_expand max_t ss
    traj' ss' :
  Astar ENV fuel start_coord start_key traj max_expand max_t ss
  = Ok ((true, traj'), ss') ->
  is_goal ENV start_coord = false /\
  exists u su prs,
    store ss' !! u = Some su /\ terminal ENV max_t su /\
    1 <= expand_iteration_ ss' /\
    (0 < max_expand -> expand_iteration_ ss' <= max_expand) /\
    walk ENV ss' start_key u prs /\ traj' = rev prs /\
    exists k ss1 ss2,
      astar_init ENV start_coord start_key ss = Ok (tt, ss1) /\
      expansions ENV k ss1 u ss2 /\
      expand_iteration_ ss' = Z.of_nat k /\
      store ss' = store ss2.
Proof.
  unfold Astar. intros H.
  destruct (is_goal ENV start_coord).
  { apply ret_Ok in H as [H _]. inversion H. }
  split; [reflexivity |].
  apply bind_Ok in H as ([] & ss1 & Hinit & H).
  apply bind_Ok in H as ([[u v] n] & ss2 & Hloop & H).
  pose proof (astar_loop_cap _ _ _ _ _ _ _ _ _ _ Hloop)
    as (Hn & Hv1 & Hv2 & _ & Hcap).
  pose proof (astar_loop_verdict _ _ _ _ _ _ _ _ _ _ Hloop) as Hterm.
  destruct (astar_loop_expansions _ _ _ _ _ _ _ _ _ _ Hloop) as (k & Hk & Hnk).
  unfold astar_finish in H.
  assert (Hv : reached v /\
               (traj'' ← recoverTraj ENV fuel u start_key; mret (true, traj''))
                 (with_expand_iteration n ss2) = Ok ((true, traj'), ss')).
  { unfold reached. destruct v; try congruence;
      try (apply ret_Ok in H as [H _]; inversion H; fail);
      (split; [auto |]);
      apply bind_Ok in H as ([] & ss3 & Hm & H);
      apply modify_ss_Ok in Hm; subst ss3; exact H. }
  destruct Hv as [Hv Hfin]. clear H.
  destruct (Hterm Hv) as (su & Hsu & Ht).
  apply bind_Ok in Hfin as (tr & ss3 & Hrec & Hret).
  apply ret_Ok in Hret as [Hret ->]. inversion Hret; subst tr; clear Hret.
  pose proof (recoverTraj_rest _ _ _ _ _ _ _ Hrec) as Hrest.
  pose proof (f_equal (fun x => fst (fst (fst (fst x)))) Hrest) as Hst.
  pose proof (f_equal snd Hrest) as Hei. simpl in Hst, Hei.
  destruct (recoverTraj_walk _ _ _ _ _ _ _ Hrec) as (prs & Hw & ->).
  exists u, su, prs.
  split; [rewrite Hst; exact Hsu |].
  split; [exact Ht |]. rewrite Hei.
  split; [lia |]. split; [intros Hpos; apply Hcap; lia |].
  split; [exact Hw | split; [reflexivity |]].
  exists k, ss1, ss2.
  split; [exact Hinit | split; [exact Hk | split; [lia | exact Hst]]].
Qed.

(** On [line_env] from position 0: the goal, position 2, is the node at
    address 2, reached by two primitives after three expansions. *)
Lemma Astar_success_witness :
  exists ss' u su prs,
    Astar line_env 10 (at_pos 0) 0 [] (-1) (Fin 0) ss0
    = Ok ((true, [mkPrimitive (at_pos 0) 10;
                  mkPrimitive (mkCoord 1 (Fin 1)) 11]), ss') /\
    store ss' !! u = Some su /\ terminal line_env (Fin 0) su /\
    expand_iteration_ ss' = 3 /\
    walk line_env ss' 0 u prs /\
    [mkPrimitive (at_pos 0) 10; mkPrimitive (mkCoord 1 (Fin 1)) 11] = rev prs /\
    exists ss1 ss2, expansions line_env 3 ss1 u ss2.
Proof.
  assert (H : Astar line_env 10 (at_pos 0) 0 [] (-1) (Fin 0) ss0
              = Ok ((true, [mkPrimitive (at_pos 0) 10;
                            mkPrimitive (mkCoord 1 (Fin 1)) 11]),
                    after (Astar line_env 10 (at_pos 0) 0 [] (-1) (Fin 0) ss0)))
    by (vm_compute; reflexivity).
  destruct (Astar_success _ _ _ _ _ _ _ _ _ _ H)
    as (_ & u & su & prs & H1 & H2 & _ & _ & H5 & H6 & k & ss1 & ss2 & _ &
        Hk & Hn & _).
  assert (Hn3 : expand_iteration_
                  (after (Astar line_env 10 (at_pos 0) 0 [] (-1) (Fin 0) ss0))
                = 3) by reflexivity.
  assert (k = 3%nat) as -> by lia.
  exists (after (Astar line_env 10 (at_pos 0) 0 [] (-1) (Fin 0) ss0)), u, su, prs.
  split; [exact H | split; [exact H1 | split; [exact H2 | split; [exact Hn3 |]]]].
  split; [exact H5 | split; [exact H6 | eauto]].
Defined.

(** ** Faults an operation cannot end in *)

Definition never (f : fault) {A} (m : Op A) : Prop :=
  forall ss, m ss <> Fault f.

Lemma never_ret f {A} (a : A) : never f (mret a).
Proof. intros ss. discriminate. Qed.

Lemma never_bind f {A B} (m : Op A) (k : A -> Op B) :
  never f m -> (forall a, never f (k a)) -> never f (m ≫= k).
Proof.
  intros Hm Hk ss. unfold mbind, Op_bind.
  destruct (m ss) as [[a ss1] | e |] eqn:E;
    [apply Hk | intros H; inversion H; subst; elim (Hm ss E) | discriminate].
Qed.

Lemma never_for_each f l body :
  (forall s, never f (body s)) -> never f (for_each l body).
Proof.
  intros Hb. induction l as [| s l IH]; simpl.
  - apply never_ret.
  - apply never_bind; [apply Hb | intros _; exact IH].
Qed.

Lemma never_fold_each f {A} l (body : nat -> A -> Op A) acc :
  (forall s x, never f (body s x)) -> never f (fold_each l body acc).
Proof.
  intros Hb. revert acc. induction l as [| s l IH]; intros acc; simpl.
  - apply never_ret.
  - apply never_bind; [apply Hb | intros x; apply IH].
Qed.

(** The operations without a loop of their own that cannot raise the
    fault. *)
Ltac never_prim :=
  let ss := fresh "ss" in
  intros ss;
  unfold gets, modify_ss, load, modify, new_State, nonnull, hm_at, hm_set,
    index, assign, pq_empty, pq_top_op, pq_pop, pq_push, pq_update, pq_erase,
    best_child_push, raise, out_of_fuel, mret, Op_ret;
  repeat match goal with
         | |- context [match ?x with _ => _ end] => destruct x
         end;
  discriminate.

Create HintDb never_db.

Ltac never_struct :=
  repeat first
    [ lazymatch goal with
      | |- never _ (_ ≫= _) => apply never_bind; [| intros ?]
      | |- never _ (mret _) => apply never_ret
      | |- never _ (for_each _ _) => apply never_for_each; intros ?
      | |- never _ (fold_each _ _ _) => apply never_fold_each; intros ? ?
      | |- never _ (let _ := _ in _) => cbv zeta
      | |- never _ (if ?b then _ else _) => destruct b
      | |- never _ (match ?x with _ => _ end) => destruct x
      | |- never _ _ =>
          first [ solve [auto 1 with never_db nocore] | solve [never_prim] ]
      end ].

(** *** Astar and the empty queue *)

Lemma pq_top_nonempty q :
  pq_is_empty q = false -> exists e, pq_top q = Some e.
Proof.
  unfold pq_is_empty, pq_top. destruct (elems q); [discriminate | eauto].
Qed.

Lemma astar_process_no_top ENV curr succ s :
  never EmptyQueue (astar_process ENV curr succ s).
Proof.
  unfold astar_process, astar_succ, astar_child, make_child, record_pred,
    astar_relax.
  never_struct.
Qed.
#[global] Hint Resolve astar_process_no_top : never_db.

Lemma astar_expand_top ENV ss :
  pq_is_empty (pq_ ss) = false -> astar_expand ENV ss <> Fault EmptyQueue.
Proof.
  intros Hq. destruct (pq_top_nonempty _ Hq) as (e & He).
  unfold astar_expand.
  erewrite bind_eq by (unfold pq_top_op; rewrite He; reflexivity).
  cbv zeta.
  erewrite bind_eq by (unfold pq_pop; rewrite He; reflexivity).
  assert (Hrest : never EmptyQueue
            (modify (second e) (set_iterationclosed true) ;;
             cu ← load (second e);
             (let succ := get_succ ENV (coord cu) in
              for_each (seq 0 (length (sc_coord succ)))
                       (astar_process ENV (second e) succ) ;;
              mret (second e)))) by never_struct.
  apply Hrest.
Qed.

Lemma astar_init_top ENV sc sk ss :
  match astar_init ENV sc sk ss with
  | Ok (_, ss') => pq_is_empty (pq_ ss') = false
  | Fault f => f <> EmptyQueue
  | OutOfFuel => True
  end.
Proof.
  destruct (pq_is_empty (pq_ ss)) eqn:Hq.
  - rewrite (astar_init_eq _ _ _ _ Hq). simpl.
    unfold pq_is_empty. simpl. destruct (elems (pq_ ss)); reflexivity.
  - unfold astar_init, pq_empty, gets, mbind, Op_bind. rewrite Hq. exact Hq.
Qed.

Lemma astar_checks_no_top ENV curr n max_expand max_t :
  never EmptyQueue (astar_checks ENV curr n max_expand max_t).
Proof. unfold astar_checks. never_struct. Qed.

Lemma astar_loop_top ENV fuel n max_expand max_t ss :
  pq_is_empty (pq_ ss) = false ->
  astar_loop ENV fuel n max_expand max_t ss <> Fault EmptyQueue.
Proof.
  revert n ss. induction fuel as [| fuel IH]; intros n ss Hq; simpl;
    [discriminate |].
  destruct (INT_MAX <=? n); [discriminate |].
  unfold mbind at 1, Op_bind.
  destruct (astar_expand ENV ss) as [[curr ss1] | e |] eqn:E1;
    [| intros H; inversion H; subst; elim (astar_expand_top ENV ss Hq E1)
     | discriminate].
  unfold mbind at 1, Op_bind.
  destruct (astar_checks ENV curr (n + 1) max_expand max_t ss1)
    as [[v ss2] | e |] eqn:E2;
    [| intros H; inversion H; subst; elim (astar_checks_no_top _ _ _ _ _ _ E2)
     | discriminate].
  destruct (astar_checks_verdict _ _ _ _ _ _ _ _ E2) as (-> & _ & Hc).
  destruct v; try discriminate. apply IH. auto.
Qed.

Lemma recoverTraj_no_top ENV fuel curr start_key :
  never EmptyQueue (recoverTraj ENV fuel curr start_key).
Proof.
  assert (Hloop : forall start_key curr prs,
            never EmptyQueue (recover_loop ENV fuel start_key curr prs)).
  { induction fuel as [| fuel' IH]; intros k c prs; simpl;
      unfold scan, scan_pred; never_struct. }
  unfold recoverTraj. never_struct.
Qed.

(** X3.  Astar never evaluates [top()] or [pop()] on an empty queue,
    whatever the environment and the workspace: it seeds the queue when it
    finds it empty, and tests it before the next round. *)
Theorem Astar_never_tops_an_empty_queue ENV fuel start_coord start_key traj
    max_expand max_t ss :
  Astar ENV fuel start_coord start_key traj max_expand max_t ss
  <> Fault EmptyQueue.
Proof.
  unfold Astar. destruct (is_goal ENV start_coord); [discriminate |].
  pose proof (astar_init_top ENV start_coord start_key ss) as Hinit.
  unfold mbind at 1, Op_bind.
  destruct (astar_init ENV start_coord start_key ss) as [[[] ss1] | e |];
    [| congruence | discriminate].
  unfold mbind at 1, Op_bind.
  pose proof (astar_loop_top ENV fuel 0 max_expand max_t ss1 Hinit) as Hloop.
  destruct (astar_loop ENV fuel 0 max_expand max_t ss1)
    as [[[[u v] n] ss2] | e |]; [| congruence | discriminate].
  unfold astar_finish.
  assert (Hrec : never EmptyQueue
            (modify_ss (with_expand_iteration n) ;;
             traj' ← recoverTraj ENV fuel u start_key; mret (true, traj'))).
  { apply never_bind; [never_prim | intros _].
    apply never_bind; [apply recoverTraj_no_top | intros ?; apply never_ret]. }
  destruct v; first [discriminate | apply Hrec].
Qed.

(** ** The parameters of the workspace *)

Lemma recoverTraj_parameters ENV fuel curr start_key :
  preserves parameters (recoverTraj ENV fuel curr start_key).
Proof.
  intros ss x ss' H. apply recoverTraj_rest in H.
  exact (f_equal (fun x => snd (fst x)) H).
Qed.
#[global] Hint Resolve recoverTraj_parameters : preserves_db.

Lemma astar_loop_parameters ENV fuel n max_expand max_t :
  preserves parameters (astar_loop ENV fuel n max_expand max_t).
Proof.
  intros ss x ss' H. apply astar_loop_scalars in H. exact (f_equal fst H).
Qed.
#[global] Hint Resolve astar_loop_parameters : preserves_db.

Lemma astar_init_parameters ENV sc sk :
  preserves parameters (astar_init ENV sc sk).
Proof.
  intros ss x ss' H. apply astar_init_scalars in H. exact (f_equal fst H).
Qed.
#[global] Hint Resolve astar_init_parameters : preserves_db.

Lemma updateNode_parameters start_key a :
  preserves parameters (updateNode start_key a).
Proof. unfold updateNode, rhs_pred, calculateKey. preserves_struct. Qed.
#[global] Hint Resolve updateNode_parameters : preserves_db.

Lemma lpastar_expand_parameters ENV start_key :
  preserves parameters (lpastar_expand ENV start_key).
Proof.
  unfold lpastar_expand, lpastar_process, lpastar_child, make_child,
    lpastar_store_succ, lpastar_record_pred, record_pred.
  preserves_struct.
Qed.
#[global] Hint Resolve lpastar_expand_parameters : preserves_db.

Lemma lpastar_loop_parameters ENV fuel start_key goal n max_expand max_t :
  preserves parameters (lpastar_loop ENV fuel start_key goal n max_expand max_t).
Proof.
  revert goal n. induction fuel as [| fuel IH]; intros goal n; simpl;
    unfold lpastar_cond, lpastar_checks, calculateKey; preserves_struct.
Qed.
#[global] Hint Resolve lpastar_loop_parameters : preserves_db.

Lemma lpastar_rest_parameters ENV fuel start_coord start_key traj max_expand
    max_t :
  preserves parameters
    (lpastar_init ENV start_coord start_key ;;
     goal ← lpastar_goal ENV;
     r ← lpastar_loop ENV fuel start_key goal 0 max_expand max_t;
     lpastar_finish ENV fuel start_key traj r).
Proof.
  unfold lpastar_init, lpastar_goal, lpastar_finish, calculateKey.
  preserves_struct.
Qed.

(** X4.  Neither search writes the heuristic weight [eps_] or the time
    step [dt_].  Astar leaves [max_t_] as it was as well; LPAstar, when
    the start is not a goal, sets it to its argument [max_t] if that is
    positive and to +inf otherwise, and to nothing else later. *)
Theorem searches_and_the_parameters ENV fuel start_coord start_key traj
    max_expand max_t ss :
  (forall r ss',
     Astar ENV fuel start_coord start_key traj max_expand max_t ss
     = Ok (r, ss') ->
     eps_ ss' = eps_ ss /\ dt_ ss' = dt_ ss /\ max_t_ ss' = max_t_ ss) /\
  (forall r ss',
     LPAstar ENV fuel start_coord start_key traj max_expand max_t ss
     = Ok (r, ss') ->
     eps_ ss' = eps_ ss /\ dt_ ss' = dt_ ss /\
     max_t_ ss' = if is_goal ENV start_coord then max_t_ ss
                  else if ltb (Fin 0) max_t then max_t else PInf).
Proof.
  split; intros r ss' H.
  - assert (Hp : preserves parameters
             (Astar ENV fuel start_coord start_key traj max_expand max_t)).
    { unfold Astar, astar_finish. preserves_struct. }
    apply Hp in H. inversion H. auto.
  - unfold LPAstar in H. destruct (is_goal ENV start_coord).
    + apply ret_Ok in H as [_ ->]. auto.
    + apply bind_Ok in H as ([] & ss1 & Hm & H).
      apply modify_ss_Ok in Hm. subst ss1.
      apply lpastar_rest_parameters in H. inversion H. auto.
Qed.

(** On [line_env] with the horizon 3: LPAstar leaves [max_t_ = 3]. *)
Lemma searches_and_the_parameters_witness :
  max_t_ (after (LPAstar line_env 10 (at_pos 0) 0 [] (-1) (Fin 3) ss0)) = Fin 3 /\
  max_t_ (after (Astar line_env 10 (at_pos 0) 0 [] (-1) (Fin 3) ss0)) = PInf.
Proof.
  destruct (searches_and_the_parameters line_env 10 (at_pos 0) 0 [] (-1)
              (Fin 3) ss0) as [HA HL].
  split.
  - refine (proj2 (proj2 (HL _ _ _))). vm_compute. reflexivity.
  - refine (proj2 (proj2 (HA _ _ _))). vm_compute. reflexivity.
Defined.

(** ** Keys keep their nodes *)

(** The key and the coordinate of an object stay. *)
Definition same_node (s s' : State) : Prop :=
  hashkey s' = hashkey s /\ coord s' = coord s.

#[global] Instance same_node_refl : Reflexive same_node.
Proof. intros s. split; reflexivity. Qed.
#[global] Instance same_node_trans : Transitive same_node.
Proof. intros s1 s2 s3 [H1 H2] [H3 H4]. split; congruence. Qed.

(** Every key that has a node keeps it, but maybe the key [k0]. *)
Definition hm_grows (k0 : option Key) (m m' : gmap Key addr) : Prop :=
  forall k a, Some k <> k0 -> m !! k = Some a -> m' !! k = Some a.

#[global] Instance hm_grows_refl k0 : Reflexive (hm_grows k0).
Proof. intros m k a _ H. exact H. Qed.
#[global] Instance hm_grows_trans k0 : Transitive (hm_grows k0).
Proof. intros m1 m2 m3 H1 H2 k a Hk H. auto. Qed.

Definition any_node : decimal -> State -> Prop := fun _ _ => True.

Lemma any_node_P {P : State -> State -> Prop} e s s' :
  any_node e s -> P s s' -> any_node e s'.
Proof. intros _ _. exact I. Qed.

Ltac n_keeps := keeps_struct (@any_node_P same_node); try p_side.

(** One more object, whatever it is, under a key that had none or that is
    [k0]. *)
Lemma frame_node_added k0 ss s q sk :
  hm_ ss !! sk = None \/ Some sk = k0 ->
  frame same_node (hm_grows k0) any_node ss
        (mkSS (store ss ++ [s]) q (<[sk := length (store ss)]> (hm_ ss))
              (eps_ ss) (dt_ ss) (max_t_ ss) (expand_iteration_ ss)
              (best_child_ ss)).
Proof.
  intros Hsk.
  split; [| split; [reflexivity | split; [simpl; rewrite length_app; lia |]]].
  - simpl. intros k a Hk Ha. rewrite lookup_insert_ne; [exact Ha |].
    intros <-. destruct Hsk as [Hn | He]; congruence.
  - simpl. split; [| intros; exact I].
    intros a s0 Ha. exists s0. split; [| reflexivity].
    rewrite lookup_app_l; [exact Ha | eapply lookup_lt_Some; exact Ha].
Qed.

Lemma astar_child_node k0 ENV sc sk :
  keeps same_node (hm_grows k0) any_node (astar_child ENV sc sk).
Proof.
  intros ss x ss' H. destruct (hm_ ss !! sk) as [v|] eqn:E.
  - rewrite (astar_child_found _ _ _ _ _ E) in H. inversion H; subst.
    apply frame_refl; exact _.
  - rewrite (astar_child_new _ _ _ _ E), make_child_eq in H.
    inversion H; subst; clear H.
    apply (frame_node_added k0 ss). left. exact E.
Qed.
#[global] Hint Resolve astar_child_node : keeps_db.

Lemma lpastar_child_node k0 ENV succ s sk :
  keeps same_node (hm_grows k0) any_node (lpastar_child ENV succ s sk).
Proof.
  intros ss x ss' H. unfold lpastar_child in H.
  apply bind_Ok in H as (p & ss1 & Hp & H). apply gets_Ok in Hp as [-> ->].
  destruct (hm_ ss !! sk) as [v|] eqn:E.
  - apply ret_Ok in H as [_ ->]. apply frame_refl; exact _.
  - apply bind_Ok in H as (sc & ss1 & Hsc & H). apply index_Ok in Hsc as [_ ->].
    rewrite make_child_eq in H. inversion H; subst; clear H.
    apply (frame_node_added k0 ss). left. exact E.
Qed.
#[global] Hint Resolve lpastar_child_node : keeps_db.

Lemma astar_init_node ENV sc sk :
  keeps same_node (hm_grows (Some sk)) any_node (astar_init ENV sc sk).
Proof.
  intros ss x ss' H. destruct (pq_is_empty (pq_ ss)) eqn:Hq.
  - rewrite (astar_init_eq _ _ _ _ Hq) in H. inversion H; subst; clear H.
    apply (frame_node_added (Some sk) ss). right. reflexivity.
  - unfold astar_init, pq_empty, gets, mbind, Op_bind in H. rewrite Hq in H.
    apply ret_Ok in H as [_ ->]. apply frame_refl; exact _.
Qed.

Lemma lpastar_init_node ENV sc sk :
  keeps same_node (hm_grows None) any_node (lpastar_init ENV sc sk).
Proof.
  intros ss x ss' H. destruct (hm_ ss !! sk) as [a|] eqn:Hhm.
  - rewrite (lpastar_init_found _ _ _ _ _ Hhm) in H.
    inversion H; subst; clear H. apply frame_refl; exact _.
  - rewrite (lpastar_init_eq _ _ _ _ Hhm) in H. inversion H; subst; clear H.
    apply (frame_node_added None ss). left. exact Hhm.
Qed.
#[global] Hint Resolve lpastar_init_node : keeps_db.

Lemma astar_loop_node k0 ENV fuel n max_expand max_t :
  keeps same_node (hm_grows k0) any_node
        (astar_loop ENV fuel n max_expand max_t).
Proof.
  revert n. induction fuel as [| fuel IH]; intros n; simpl;
    unfold astar_expand, astar_checks, astar_process, astar_succ, record_pred,
      astar_relax;
    n_keeps.
Qed.
#[global] Hint Resolve astar_loop_node : keeps_db.

Lemma recoverTraj_node k0 ENV fuel curr start_key :
  keeps same_node (hm_grows k0) any_node
        (recoverTraj ENV fuel curr start_key).
Proof. apply recoverTraj_keeps; exact _. Qed.
#[global] Hint Resolve recoverTraj_node : keeps_db.

Lemma updateNode_node k0 start_key a :
  keeps same_node (hm_grows k0) any_node (updateNode start_key a).
Proof. unfold updateNode, rhs_pred, calculateKey. n_keeps. Qed.
#[global] Hint Resolve updateNode_node : keeps_db.

Lemma lpastar_loop_node ENV fuel start_key goal n max_expand max_t :
  keeps same_node (hm_grows None) any_node
        (lpastar_loop ENV fuel start_key goal n max_expand max_t).
Proof.
  revert goal n. induction fuel as [| fuel IH]; intros goal n; simpl;
    unfold lpastar_cond, lpastar_expand, lpastar_checks, lpastar_process,
      lpastar_store_succ, lpastar_record_pred, record_pred, calculateKey;
    n_keeps.
Qed.
#[global] Hint Resolve lpastar_loop_node : keeps_db.

Lemma frame_old_nodes Q N ss ss' a s :
  frame same_node Q N ss ss' -> store ss !! a = Some s ->
  exists s', store ss' !! a = Some s' /\
             hashkey s' = hashkey s /\ coord s' = coord s.
Proof. intros (_ & _ & _ & Hs & _) Ha. apply Hs, Ha. Qed.

Lemma astar_init_node_at ENV sc sk ss x ss' :
  astar_init ENV sc sk ss = Ok (x, ss') ->
  frame same_node
        (hm_grows (if pq_is_empty (pq_ ss) then Some sk else None))
        any_node ss ss'.
Proof.
  intros H. destruct (pq_is_empty (pq_ ss)) eqn:Hq.
  - eapply astar_init_node, H.
  - unfold astar_init, pq_empty, gets, mbind, Op_bind in H. rewrite Hq in H.
    apply ret_Ok in H as [_ ->]. apply frame_refl; exact _.
Qed.

(** X5.  A key that has a node keeps that node through every search, and
    the node keeps its key and its coordinate; no object that is there
    before and after a search has changed its key or its coordinate.  The
    one exception is the start key in Astar: when Astar finds the queue
    empty it makes a start node and puts it under the start key, whatever
    was there (the second part of the witness); of the node that was there
    nothing is said. *)
Theorem nodes_and_keys_stay ENV fuel start_coord start_key traj max_expand
    max_t ss :
  (forall r ss',
     Astar ENV fuel start_coord start_key traj max_expand max_t ss
     = Ok (r, ss') ->
     (forall k a s, k <> start_key \/ pq_is_empty (pq_ ss) = false ->
        hm_ ss !! k = Some a -> store ss !! a = Some s ->
        hm_ ss' !! k = Some a /\
        exists s', store ss' !! a = Some s' /\
                   hashkey s' = hashkey s /\ coord s' = coord s) /\
     (forall a s s', store ss !! a = Some s -> store ss' !! a = Some s' ->
        hashkey s' = hashkey s /\ coord s' = coord s)) /\
  (forall r ss',
     LPAstar ENV fuel start_coord start_key traj max_expand max_t ss
     = Ok (r, ss') ->
     (forall k a s, hm_ ss !! k = Some a -> store ss !! a = Some s ->
        hm_ ss' !! k = Some a /\
        exists s', store ss' !! a = Some s' /\
                   hashkey s' = hashkey s /\ coord s' = coord s) /\
     (forall a s s', store ss !! a = Some s -> store ss' !! a = Some s' ->
        hashkey s' = hashkey s /\ coord s' = coord s)).
Proof.
  assert (Hsame : forall Q ss', frame same_node Q any_node ss ss' ->
            forall a s s', store ss !! a = Some s ->
              store ss' !! a = Some s' ->
              hashkey s' = hashkey s /\ coord s' = coord s).
  { intros Q ss' Hf a s s' Ha Ha'.
    destruct (frame_old_nodes _ _ _ _ _ _ Hf Ha) as (s1 & Hs1 & Hk & Hc).
    assert (s1 = s') as -> by congruence. auto. }
  split; intros r ss' H.
  - set (k0 := if pq_is_empty (pq_ ss) then Some start_key else None).
    assert (Hf : frame same_node (hm_grows k0) any_node ss ss').
    { unfold Astar in H. destruct (is_goal ENV start_coord).
      { apply ret_Ok in H as [_ ->]. apply frame_refl; exact _. }
      apply bind_Ok in H as ([] & ss1 & Hinit & H).
      apply astar_init_node_at in Hinit.
      eapply (frame_trans _ _ _ (@any_node_P same_node)); [exact Hinit |].
      lazymatch type of H with
      | ?m ss1 = Ok _ =>
          assert (Hk : keeps same_node (hm_grows k0) any_node m)
            by (unfold astar_finish; n_keeps)
      end.
      eapply Hk, H. }
    split; [| eapply Hsame; exact Hf].
    intros k a s Hk Ha Hs.
    split; [| eapply frame_old_nodes; eassumption].
    destruct Hf as (Hq & _). apply Hq; [| exact Ha].
    unfold k0. destruct Hk as [Hk | ->]; [| discriminate].
    destruct (pq_is_empty (pq_ ss)); congruence.
  - assert (Hf : frame same_node (hm_grows None) any_node ss ss').
    { assert (Hk : keeps same_node (hm_grows None) any_node
                (LPAstar ENV fuel start_coord start_key traj max_expand max_t))
        by (unfold LPAstar, lpastar_goal, lpastar_finish; n_keeps).
      eapply Hk, H. }
    split; [| eapply Hsame; exact Hf].
    intros k a s Ha Hs.
    split; [| eapply frame_old_nodes; eassumption].
    destruct Hf as (Hq & _). apply Hq; [discriminate | exact Ha].
Qed.

(** The workspace Astar leaves on [dead_end_env], and the one a second
    call leaves from it. *)
Definition dead_end_ss1 : StateSpace :=
  after (Astar dead_end_env 10 (at_pos 0) 0 [] (-1) (Fin 0) ss0).
Definition dead_end_ss2 : StateSpace :=
  after (Astar dead_end_env 10 (at_pos 0) 0 [] (-1) (Fin 0) dead_end_ss1).

(** The workspace Astar leaves on [line_env] when it stops at the cap
    after one expansion, the queue holding the two successors of the
    start; and the one a second call, without a cap, leaves from it. *)
Definition capped_ss1 : StateSpace :=
  after (Astar line_env 10 (at_pos 0) 0 [] 1 (Fin 0) ss0).
Definition capped_ss2 : StateSpace :=
  after (Astar line_env 10 (at_pos 0) 0 [] (-1) (Fin 0) capped_ss1).

(** On [line_env], a second call on a queue that is not empty: the key 1
    keeps its node, at address 1, and the start key keeps its own.  On
    [dead_end_env], twice: the first call leaves the queue empty, and the
    second puts the start key on a new node at address 1. *)
Lemma nodes_and_keys_stay_witness :
  (pq_is_empty (pq_ capped_ss1) = false /\
   hm_ capped_ss2 !! 1 = Some 1%nat /\ hm_ capped_ss2 !! 0 = Some 0%nat /\
   exists s', store capped_ss2 !! 1%nat = Some s' /\
              hashkey s' = 1 /\ coord s' = mkCoord 1 (Fin 1)) /\
  (pq_is_empty (pq_ dead_end_ss1) = true /\
   hm_ dead_end_ss1 !! 0 = Some 0%nat /\
   hm_ dead_end_ss2 !! 0 = Some 1%nat).
Proof.
  split; [| split; [reflexivity | split; reflexivity]].
  assert (H : Astar line_env 10 (at_pos 0) 0 [] (-1) (Fin 0) capped_ss1
              = Ok ((true, [mkPrimitive (at_pos 0) 10;
                            mkPrimitive (mkCoord 1 (Fin 1)) 11]), capped_ss2))
    by (vm_compute; reflexivity).
  assert (Hq : pq_is_empty (pq_ capped_ss1) = false) by reflexivity.
  assert (Hs : exists s, store capped_ss1 !! 1%nat = Some s /\
                         hashkey s = 1 /\ coord s = mkCoord 1 (Fin 1))
    by (eexists; split; [vm_compute; reflexivity | split; reflexivity]).
  destruct Hs as (s & Hs & Hk & Hc).
  destruct (proj1 (nodes_and_keys_stay line_env 10 (at_pos 0) 0 [] (-1)
                     (Fin 0) capped_ss1) _ _ H) as [Hkeys _].
  destruct (Hkeys 1 1%nat s (or_intror Hq) ltac:(vm_compute; reflexivity) Hs)
    as (H1 & s' & Hs' & Hk' & Hc').
  split; [exact Hq | split; [exact H1 | split; [vm_compute; reflexivity |]]].
  exists s'. split; [exact Hs' | split; congruence].
Defined.

(** ** The predecessor vectors only grow, and grow together *)

(** The three predecessor vectors of [s'] extend those of [s]. *)
Definition pred_grows (s s' : State) : Prop :=
  pred_hashkey s `prefix_of` pred_hashkey s' /\
  pred_action_cost s `prefix_of` pred_action_cost s' /\
  pred_action_id s `prefix_of` pred_action_id s'.

(** The three predecessor vectors have one length: entry [i] of each
    belongs to the same edge. *)
Definition pred_parallel (s : State) : Prop :=
  length (pred_action_cost s) = length (pred_hashkey s) /\
  length (pred_action_id s) = length (pred_hashkey s).

Definition pred_kept (s s' : State) : Prop :=
  pred_grows s s' /\ (pred_parallel s -> pred_parallel s').

#[global] Instance pred_kept_refl : Reflexive pred_kept.
Proof. intros s. split; [repeat split; reflexivity | auto]. Qed.
#[global] Instance pred_kept_trans : Transitive pred_kept.
Proof.
  intros s1 s2 s3 [(H1 & H2 & H3) H4] [(H5 & H6 & H7) H8].
  split; [repeat split; etransitivity; eassumption | auto].
Qed.

Definition parallel_node : decimal -> State -> Prop :=
  fun _ s => pred_parallel s.

Lemma parallel_node_kept e s s' :
  parallel_node e s -> pred_kept s s' -> parallel_node e s'.
Proof. intros H [_ Hp]. apply Hp, H. Qed.

Ltac pk_side :=
  first [ solve [intros; split; [repeat split; reflexivity | auto]]
        | solve [intros; split; reflexivity]
        | solve [intros; exact I] ].

Ltac pk_keeps := keeps_struct parallel_node_kept; try pk_side.

Lemma record_pred_kept curr v cost act :
  keeps pred_kept any_hm parallel_node (record_pred curr v cost act).
Proof.
  intros ss x ss' H.
  destruct (record_pred_Ok _ _ _ _ _ _ _ H) as (cu & sv & Hc & Hv).
  rewrite (record_pred_eq _ _ _ _ _ _ _ Hc Hv) in H.
  inversion H; subst; clear H.
  apply (frame_modify pred_kept any_hm parallel_node ss v sv _ Hv).
  split.
  - repeat split; simpl; apply prefix_app_r; reflexivity.
  - intros [H1 H2]. split; simpl; rewrite !length_app; simpl; lia.
Qed.
#[global] Hint Resolve record_pred_kept : keeps_db.

Lemma astar_loop_kept ENV fuel n max_expand max_t :
  keeps pred_kept any_hm parallel_node
        (astar_loop ENV fuel n max_expand max_t).
Proof.
  revert n. induction fuel as [| fuel IH]; intros n; simpl;
    unfold astar_expand, astar_checks, astar_process, astar_succ, astar_child,
      make_child, astar_relax;
    pk_keeps.
Qed.
#[global] Hint Resolve astar_loop_kept : keeps_db.

Lemma recoverTraj_kept ENV fuel curr start_key :
  keeps pred_kept any_hm parallel_node (recoverTraj ENV fuel curr start_key).
Proof. apply recoverTraj_keeps; exact _. Qed.
#[global] Hint Resolve recoverTraj_kept : keeps_db.

Lemma updateNode_kept start_key a :
  keeps pred_kept any_hm parallel_node (updateNode start_key a).
Proof. unfold updateNode, rhs_pred, calculateKey. pk_keeps. Qed.
#[global] Hint Resolve updateNode_kept : keeps_db.

Lemma lpastar_loop_kept ENV fuel start_key goal n max_expand max_t :
  keeps pred_kept any_hm parallel_node
        (lpastar_loop ENV fuel start_key goal n max_expand max_t).
Proof.
  revert goal n. induction fuel as [| fuel IH]; intros goal n; simpl;
    unfold lpastar_cond, lpastar_expand, lpastar_checks, lpastar_process,
      lpastar_child, make_child, lpastar_store_succ, lpastar_record_pred,
      calculateKey;
    pk_keeps.
Qed.
#[global] Hint Resolve lpastar_loop_kept : keeps_db.

Lemma frame_pred_kept Q ss ss' :
  frame pred_kept Q parallel_node ss ss' ->
  (forall a s, store ss !! a = Some s ->
     exists s', store ss' !! a = Some s' /\ pred_grows s s') /\
  ((forall a s, store ss !! a = Some s -> pred_parallel s) ->
   forall a s', store ss' !! a = Some s' -> pred_parallel s').
Proof.
  intros (_ & _ & _ & Hs & Hn). split.
  - intros a s Ha. destruct (Hs a s Ha) as (s' & Hs' & Hg & _). eauto.
  - intros Hall a s' Ha'.
    destruct (store ss !! a) as [s|] eqn:Ha.
    + destruct (Hs a s Ha) as (s'' & Hs'' & _ & Hp).
      assert (s'' = s') as -> by congruence. apply Hp. eapply Hall, Ha.
    + apply lookup_ge_None in Ha. eapply Hn; eassumption.
Qed.



(** ** Trace-back and [best_child_] *)

Lemma scan_Ok_same c ss r ss' : scan c ss = Ok (r, ss') -> ss' = ss.
Proof. apply scan_store. Qed.

(** What the loop of the trace-back pushes onto [best_child_]. *)
Lemma recover_loop_best_child ENV fuel start_key curr prs ss r ss' :
  recover_loop ENV fuel start_key curr prs ss = Ok (r, ss') ->
  exists c visited more,
    store ss !! curr = Some c /\
    best_child_ ss' = best_child_ ss ++ visited /\
    r = prs ++ more /\
    (length more <= length visited <= length more + 1)%nat /\
    (pred_hashkey c = [] -> visited = [] /\ more = []) /\
    (pred_hashkey c <> [] -> head visited = Some curr).
Proof.
  revert curr prs ss r ss'.
  induction fuel as [| fuel IH]; intros curr prs ss r ss' H; simpl in H;
    [discriminate |].
  apply bind_Ok in H as (c & ss1 & Hc & H). apply load_Ok in Hc as [Hc ->].
  exists c.
  destruct (pred_hashkey c) as [| k0 ks] eqn:Ep.
  { apply ret_Ok in H as [-> ->]. exists [], [].
    rewrite !app_nil_r. simpl. repeat split; auto; try lia. congruence. }
  apply bind_Ok in H as ([] & ss1 & Hpush & H).
  apply modify_ss_Ok in Hpush. subst ss1.
  apply bind_Ok in H as ([[mr mg] min_id] & ss1 & Hscan & H).
  apply scan_Ok_same in Hscan. subst ss1.
  destruct (0 <=? min_id).
  - apply bind_Ok in H as (key & ss1 & Hk & H). apply index_Ok in Hk as [_ ->].
    apply bind_Ok in H as (act & ss1 & Ha & H). apply index_Ok in Ha as [_ ->].
    apply bind_Ok in H as (p & ss1 & Hp & H). apply gets_Ok in Hp as [-> ->].
    apply bind_Ok in H as (parent & ss1 & Hn & H).
    apply nonnull_Ok in Hn as [_ ->].
    apply bind_Ok in H as (sp & ss1 & Hsp & H). apply load_Ok in Hsp as [_ ->].
    cbv zeta in H.
    destruct (hashkey sp =? start_key).
    + apply bind_Ok in H as ([] & ss1 & Hpush & H).
      apply modify_ss_Ok in Hpush. subst ss1.
      apply ret_Ok in H as [-> ->].
      exists [curr; parent], [forward_action ENV (coord sp) act]. simpl.
      rewrite <- app_assoc. simpl.
      repeat split; auto; try lia; discriminate.
    + apply IH in H as (c' & visited & more & _ & Hbc & -> & Hlen & _ & _).
      simpl in Hbc. rewrite <- app_assoc in Hbc. simpl in Hbc.
      exists (curr :: visited), (forward_action ENV (coord sp) act :: more).
      rewrite <- app_assoc. simpl.
      repeat split; auto; try lia; discriminate.
  - apply ret_Ok in H as [-> ->]. exists [curr], []. simpl.
    rewrite app_nil_r. repeat split; auto; try lia; discriminate.
Qed.

(** X7.  Trace-back writes [best_child_] and nothing else of the
    workspace: the objects, the queue, the hash map, the parameters
    [eps_], [dt_] and [max_t_] and [expand_iteration_] are as they were.
    From a node without predecessors it returns the empty
    trajectory and leaves [best_child_] empty; from any other node,
    [best_child_] ends with that node, which is where LPAstar looks for the
    goal of the previous search, and holds as many nodes as the trajectory
    has primitives, or one more. *)
Theorem trace_back_and_best_child ENV fuel curr start_key ss traj ss' :
  recoverTraj ENV fuel curr start_key ss = Ok (traj, ss') ->
  (store ss' = store ss /\ pq_ ss' = pq_ ss /\ hm_ ss' = hm_ ss /\
   eps_ ss' = eps_ ss /\ dt_ ss' = dt_ ss /\ max_t_ ss' = max_t_ ss /\
   expand_iteration_ ss' = expand_iteration_ ss) /\
  (length traj <= length (best_child_ ss') <= length traj + 1)%nat /\
  exists c,
    store ss !! curr = Some c /\
    (pred_hashkey c = [] -> traj = [] /\ best_child_ ss' = []) /\
    (pred_hashkey c <> [] -> last (best_child_ ss') = Some curr).
Proof.
  intros H. pose proof (recoverTraj_rest _ _ _ _ _ _ _ H) as Hrest.
  split.
  { inversion Hrest. auto 10. }
  unfold recoverTraj in H.
  apply bind_Ok in H as ([] & ss1 & Hclear & H).
  apply modify_ss_Ok in Hclear. subst ss1.
  apply bind_Ok in H as (prs & ss1 & Hloop & H).
  apply bind_Ok in H as ([] & ss2 & Hrev & H).
  apply modify_ss_Ok in Hrev. subst ss2.
  apply ret_Ok in H as [-> ->].
  apply recover_loop_best_child in Hloop
    as (c & visited & more & Hc & Hbc & -> & Hlen & Hnone & Hsome).
  simpl in Hbc, Hc. simpl. rewrite Hbc. rewrite !length_rev.
  split; [exact Hlen |].
  exists c. split; [exact Hc | split].
  - intros He. destruct (Hnone He) as [-> ->]. auto.
  - intros Hne. specialize (Hsome Hne).
    destruct visited as [| v0 vs]; [discriminate |].
    simpl in Hsome. inversion Hsome; subst. simpl.
    apply last_snoc.
Qed.

(** On [tie_env]: the trace-back from the goal node, at address 2, leaves
    [best_child_ = [0; 1; 2]], the nodes of the trajectory from the start
    to the goal. *)
Lemma trace_back_and_best_child_witness :
  exists ss',
    recoverTraj tie_env 10 2%nat 0 tie_ss = Ok (tie_traj, ss') /\
    best_child_ ss' = [0; 1; 2]%nat /\
    last (best_child_ ss') = Some 2%nat /\
    store ss' = store tie_ss.
Proof.
  eexists. split; [vm_compute; reflexivity |].
  split; [reflexivity |].
  destruct (trace_back_and_best_child tie_env 10 2%nat 0 tie_ss tie_traj _
              ltac:(vm_compute; reflexivity))
    as ((Hst & _) & _ & c & Hc & _ & Hlast).
  split; [| exact Hst].
  apply Hlast. intros He.
  assert (Hc' : store tie_ss !! 2%nat
                = Some (mkState 3 (mkCoord 3 (Fin 1)) [] [] [] []
                         [0; 1] [12; 11] [Fin 2; Fin 1] (Some 2%nat)
                         (Fin 2) PInf (Fin 0) true true))
    by (vm_compute; reflexivity).
  rewrite Hc' in Hc. inversion Hc; subst. discriminate He.
Defined.

(** ** Astar at a dead end, and on a queue that is not empty *)

(** Every successor the loop looks at has a cost, and that cost is
    infinite. *)
Definition all_blocked (succ : Successors) : Prop :=
  forall i, (i < length (sc_coord succ))%nat ->
            exists c, sc_cost succ !! i = Some c /\ isinf c = true.

Lemma astar_process_blocked ENV curr succ l ss :
  all_blocked succ ->
  (forall i, i ∈ l -> (i < length (sc_coord succ))%nat) ->
  for_each l (astar_process ENV curr succ) ss = Ok (tt, ss).
Proof.
  intros Hb. induction l as [| i l IH]; intros Hl; simpl; [reflexivity |].
  destruct (Hb i) as (c & Hc & Hinf); [apply Hl; left |].
  assert (Hp : astar_process ENV curr succ i ss = Ok (tt, ss)).
  { unfold astar_process. erewrite bind_eq by (apply index_eq; exact Hc).
    rewrite Hinf. reflexivity. }
  erewrite bind_eq by exact Hp. apply IH. intros j Hj. apply Hl. now right.
Qed.

Lemma pq_is_empty_elems q : pq_is_empty q = true -> elems q = [].
Proof. unfold pq_is_empty. destruct (elems q); [reflexivity | discriminate]. Qed.

(** The start node Astar makes, once closed. *)
Definition closed_start (sk : Key) (sc : Coord) (hd : nat) (hv : decimal)
  : State :=
  mkState sk sc [] [] [] [] [] [] [] (Some hd) (Fin 0) PInf hv true true.

(** X8.  Astar on a workspace with an empty queue, from a start that is
    no goal, lies before the time horizon and has no successor but blocked
    ones: it expands the start and returns [false] with the caller's
    trajectory.  What it leaves is the workspace with one node more, the
    start, closed, under its key; the queue is empty again. *)
Theorem Astar_dead_end ENV fuel start_coord start_key traj max_expand max_t
    ss :
  is_goal ENV start_coord = false ->
  pq_is_empty (pq_ ss) = true ->
  all_blocked (get_succ ENV start_coord) ->
  ltb (Fin 0) max_t && geb (t start_coord) max_t = false ->
  Astar ENV (S fuel) start_coord start_key traj max_expand max_t ss
  = Ok ((false, traj),
        mkSS (store ss ++
                [closed_start start_key start_coord (next_handle (pq_ ss))
                   (heur_of ENV (eps_ ss) start_coord)])
             (mkQueue [] (S (next_handle (pq_ ss))))
             (<[start_key := length (store ss)]> (hm_ ss))
             (eps_ ss) (dt_ ss) (max_t_ ss) (expand_iteration_ ss)
             (best_child_ ss)).
Proof.
  intros Hg Hq Hb Ht. unfold Astar. rewrite Hg.
  erewrite bind_eq by (apply astar_init_eq; exact Hq).
  pose proof (pq_is_empty_elems _ Hq) as He.
  destruct ss as [st [el nh] hm e d mt ei bc]. simpl in *. subst el.
  unfold astar_expand, astar_checks, mbind, Op_bind, pq_top_op, pq_pop,
    pq_empty, gets, modify, load, mret, Op_ret. simpl.
  repeat (rewrite ?lookup_snoc, ?insert_snoc; simpl).
  rewrite astar_process_blocked;
    [| exact Hb | intros i Hi; apply elem_of_seq in Hi; lia].
  unfold with_store, with_pq, pq_remove. simpl.
  rewrite filter_cons_False by (simpl; intros Hne; apply Hne; reflexivity).
  rewrite filter_nil.
  repeat (rewrite ?lookup_snoc, ?insert_snoc; simpl).
  rewrite Hg.
  simpl in Ht. rewrite Ht. simpl.
  destruct ((0 <? max_expand) && _); reflexivity.
Qed.

(** On [blocked_env], whose only edge is blocked, from a fresh workspace. *)
Lemma Astar_dead_end_witness :
  Astar blocked_env 1 (at_pos 0) 0 [] (-1) (Fin 0) ss0
  = Ok ((false, []),
        mkSS [closed_start 0 (at_pos 0) 0 (Fin 0)] (mkQueue [] 1)
             (<[0 := 0%nat]> ∅) (Fin 1) (Fin 1) PInf 0 []).
Proof.
  apply (Astar_dead_end blocked_env 0 (at_pos 0) 0 [] (-1) (Fin 0) ss0).
  - reflexivity.
  - reflexivity.
  - intros i Hi. simpl in Hi. exists PInf.
    destruct i as [| i]; [split; reflexivity | lia].
  - reflexivity.
Defined.

(** X9.  On a workspace whose queue is not empty, Astar makes no start
    node and resumes from the queue: the start coordinate is tested for
    the goal and not used otherwise, so that two starts that are no goals
    give the same run. *)
Theorem Astar_resumes_from_the_queue ENV fuel start_coord start_coord'
    start_key traj max_expand max_t ss :
  pq_is_empty (pq_ ss) = false ->
  is_goal ENV start_coord = false ->
  is_goal ENV start_coord' = false ->
  Astar ENV fuel start_coord start_key traj max_expand max_t ss
  = (r ← astar_loop ENV fuel 0 max_expand max_t;
     astar_finish ENV fuel start_key traj r) ss /\
  Astar ENV fuel start_coord' start_key traj max_expand max_t ss
  = Astar ENV fuel start_coord start_key traj max_expand max_t ss.
Proof.
  intros Hq Hg Hg'.
  assert (Hrun : forall sc, is_goal ENV sc = false ->
            Astar ENV fuel sc start_key traj max_expand max_t ss
            = (r ← astar_loop ENV fuel 0 max_expand max_t;
               astar_finish ENV fuel start_key traj r) ss).
  { intros sc Hsc. unfold Astar. rewrite Hsc.
    erewrite bind_eq; [reflexivity |].
    unfold astar_init, pq_empty, gets, mbind, Op_bind. rewrite Hq.
    reflexivity. }
  split; [apply Hrun, Hg |]. rewrite !Hrun by assumption. reflexivity.
Qed.

(** On [line_env], from the workspace with the start queued: a start
    given as position 1 gives the run of the start at position 0. *)
Lemma Astar_resumes_from_the_queue_witness :
  Astar line_env 10 (at_pos 1) 0 [] (-1) (Fin 0) late_ss
  = Astar line_env 10 (mkCoord 0 (Fin 5)) 0 [] (-1) (Fin 0) late_ss.
Proof.
  apply (Astar_resumes_from_the_queue line_env 10 (mkCoord 0 (Fin 5))
           (at_pos 1) 0 [] (-1) (Fin 0) late_ss); reflexivity.
Defined.

(** ** What LPAstar returns *)

Lemma updateNode_outputs start_key a : preserves outputs (updateNode start_key a).
Proof. unfold updateNode, rhs_pred, calculateKey. preserves_struct. Qed.
#[global] Hint Resolve updateNode_outputs : preserves_db.

Lemma lpastar_loop_outputs ENV fuel start_key goal n max_expand max_t :
  preserves outputs (lpastar_loop ENV fuel start_key goal n max_expand max_t).
Proof.
  revert goal n. induction fuel as [| fuel IH]; intros goal n; simpl;
    unfold lpastar_cond, lpastar_checks, calculateKey, lpastar_expand,
      lpastar_process, lpastar_child, make_child, lpastar_store_succ,
      lpastar_record_pred, record_pred;
    preserves_struct.
Qed.
#[global] Hint Resolve lpastar_loop_outputs : preserves_db.

Lemma lpastar_cond_false goal ss ss' :
  lpastar_cond goal ss = Ok (false, ss') ->
  ss' = ss /\ exists sg, store ss !! goal = Some sg /\ rhs sg = g sg.
Proof.
  unfold lpastar_cond, calculateKey. intros H. op_inv.
  split; [reflexivity |].
  lazymatch goal with
  | Hf : false = _ || neqb (rhs ?s) (g ?s) |- _ =>
      symmetry in Hf; apply orb_false_iff in Hf as [_ Hf]; exists s;
      split; [assumption |];
      apply eqb_eq; unfold neqb in Hf; now apply negb_false_iff in Hf
  end.
Qed.

(** The goal node of a loop that ended because its condition was false is
    consistent. *)
Lemma lpastar_loop_converged ENV fuel start_key goal n max_expand max_t ss
    goal' v n' ss' :
  lpastar_loop ENV fuel start_key goal n max_expand max_t ss
  = Ok ((goal', v, n'), ss') ->
  v = MaxExpandReached \/ v = QueueEmpty \/
  (v = Converged /\ exists sg, store ss' !! goal' = Some sg /\ rhs sg = g sg).
Proof.
  revert goal n ss. induction fuel as [| fuel IH]; intros goal n ss H;
    simpl in H; [discriminate |].
  apply bind_Ok in H as (c & ss1 & Hc & H). destruct c.
  - destruct (INT_MAX <=? n); [discriminate |].
    apply bind_Ok in H as (curr & ss2 & Hexp & H).
    apply bind_Ok in H as ([goal1 w] & ss3 & Hchk & H).
    assert (Hw : w = MaxExpandReached \/ w = QueueEmpty \/ w = Continue).
    { unfold lpastar_checks in Hchk. op_all; auto. }
    destruct Hw as [-> | [-> | ->]].
    + apply ret_Ok in H as [H _]. inversion H; auto.
    + apply ret_Ok in H as [H _]. inversion H; auto.
    + eapply IH, H.
  - apply ret_Ok in H as [H ->]. inversion H; subst.
    apply lpastar_cond_false in Hc as [-> Hsg]. auto.
Qed.

Lemma lpastar_setup_outputs ENV start_coord start_key max_t :
  preserves outputs
    (modify_ss (with_max_t max_t) ;;
     lpastar_init ENV start_coord start_key ;;
     lpastar_goal ENV).
Proof. unfold lpastar_init, lpastar_goal, calculateKey. preserves_struct. Qed.


(** The graph of [line_env] with one more edge out of the start, to a
    position off the way to the goal: the queue is not empty when the goal
    is reached. *)
Definition spur_env : env_base :=
  graph_env [mkEdge 0 1 (Fin 1) 10; mkEdge 1 2 (Fin 1) 11;
             mkEdge 0 2 (Fin 5) 12; mkEdge 0 3 (Fin 7) 13] 2 no_heur.

Definition spur_ss : StateSpace :=
  after (LPAstar spur_env 10 (at_pos 0) 0 [] (-1) (Fin 0) ss0).


(** ** The successors LPAstar stores on a node *)

(** The four successor vectors of an object. *)
Definition succ_vectors (s : State) : Successors :=
  mkSuccessors (succ_coord s) (succ_hashkey s) (succ_action_cost s)
               (succ_action_id s).

(** The coordinate and the successor vectors of an object stay. *)
Definition same_succ (s s' : State) : Prop :=
  coord s' = coord s /\ succ_vectors s' = succ_vectors s.

#[global] Instance same_succ_refl : Reflexive same_succ.
Proof. intros s. split; reflexivity. Qed.
#[global] Instance same_succ_trans : Transitive same_succ.
Proof. intros s1 s2 s3 [H1 H2] [H3 H4]. split; congruence. Qed.

Ltac s_keeps := keeps_struct (@any_node_P same_succ); try p_side.

Lemma updateNode_succ start_key a :
  keeps same_succ any_hm any_node (updateNode start_key a).
Proof. unfold updateNode, rhs_pred, calculateKey. s_keeps. Qed.
#[global] Hint Resolve updateNode_succ : keeps_db.

Lemma lpastar_child_succ ENV succ s sk :
  keeps same_succ any_hm any_node (lpastar_child ENV succ s sk).
Proof. unfold lpastar_child, make_child. s_keeps. Qed.
#[global] Hint Resolve lpastar_child_succ : keeps_db.

Lemma lpastar_record_pred_succ curr v succ s :
  keeps same_succ any_hm any_node (lpastar_record_pred curr v succ s).
Proof. unfold lpastar_record_pred, record_pred. s_keeps. Qed.
#[global] Hint Resolve lpastar_record_pred_succ : keeps_db.

Lemma frame_same_succ Q N ss ss' a s :
  frame same_succ Q N ss ss' -> store ss !! a = Some s ->
  exists s', store ss' !! a = Some s' /\ coord s' = coord s /\
             succ_vectors s' = succ_vectors s.
Proof. intros (_ & _ & _ & Hs & _) Ha. apply Hs, Ha. Qed.

(** What LPAstar does between the pop and the successor loop (lines
    259-268), on the node popped. *)
Definition lpastar_settle (start_key : Key) (curr : nat) : Op unit :=
  modify curr (set_iterationclosed true) ;;
  cu ← load curr;
  if gtb (g cu) (rhs cu) then modify curr (set_g (rhs cu))
  else modify curr (set_g PInf) ;; updateNode start_key curr.

Lemma lpastar_settle_succ start_key curr :
  keeps same_succ any_hm any_node (lpastar_settle start_key curr).
Proof. unfold lpastar_settle. s_keeps. Qed.

(** The successor loop of LPAstar on the node [curr] with the successors
    [succ], read from the environment ([explored]) or from the node. *)
Definition lpastar_successors (ENV : env_base) (start_key : Key) (curr : nat)
    (explored : bool) (succ : Successors) : Op unit :=
  for_each (seq 0 (length (sc_key succ)))
           (lpastar_process ENV start_key curr explored succ).

(** The expansion, taken apart. *)
Lemma lpastar_expand_Ok ENV start_key ss u ss' :
  lpastar_expand ENV start_key ss = Ok (u, ss') ->
  exists e ss1 cu,
    pq_top (pq_ ss) = Some e /\ u = second e /\
    lpastar_settle start_key u (with_pq (pq_remove (el_handle e) (pq_ ss)) ss)
    = Ok (tt, ss1) /\
    store ss1 !! u = Some cu /\
    match succ_hashkey cu with
    | [] =>
        let succ := get_succ ENV (coord cu) in
        let n := length (sc_coord succ) in
        lpastar_successors ENV start_key u true succ
          (with_store
             (<[u := set_succ (resize n Coord_default (succ_coord cu))
                              (resize n Key_default (succ_hashkey cu))
                              (resize n 0 (succ_action_id cu))
                              (resize n (Fin 0) (succ_action_cost cu)) cu]>
                (store ss1)) ss1)
        = Ok (tt, ss')
    | _ :: _ =>
        lpastar_successors ENV start_key u false (succ_vectors cu) ss1
        = Ok (tt, ss')
    end.
Proof.
  unfold lpastar_expand. intros H.
  apply bind_Ok in H as (e & ss0 & Htop & H).
  apply pq_top_op_Ok in Htop as [Htop ->]. cbv zeta in H.
  apply bind_Ok in H as ([] & ss0 & Hpop & H).
  unfold pq_pop in Hpop. rewrite Htop in Hpop. inversion Hpop; subst ss0.
  clear Hpop.
  apply bind_Ok in H as ([] & ss1 & Hcl & H).
  apply bind_Ok in H as (cu0 & ss2 & Hld & H).
  apply bind_Ok in H as ([] & ss3 & Hg & H).
  apply bind_Ok in H as (cu & ss4 & Hld2 & H).
  apply load_Ok in Hld2 as [Hcu ->].
  assert (Hsettle : lpastar_settle start_key (second e)
                      (with_pq (pq_remove (el_handle e) (pq_ ss)) ss)
                    = Ok (tt, ss3)).
  { unfold lpastar_settle. erewrite bind_eq by exact Hcl.
    erewrite bind_eq by exact Hld. exact Hg. }
  cbv zeta in H.
  apply bind_Ok in H as ([explored succ] & ss5 & Hbr & H).
  apply bind_Ok in H as ([] & ss6 & Hloop & H).
  apply ret_Ok in H as [-> ->].
  exists e, ss3, cu.
  split; [exact Htop | split; [reflexivity | split; [exact Hsettle |]]].
  split; [exact Hcu |].
  destruct (succ_hashkey cu) as [| k ks] eqn:Ek.
  - apply bind_Ok in Hbr as ([] & ss7 & Hm & Hbr).
    apply ret_Ok in Hbr as [Hbr ->]. inversion Hbr; subst; clear Hbr.
    rewrite (modify_eq _ _ _ _ Hcu) in Hm. inversion Hm; subst; clear Hm.
    rewrite Ek in Hloop. exact Hloop.
  - apply ret_Ok in Hbr as [Hbr ->]. inversion Hbr; subst; clear Hbr.
    unfold lpastar_successors, succ_vectors. simpl. rewrite Ek. exact Hloop.
Qed.

(** The first [k] entries of [l] are those of [target]; [l] has [n]
    entries. *)
Definition filled {A} (n k : nat) (l target : list A) : Prop :=
  length l = n /\ forall i, (i < k)%nat -> l !! i = target !! i.

Lemma filled_step {A} n k (l target : list A) x :
  filled n k l target -> target !! k = Some x -> (k < length l)%nat ->
  filled n (S k) (<[k := x]> l) target.
Proof.
  intros [Hlen Hpre] Hx Hk. split; [now rewrite length_insert |].
  intros i Hi. destruct (decide (i = k)) as [-> | Hne].
  - rewrite list_lookup_insert_eq by exact Hk. now rewrite Hx.
  - rewrite list_lookup_insert_ne by congruence. apply Hpre. lia.
Qed.

Lemma filled_all {A} n (l target : list A) :
  filled n n l target -> length target = n -> l = target.
Proof.
  intros [Hlen Hpre] Ht. apply list_eq. intros i.
  destruct (decide (i < n)%nat) as [Hi | Hi]; [apply Hpre, Hi |].
  rewrite !lookup_ge_None_2 by lia. reflexivity.
Qed.

Lemma filled_resize {A} n (d : A) (l target : list A) :
  filled n 0 (resize n d l) target.
Proof.
  split; [| intros i Hi; lia].
  unfold resize. rewrite length_app, length_take, length_replicate. lia.
Qed.

(** The four vectors of a node, filled up to [k] from [succ]. *)
Definition succ_filled (succ : Successors) (k : nat) (s : State) : Prop :=
  let n := length (sc_coord succ) in
  filled n k (succ_coord s) (sc_coord succ) /\
  filled n k (succ_hashkey s) (sc_key succ) /\
  filled n k (succ_action_id s) (sc_act_id succ) /\
  filled n k (succ_action_cost s) (sc_cost succ).

Lemma lpastar_store_succ_Ok curr succ s sk ss x ss' cu :
  lpastar_store_succ curr succ s sk ss = Ok (x, ss') ->
  store ss !! curr = Some cu ->
  exists sc act cost,
    sc_coord succ !! s = Some sc /\ sc_act_id succ !! s = Some act /\
    sc_cost succ !! s = Some cost /\
    (s < length (succ_coord cu))%nat /\ (s < length (succ_hashkey cu))%nat /\
    (s < length (succ_action_id cu))%nat /\
    (s < length (succ_action_cost cu))%nat /\
    ss' = with_store
            (<[curr := set_succ (<[s := sc]> (succ_coord cu))
                                (<[s := sk]> (succ_hashkey cu))
                                (<[s := act]> (succ_action_id cu))
                                (<[s := cost]> (succ_action_cost cu)) cu]>
               (store ss)) ss.
Proof.
  unfold lpastar_store_succ. intros H Hcu.
  apply bind_Ok in H as (sc & ss1 & H1 & H). apply index_Ok in H1 as [H1 ->].
  apply bind_Ok in H as (act & ss1 & H2 & H). apply index_Ok in H2 as [H2 ->].
  apply bind_Ok in H as (cost & ss1 & H3 & H). apply index_Ok in H3 as [H3 ->].
  apply bind_Ok in H as (cu' & ss1 & H4 & H). apply load_Ok in H4 as [H4 ->].
  assert (cu' = cu) as -> by congruence.
  unfold assign in H.
  destruct (decide (s < length (succ_coord cu))%nat) as [L1 |];
    [| discriminate].
  apply bind_Ok in H as (cs & ss1 & H5 & H). apply ret_Ok in H5 as [-> ->].
  destruct (decide (s < length (succ_hashkey cu))%nat) as [L2 |];
    [| discriminate].
  apply bind_Ok in H as (ks & ss1 & H5 & H). apply ret_Ok in H5 as [-> ->].
  destruct (decide (s < length (succ_action_id cu))%nat) as [L3 |];
    [| discriminate].
  apply bind_Ok in H as (ids & ss1 & H5 & H). apply ret_Ok in H5 as [-> ->].
  destruct (decide (s < length (succ_action_cost cu))%nat) as [L4 |];
    [| discriminate].
  apply bind_Ok in H as (cos & ss1 & H5 & H). apply ret_Ok in H5 as [-> ->].
  rewrite (modify_eq _ _ _ _ Hcu) in H. inversion H; subst; clear H.
  exists sc, act, cost. auto 10.
Qed.

(** One round of the successor loop, on the node expanded: round [s] fills
    entry [s] of its four vectors. *)
Lemma lpastar_process_fills ENV start_key curr succ s ss x ss' cu :
  lpastar_process ENV start_key curr true succ s ss = Ok (x, ss') ->
  store ss !! curr = Some cu ->
  succ_filled succ s cu ->
  exists cu', store ss' !! curr = Some cu' /\ coord cu' = coord cu /\
              succ_filled succ (S s) cu'.
Proof.
  unfold lpastar_process. intros H Hcu Hf.
  apply bind_Ok in H as (sk & ss1 & Hsk & H). apply index_Ok in Hsk as [Hsk ->].
  apply bind_Ok in H as (v & ss1 & Hchild & H).
  apply lpastar_child_succ in Hchild.
  destruct (frame_same_succ _ _ _ _ _ _ Hchild Hcu) as (cu1 & Hcu1 & Hc1 & Hv1).
  apply bind_Ok in H as ([] & ss2 & Hstore & H).
  destruct (lpastar_store_succ_Ok _ _ _ _ _ _ _ _ Hstore Hcu1)
    as (sc & act & cost & Hsc & Hact & Hcost & L1 & L2 & L3 & L4 & ->).
  apply bind_Ok in H as ([] & ss3 & Hrec & H).
  apply lpastar_record_pred_succ in Hrec. apply updateNode_succ in H.
  pose proof (frame_trans _ _ _ (@any_node_P same_succ) _ _ _ Hrec H) as Hfr.
  assert (Hcu2 : store (with_store
                          (<[curr := set_succ (<[s := sc]> (succ_coord cu1))
                                        (<[s := sk]> (succ_hashkey cu1))
                                        (<[s := act]> (succ_action_id cu1))
                                        (<[s := cost]> (succ_action_cost cu1))
                                        cu1]> (store ss1)) ss1) !! curr
                 = Some (set_succ (<[s := sc]> (succ_coord cu1))
                                  (<[s := sk]> (succ_hashkey cu1))
                                  (<[s := act]> (succ_action_id cu1))
                                  (<[s := cost]> (succ_action_cost cu1)) cu1)).
  { simpl. apply list_lookup_insert_eq. eapply lookup_lt_Some; exact Hcu1. }
  destruct (frame_same_succ _ _ _ _ _ _ Hfr Hcu2) as (cu' & Hcu' & Hc' & Hv').
  exists cu'. split; [exact Hcu' | split; [simpl in Hc'; congruence |]].
  unfold succ_vectors in Hv', Hv1. simpl in Hv'.
  injection Hv' as E1 E2 E3 E4. injection Hv1 as F1 F2 F3 F4.
  destruct Hf as (G1 & G2 & G3 & G4).
  unfold succ_filled. rewrite E1, E2, E3, E4, F1, F2, F3, F4.
  rewrite F1 in L1. rewrite F2 in L2. rewrite F4 in L3. rewrite F3 in L4.
  split; [| split; [| split]]; apply filled_step; assumption.
Qed.

Lemma lpastar_successors_fill ENV start_key curr succ m :
  forall k ss ss' cu,
    for_each (seq k m) (lpastar_process ENV start_key curr true succ) ss
    = Ok (tt, ss') ->
    store ss !! curr = Some cu ->
    succ_filled succ k cu ->
    exists cu', store ss' !! curr = Some cu' /\ coord cu' = coord cu /\
                succ_filled succ (k + m) cu'.
Proof.
  induction m as [| m IH]; intros k ss ss' cu H Hcu Hf; simpl in H.
  - apply ret_Ok in H as [_ ->]. exists cu. rewrite Nat.add_0_r. auto.
  - apply bind_Ok in H as ([] & ss1 & Hstep & H).
    destruct (lpastar_process_fills _ _ _ _ _ _ _ _ _ Hstep Hcu Hf)
      as (cu1 & Hcu1 & Hc1 & Hf1).
    destruct (IH _ _ _ _ H Hcu1 Hf1) as (cu' & Hcu' & Hc' & Hf').
    exists cu'. split; [exact Hcu' | split; [congruence |]].
    replace (k + S m)%nat with (S k + m)%nat by lia. exact Hf'.
Qed.

Lemma lpastar_successors_cached ENV start_key curr succ :
  keeps same_succ any_hm any_node
        (lpastar_successors ENV start_key curr false succ).
Proof. unfold lpastar_successors, lpastar_process. s_keeps. Qed.

(** The four vectors [get_succ] fills have one length. *)
Definition succ_parallel (succ : Successors) : Prop :=
  length (sc_key succ) = length (sc_coord succ) /\
  length (sc_cost succ) = length (sc_coord succ) /\
  length (sc_act_id succ) = length (sc_coord succ).

(** X11.  An expansion of LPAstar stores the successors on the node it
    pops.  When the node holds none ([succ_hashkey] empty), its four
    successor vectors are afterwards the four [get_succ] gave for its
    coordinate (given that those have one length); when it holds some,
    they stay as they are. *)
Theorem lpastar_stores_the_successors ENV start_key ss u ss' :
  lpastar_expand ENV start_key ss = Ok (u, ss') ->
  exists e s s',
    pq_top (pq_ ss) = Some e /\ u = second e /\
    store ss !! u = Some s /\ store ss' !! u = Some s' /\
    coord s' = coord s /\
    (succ_hashkey s <> [] -> succ_vectors s' = succ_vectors s) /\
    (succ_hashkey s = [] -> succ_parallel (get_succ ENV (coord s)) ->
     succ_vectors s' = get_succ ENV (coord s)).
Proof.
  intros H.
  destruct (lpastar_expand_Ok _ _ _ _ _ H)
    as (e & ss1 & cu & Htop & -> & Hsettle & Hcu & Hloop).
  assert (Hs : exists s, store ss !! second e = Some s).
  { unfold lpastar_settle in Hsettle.
    apply bind_Ok in Hsettle as ([] & ss2 & Hm & _).
    apply modify_Ok in Hm as (s & Hs & _). eauto. }
  destruct Hs as (s & Hs).
  apply lpastar_settle_succ in Hsettle.
  destruct (frame_same_succ _ _ _ _ (second e) s Hsettle Hs)
    as (cu' & Hcu' & Hc & Hv).
  assert (cu' = cu) as -> by congruence.
  assert (Hk : succ_hashkey cu = succ_hashkey s)
    by (exact (f_equal sc_key Hv)).
  exists e, s.
  destruct (succ_hashkey cu) as [| k0 ks] eqn:Ek.
  - cbv zeta in Hloop. unfold lpastar_successors in Hloop.
    set (succ := get_succ ENV (coord cu)) in *.
    match type of Hloop with
    | for_each _ _ ?st = _ =>
        destruct (lpastar_successors_fill ENV start_key (second e) succ
                    (length (sc_key succ)) 0 st ss'
                    (set_succ
                       (resize (length (sc_coord succ)) Coord_default
                               (succ_coord cu))
                       (resize (length (sc_coord succ)) Key_default [])
                       (resize (length (sc_coord succ)) 0 (succ_action_id cu))
                       (resize (length (sc_coord succ)) (Fin 0)
                               (succ_action_cost cu)) cu) Hloop)
          as (s' & Hs' & Hc' & Hf)
    end.
    { simpl. apply list_lookup_insert_eq. eapply lookup_lt_Some; exact Hcu. }
    { repeat split; simpl;
        solve [ unfold resize;
                rewrite length_app, length_take, length_replicate; lia
              | intros i Hi; lia ]. }
    exists s'.
    split; [exact Htop | split; [reflexivity | split; [exact Hs |]]].
    split; [exact Hs' | split; [simpl in Hc'; congruence |]].
    split; [intros Hne; congruence |].
    intros _ (P1 & P2 & P3). unfold succ in *. rewrite Hc in *.
    rewrite Nat.add_0_l, P1 in Hf. destruct Hf as (F1 & F2 & F3 & F4).
    unfold succ_vectors.
    rewrite (filled_all _ _ _ F1 eq_refl), (filled_all _ _ _ F2 P1),
      (filled_all _ _ _ F3 P3), (filled_all _ _ _ F4 P2).
    destruct (get_succ ENV (coord s)); reflexivity.
  - apply lpastar_successors_cached in Hloop.
    destruct (frame_same_succ _ _ _ _ _ _ Hloop Hcu) as (s' & Hs' & Hc' & Hv').
    exists s'.
    split; [exact Htop | split; [reflexivity | split; [exact Hs |]]].
    split; [exact Hs' | split; [congruence |]].
    split; [intros _; congruence | intros He; congruence].
Qed.

(** On [line_env], the first expansion of LPAstar: the start, at address
    0, takes the two edges out of position 0. *)
Lemma lpastar_stores_the_successors_witness :
  exists s',
    store lpa_ss1 !! 0%nat = Some s' /\
    succ_vectors s' = get_succ line_env (at_pos 0) /\
    succ_hashkey s' = [1; 2].
Proof.
  destruct (lpastar_stores_the_successors line_env 0 lpa_ss 0%nat lpa_ss1
              ltac:(vm_compute; reflexivity))
    as (e & s & s' & Htop & Hu & Hs & Hs' & Hc & _ & Hnew).
  assert (Hs0 : store lpa_ss !! 0%nat
                = Some (mkState 0 (at_pos 0) [] [] [] [] [] [] [] (Some 0%nat)
                          PInf (Fin 0) (Fin 0) true false))
    by (vm_compute; reflexivity).
  rewrite Hs0 in Hs. inversion Hs; subst s; clear Hs.
  exists s'. split; [exact Hs' |].
  assert (Hv : succ_vectors s' = get_succ line_env (at_pos 0)).
  { apply Hnew; [reflexivity |]. repeat split. }
  split; [exact Hv |]. exact (f_equal sc_key Hv).
Defined.

(** *** Successors stored are not asked for again *)

Lemma bind_ext {A B} (m : Op A) (k k' : A -> Op B) ss :
  (forall a ss1, m ss = Ok (a, ss1) -> k a ss1 = k' a ss1) ->
  (m ≫= k) ss = (m ≫= k') ss.
Proof.
  intros H. unfold mbind, Op_bind. destruct (m ss) as [[a ss1] | |]; auto.
Qed.

Lemma bind_cong {A B} (m m' : Op A) (k k' : A -> Op B) ss :
  m' ss = m ss ->
  (forall a ss1, m ss = Ok (a, ss1) -> k' a ss1 = k a ss1) ->
  (m' ≫= k') ss = (m ≫= k) ss.
Proof.
  intros Hm H. unfold mbind, Op_bind. rewrite Hm.
  destruct (m ss) as [[a ss1] | |]; auto.
Qed.

Lemma for_each_ext l (body body' : nat -> Op unit) :
  (forall s ss, body s ss = body' s ss) ->
  forall ss, for_each l body ss = for_each l body' ss.
Proof.
  intros Hb. induction l as [| s l IH]; intros ss; simpl; [reflexivity |].
  unfold mbind, Op_bind. rewrite Hb.
  destruct (body' s ss) as [[[] ss1] | |]; auto.
Qed.

(** Two environments with the same heuristic. *)
Definition same_heur (ENV ENV' : env_base) : Prop :=
  forall c, get_heur ENV' c = get_heur ENV c.

Lemma lpastar_process_same_heur ENV ENV' start_key curr explored succ s ss :
  same_heur ENV ENV' ->
  lpastar_process ENV' start_key curr explored succ s ss
  = lpastar_process ENV start_key curr explored succ s ss.
Proof.
  intros Hh. unfold lpastar_process.
  apply bind_ext. intros sk ss1 _.
  apply bind_cong; [| reflexivity].
  unfold lpastar_child. apply bind_ext. intros p ss2 _.
  destruct p; [reflexivity |].
  apply bind_ext. intros sc ss3 _. rewrite !make_child_eq.
  unfold heur_of. rewrite Hh. reflexivity.
Qed.

(** X12.  An expansion of LPAstar asks the environment for successors
    only when the node it pops holds none.  When the node holds some, the
    expansion is the same under any environment with the same heuristic,
    whatever its [get_succ] returns now: the edges and costs stored at the
    first expansion are the ones used. *)
Theorem lpastar_reuses_the_successors ENV ENV' start_key ss e s :
  same_heur ENV ENV' ->
  pq_top (pq_ ss) = Some e ->
  store ss !! second e = Some s ->
  succ_hashkey s <> [] ->
  lpastar_expand ENV' start_key ss = lpastar_expand ENV start_key ss.
Proof.
  intros Hh Htop Hs Hne. unfold lpastar_expand.
  apply bind_ext. intros e' ss0 He'.
  apply pq_top_op_Ok in He' as [He' ->].
  assert (e' = e) as -> by congruence. cbv zeta.
  apply bind_ext. intros [] ss0 Hpop.
  unfold pq_pop in Hpop. rewrite Htop in Hpop. inversion Hpop; subst ss0.
  clear Hpop.
  apply bind_ext. intros [] ss1 Hcl.
  apply bind_ext. intros cu0 ss2 Hld.
  apply bind_ext. intros [] ss3 Hg.
  apply bind_ext. intros cu ss4 Hld2.
  apply load_Ok in Hld2 as [Hcu ->].
  assert (Hsettle : lpastar_settle start_key (second e)
                      (with_pq (pq_remove (el_handle e) (pq_ ss)) ss)
                    = Ok (tt, ss3)).
  { unfold lpastar_settle. erewrite bind_eq by exact Hcl.
    erewrite bind_eq by exact Hld. exact Hg. }
  apply lpastar_settle_succ in Hsettle.
  destruct (frame_same_succ _ _ _ _ (second e) s Hsettle Hs)
    as (cu' & Hcu' & _ & Hv).
  assert (cu' = cu) as -> by congruence.
  assert (Hk : succ_hashkey cu = succ_hashkey s) by (exact (f_equal sc_key Hv)).
  destruct (succ_hashkey cu) as [| k0 ks] eqn:Ek; [congruence |].
  apply bind_ext. intros [explored succ] ss5 _.
  apply bind_cong; [| reflexivity].
  apply for_each_ext. intros i st.
  apply lpastar_process_same_heur, Hh.
Qed.

(** A graph where the heuristic sends the search the dear way first: the
    node of position 2 is expanded with the cost 5 of the direct edge, and
    again when the way over position 1, of cost 2, is found.  The goal, 9,
    is out of reach.  In [detour_env'] the edge out of position 2 is
    blocked. *)
Definition detour_heur (p : Z) : decimal := if p =? 1 then Fin 10 else Fin 0.

Definition detour_env : env_base :=
  graph_env [mkEdge 0 1 (Fin 1) 10; mkEdge 0 2 (Fin 5) 12;
             mkEdge 1 2 (Fin 1) 11; mkEdge 2 3 (Fin 1) 13] 9 detour_heur.

Definition detour_env' : env_base :=
  graph_env [mkEdge 0 1 (Fin 1) 10; mkEdge 0 2 (Fin 5) 12;
             mkEdge 1 2 (Fin 1) 11; mkEdge 2 3 PInf 13] 9 detour_heur.

(** The workspace LPAstar leaves on [detour_env] after four expansions:
    the node of position 2, at address 3, is on the queue again. *)
Definition detour_ss : StateSpace :=
  after (LPAstar detour_env 10 (at_pos 0) 0 [] 4 (Fin 0) ss0).

(** On [detour_ss]: the edge out of position 2 is blocked in
    [detour_env'], and the expansion of its node is the one of
    [detour_env] all the same. *)
Lemma lpastar_reuses_the_successors_witness :
  sc_cost (get_succ detour_env (mkCoord 2 (Fin 1))) = [Fin 1] /\
  sc_cost (get_succ detour_env' (mkCoord 2 (Fin 1))) = [PInf] /\
  lpastar_expand detour_env' 0 detour_ss = lpastar_expand detour_env 0 detour_ss.
Proof.
  split; [reflexivity | split; [reflexivity |]].
  eapply (lpastar_reuses_the_successors detour_env detour_env' 0 detour_ss).
  - intros c. reflexivity.
  - vm_compute. reflexivity.
  - vm_compute. reflexivity.
  - discriminate.
Defined.

(** ** The predecessor edges an expansion records *)

(** Every key of the hash map has a node, and the node has that key. *)
Definition keyed (ss : StateSpace) : Prop :=
  forall k a, hm_ ss !! k = Some a ->
    exists s, store ss !! a = Some s /\ hashkey s = k.

Lemma keyed_fresh eps dt : keyed (StateSpace_init eps dt).
Proof. intros k a H. simpl in H. rewrite lookup_empty in H. discriminate. Qed.

Lemma keyed_frame N ss ss' :
  frame same_preds same_hm N ss ss' -> keyed ss -> keyed ss'.
Proof.
  intros (Hq & _ & _ & Hs & _) Hk k a Ha. unfold same_hm in Hq.
  rewrite <- Hq in Ha. destruct (Hk k a Ha) as (s & Hsa & <-).
  destruct (Hs a s Hsa) as (s' & Hs' & Hkey & _). eauto.
Qed.

Lemma preds_of_same ss ss' k :
  frame same_preds same_hm no_new ss ss' -> preds_of ss' k = preds_of ss k.
Proof.
  intros Hf. pose proof Hf as (Hq & _ & _ & Hs & _). unfold same_hm in Hq.
  unfold preds_of. rewrite <- Hq. destruct (hm_ ss !! k) as [a|]; [| reflexivity].
  unfold preds_at. destruct (store ss !! a) as [s|] eqn:E.
  - destruct (Hs a s E) as (s' & -> & _ & Hp). exact Hp.
  - destruct (store ss' !! a) as [s'|] eqn:E'; [| reflexivity].
    destruct (frame_no_new _ _ _ _ _ _ Hf E') as (s & Hsa). congruence.
Qed.

Lemma frame_key_at N ss ss' a s :
  frame same_preds same_hm N ss ss' -> store ss !! a = Some s ->
  exists s', store ss' !! a = Some s' /\ hashkey s' = hashkey s.
Proof.
  intros (_ & _ & _ & Hs & _) Ha.
  destruct (Hs a s Ha) as (s' & Hs' & Hk & _). eauto.
Qed.

(** A node for the key [sk], found or made: the vectors of every key are
    as they were. *)
Lemma make_child_keyed ENV sk sc ss v ss1 :
  hm_ ss !! sk = None -> keyed ss ->
  make_child ENV sk sc ss = Ok (v, ss1) ->
  keyed ss1 /\ hm_ ss1 !! sk = Some v /\
  (forall k, preds_of ss1 k = preds_of ss k) /\
  (forall a s, store ss !! a = Some s -> store ss1 !! a = Some s).
Proof.
  intros Hnone Hk H. rewrite make_child_eq in H. inversion H; subst; clear H.
  simpl. split; [| split; [apply lookup_insert_eq | split]].
  - intros k a Ha. simpl in Ha. destruct (decide (k = sk)) as [-> | Hne].
    + rewrite lookup_insert_eq in Ha. inversion Ha; subst a. simpl.
      rewrite lookup_app_r by lia. rewrite Nat.sub_diag. simpl. eauto.
    + rewrite lookup_insert_ne in Ha by congruence.
      destruct (Hk k a Ha) as (s & Hs & Hkey). exists s. simpl.
      split; [| exact Hkey].
      rewrite lookup_app_l; [exact Hs | eapply lookup_lt_Some; exact Hs].
  - intros k. unfold preds_of. simpl.
    destruct (decide (k = sk)) as [-> | Hne].
    + rewrite lookup_insert_eq, Hnone. unfold preds_at. simpl.
      rewrite lookup_app_r by lia. rewrite Nat.sub_diag. reflexivity.
    + rewrite lookup_insert_ne by congruence.
      destruct (hm_ ss !! k) as [a|] eqn:Ha; [| reflexivity].
      destruct (Hk k a Ha) as (s & Hs & _). unfold preds_at. simpl.
      rewrite lookup_app_l; [reflexivity | eapply lookup_lt_Some; exact Hs].
  - intros a s Ha. rewrite lookup_app_l; [exact Ha |].
    eapply lookup_lt_Some; exact Ha.
Qed.

Lemma astar_child_keyed ENV sc sk ss v ss1 :
  keyed ss -> astar_child ENV sc sk ss = Ok (v, ss1) ->
  keyed ss1 /\ hm_ ss1 !! sk = Some v /\
  (forall k, preds_of ss1 k = preds_of ss k) /\
  (forall a s, store ss !! a = Some s -> store ss1 !! a = Some s).
Proof.
  intros Hk H. destruct (hm_ ss !! sk) as [v0|] eqn:E.
  - rewrite (astar_child_found _ _ _ _ _ E) in H. inversion H; subst; clear H.
    auto.
  - rewrite (astar_child_new _ _ _ _ E) in H.
    eapply make_child_keyed; eassumption.
Qed.

Lemma lpastar_child_keyed ENV succ s sk ss v ss1 :
  keyed ss -> lpastar_child ENV succ s sk ss = Ok (v, ss1) ->
  keyed ss1 /\ hm_ ss1 !! sk = Some v /\
  (forall k, preds_of ss1 k = preds_of ss k) /\
  (forall a s, store ss !! a = Some s -> store ss1 !! a = Some s).
Proof.
  intros Hk H. unfold lpastar_child in H.
  apply bind_Ok in H as (p & ss0 & Hp & H). apply gets_Ok in Hp as [-> ->].
  destruct (hm_ ss !! sk) as [v0|] eqn:E.
  - apply ret_Ok in H as [-> ->]. auto.
  - apply bind_Ok in H as (sc & ss0 & Hsc & H). apply index_Ok in Hsc as [_ ->].
    eapply make_child_keyed; eassumption.
Qed.

(** The edge pushed onto the vectors of the node of [sk]: those of every
    other key are as they were. *)
Lemma record_pred_keyed curr v cost act ss x ss' cu sk :
  record_pred curr v cost act ss = Ok (x, ss') ->
  store ss !! curr = Some cu -> keyed ss -> hm_ ss !! sk = Some v ->
  keyed ss' /\
  preds_of ss' sk = with_pred (preds_of ss sk) (hashkey cu) cost act /\
  (forall k, k <> sk -> preds_of ss' k = preds_of ss k) /\
  (forall a s, store ss !! a = Some s ->
     exists s', store ss' !! a = Some s' /\ hashkey s' = hashkey s).
Proof.
  intros H Hc Hk Hv.
  destruct (record_pred_preds _ _ _ _ _ _ _ _ H Hc) as (Hhm & Hp & Hoth & Hkey).
  split; [| split; [| split; [| exact Hkey]]].
  - intros k a Ha. rewrite Hhm in Ha. destruct (Hk k a Ha) as (s & Hs & <-).
    apply (Hkey a s Hs).
  - unfold preds_of. rewrite Hhm, Hv. exact Hp.
  - intros k Hne. unfold preds_of. rewrite Hhm.
    destruct (hm_ ss !! k) as [a|] eqn:Ha; [| reflexivity].
    assert (a <> v).
    { intros ->. destruct (Hk k v Ha) as (s1 & Hs1 & Hk1).
      destruct (Hk sk v Hv) as (s2 & Hs2 & Hk2). congruence. }
    unfold preds_at. rewrite (Hoth a) by assumption. reflexivity.
Qed.

(** The edge round [s] of the successor loop holds for the key [k]: the
    cost and the action of successor [s] when its key is [k]; Astar leaves
    out a successor of infinite cost, LPAstar does not. *)
Definition astar_edge (succ : Successors) (k : Key) (s : nat)
  : option (decimal * Z) :=
  match sc_cost succ !! s, sc_key succ !! s, sc_act_id succ !! s with
  | Some cost, Some sk, Some act =>
      if negb (isinf cost) && (sk =? k) then Some (cost, act) else None
  | _, _, _ => None
  end.

Definition lpastar_edge (succ : Successors) (k : Key) (s : nat)
  : option (decimal * Z) :=
  match sc_cost succ !! s, sc_key succ !! s, sc_act_id succ !! s with
  | Some cost, Some sk, Some act =>
      if sk =? k then Some (cost, act) else None
  | _, _, _ => None
  end.

(** The edge from the key [ku] appended; and appended only when [ku] is
    not among the predecessor keys already. *)
Definition push_edge (ku : Key) (p : list Key * list decimal * list Z)
    (e : decimal * Z) : list Key * list decimal * list Z :=
  with_pred p ku e.1 e.2.

Definition push_new_edge (ku : Key) (p : list Key * list decimal * list Z)
    (e : decimal * Z) : list Key * list decimal * list Z :=
  if decide (ku ∈ p.1.1) then p else with_pred p ku e.1 e.2.

(** One round of the successor loop of Astar, for every key. *)
Lemma astar_process_edges ENV curr succ s ss x ss' cu :
  astar_process ENV curr succ s ss = Ok (x, ss') ->
  keyed ss -> store ss !! curr = Some cu ->
  keyed ss' /\
  (exists cu', store ss' !! curr = Some cu' /\ hashkey cu' = hashkey cu) /\
  forall k,
    preds_of ss' k = match astar_edge succ k s with
                     | Some e => push_edge (hashkey cu) (preds_of ss k) e
                     | None => preds_of ss k
                     end.
Proof.
  intros H Hk Hc. unfold astar_process in H.
  apply bind_Ok in H as (cost & ss0 & Hi & H).
  apply index_Ok in Hi as [Hcost ->].
  unfold astar_edge. rewrite Hcost.
  destruct (isinf cost) eqn:Einf.
  { apply ret_Ok in H as [_ ->]. split; [exact Hk | split; [eauto |]].
    intros k. simpl. destruct (sc_key succ !! s); [| reflexivity].
    destruct (sc_act_id succ !! s); reflexivity. }
  apply bind_Ok in H as (sk & ss0 & Hi & H). apply index_Ok in Hi as [Hsk ->].
  apply bind_Ok in H as (sc & ss0 & Hi & H). apply index_Ok in Hi as [_ ->].
  apply bind_Ok in H as (act & ss0 & Hi & H). apply index_Ok in Hi as [Hact ->].
  rewrite Hsk, Hact. simpl negb. cbv beta iota.
  unfold astar_succ in H.
  apply bind_Ok in H as (v & ss1 & Hch & H).
  apply bind_Ok in H as ([] & ss2 & Hrec & H).
  destruct (astar_child_keyed _ _ _ _ _ _ Hk Hch) as (Hk1 & Hv1 & Hp1 & Hold1).
  pose proof (Hold1 _ _ Hc) as Hc1.
  destruct (record_pred_keyed _ _ _ _ _ _ _ _ _ Hrec Hc1 Hk1 Hv1)
    as (Hk2 & Hp2 & Hoth2 & Hkey2).
  pose proof (astar_relax_preds _ _ _ _ _ _ H) as Hf.
  split; [eapply keyed_frame; eassumption | split].
  - destruct (Hkey2 _ _ Hc1) as (cu2 & Hc2 & Hkc2).
    destruct (frame_key_at _ _ _ _ _ Hf Hc2) as (cu3 & Hc3 & Hkc3).
    exists cu3. split; [exact Hc3 | congruence].
  - intros k. rewrite (preds_of_same _ _ k Hf). simpl.
    destruct (sk =? k) eqn:E.
    + apply Z.eqb_eq in E as <-. unfold push_edge. simpl.
      rewrite Hp2, Hp1. reflexivity.
    + apply Z.eqb_neq in E. rewrite Hoth2 by congruence. apply Hp1.
Qed.

(** One round of the successor loop of LPAstar, for every key. *)
Lemma lpastar_process_edges ENV start_key curr explored succ s ss x ss' cu :
  lpastar_process ENV start_key curr explored succ s ss = Ok (x, ss') ->
  keyed ss -> store ss !! curr = Some cu ->
  keyed ss' /\
  (exists cu', store ss' !! curr = Some cu' /\ hashkey cu' = hashkey cu) /\
  forall k,
    preds_of ss' k = match lpastar_edge succ k s with
                     | Some e => push_new_edge (hashkey cu) (preds_of ss k) e
                     | None => preds_of ss k
                     end.
Proof.
  intros H Hk Hc. unfold lpastar_process in H.
  apply bind_Ok in H as (sk & ss0 & Hi & H). apply index_Ok in Hi as [Hsk ->].
  apply bind_Ok in H as (v & ss1 & Hch & H).
  apply bind_Ok in H as (u1 & ss2 & Hstore & H).
  apply bind_Ok in H as (u2 & ss3 & Hrec & Hupd).
  destruct (lpastar_child_keyed _ _ _ _ _ _ _ Hk Hch)
    as (Hk1 & Hv1 & Hp1 & Hold1).
  pose proof (Hold1 _ _ Hc) as Hc1.
  assert (Hf2 : frame same_preds same_hm no_new ss1 ss2).
  { destruct explored.
    - eapply lpastar_store_succ_preds; eassumption.
    - apply ret_Ok in Hstore as [_ ->]. apply frame_refl; exact _. }
  pose proof (keyed_frame _ _ _ Hf2 Hk1) as Hk2.
  destruct (frame_key_at _ _ _ _ _ Hf2 Hc1) as (cu2 & Hc2 & Hkc2).
  assert (Hv2 : hm_ ss2 !! sk = Some v).
  { destruct Hf2 as (Hq & _). unfold same_hm in Hq. now rewrite <- Hq. }
  pose proof (updateNode_preds _ _ _ _ _ Hupd) as Hf3.
  (* the recording *)
  assert (Hrec' :
    keyed ss3 /\
    (exists cu3, store ss3 !! curr = Some cu3 /\ hashkey cu3 = hashkey cu) /\
    (forall k, k <> sk -> preds_of ss3 k = preds_of ss2 k) /\
    (hashkey cu ∈ (preds_of ss2 sk).1.1 -> preds_of ss3 sk = preds_of ss2 sk) /\
    (hashkey cu ∉ (preds_of ss2 sk).1.1 ->
     exists cost act,
       sc_cost succ !! s = Some cost /\ sc_act_id succ !! s = Some act /\
       preds_of ss3 sk = with_pred (preds_of ss2 sk) (hashkey cu) cost act)).
  { unfold lpastar_record_pred in Hrec.
    apply bind_Ok in Hrec as (sv & st & Hsv & Hrec).
    apply load_Ok in Hsv as [Hsv ->].
    apply bind_Ok in Hrec as (cu' & st & Hcu & Hrec).
    apply load_Ok in Hcu as [Hcu ->].
    assert (cu' = cu2) as -> by congruence.
    assert (Hpa : (preds_of ss2 sk).1.1 = pred_hashkey sv)
      by (unfold preds_of, preds_at; rewrite Hv2, Hsv; reflexivity).
    rewrite Hpa, <- Hkc2.
    destruct (find_pred (hashkey cu2) (pred_hashkey sv) 0 =? -1) eqn:E.
    - apply Z.eqb_eq in E. apply (find_pred_no _ _ 0) in E; [| lia].
      apply bind_Ok in Hrec as (cost & st & Hcost & Hrec).
      apply index_Ok in Hcost as [Hcost ->].
      apply bind_Ok in Hrec as (act & st & Hact & Hrec).
      apply index_Ok in Hact as [Hact ->].
      destruct (record_pred_keyed _ _ _ _ _ _ _ _ _ Hrec Hc2 Hk2 Hv2)
        as (Hk3 & Hp3 & Hoth3 & Hkey3).
      split; [exact Hk3 | split; [apply (Hkey3 _ _ Hc2) | split; [exact Hoth3 |]]].
      split; [intros Hin; contradiction |].
      intros _. exists cost, act. auto.
    - apply Z.eqb_neq in E. apply ret_Ok in Hrec as [_ ->].
      split; [exact Hk2 | split; [eauto | split; [reflexivity |]]].
      split; [reflexivity |].
      intros Hn. apply (find_pred_no _ _ 0) in Hn; [contradiction | lia]. }
  destruct Hrec' as (Hk3 & (cu3 & Hc3 & Hkc3) & Hoth & Hin & Hnotin).
  split; [eapply keyed_frame; eassumption | split].
  - destruct (frame_key_at _ _ _ _ _ Hf3 Hc3) as (cu4 & Hc4 & Hkc4).
    exists cu4. split; [exact Hc4 | congruence].
  - intros k. rewrite (preds_of_same _ _ k Hf3).
    assert (Hp2 : forall k', preds_of ss2 k' = preds_of ss k')
      by (intros k'; rewrite (preds_of_same _ _ k' Hf2); apply Hp1).
    unfold lpastar_edge. rewrite Hsk.
    destruct (decide (sk = k)) as [<- | Hne].
    + rewrite Z.eqb_refl. unfold push_new_edge.
      rewrite <- (Hp2 sk).
      destruct (decide (hashkey cu ∈ (preds_of ss2 sk).1.1)) as [Hi | Hni].
      * rewrite (Hin Hi).
        destruct (sc_cost succ !! s); [| reflexivity].
        destruct (sc_act_id succ !! s); reflexivity.
      * destruct (Hnotin Hni) as (cost & act & -> & -> & ->). reflexivity.
    + rewrite (Hoth k) by congruence. rewrite Hp2.
      apply Z.eqb_neq in Hne. rewrite Hne.
      destruct (sc_cost succ !! s); [| reflexivity].
      destruct (sc_act_id succ !! s); reflexivity.
Qed.

(** The rounds of a successor loop, one after the other. *)
Lemma for_each_edges (body : nat -> Op unit)
    (edge : Key -> nat -> option (decimal * Z))
    (push : list Key * list decimal * list Z -> decimal * Z ->
            list Key * list decimal * list Z) curr ku l :
  (forall s ss x ss' cu,
     body s ss = Ok (x, ss') -> keyed ss -> store ss !! curr = Some cu ->
     hashkey cu = ku ->
     keyed ss' /\
     (exists cu', store ss' !! curr = Some cu' /\ hashkey cu' = ku) /\
     forall k, preds_of ss' k = match edge k s with
                                | Some e => push (preds_of ss k) e
                                | None => preds_of ss k
                                end) ->
  forall ss x ss' cu,
    for_each l body ss = Ok (x, ss') -> keyed ss ->
    store ss !! curr = Some cu -> hashkey cu = ku ->
    keyed ss' /\
    forall k, preds_of ss' k = foldl push (preds_of ss k) (omap (edge k) l).
Proof.
  intros Hb. induction l as [| s l IH]; intros ss x ss' cu H Hk Hc Hku;
    simpl in H.
  - apply ret_Ok in H as [_ ->]. split; [exact Hk | reflexivity].
  - apply bind_Ok in H as (y & ss1 & H1 & H).
    destruct (Hb _ _ _ _ _ H1 Hk Hc Hku) as (Hk1 & (cu1 & Hc1 & Hku1) & Hp1).
    destruct (IH _ _ _ _ H Hk1 Hc1 Hku1) as (Hk' & Hp').
    split; [exact Hk' |].
    intros k. rewrite Hp', Hp1. simpl.
    destruct (edge k s); reflexivity.
Qed.

Lemma keyed_new_node ss sk s_new q' :
  keyed ss -> hashkey s_new = sk ->
  keyed (mkSS (store ss ++ [s_new]) q'
              (<[sk := length (store ss)]> (hm_ ss))
              (eps_ ss) (dt_ ss) (max_t_ ss) (expand_iteration_ ss)
              (best_child_ ss)).
Proof.
  intros Hk Hs k a Ha. simpl in *. destruct (decide (k = sk)) as [-> | Hne].
  - rewrite lookup_insert_eq in Ha. inversion Ha; subst a.
    rewrite lookup_app_r by lia. rewrite Nat.sub_diag. simpl. eauto.
  - rewrite lookup_insert_ne in Ha by congruence.
    destruct (Hk k a Ha) as (s & Hsa & Hkey). exists s.
    split; [| exact Hkey].
    rewrite lookup_app_l; [exact Hsa | eapply lookup_lt_Some; exact Hsa].
Qed.

Lemma astar_init_keyed ENV sc sk ss x ss' :
  keyed ss -> astar_init ENV sc sk ss = Ok (x, ss') -> keyed ss'.
Proof.
  intros Hk H. destruct (pq_is_empty (pq_ ss)) eqn:Hq.
  - rewrite (astar_init_eq _ _ _ _ Hq) in H. inversion H; subst ss'.
    apply keyed_new_node; [exact Hk | reflexivity].
  - unfold astar_init, pq_empty, gets, mbind, Op_bind in H. rewrite Hq in H.
    apply ret_Ok in H as [_ ->]. exact Hk.
Qed.

Lemma lpastar_init_keyed ENV sc sk ss x ss' :
  keyed ss -> lpastar_init ENV sc sk ss = Ok (x, ss') -> keyed ss'.
Proof.
  intros Hk H. destruct (hm_ ss !! sk) as [a|] eqn:Hhm.
  - rewrite (lpastar_init_found _ _ _ _ _ Hhm) in H.
    inversion H; subst ss'. exact Hk.
  - rewrite (lpastar_init_eq _ _ _ _ Hhm) in H. inversion H; subst ss'.
    apply keyed_new_node; [exact Hk | reflexivity].
Qed.

Lemma lpastar_settle_preds start_key curr :
  keeps same_preds same_hm no_new (lpastar_settle start_key curr).
Proof. unfold lpastar_settle, updateNode. p_keeps. Qed.

(** C5.  The predecessor edges an expansion records, on a workspace whose
    keys have their nodes (a fresh one has, and the searches keep it so).
    [cu] is the object of the expanded node and [succ] its successors:
    those [get_succ] gives for its coordinate, or, in LPAstar, those
    stored on the node when there are any.

    In Astar the predecessor vectors of every key [k] are, after the
    expansion, what they were with one entry [(cu.hashkey, cost, act)]
    appended for each successor of key [k] whose cost is not infinite, in
    the order of the successors: no condition on the g-values, none on
    what the vectors hold already, so that a successor met again is
    entered again.  In LPAstar the entry of a successor of key [k] is
    appended only when the key of [cu] is not among the predecessor keys
    of [k] at that moment, and left out otherwise. *)
Theorem pred_edge_recording ENV ss :
  keyed ss ->
  (forall u ss',
     astar_expand ENV ss = Ok (u, ss') ->
     keyed ss' /\
     exists cu,
       store ss !! u = Some cu /\
       forall k,
         preds_of ss' k
         = foldl (push_edge (hashkey cu)) (preds_of ss k)
             (omap (astar_edge (get_succ ENV (coord cu)) k)
                   (seq 0 (length (sc_coord (get_succ ENV (coord cu))))))) /\
  (forall start_key u ss',
     lpastar_expand ENV start_key ss = Ok (u, ss') ->
     keyed ss' /\
     exists cu succ,
       store ss !! u = Some cu /\
       succ = match succ_hashkey cu with
              | [] => get_succ ENV (coord cu)
              | _ :: _ => succ_vectors cu
              end /\
       forall k,
         preds_of ss' k
         = foldl (push_new_edge (hashkey cu)) (preds_of ss k)
             (omap (lpastar_edge succ k) (seq 0 (length (sc_key succ))))).
Proof.
  intros Hk. split.
  - intros u ss' H. unfold astar_expand in H.
    apply bind_Ok in H as (e & ss0 & Htop & H).
    apply pq_top_op_Ok in Htop as [_ ->]. cbv zeta in H.
    apply bind_Ok in H as ([] & ss1 & Hpop & H).
    apply bind_Ok in H as ([] & ss2 & Hmod & H).
    apply bind_Ok in H as (cu1 & ss3 & Hl & H).
    apply load_Ok in Hl as [Hcu1 ->]. cbv zeta in H.
    apply bind_Ok in H as ([] & ss3 & Hloop & H).
    apply ret_Ok in H as [-> ->].
    assert (Hf : frame same_preds same_hm no_new ss ss2).
    { assert (Hkp : keeps same_preds same_hm no_new
                      (pq_pop ;; modify (second e) (set_iterationclosed true)))
        by p_keeps.
      eapply (Hkp ss tt ss2). unfold mbind, Op_bind. rewrite Hpop. exact Hmod. }
    apply pq_pop_Ok in Hpop as (q & ->).
    apply modify_Ok in Hmod as (cu & Hcu & ->).
    simpl in Hcu.
    assert (cu1 = set_iterationclosed true cu) as ->.
    { simpl in Hcu1. rewrite list_lookup_insert_eq in Hcu1
        by (eapply lookup_lt_Some; exact Hcu). congruence. }
    change (coord (set_iterationclosed true cu)) with (coord cu) in Hloop.
    assert (Hround : forall s st x st' c,
              astar_process ENV (second e) (get_succ ENV (coord cu)) s st
              = Ok (x, st') ->
              keyed st -> store st !! second e = Some c ->
              hashkey c = hashkey cu ->
              keyed st' /\
              (exists cu', store st' !! second e = Some cu' /\
                           hashkey cu' = hashkey cu) /\
              forall k,
                preds_of st' k
                = match astar_edge (get_succ ENV (coord cu)) k s with
                  | Some e0 => push_edge (hashkey cu) (preds_of st k) e0
                  | None => preds_of st k
                  end).
    { intros s st x st' c H0 Hk0 Hc0 Hkc0. rewrite <- Hkc0.
      eapply astar_process_edges; eassumption. }
    destruct (for_each_edges _ (astar_edge (get_succ ENV (coord cu)))
                (push_edge (hashkey cu)) (second e) (hashkey cu) _ Hround
                _ _ _ _ Hloop (keyed_frame _ _ _ Hf Hk) Hcu1 eq_refl)
      as (Hk' & Hp').
    split; [exact Hk' |]. exists cu. split; [exact Hcu |].
    intros k. rewrite Hp', (preds_of_same _ _ k Hf). reflexivity.
  - intros start_key u ss' H.
    destruct (lpastar_expand_Ok _ _ _ _ _ H)
      as (e & ss1 & cu1 & Htop & -> & Hsettle & Hcu1 & Hbr).
    set (ssq := with_pq (pq_remove (el_handle e) (pq_ ss)) ss) in *.
    pose proof (lpastar_settle_preds _ _ _ _ _ Hsettle) as Hf.
    pose proof (lpastar_settle_succ _ _ _ _ _ Hsettle) as Hfs.
    assert (Hkq : keyed ssq) by exact Hk.
    pose proof (keyed_frame _ _ _ Hf Hkq) as Hk1.
    destruct (frame_no_new _ _ _ _ _ _ Hf Hcu1) as (cu & Hcu).
    destruct (frame_same_succ _ _ _ _ _ _ Hfs Hcu)
      as (cu1' & Hcu1' & Hco & Hsv).
    assert (cu1' = cu1) as -> by congruence.
    destruct (frame_key_at _ _ _ _ _ Hf Hcu) as (cu1'' & Hcu1'' & Hkc).
    assert (cu1'' = cu1) as -> by congruence.
    assert (Hsh : succ_hashkey cu1 = succ_hashkey cu)
      by (exact (f_equal sc_key Hsv)).
    assert (Hround : forall explored succ s st x st' c,
              lpastar_process ENV start_key (second e) explored succ s st
              = Ok (x, st') ->
              keyed st -> store st !! second e = Some c ->
              hashkey c = hashkey cu ->
              keyed st' /\
              (exists cu', store st' !! second e = Some cu' /\
                           hashkey cu' = hashkey cu) /\
              forall k,
                preds_of st' k
                = match lpastar_edge succ k s with
                  | Some e0 => push_new_edge (hashkey cu) (preds_of st k) e0
                  | None => preds_of st k
                  end).
    { intros explored succ s st x st' c H0 Hk0 Hc0 Hkc0.
      rewrite <- Hkc0.
      eapply lpastar_process_edges; eassumption. }
    assert (Hpq : forall k, preds_of ss1 k = preds_of ss k).
    { intros k. rewrite (preds_of_same _ _ k Hf). reflexivity. }
    rewrite Hsh in Hbr. destruct (succ_hashkey cu) as [| k0 ks] eqn:Esh.
    + cbv zeta in Hbr. unfold lpastar_successors in Hbr.
      lazymatch type of Hbr with
      | for_each _ _ (with_store (<[_ := ?c]> _) _) = _ =>
          set (cu2 := c) in *
      end.
      assert (Hf2 : frame same_preds same_hm no_new ss1
                      (with_store (<[second e := cu2]> (store ss1)) ss1)).
      { apply (frame_modify same_preds same_hm no_new _ _ cu1 _ Hcu1).
        split; reflexivity. }
      assert (Hcu2 : store (with_store (<[second e := cu2]> (store ss1)) ss1)
                     !! second e = Some cu2).
      { simpl. apply list_lookup_insert_eq. eapply lookup_lt_Some; exact Hcu1. }
      rewrite Hco in Hbr.
      destruct (for_each_edges _ (lpastar_edge (get_succ ENV (coord cu)))
                  (push_new_edge (hashkey cu)) (second e) (hashkey cu) _
                  (Hround true (get_succ ENV (coord cu)))
                  _ _ _ _ Hbr (keyed_frame _ _ _ Hf2 Hk1) Hcu2 Hkc)
        as (Hk' & Hp').
      split; [exact Hk' |]. exists cu, (get_succ ENV (coord cu)).
      split; [exact Hcu | split; [rewrite Esh; reflexivity |]].
      intros k. rewrite Hp', (preds_of_same _ _ k Hf2), Hpq. reflexivity.
    + unfold lpastar_successors in Hbr. rewrite Hsv in Hbr.
      destruct (for_each_edges _ (lpastar_edge (succ_vectors cu))
                  (push_new_edge (hashkey cu)) (second e) (hashkey cu) _
                  (Hround false (succ_vectors cu))
                  _ _ _ _ Hbr Hk1 Hcu1 Hkc)
        as (Hk' & Hp').
      split; [exact Hk' |]. exists cu, (succ_vectors cu).
      split; [exact Hcu | split; [rewrite Esh; reflexivity |]].
      intros k. rewrite Hp', Hpq. reflexivity.
Qed.

(** Two edges from 0 to 1, by different actions; the goal is out of
    reach. *)
Definition twin_env : env_base :=
  graph_env [mkEdge 0 1 (Fin 1) 10; mkEdge 0 1 (Fin 2) 13] 5 no_heur.

(** The workspaces of Astar and of LPAstar on [twin_env] with their start
    nodes. *)
Definition twin_ss : StateSpace :=
  after (astar_init twin_env (at_pos 0) 0 ss0).
Definition twin_lpa_ss : StateSpace :=
  after (lpastar_init twin_env (at_pos 0) 0 ss0).

(** On [twin_env], the expansion of the start: Astar enters both edges
    among the predecessors of the key 1, LPAstar the first only. *)
Lemma pred_edge_recording_witness :
  (exists ss',
     astar_expand twin_env twin_ss = Ok (0%nat, ss') /\
     preds_of twin_ss 1 = ([], [], []) /\
     preds_of ss' 1 = ([0; 0], [Fin 1; Fin 2], [10; 13])) /\
  (exists ss',
     lpastar_expand twin_env 0 twin_lpa_ss = Ok (0%nat, ss') /\
     preds_of twin_lpa_ss 1 = ([], [], []) /\
     preds_of ss' 1 = ([0], [Fin 1], [10])).
Proof.
  assert (Hka : keyed twin_ss).
  { eapply (astar_init_keyed twin_env (at_pos 0) 0 ss0 tt);
      [apply keyed_fresh | vm_compute; reflexivity]. }
  assert (Hkl : keyed twin_lpa_ss).
  { eapply (lpastar_init_keyed twin_env (at_pos 0) 0 ss0 tt);
      [apply keyed_fresh | vm_compute; reflexivity]. }
  split.
  - assert (H : astar_expand twin_env twin_ss
                = Ok (0%nat, after (astar_expand twin_env twin_ss)))
      by (vm_compute; reflexivity).
    eexists. split; [exact H | split; [vm_compute; reflexivity |]].
    destruct (proj1 (pred_edge_recording twin_env twin_ss Hka) _ _ H)
      as (_ & cu & Hcu & Hp).
    vm_compute in Hcu. injection Hcu as <-.
    rewrite Hp. vm_compute. reflexivity.
  - assert (H : lpastar_expand twin_env 0 twin_lpa_ss
                = Ok (0%nat, after (lpastar_expand twin_env 0 twin_lpa_ss)))
      by (vm_compute; reflexivity).
    eexists. split; [exact H | split; [vm_compute; reflexivity |]].
    destruct (proj2 (pred_edge_recording twin_env twin_lpa_ss Hkl) _ _ _ H)
      as (_ & cu & succ & Hcu & -> & Hp).
    vm_compute in Hcu. injection Hcu as <-.
    rewrite Hp. vm_compute. reflexivity.
Defined.

(** ** A workspace in order, and the faults Astar cannot end in *)

(** A run that ends in a result that satisfies [Q], or runs out of fuel, or
    stops at the overflow of the expansion counter: no null pointer is
    dereferenced, no vector indexed out of range, no handle used that is
    not in the queue, and the queue is not read when empty. *)
Definition wp {A} (m : Op A) (Q : A -> StateSpace -> Prop) (ss : StateSpace)
  : Prop :=
  match m ss with
  | Ok (a, ss') => Q a ss'
  | Fault f => f = IntOverflow
  | OutOfFuel => True
  end.

Lemma wp_ret {A} (a : A) Q ss : Q a ss -> wp (mret a) Q ss.
Proof. intros H. exact H. Qed.

Lemma wp_bind {A B} (m : Op A) (k : A -> Op B) Q ss :
  wp m (fun a ss' => wp (k a) Q ss') ss -> wp (m ≫= k) Q ss.
Proof.
  unfold wp, mbind, Op_bind. destruct (m ss) as [[a ss1] | f |]; auto.
Qed.

Lemma wp_mono {A} (m : Op A) (Q Q' : A -> StateSpace -> Prop) ss :
  (forall a ss', Q a ss' -> Q' a ss') -> wp m Q ss -> wp m Q' ss.
Proof.
  unfold wp. intros HQ. destruct (m ss) as [[a ss1] | f |]; auto.
Qed.

Lemma wp_eq {A} (m : Op A) Q ss a ss' :
  m ss = Ok (a, ss') -> Q a ss' -> wp m Q ss.
Proof. unfold wp. intros ->. auto. Qed.

Lemma wp_Ok {A} (m : Op A) Q ss a ss' :
  wp m Q ss -> m ss = Ok (a, ss') -> Q a ss'.
Proof. unfold wp. intros H E. rewrite E in H. exact H. Qed.

Lemma wp_for_each (I : StateSpace -> Prop) l body ss :
  (forall s ss1, s ∈ l -> I ss1 -> wp (body s) (fun _ => I) ss1) ->
  I ss -> wp (for_each l body) (fun _ => I) ss.
Proof.
  revert ss. induction l as [| s l IH]; intros ss Hb HI; simpl.
  - exact HI.
  - apply wp_bind. eapply wp_mono; [| apply Hb; [left | exact HI]].
    intros [] ss1 HI1. apply IH; [| exact HI1].
    intros s' ss2 Hs'. apply Hb. now right.
Qed.

Lemma wp_load a Q ss s :
  store ss !! a = Some s -> Q s ss -> wp (load a) Q ss.
Proof. intros Hs HQ. eapply wp_eq; [apply load_eq, Hs | exact HQ]. Qed.

Lemma wp_modify a f Q ss s :
  store ss !! a = Some s ->
  Q tt (with_store (<[a := f s]> (store ss)) ss) -> wp (modify a f) Q ss.
Proof. intros Hs HQ. eapply wp_eq; [apply modify_eq, Hs | exact HQ]. Qed.

Lemma wp_index {A} (l : list A) i Q ss x :
  l !! i = Some x -> Q x ss -> wp (index l i) Q ss.
Proof. intros Hx HQ. eapply wp_eq; [apply index_eq, Hx | exact HQ]. Qed.

Lemma wp_gets {A} (f : StateSpace -> A) Q ss :
  Q (f ss) ss -> wp (gets f) Q ss.
Proof. intros HQ. exact HQ. Qed.

(** *** The workspace in order *)

(** The entry of the node at [a] under the handle [hd]. *)
Definition queued (q : priorityQueue) (hd a : nat) : Prop :=
  exists e, e ∈ elems q /\ el_handle e = hd /\ second e = a.

(** A node that is open and not closed has its handle, and the entry
    under that handle is its own. *)
Definition open_ok (q : priorityQueue) (a : nat) (s : State) : Prop :=
  iterationopened s = true -> iterationclosed s = false ->
  exists hd, heapkey s = Some hd /\ queued q hd a.

Record in_order (ss : StateSpace) : Prop := mk_in_order {
  (* every key of the hash map has a node, of that key *)
  io_hm : forall k a, hm_ ss !! k = Some a ->
            exists s, store ss !! a = Some s /\ hashkey s = k;
  (* every entry of the queue points to a node, the one of its key *)
  io_pq : forall e, e ∈ elems (pq_ ss) ->
            (el_handle e < next_handle (pq_ ss))%nat /\
            exists s, store ss !! second e = Some s /\
                      hm_ ss !! hashkey s = Some (second e);
  (* no handle is given twice *)
  io_handles : NoDup (map el_handle (elems (pq_ ss)));
  io_open : forall a s, store ss !! a = Some s -> open_ok (pq_ ss) a s;
  (* every recorded predecessor key has a node *)
  io_pred_keys : forall a s k, store ss !! a = Some s ->
                   k ∈ pred_hashkey s -> is_Some (hm_ ss !! k);
  io_pred_parallel : forall a s, store ss !! a = Some s -> pred_parallel s
}.

(** The successors [get_succ] gives can be read at every index the loop
    of Astar runs over. *)
Definition succ_in_range (succ : Successors) : Prop :=
  (length (sc_coord succ) <= length (sc_cost succ))%nat /\
  (length (sc_coord succ) <= length (sc_key succ))%nat /\
  (length (sc_coord succ) <= length (sc_act_id succ))%nat.

Definition env_in_range (ENV : env_base) : Prop :=
  forall c, succ_in_range (get_succ ENV c).

Lemma in_order_fresh eps dt : in_order (StateSpace_init eps dt).
Proof.
  constructor; simpl.
  - intros k a H. rewrite lookup_empty in H. discriminate.
  - intros e H. apply elem_of_nil in H. destruct H.
  - constructor.
  - intros a s H. destruct a; discriminate.
  - intros a s k H. destruct a; discriminate.
  - intros a s H. destruct a; discriminate.
Qed.

(** The order does not depend on the scalars of the workspace. *)
Lemma in_order_same ss ss' :
  store ss' = store ss -> pq_ ss' = pq_ ss -> hm_ ss' = hm_ ss ->
  in_order ss -> in_order ss'.
Proof.
  intros Hs Hq Hh [H1 H2 H3 H4 H5 H6].
  constructor; rewrite ?Hs, ?Hq, ?Hh; assumption.
Qed.

(** *** The queue *)

Lemma pq_min_in best l : pq_min best l = best \/ pq_min best l ∈ l.
Proof.
  revert best. induction l as [| e l IH]; intros best; simpl; [now left |].
  destruct (ltb (first e) (first best)).
  - destruct (IH e) as [-> | H]; right; [left | now right].
  - destruct (IH best) as [-> | H]; [now left | right; now right].
Qed.

Lemma pq_top_in q e : pq_top q = Some e -> e ∈ elems q.
Proof.
  unfold pq_top. destruct (elems q) as [| e0 l]; [discriminate |].
  intros H. inversion H; subst.
  destruct (pq_min_in e0 l) as [-> | Hin]; [left | now right].
Qed.

Lemma queued_has q hd a : queued q hd a -> pq_has hd q = true.
Proof.
  intros (e & He & Hh & _). unfold pq_has. apply existsb_exists.
  exists e. split; [now apply list_elem_of_In | now apply Nat.eqb_eq].
Qed.

Lemma queued_insert q f v hd a :
  queued q hd a -> queued (pq_insert f v q).2 hd a.
Proof.
  intros (e & He & Hh & Ha). exists e. simpl.
  split; [apply elem_of_app; now left | auto].
Qed.

Lemma queued_new q f v : queued (pq_insert f v q).2 (next_handle q) v.
Proof.
  exists (mkElem (next_handle q) f v). simpl.
  split; [apply elem_of_app; right; left | auto].
Qed.

Lemma queued_set_first q hd0 f hd a :
  queued q hd a -> queued (pq_set_first hd0 f q) hd a.
Proof.
  intros (e & He & Hh & Ha). unfold pq_set_first. simpl.
  exists (if Nat.eqb (el_handle e) hd0 then mkElem (el_handle e) f (second e)
          else e).
  split.
  - apply list_elem_of_fmap. exists e. auto.
  - destruct (Nat.eqb (el_handle e) hd0); auto.
Qed.

Lemma handles_set_first q hd0 f :
  map el_handle (elems (pq_set_first hd0 f q)) = map el_handle (elems q).
Proof.
  unfold pq_set_first. simpl. rewrite map_map. apply map_ext.
  intros e. destruct (Nat.eqb (el_handle e) hd0); reflexivity.
Qed.

Lemma elem_set_first q hd0 f e' :
  e' ∈ elems (pq_set_first hd0 f q) ->
  exists e, e ∈ elems q /\ el_handle e' = el_handle e /\ second e' = second e.
Proof.
  unfold pq_set_first. simpl. intros H.
  apply list_elem_of_fmap in H as (e & -> & He).
  exists e. split; [exact He |].
  destruct (Nat.eqb (el_handle e) hd0); auto.
Qed.

Lemma elem_remove q hd e :
  e ∈ elems (pq_remove hd q) <-> e ∈ elems q /\ el_handle e <> hd.
Proof.
  unfold pq_remove. simpl. rewrite list_elem_of_filter. tauto.
Qed.

Lemma handles_remove q hd :
  NoDup (map el_handle (elems q)) ->
  NoDup (map el_handle (elems (pq_remove hd q))).
Proof.
  unfold pq_remove. simpl.
  induction (elems q) as [| e l IH]; simpl; [constructor |].
  intros Hnd. apply NoDup_cons in Hnd as [Hnot Hnd].
  destruct (decide (el_handle e ≠ hd)) as [Hne | He].
  - rewrite filter_cons_True by exact Hne. simpl. apply NoDup_cons.
    split; [| auto].
    intros Hin. apply Hnot.
    apply list_elem_of_fmap in Hin as (e' & Heq & Hin).
    apply list_elem_of_filter in Hin as [_ Hin].
    apply list_elem_of_fmap. eauto.
  - rewrite filter_cons_False by exact He. auto.
Qed.

(** Two entries under one handle are one entry. *)
Lemma handle_unique l (e1 e2 : heap_elem) :
  NoDup (map el_handle l) -> e1 ∈ l -> e2 ∈ l ->
  el_handle e1 = el_handle e2 -> e1 = e2.
Proof.
  induction l as [| e l IH]; simpl; intros Hnd H1 H2 Heq.
  - apply elem_of_nil in H1. destruct H1.
  - apply NoDup_cons in Hnd as [Hnot Hnd].
    apply elem_of_cons in H1 as [-> | H1];
      apply elem_of_cons in H2 as [-> | H2]; auto.
    + exfalso. apply Hnot. rewrite Heq. apply list_elem_of_fmap. eauto.
    + exfalso. apply Hnot. rewrite <- Heq. apply list_elem_of_fmap. eauto.
Qed.

(** *** The steps that keep the workspace in order *)

(** A write to one node. *)
Lemma in_order_update ss a s s' :
  in_order ss -> store ss !! a = Some s ->
  hashkey s' = hashkey s ->
  (forall k, k ∈ pred_hashkey s' ->
             k ∈ pred_hashkey s \/ is_Some (hm_ ss !! k)) ->
  pred_parallel s' ->
  open_ok (pq_ ss) a s' ->
  in_order (with_store (<[a := s']> (store ss)) ss).
Proof.
  intros [H1 H2 H3 H4 H5 H6] Ha Hk Hp Hpar Hopen.
  pose proof (lookup_lt_Some _ _ _ Ha) as Hlt.
  assert (Hlk : forall b sb,
            <[a := s']> (store ss) !! b = Some sb ->
            (b = a /\ sb = s') \/ (b <> a /\ store ss !! b = Some sb)).
  { intros b sb Hb. destruct (decide (a = b)) as [<- | Hne].
    - rewrite list_lookup_insert_eq in Hb by exact Hlt. left. split; congruence.
    - rewrite list_lookup_insert_ne in Hb by exact Hne. right. split; congruence. }
  assert (Hkey : forall b sb, store ss !! b = Some sb ->
            exists sb', <[a := s']> (store ss) !! b = Some sb' /\
                        hashkey sb' = hashkey sb).
  { intros b sb Hb. destruct (decide (a = b)) as [<- | Hne].
    - exists s'. rewrite list_lookup_insert_eq by exact Hlt.
      split; [reflexivity | congruence].
    - exists sb. rewrite list_lookup_insert_ne by exact Hne. auto. }
  constructor; simpl.
  - intros k b Hb. destruct (H1 k b Hb) as (sb & Hsb & Hkb).
    destruct (Hkey b sb Hsb) as (sb' & Hsb' & Hk'). exists sb'.
    split; [exact Hsb' | congruence].
  - intros e He. destruct (H2 e He) as (Hh & sb & Hsb & Hdom).
    split; [exact Hh |].
    destruct (Hkey _ sb Hsb) as (sb' & Hsb' & Hk'). exists sb'.
    split; [exact Hsb' | now rewrite Hk'].
  - exact H3.
  - intros b sb Hb. destruct (Hlk b sb Hb) as [[-> ->] | [_ Hb']];
      [exact Hopen | exact (H4 _ _ Hb')].
  - intros b sb k Hb Hin. destruct (Hlk b sb Hb) as [[-> ->] | [_ Hb']].
    + destruct (Hp k Hin) as [Hold | Hdom]; [eapply H5; eassumption | exact Hdom].
    + eapply H5; eassumption.
  - intros b sb Hb. destruct (Hlk b sb Hb) as [[-> ->] | [_ Hb']];
      [exact Hpar | exact (H6 _ _ Hb')].
Qed.

(** A change of the queue. *)
Lemma in_order_queue ss q' :
  in_order ss ->
  (forall e, e ∈ elems q' ->
     (el_handle e < next_handle q')%nat /\
     exists s, store ss !! second e = Some s /\
               hm_ ss !! hashkey s = Some (second e)) ->
  NoDup (map el_handle (elems q')) ->
  (forall a s, store ss !! a = Some s -> open_ok (pq_ ss) a s ->
               open_ok q' a s) ->
  in_order (with_pq q' ss).
Proof.
  intros [H1 H2 H3 H4 H5 H6] Hq Hnd Hopen.
  constructor; simpl; auto.
Qed.

Lemma in_order_push ss f v s :
  in_order ss -> store ss !! v = Some s -> hm_ ss !! hashkey s = Some v ->
  in_order (with_pq (pq_insert f v (pq_ ss)).2 ss).
Proof.
  intros Hio Hv Hdom. pose proof Hio as [H1 H2 H3 H4 H5 H6].
  apply in_order_queue; [exact Hio | | |].
  - simpl. intros e He. apply elem_of_app in He as [He | He].
    + destruct (H2 e He) as [Hlt Hs]. split; [lia | exact Hs].
    + apply elem_of_cons in He as [-> | He];
        [| apply elem_of_nil in He; destruct He].
      simpl. split; [lia | eauto].
  - simpl. rewrite map_app. simpl. apply NoDup_app.
    split; [exact H3 | split; [| apply NoDup_singleton]].
    intros hd Hin Hin'. apply elem_of_cons in Hin' as [-> | Hin'];
      [| apply elem_of_nil in Hin'; destruct Hin'].
    apply list_elem_of_fmap in Hin as (e & Heq & He).
    destruct (H2 e He) as [Hlt _]. lia.
  - intros a sa _ Ho Hop Hcl. destruct (Ho Hop Hcl) as (hd & Hhk & Hq).
    exists hd. split; [exact Hhk | now apply queued_insert].
Qed.

Lemma in_order_set_first ss hd f :
  in_order ss -> in_order (with_pq (pq_set_first hd f (pq_ ss)) ss).
Proof.
  intros Hio. pose proof Hio as [H1 H2 H3 H4 H5 H6].
  apply in_order_queue; [exact Hio | | |].
  - intros e' He'. apply elem_set_first in He' as (e & He & Hh & Hs).
    destruct (H2 e He) as [Hlt Hsome]. rewrite Hh, Hs.
    split; [exact Hlt | exact Hsome].
  - rewrite handles_set_first. exact H3.
  - intros a sa _ Ho Hop Hcl. destruct (Ho Hop Hcl) as (hd' & Hhk & Hq).
    exists hd'. split; [exact Hhk | now apply queued_set_first].
Qed.

(** The node popped is closed. *)
Lemma in_order_pop_close ss e s :
  in_order ss -> pq_top (pq_ ss) = Some e -> store ss !! second e = Some s ->
  in_order (with_store (<[second e := set_iterationclosed true s]> (store ss))
              (with_pq (pq_remove (el_handle e) (pq_ ss)) ss)).
Proof.
  intros Hio Htop Hs. pose proof Hio as [H1 H2 H3 H4 H5 H6].
  apply pq_top_in in Htop.
  assert (Hio1 : in_order
            (with_store (<[second e := set_iterationclosed true s]> (store ss))
                        ss)).
  { eapply in_order_update; [exact Hio | exact Hs | reflexivity | auto | |].
    - apply (H6 _ _ Hs).
    - intros _ Hcl. discriminate Hcl. }
  change (in_order
            (with_pq (pq_remove (el_handle e) (pq_ ss))
               (with_store
                  (<[second e := set_iterationclosed true s]> (store ss)) ss))).
  pose proof Hio1 as [G1 G2 G3 G4 G5 G6].
  apply in_order_queue; [exact Hio1 | | |].
  - intros e' He'. apply elem_remove in He' as [He' _].
    destruct (G2 e' He') as [Hlt Hsome]. split; [exact Hlt | exact Hsome].
  - apply handles_remove. exact H3.
  - simpl. intros a sa Ha Ho Hop Hcl.
    destruct (Ho Hop Hcl) as (hd & Hhk & e' & He' & Hh & Hsec).
    exists hd. split; [exact Hhk |]. exists e'.
    split; [| auto]. apply elem_remove. split; [exact He' |].
    intros Heq.
    assert (e' = e) as -> by (eapply handle_unique; eauto; congruence).
    subst a. pose proof (lookup_lt_Some _ _ _ Hs) as Hlt.
    rewrite list_lookup_insert_eq in Ha by exact Hlt.
    inversion Ha; subst sa. discriminate Hcl.
Qed.

(** A new node, under its key; with its entry in the queue when it is
    open. *)
Lemma in_order_new_node ss sk s_new q' :
  in_order ss ->
  hashkey s_new = sk -> pred_hashkey s_new = [] -> pred_parallel s_new ->
  hm_ ss !! sk = None \/ elems (pq_ ss) = [] ->
  (q' = pq_ ss /\ iterationopened s_new = false) \/
  (exists f, q' = (pq_insert f (length (store ss)) (pq_ ss)).2 /\
             heapkey s_new = Some (next_handle (pq_ ss))) ->
  in_order (mkSS (store ss ++ [s_new]) q'
                 (<[sk := length (store ss)]> (hm_ ss))
                 (eps_ ss) (dt_ ss) (max_t_ ss) (expand_iteration_ ss)
                 (best_child_ ss)).
Proof.
  intros [H1 H2 H3 H4 H5 H6] Hk Hp Hpar Hfree Hq.
  assert (Hold : forall b sb, store ss !! b = Some sb ->
                              (store ss ++ [s_new]) !! b = Some sb).
  { intros b sb Hb. rewrite lookup_app_l; [exact Hb |].
    eapply lookup_lt_Some; exact Hb. }
  assert (Hlk : forall b sb, (store ss ++ [s_new]) !! b = Some sb ->
            store ss !! b = Some sb \/ (b = length (store ss) /\ sb = s_new)).
  { intros b sb Hb. destruct (decide (b < length (store ss))%nat) as [Hlt | Hge].
    - rewrite lookup_app_l in Hb by exact Hlt. now left.
    - rewrite lookup_app_r in Hb by lia.
      destruct (b - length (store ss))%nat eqn:E; simpl in Hb; [| discriminate].
      right. split; [lia | congruence]. }
  assert (Hdom : forall k, is_Some (hm_ ss !! k) ->
                           is_Some (<[sk := length (store ss)]> (hm_ ss) !! k)).
  { intros k Hs. destruct (decide (sk = k)) as [<- | Hne].
    - rewrite lookup_insert_eq. eauto.
    - rewrite lookup_insert_ne by exact Hne. exact Hs. }
  assert (Helem : forall e, e ∈ elems q' ->
            e ∈ elems (pq_ ss) \/
            (el_handle e = next_handle (pq_ ss) /\
             second e = length (store ss) /\
             next_handle q' = S (next_handle (pq_ ss)))).
  { intros e He. destruct Hq as [[-> _] | (f & -> & _)]; [now left |].
    simpl in He. apply elem_of_app in He as [He | He]; [now left |].
    apply elem_of_cons in He as [-> | He];
      [| apply elem_of_nil in He; destruct He].
    right. simpl. auto. }
  assert (Hnext : (next_handle (pq_ ss) <= next_handle q')%nat).
  { destruct Hq as [[-> _] | (f & -> & _)]; simpl; lia. }
  assert (Hqd : forall hd a, queued (pq_ ss) hd a -> queued q' hd a).
  { intros hd a Hqu. destruct Hq as [[-> _] | (f & -> & _)]; [exact Hqu |].
    now apply queued_insert. }
  constructor; simpl.
  - intros k b Hb. destruct (decide (sk = k)) as [<- | Hne].
    + rewrite lookup_insert_eq in Hb. inversion Hb; subst b.
      exists s_new. rewrite lookup_snoc. auto.
    + rewrite lookup_insert_ne in Hb by exact Hne.
      destruct (H1 k b Hb) as (sb & Hsb & Hkb). eauto.
  - intros e He. destruct (Helem e He) as [Hin | (Hh & Hs & Hn)].
    + destruct (H2 e Hin) as (Hlt & sb & Hsb & Hd).
      split; [lia |]. exists sb. split; [auto |].
      rewrite lookup_insert_ne; [exact Hd |].
      intros Heq. destruct Hfree as [Hn | He0];
        [rewrite Heq in Hn; congruence |].
      rewrite He0 in Hin. apply elem_of_nil in Hin. destruct Hin.
    + split; [lia |]. exists s_new. rewrite Hs, lookup_snoc.
      split; [reflexivity |]. rewrite Hk, lookup_insert_eq. reflexivity.
  - destruct Hq as [[-> _] | (f & -> & _)]; [exact H3 |].
    simpl. rewrite map_app. simpl. apply NoDup_app.
    split; [exact H3 | split; [| apply NoDup_singleton]].
    intros hd Hin Hin'. apply elem_of_cons in Hin' as [-> | Hin'];
      [| apply elem_of_nil in Hin'; destruct Hin'].
    apply list_elem_of_fmap in Hin as (e & Heq & He).
    destruct (H2 e He) as [Hlt _]. lia.
  - intros b sb Hb Hop Hcl. destruct (Hlk b sb Hb) as [Hb' | [-> ->]].
    + destruct (H4 b sb Hb' Hop Hcl) as (hd & Hhk & Hqu). eauto.
    + destruct Hq as [[_ Hno] | (f & -> & Hhk)]; [congruence |].
      exists (next_handle (pq_ ss)). split; [exact Hhk | apply queued_new].
  - intros b sb k Hb Hin. destruct (Hlk b sb Hb) as [Hb' | [-> ->]].
    + apply Hdom. eapply H5; eassumption.
    + rewrite Hp in Hin. apply elem_of_nil in Hin. destruct Hin.
  - intros b sb Hb. destruct (Hlk b sb Hb) as [Hb' | [-> ->]]; eauto.
Qed.

(** *** Astar on a workspace in order *)

Lemma wp_astar_init ENV sc sk ss :
  in_order ss ->
  wp (astar_init ENV sc sk)
     (fun _ ss' => in_order ss' /\ pq_is_empty (pq_ ss') = false) ss.
Proof.
  intros Hio. destruct (pq_is_empty (pq_ ss)) eqn:Hq.
  - eapply wp_eq; [apply astar_init_eq, Hq |]. split.
    + apply in_order_new_node;
        [exact Hio | reflexivity | reflexivity | | |].
      * split; reflexivity.
      * right. apply pq_is_empty_elems, Hq.
      * right. eexists. split; reflexivity.
    + unfold pq_is_empty. simpl. destruct (elems (pq_ ss)); reflexivity.
  - eapply wp_eq; [| split; [exact Hio | exact Hq]].
    unfold astar_init, pq_empty, gets, mbind, Op_bind. rewrite Hq. reflexivity.
Qed.

Lemma open_ok_same q a s s' :
  iterationopened s' = iterationopened s ->
  iterationclosed s' = iterationclosed s ->
  heapkey s' = heapkey s ->
  open_ok q a s -> open_ok q a s'.
Proof. unfold open_ok. intros -> -> ->. auto. Qed.

Lemma wp_astar_relax curr v cost ss cu sv :
  in_order ss ->
  store ss !! curr = Some cu -> store ss !! v = Some sv ->
  hm_ ss !! hashkey sv = Some v ->
  wp (astar_relax curr v cost) (fun _ ss' => in_order ss') ss.
Proof.
  intros Hio Hcu Hsv Hdom. unfold astar_relax.
  apply wp_bind. eapply wp_load; [exact Hcu |]. cbv zeta.
  apply wp_bind. eapply wp_load; [exact Hsv |].
  destruct (ltb (add (g cu) cost) (g sv)); [| apply wp_ret, Hio].
  pose proof (lookup_lt_Some _ _ _ Hsv) as Hlt.
  set (sv1 := set_g (add (g cu) cost) sv).
  assert (Hio1 : in_order (with_store (<[v := sv1]> (store ss)) ss)).
  { eapply in_order_update; [exact Hio | exact Hsv | reflexivity | auto | |].
    - apply (io_pred_parallel _ Hio _ _ Hsv).
    - eapply open_ok_same; [reflexivity.. |]. apply (io_open _ Hio _ _ Hsv). }
  apply wp_bind. eapply wp_modify; [exact Hsv |]. fold sv1.
  set (ss1 := with_store (<[v := sv1]> (store ss)) ss) in *.
  assert (Hsv1 : store ss1 !! v = Some sv1)
    by (simpl; apply list_lookup_insert_eq; exact Hlt).
  apply wp_bind. eapply wp_load; [exact Hsv1 |].
  apply wp_bind. apply wp_gets. cbv zeta.
  destruct (iterationopened sv1 && negb (iterationclosed sv1)) eqn:Eopen.
  - apply andb_true_iff in Eopen as [Eo Ec]. apply negb_true_iff in Ec.
    destruct (io_open _ Hio1 _ _ Hsv1 Eo Ec) as (hd & Hhk & Hq).
    eapply wp_eq.
    + unfold pq_update. rewrite Hhk, (queued_has _ _ _ Hq). reflexivity.
    + apply in_order_set_first, Hio1.
  - set (f := add (g sv1) (mul (eps_ ss1) (h sv1))).
    assert (Hio2 : in_order (with_pq (pq_insert f v (pq_ ss1)).2 ss1))
      by (eapply in_order_push; [exact Hio1 | exact Hsv1 | exact Hdom]).
    apply wp_bind. eapply wp_eq; [reflexivity |].
    set (ss2 := with_pq (pq_insert f v (pq_ ss1)).2 ss1) in *.
    set (hk := next_handle (pq_ ss)).
    assert (Hsv2 : store ss2 !! v = Some sv1) by exact Hsv1.
    set (sv3 := set_heapkey (Some hk) sv1).
    assert (Hio3 : in_order (with_store (<[v := sv3]> (store ss2)) ss2)).
    { eapply in_order_update; [exact Hio2 | exact Hsv2 | reflexivity | auto | |].
      - apply (io_pred_parallel _ Hio1 _ _ Hsv1).
      - intros Ho Hc.
        assert (E : iterationopened sv3 && negb (iterationclosed sv3) = false)
          by exact Eopen.
        rewrite Ho, Hc in E. discriminate E. }
    apply wp_bind. eapply wp_modify; [exact Hsv2 |]. fold sv3.
    set (ss3 := with_store (<[v := sv3]> (store ss2)) ss2) in *.
    assert (Hsv3 : store ss3 !! v = Some sv3).
    { simpl. apply list_lookup_insert_eq. rewrite length_insert. exact Hlt. }
    eapply wp_modify; [exact Hsv3 |].
    eapply in_order_update; [exact Hio3 | exact Hsv3 | reflexivity | auto | |].
    + apply (io_pred_parallel _ Hio3 _ _ Hsv3).
    + intros _ _. exists hk. split; [reflexivity |]. apply queued_new.
Qed.

(** The node being expanded: it is there, and it is the node of its
    key. *)
Definition node_ok (ss : StateSpace) (a : nat) : Prop :=
  exists s, store ss !! a = Some s /\ hm_ ss !! hashkey s = Some a.

Lemma wp_astar_succ ENV curr sc sk cost act ss :
  in_order ss -> node_ok ss curr ->
  wp (astar_succ ENV curr sc sk cost act) (fun _ ss' => in_order ss') ss.
Proof.
  intros Hio (cu & Hcu & Hdom). unfold astar_succ.
  assert (Hchild : exists v ss1 cu1 sv,
            astar_child ENV sc sk ss = Ok (v, ss1) /\ in_order ss1 /\
            store ss1 !! curr = Some cu1 /\ hashkey cu1 = hashkey cu /\
            hm_ ss1 !! hashkey cu1 = Some curr /\
            store ss1 !! v = Some sv /\ hm_ ss1 !! hashkey sv = Some v).
  { destruct (hm_ ss !! sk) as [v|] eqn:E.
    - destruct (io_hm _ Hio _ _ E) as (sv & Hsv & Hk).
      exists v, ss, cu, sv.
      split; [apply astar_child_found, E |].
      split; [exact Hio | split; [exact Hcu | split; [reflexivity |]]].
      split; [exact Hdom | split; [exact Hsv |]].
      rewrite Hk. exact E.
    - eexists _, _, cu, _.
      split; [rewrite (astar_child_new _ _ _ _ E); apply make_child_eq |].
      split.
      { apply (in_order_new_node ss sk _ (pq_ ss));
          [exact Hio | reflexivity | reflexivity | split; reflexivity
          | left; exact E |].
        left. split; reflexivity. }
      simpl. split.
      { rewrite lookup_app_l; [exact Hcu | eapply lookup_lt_Some; exact Hcu]. }
      split; [reflexivity |]. split.
      { rewrite lookup_insert_ne; [exact Hdom | congruence]. }
      split; [apply lookup_snoc |]. simpl. apply lookup_insert_eq. }
  destruct Hchild as (v & ss1 & cu1 & sv & Hch & Hio1 & Hcu1 & Hk1 & Hdom1 &
                      Hsv & Hdomv).
  apply wp_bind. eapply wp_eq; [exact Hch |].
  set (sv2 := push_pred_action_id act
                (push_pred_action_cost cost
                   (push_pred_hashkey (hashkey cu1) sv))).
  assert (Hio2 : in_order (with_store (<[v := sv2]> (store ss1)) ss1)).
  { eapply in_order_update; [exact Hio1 | exact Hsv | reflexivity | | |].
    - simpl. intros k Hin. apply elem_of_app in Hin as [Hin | Hin];
        [now left | right].
      apply elem_of_cons in Hin as [-> | Hin];
        [eauto | apply elem_of_nil in Hin; destruct Hin].
    - destruct (io_pred_parallel _ Hio1 _ _ Hsv) as [P1 P2].
      split; simpl; rewrite !length_app; simpl; lia.
    - eapply open_ok_same; [reflexivity.. |]. apply (io_open _ Hio1 _ _ Hsv). }
  apply wp_bind. eapply wp_eq; [apply record_pred_eq; eassumption |].
  fold sv2.
  pose proof (lookup_lt_Some _ _ _ Hsv) as Hlt.
  assert (Hsv2 : store (with_store (<[v := sv2]> (store ss1)) ss1) !! v
                 = Some sv2)
    by (simpl; apply list_lookup_insert_eq; exact Hlt).
  assert (Hcu2 : exists cu2,
            store (with_store (<[v := sv2]> (store ss1)) ss1) !! curr
            = Some cu2).
  { simpl. destruct (decide (v = curr)) as [<- | Hne].
    - exists sv2. apply list_lookup_insert_eq. exact Hlt.
    - exists cu1. rewrite list_lookup_insert_ne by exact Hne. exact Hcu1. }
  destruct Hcu2 as (cu2 & Hcu2).
  eapply wp_astar_relax; [exact Hio2 | exact Hcu2 | exact Hsv2 | exact Hdomv].
Qed.

Lemma wp_astar_process ENV curr succ s ss :
  succ_in_range succ -> (s < length (sc_coord succ))%nat ->
  in_order ss -> node_ok ss curr ->
  wp (astar_process ENV curr succ s) (fun _ ss' => in_order ss') ss.
Proof.
  intros (R1 & R2 & R3) Hs Hio Hcurr. unfold astar_process.
  destruct (lookup_lt_is_Some_2 (sc_cost succ) s ltac:(lia)) as [cost Hc].
  destruct (lookup_lt_is_Some_2 (sc_key succ) s ltac:(lia)) as [sk Hk].
  destruct (lookup_lt_is_Some_2 (sc_coord succ) s ltac:(lia)) as [sc Hsc].
  destruct (lookup_lt_is_Some_2 (sc_act_id succ) s ltac:(lia)) as [act Ha].
  apply wp_bind. eapply wp_index; [exact Hc |].
  destruct (isinf cost); [apply wp_ret, Hio |].
  apply wp_bind. eapply wp_index; [exact Hk |].
  apply wp_bind. eapply wp_index; [exact Hsc |].
  apply wp_bind. eapply wp_index; [exact Ha |].
  apply wp_astar_succ; assumption.
Qed.

(** The frame of a run that ends well, next to what [wp] says of it. *)
Lemma wp_frame {A} P Q N (m : Op A) (R : A -> StateSpace -> Prop) ss :
  keeps P Q N m -> wp m R ss ->
  wp m (fun a ss' => R a ss' /\ frame P Q N ss ss') ss.
Proof.
  unfold wp. intros Hk. destruct (m ss) as [[a ss1] | f |] eqn:E; auto.
  intros HR. split; [exact HR | eapply Hk, E].
Qed.

Lemma node_ok_frame N ss ss' a :
  frame same_node (hm_grows None) N ss ss' -> node_ok ss a -> node_ok ss' a.
Proof.
  intros (Hq & _ & _ & Hold & _) (s & Hs & Hreg).
  destruct (Hold a s Hs) as (s' & Hs' & Hk & _).
  exists s'. split; [exact Hs' |]. rewrite Hk.
  apply Hq; [discriminate | exact Hreg].
Qed.

Lemma astar_process_node ENV curr succ s :
  keeps same_node (hm_grows None) any_node (astar_process ENV curr succ s).
Proof.
  unfold astar_process, astar_succ, record_pred, astar_relax. n_keeps.
Qed.

Lemma wp_astar_expand ENV ss :
  env_in_range ENV -> in_order ss -> pq_is_empty (pq_ ss) = false ->
  wp (astar_expand ENV) (fun u ss' => in_order ss' /\ node_ok ss' u) ss.
Proof.
  intros Henv Hio Hq. destruct (pq_top_nonempty _ Hq) as (e & Htop).
  destruct (io_pq _ Hio e (pq_top_in _ _ Htop)) as (_ & s & Hs & Hdom).
  unfold astar_expand.
  apply wp_bind. eapply wp_eq;
    [unfold pq_top_op; rewrite Htop; reflexivity |]. cbv zeta.
  apply wp_bind. eapply wp_eq; [unfold pq_pop; rewrite Htop; reflexivity |].
  pose proof (in_order_pop_close _ _ _ Hio Htop Hs) as Hio1.
  apply wp_bind. eapply wp_modify; [exact Hs |].
  set (ss1 := with_store (<[second e := set_iterationclosed true s]> (store ss))
                (with_pq (pq_remove (el_handle e) (pq_ ss)) ss)) in *.
  assert (Hs1 : store ss1 !! second e = Some (set_iterationclosed true s)).
  { simpl. apply list_lookup_insert_eq. eapply lookup_lt_Some; exact Hs. }
  apply wp_bind. eapply wp_load; [exact Hs1 |]. cbv zeta.
  apply wp_bind.
  eapply wp_mono;
    [| apply (wp_for_each (fun st => in_order st /\ node_ok st (second e)))].
  - intros [] ss2 [Hio2 Hok2]. apply wp_ret. auto.
  - intros i st Hi [Hio' Hok'].
    eapply wp_mono;
      [| eapply wp_frame;
         [apply (astar_process_node ENV (second e) _ i)
         | apply wp_astar_process; [apply Henv | | exact Hio' | exact Hok']]].
    + intros [] st' [Hio'' Hfr]. split; [exact Hio'' |].
      eapply node_ok_frame; [exact Hfr | exact Hok'].
    + apply elem_of_seq in Hi. simpl in Hi |- *. lia.
  - split; [exact Hio1 |]. exists (set_iterationclosed true s).
    split; [exact Hs1 | exact Hdom].
Qed.

Lemma wp_astar_checks ENV curr n max_expand max_t ss :
  node_ok ss curr ->
  wp (astar_checks ENV curr n max_expand max_t)
     (fun v ss' => ss' = ss /\ (v = Continue -> pq_is_empty (pq_ ss) = false))
     ss.
Proof.
  intros (cu & Hcu & _). unfold astar_checks.
  apply wp_bind. eapply wp_load; [exact Hcu |].
  destruct (is_goal ENV (coord cu)); [apply wp_ret; split; [auto | discriminate] |].
  destruct (ltb (Fin 0) max_t && _ && _);
    [apply wp_ret; split; [auto | discriminate] |].
  destruct ((0 <? max_expand) && _);
    [apply wp_ret; split; [auto | discriminate] |].
  apply wp_bind. apply wp_gets.
  destruct (pq_is_empty (pq_ ss)) eqn:E; apply wp_ret;
    (split; [reflexivity |]); [discriminate | auto].
Qed.

Lemma wp_astar_loop ENV fuel n max_expand max_t ss :
  env_in_range ENV -> in_order ss -> pq_is_empty (pq_ ss) = false ->
  wp (astar_loop ENV fuel n max_expand max_t)
     (fun r ss' => in_order ss' /\ node_ok ss' r.1.1) ss.
Proof.
  intros Henv. revert n ss.
  induction fuel as [| fuel IH]; intros n ss Hio Hq; simpl; [exact I |].
  destruct (INT_MAX <=? n); [reflexivity |].
  apply wp_bind. eapply wp_mono; [| apply wp_astar_expand; assumption].
  intros u ss1 [Hio1 Hok1]. apply wp_bind.
  eapply wp_mono; [| apply wp_astar_checks; exact Hok1].
  intros v ss2 [-> Hc].
  destruct v; try (apply wp_ret; split; assumption).
  apply IH; auto.
Qed.

(** *** Trace-back on a workspace in order *)

Lemma pred_entry_total ss a c i :
  in_order ss -> store ss !! a = Some c ->
  (i < length (pred_hashkey c))%nat ->
  exists key p sp cost act,
    pred_hashkey c !! i = Some key /\ hm_ ss !! key = Some p /\
    store ss !! p = Some sp /\ pred_action_cost c !! i = Some cost /\
    pred_action_id c !! i = Some act /\
    pred_entry ss c i = Some (g sp, cost).
Proof.
  intros Hio Hc Hi.
  destruct (lookup_lt_is_Some_2 _ _ Hi) as [key Hkey].
  destruct (io_pred_keys _ Hio a c key Hc) as [p Hp].
  { eapply list_elem_of_lookup_2. exact Hkey. }
  destruct (io_hm _ Hio _ _ Hp) as (sp & Hsp & _).
  destruct (io_pred_parallel _ Hio _ _ Hc) as [P1 P2].
  destruct (lookup_lt_is_Some_2 (pred_action_cost c) i ltac:(lia)) as [cost Hco].
  destruct (lookup_lt_is_Some_2 (pred_action_id c) i ltac:(lia)) as [act Hact].
  exists key, p, sp, cost, act.
  repeat (split; [assumption |]).
  unfold pred_entry. rewrite Hkey. simpl. rewrite Hp. simpl.
  rewrite Hsp. simpl. rewrite Hco. reflexivity.
Qed.

Lemma scan_total ss a c :
  in_order ss -> store ss !! a = Some c -> exists r, scan c ss = Ok (r, ss).
Proof.
  intros Hio Hc. unfold scan.
  assert (Hl : forall i, i ∈ seq 0 (length (pred_hashkey c)) ->
                         (i < length (pred_hashkey c))%nat)
    by (intros i Hi; apply elem_of_seq in Hi; lia).
  revert Hl. generalize (PInf, PInf, -1).
  generalize (seq 0 (length (pred_hashkey c))).
  intros l. induction l as [| i l IH]; intros acc Hl; simpl.
  - eexists. reflexivity.
  - destruct (pred_entry_total ss a c i Hio Hc) as
      (key & p & sp & cost & act & _ & _ & _ & _ & _ & He); [apply Hl; left |].
    erewrite bind_eq by (apply scan_pred_eq; exact He).
    apply IH. intros j Hj. apply Hl. now right.
Qed.

Lemma wp_recover_loop ENV fuel start_key :
  forall curr prs ss,
    in_order ss -> is_Some (store ss !! curr) ->
    wp (recover_loop ENV fuel start_key curr prs) (fun _ ss' => in_order ss')
       ss.
Proof.
  induction fuel as [| fuel IH]; intros curr prs ss Hio [c Hc]; simpl;
    [exact I |].
  apply wp_bind. eapply wp_load; [exact Hc |].
  destruct (pred_hashkey c) as [| k0 ks] eqn:Ep; [apply wp_ret, Hio |].
  apply wp_bind. eapply wp_eq; [reflexivity |].
  set (ss1 := with_best_child (best_child_ ss ++ [curr]) ss).
  assert (Hio1 : in_order ss1) by (eapply in_order_same; [..| exact Hio]; reflexivity).
  assert (Hc1 : store ss1 !! curr = Some c) by exact Hc.
  destruct (scan_total ss1 curr c Hio1 Hc1) as ([[mr mg] min_id] & Hscan).
  apply wp_bind. eapply wp_eq; [exact Hscan |]. cbv beta iota.
  destruct (0 <=? min_id) eqn:Hmin; [| apply wp_ret, Hio1].
  apply Z.leb_le in Hmin.
  pose proof (scan_inv_final _ _ _ _ Hscan) as (_ & _ & Hsel).
  destruct Hsel as [(-> & _) | (m & gm & cm & -> & Hm & _)]; [lia |].
  rewrite Nat2Z.id. rewrite <- Ep.
  destruct (pred_entry_total ss1 curr c m Hio1 Hc1 Hm)
    as (key & p & sp & cost & act & Hkey & Hp & Hsp & _ & Hact & _).
  apply wp_bind. eapply wp_index; [exact Hkey |].
  apply wp_bind. eapply wp_index; [exact Hact |].
  apply wp_bind. eapply wp_eq; [unfold hm_at, gets; reflexivity |].
  rewrite Hp.
  apply wp_bind. eapply wp_eq; [reflexivity |].
  apply wp_bind. eapply wp_load; [exact Hsp |]. cbv zeta.
  destruct (hashkey sp =? start_key).
  - apply wp_bind. eapply wp_eq; [reflexivity |]. apply wp_ret.
    eapply in_order_same; [..| exact Hio1]; reflexivity.
  - apply IH; [exact Hio1 | eauto].
Qed.

Lemma wp_recoverTraj ENV fuel curr start_key ss :
  in_order ss -> is_Some (store ss !! curr) ->
  wp (recoverTraj ENV fuel curr start_key) (fun _ ss' => in_order ss') ss.
Proof.
  intros Hio Hc. unfold recoverTraj.
  apply wp_bind. eapply wp_eq; [reflexivity |].
  apply wp_bind. eapply wp_mono; [| apply wp_recover_loop].
  - intros prs ss1 Hio1. apply wp_bind. eapply wp_eq; [reflexivity |].
    apply wp_ret. eapply in_order_same; [..| exact Hio1]; reflexivity.
  - eapply in_order_same; [..| exact Hio]; reflexivity.
  - exact Hc.
Qed.

(** X13.  Astar is memory safe on a workspace in order, and keeps it in
    order.  With an environment whose [get_succ] fills the cost, key and
    action vectors at least as far as the coordinate vector, a call of
    Astar on such a workspace (a fresh one is) dereferences no null
    pointer, reads no vector out of range, uses no handle that is not in
    the queue and never reads an empty queue: it returns, runs out of
    fuel, or stops at the overflow of the expansion counter; and the
    workspace it returns is in order again, ready for the next call. *)
Theorem Astar_is_memory_safe ENV fuel start_coord start_key traj max_expand
    max_t ss :
  env_in_range ENV -> in_order ss ->
  match Astar ENV fuel start_coord start_key traj max_expand max_t ss with
  | Ok (_, ss') => in_order ss'
  | Fault f => f = IntOverflow
  | OutOfFuel => True
  end.
Proof.
  intros Henv Hio.
  change (wp (Astar ENV fuel start_coord start_key traj max_expand max_t)
             (fun _ ss' => in_order ss') ss).
  unfold Astar. destruct (is_goal ENV start_coord); [apply wp_ret, Hio |].
  apply wp_bind. eapply wp_mono; [| apply wp_astar_init, Hio].
  intros [] ss1 [Hio1 Hq1].
  apply wp_bind. eapply wp_mono; [| apply wp_astar_loop; assumption].
  intros [[u v] n] ss2 [Hio2 (su & Hsu & _)]. simpl in Hsu.
  unfold astar_finish.
  assert (Hfin : wp (modify_ss (with_expand_iteration n) ;;
                     traj' ← recoverTraj ENV fuel u start_key;
                     mret (true, traj'))
                    (fun _ ss' => in_order ss') ss2).
  { apply wp_bind. eapply wp_eq; [reflexivity |].
    apply wp_bind. eapply wp_mono; [| apply wp_recoverTraj].
    - intros tr ss3 Hio3. apply wp_ret, Hio3.
    - eapply in_order_same; [..| exact Hio2]; reflexivity.
    - simpl. eauto. }
  destruct v; first [exact Hfin | apply wp_ret, Hio2].
Qed.

Lemma graph_env_in_range edges goal heur :
  env_in_range (graph_env edges goal heur).
Proof.
  intros c. unfold succ_in_range. simpl. rewrite !length_map. lia.
Qed.

(** On [line_env] from a fresh workspace, and then once more on the
    workspace the first call leaves. *)
Lemma Astar_is_memory_safe_witness :
  in_order (after (Astar line_env 10 (at_pos 0) 0 [] (-1) (Fin 0) ss0)) /\
  match Astar line_env 10 (at_pos 0) 0 [] (-1) (Fin 0)
          (after (Astar line_env 10 (at_pos 0) 0 [] (-1) (Fin 0) ss0)) with
  | Ok (_, ss') => in_order ss'
  | Fault f => f = IntOverflow
  | OutOfFuel => True
  end.
Proof.
  assert (H1 : in_order
                 (after (Astar line_env 10 (at_pos 0) 0 [] (-1) (Fin 0) ss0))).
  { pose proof (Astar_is_memory_safe line_env 10 (at_pos 0) 0 [] (-1) (Fin 0)
                  ss0 (graph_env_in_range _ _ _) (in_order_fresh _ _)) as H.
    destruct (Astar line_env 10 (at_pos 0) 0 [] (-1) (Fin 0) ss0)
      as [[r ss'] | f |]; [exact H | apply in_order_fresh..]. }
  split; [exact H1 |].
  apply Astar_is_memory_safe; [apply graph_env_in_range | exact H1].
Defined.

(** ** The trajectory of Astar is a path of the graph *)

(** A number, not an infinity and not NaN. *)
Definition fin (x : decimal) : Prop := exists z, x = Fin z.

Lemma fin_add x y : fin x -> fin y -> fin (add x y).
Proof. intros [a ->] [b ->]. simpl. eexists. reflexivity. Qed.

Lemma fin_not_inf x : fin x -> isinf x = false.
Proof. intros [a ->]. reflexivity. Qed.

(** The environment gives, for the coordinate [c], a successor of key [k]
    by the action [act] at the cost [cost]. *)
Definition is_edge (ENV : env_base) (c : Coord) (k : Key) (cost : decimal)
    (act : Z) : Prop :=
  exists j,
    sc_key (get_succ ENV c) !! j = Some k /\
    sc_cost (get_succ ENV c) !! j = Some cost /\
    sc_act_id (get_succ ENV c) !! j = Some act.

(** Entry [i] of the predecessor vectors of [s] is an edge of the graph,
    of a finite cost, out of the node of its key, which has a finite
    g-value. *)
Definition entry_ok (ENV : env_base) (ss : StateSpace) (s : State) (i : nat)
  : Prop :=
  forall key, pred_hashkey s !! i = Some key ->
  exists p sp cost act,
    hm_ ss !! key = Some p /\ store ss !! p = Some sp /\
    pred_action_cost s !! i = Some cost /\
    pred_action_id s !! i = Some act /\
    fin (g sp) /\ fin cost /\
    is_edge ENV (coord sp) (hashkey s) cost act.

(** What the search from [start_key] has recorded can be traced: the
    nodes on the queue have finite g-values; a node of a finite g-value
    other than the start has a predecessor; every recorded predecessor is
    an edge of the graph. *)
Record traced (ENV : env_base) (start_key : Key) (ss : StateSpace) : Prop :=
  mk_traced {
  tr_queue : forall e, e ∈ elems (pq_ ss) ->
               exists s, store ss !! second e = Some s /\ fin (g s);
  tr_pred : forall a s, store ss !! a = Some s -> fin (g s) ->
              hashkey s <> start_key -> pred_hashkey s <> [];
  tr_edges : forall a s i, store ss !! a = Some s -> entry_ok ENV ss s i
}.

Lemma traced_fresh ENV sk eps dt : traced ENV sk (StateSpace_init eps dt).
Proof.
  constructor; simpl.
  - intros e H. apply elem_of_nil in H. destruct H.
  - intros a s H. destruct a; discriminate.
  - intros a s i H. destruct a; discriminate.
Qed.

Lemma traced_same ENV sk ss ss' :
  store ss' = store ss -> pq_ ss' = pq_ ss -> hm_ ss' = hm_ ss ->
  traced ENV sk ss -> traced ENV sk ss'.
Proof.
  intros Hs Hq Hh [H1 H2 H3].
  constructor; unfold entry_ok in *; rewrite ?Hs, ?Hq, ?Hh; assumption.
Qed.

(** A write to one node. *)
Lemma traced_update ENV sk ss a s s' :
  traced ENV sk ss -> store ss !! a = Some s ->
  hashkey s' = hashkey s -> coord s' = coord s ->
  (fin (g s) -> fin (g s')) ->
  (fin (g s') -> hashkey s' <> sk -> pred_hashkey s' <> []) ->
  (forall i key, pred_hashkey s' !! i = Some key ->
     (pred_hashkey s !! i = Some key /\
      pred_action_cost s' !! i = pred_action_cost s !! i /\
      pred_action_id s' !! i = pred_action_id s !! i) \/
     entry_ok ENV ss s' i) ->
  traced ENV sk (with_store (<[a := s']> (store ss)) ss).
Proof.
  intros [H1 H2 H3] Ha Hk Hc Hg Hp He.
  pose proof (lookup_lt_Some _ _ _ Ha) as Hlt.
  assert (Hlk : forall b sb,
            <[a := s']> (store ss) !! b = Some sb ->
            (b = a /\ sb = s') \/ (b <> a /\ store ss !! b = Some sb)).
  { intros b sb Hb. destruct (decide (a = b)) as [<- | Hne].
    - rewrite list_lookup_insert_eq in Hb by exact Hlt. left. split; congruence.
    - rewrite list_lookup_insert_ne in Hb by exact Hne. right. split; congruence. }
  assert (Hnew : forall b sb, store ss !! b = Some sb ->
            exists sb', <[a := s']> (store ss) !! b = Some sb' /\
                        coord sb' = coord sb /\ (fin (g sb) -> fin (g sb'))).
  { intros b sb Hb. destruct (decide (a = b)) as [<- | Hne].
    - exists s'. rewrite list_lookup_insert_eq by exact Hlt.
      assert (sb = s) as -> by congruence. auto.
    - exists sb. rewrite list_lookup_insert_ne by exact Hne. auto. }
  assert (Hentry : forall sb i, entry_ok ENV ss sb i ->
            entry_ok ENV (with_store (<[a := s']> (store ss)) ss) sb i).
  { intros sb i Hok key Hkey.
    destruct (Hok key Hkey) as (p & sp & cost & act & Hhm & Hsp & Hco & Hact &
                                Hgp & Hfc & Hedge).
    destruct (Hnew p sp Hsp) as (sp' & Hsp' & Hcp & Hgp').
    exists p, sp', cost, act. simpl. rewrite Hcp. auto 10. }
  constructor; simpl.
  - intros e Hin. destruct (H1 e Hin) as (sb & Hsb & Hf).
    destruct (Hnew _ sb Hsb) as (sb' & Hsb' & _ & Hg'). eauto.
  - intros b sb Hb. destruct (Hlk b sb Hb) as [[-> ->] | [_ Hb']];
      [exact Hp | eapply H2, Hb'].
  - intros b sb i Hb. destruct (Hlk b sb Hb) as [[-> ->] | [_ Hb']].
    + intros key Hkey. destruct (He i key Hkey) as [(Hold & Ec & Ea) | Hok].
      * destruct (H3 a s i Ha key Hold)
          as (p & sp & cost & act & Hhm & Hsp & Hco & Hact & Hgp & Hfc & Hedge).
        destruct (Hnew p sp Hsp) as (sp' & Hsp' & Hcp & Hgp').
        exists p, sp', cost, act. simpl. rewrite Hcp, Ec, Ea, Hk. auto 10.
      * apply (Hentry s' i Hok key Hkey).
    + apply Hentry. eapply H3, Hb'.
Qed.

(** A change of the queue. *)
Lemma traced_queue ENV sk ss q' :
  traced ENV sk ss ->
  (forall e, e ∈ elems q' ->
     exists s, store ss !! second e = Some s /\ fin (g s)) ->
  traced ENV sk (with_pq q' ss).
Proof. intros [H1 H2 H3] Hq. constructor; simpl; auto. Qed.

(** A new node under a key that had none. *)
Lemma traced_new_node ENV sk0 ss sk s_new q' :
  traced ENV sk0 ss ->
  hm_ ss !! sk = None ->
  pred_hashkey s_new = [] -> (fin (g s_new) -> hashkey s_new = sk0) ->
  (forall e, e ∈ elems q' ->
     e ∈ elems (pq_ ss) \/ (second e = length (store ss) /\ fin (g s_new))) ->
  traced ENV sk0 (mkSS (store ss ++ [s_new]) q'
                       (<[sk := length (store ss)]> (hm_ ss))
                       (eps_ ss) (dt_ ss) (max_t_ ss) (expand_iteration_ ss)
                       (best_child_ ss)).
Proof.
  intros [H1 H2 H3] Hfree Hp Hg Hq.
  assert (Hold : forall b sb, store ss !! b = Some sb ->
                              (store ss ++ [s_new]) !! b = Some sb).
  { intros b sb Hb. rewrite lookup_app_l; [exact Hb |].
    eapply lookup_lt_Some; exact Hb. }
  assert (Hlk : forall b sb, (store ss ++ [s_new]) !! b = Some sb ->
            store ss !! b = Some sb \/ (b = length (store ss) /\ sb = s_new)).
  { intros b sb Hb. destruct (decide (b < length (store ss))%nat) as [Hlt | Hge].
    - rewrite lookup_app_l in Hb by exact Hlt. now left.
    - rewrite lookup_app_r in Hb by lia.
      destruct (b - length (store ss))%nat eqn:E; simpl in Hb; [| discriminate].
      right. split; [lia | congruence]. }
  constructor; simpl.
  - intros e He. destruct (Hq e He) as [Hin | [Hs Hf]].
    + destruct (H1 e Hin) as (sb & Hsb & Hfb). eauto.
    + exists s_new. rewrite Hs, lookup_snoc. auto.
  - intros b sb Hb Hf Hne. destruct (Hlk b sb Hb) as [Hb' | [-> ->]].
    + eapply H2; eassumption.
    + elim Hne. auto.
  - intros b sb i Hb key Hkey. destruct (Hlk b sb Hb) as [Hb' | [-> ->]].
    + destruct (H3 b sb i Hb' key Hkey)
        as (p & sp & cost & act & Hhm & Hsp & Hrest).
      exists p, sp, cost, act. simpl.
      split; [| split; [apply Hold, Hsp | exact Hrest]].
      rewrite lookup_insert_ne; [exact Hhm | congruence].
    + rewrite Hp in Hkey. destruct i; discriminate.
Qed.

(** *** Astar keeps what it records traceable *)

Definition sound (ENV : env_base) (start_key : Key) (ss : StateSpace) : Prop :=
  in_order ss /\ traced ENV start_key ss.

(** The node being expanded: the node of its key, at the coordinate [c0],
    with a finite g-value. *)
Definition node_at (ss : StateSpace) (a : nat) (c0 : Coord) : Prop :=
  exists s, store ss !! a = Some s /\ hm_ ss !! hashkey s = Some a /\
            coord s = c0 /\ fin (g s).

(** The costs the environment gives are numbers or infinities. *)
Definition env_no_nan (ENV : env_base) : Prop :=
  forall c j cost, sc_cost (get_succ ENV c) !! j = Some cost ->
                   isinf cost = false -> fin cost.

Lemma wp_astar_init_s ENV sc sk ss :
  sound ENV sk ss ->
  (pq_is_empty (pq_ ss) = true -> hm_ ss !! sk = None) ->
  wp (astar_init ENV sc sk)
     (fun _ ss' => sound ENV sk ss' /\ pq_is_empty (pq_ ss') = false) ss.
Proof.
  intros [Hio Htr] Hfree. destruct (pq_is_empty (pq_ ss)) eqn:Hq.
  - eapply wp_eq; [apply astar_init_eq, Hq |]. split; [split |].
    + apply in_order_new_node;
        [exact Hio | reflexivity | reflexivity | | |].
      * split; reflexivity.
      * right. apply pq_is_empty_elems, Hq.
      * right. eexists. split; reflexivity.
    + apply (traced_new_node ENV sk ss sk _ _ Htr);
        [auto | reflexivity | reflexivity |].
      simpl. intros e He. apply elem_of_app in He as [He | He]; [now left |].
      apply elem_of_cons in He as [-> | He];
        [| apply elem_of_nil in He; destruct He].
      right. simpl. split; [reflexivity | eexists; reflexivity].
    + unfold pq_is_empty. simpl. destruct (elems (pq_ ss)); reflexivity.
  - eapply (wp_eq _ _ _ tt ss); [| split; [split; [exact Hio | exact Htr] | exact Hq]].
    unfold astar_init, pq_empty, gets, mbind, Op_bind. rewrite Hq. reflexivity.
Qed.

Lemma elem_set_first_old q hd0 f e' :
  e' ∈ elems (pq_set_first hd0 f q) ->
  exists e, e ∈ elems q /\ second e' = second e.
Proof.
  intros H. apply elem_set_first in H as (e & He & _ & Hs). eauto.
Qed.

Lemma wp_astar_relax_s ENV sk curr v cost ss cu sv c0 :
  sound ENV sk ss ->
  store ss !! curr = Some cu -> hm_ ss !! hashkey cu = Some curr ->
  coord cu = c0 -> fin (g cu) ->
  store ss !! v = Some sv -> hm_ ss !! hashkey sv = Some v ->
  pred_hashkey sv <> [] -> fin cost ->
  wp (astar_relax curr v cost)
     (fun _ ss' => sound ENV sk ss' /\ node_at ss' curr c0) ss.
Proof.
  intros [Hio Htr] Hcu Hreg Hc0 Hgc Hsv Hdom Hpred Hcost. unfold astar_relax.
  apply wp_bind. eapply wp_load; [exact Hcu |]. cbv zeta.
  apply wp_bind. eapply wp_load; [exact Hsv |].
  destruct (ltb (add (g cu) cost) (g sv)).
  2:{ apply wp_ret. split; [split; assumption |]. exists cu. auto. }
  pose proof (lookup_lt_Some _ _ _ Hsv) as Hlt.
  pose proof (fin_add _ _ Hgc Hcost) as Hft.
  set (sv1 := set_g (add (g cu) cost) sv).
  assert (Hio1 : in_order (with_store (<[v := sv1]> (store ss)) ss)).
  { eapply in_order_update; [exact Hio | exact Hsv | reflexivity | auto | |].
    - apply (io_pred_parallel _ Hio _ _ Hsv).
    - eapply open_ok_same; [reflexivity.. |]. apply (io_open _ Hio _ _ Hsv). }
  assert (Htr1 : traced ENV sk (with_store (<[v := sv1]> (store ss)) ss)).
  { eapply traced_update;
      [exact Htr | exact Hsv | reflexivity | reflexivity | | |].
    - intros _. exact Hft.
    - intros _ _. exact Hpred.
    - intros i key Hkey. left. auto. }
  apply wp_bind. eapply wp_modify; [exact Hsv |]. fold sv1.
  set (ss1 := with_store (<[v := sv1]> (store ss)) ss) in *.
  assert (Hsv1 : store ss1 !! v = Some sv1)
    by (simpl; apply list_lookup_insert_eq; exact Hlt).
  assert (Hcurr1 : forall st, store st = store ss1 -> hm_ st = hm_ ss ->
                              node_at st curr c0).
  { intros st Hst Hhm. unfold node_at. rewrite Hst, Hhm. simpl.
    destruct (decide (v = curr)) as [<- | Hne].
    - exists sv1. rewrite list_lookup_insert_eq by exact Hlt.
      assert (sv = cu) as -> by congruence. simpl. auto.
    - exists cu. rewrite list_lookup_insert_ne by exact Hne. auto. }
  apply wp_bind. eapply wp_load; [exact Hsv1 |].
  apply wp_bind. apply wp_gets. cbv zeta.
  destruct (iterationopened sv1 && negb (iterationclosed sv1)) eqn:Eopen.
  - apply andb_true_iff in Eopen as [Eo Ec]. apply negb_true_iff in Ec.
    destruct (io_open _ Hio1 _ _ Hsv1 Eo Ec) as (hd & Hhk & Hq).
    eapply wp_eq.
    + unfold pq_update. rewrite Hhk, (queued_has _ _ _ Hq). reflexivity.
    + split; [split |].
      * apply in_order_set_first, Hio1.
      * apply traced_queue; [exact Htr1 |].
        intros e' He'. apply elem_set_first_old in He' as (e & He & ->).
        apply (tr_queue _ _ _ Htr1 e He).
      * apply Hcurr1; reflexivity.
  - set (f := add (g sv1) (mul (eps_ ss1) (h sv1))).
    assert (Hio2 : in_order (with_pq (pq_insert f v (pq_ ss1)).2 ss1))
      by (eapply in_order_push; [exact Hio1 | exact Hsv1 | exact Hdom]).
    assert (Htr2 : traced ENV sk (with_pq (pq_insert f v (pq_ ss1)).2 ss1)).
    { apply traced_queue; [exact Htr1 |]. simpl.
      intros e He. apply elem_of_app in He as [He | He].
      - apply (tr_queue _ _ _ Htr1 e He).
      - apply elem_of_cons in He as [-> | He];
          [| apply elem_of_nil in He; destruct He].
        simpl. exists sv1. split; [exact Hsv1 | exact Hft]. }
    apply wp_bind. eapply wp_eq; [reflexivity |].
    set (ss2 := with_pq (pq_insert f v (pq_ ss1)).2 ss1) in *.
    set (hk := next_handle (pq_ ss)).
    assert (Hsv2 : store ss2 !! v = Some sv1) by exact Hsv1.
    set (sv3 := set_heapkey (Some hk) sv1).
    assert (Hio3 : in_order (with_store (<[v := sv3]> (store ss2)) ss2)).
    { eapply in_order_update; [exact Hio2 | exact Hsv2 | reflexivity | auto | |].
      - apply (io_pred_parallel _ Hio1 _ _ Hsv1).
      - intros Ho Hc.
        assert (E : iterationopened sv3 && negb (iterationclosed sv3) = false)
          by exact Eopen.
        rewrite Ho, Hc in E. discriminate E. }
    assert (Htr3 : traced ENV sk (with_store (<[v := sv3]> (store ss2)) ss2)).
    { eapply traced_update;
        [exact Htr2 | exact Hsv2 | reflexivity | reflexivity | auto | |].
      - intros _ _. exact Hpred.
      - intros i key Hkey. left. auto. }
    apply wp_bind. eapply wp_modify; [exact Hsv2 |]. fold sv3.
    set (ss3 := with_store (<[v := sv3]> (store ss2)) ss2) in *.
    assert (Hsv3 : store ss3 !! v = Some sv3).
    { simpl. apply list_lookup_insert_eq. rewrite length_insert. exact Hlt. }
    eapply wp_modify; [exact Hsv3 |].
    split; [split |].
    + eapply in_order_update; [exact Hio3 | exact Hsv3 | reflexivity | auto | |].
      * apply (io_pred_parallel _ Hio3 _ _ Hsv3).
      * intros _ _. exists hk. split; [reflexivity |]. apply queued_new.
    + eapply traced_update;
        [exact Htr3 | exact Hsv3 | reflexivity | reflexivity | auto | |].
      * intros _ _. exact Hpred.
      * intros i key Hkey. left. auto.
    + unfold node_at. simpl. rewrite !list_insert_insert_eq.
      destruct (decide (v = curr)) as [<- | Hne].
      * eexists. rewrite list_lookup_insert_eq by exact Hlt.
        split; [reflexivity |]. simpl.
        assert (sv = cu) as -> by congruence. auto.
      * exists cu. rewrite list_lookup_insert_ne by exact Hne. auto.
Qed.

Lemma fin_PInf : ~ fin PInf.
Proof. intros [z H]. discriminate H. Qed.

Lemma wp_astar_succ_s ENV sk0 curr sc sk cost act ss c0 :
  sound ENV sk0 ss -> node_at ss curr c0 ->
  fin cost -> is_edge ENV c0 sk cost act ->
  wp (astar_succ ENV curr sc sk cost act)
     (fun _ ss' => sound ENV sk0 ss' /\ node_at ss' curr c0) ss.
Proof.
  intros [Hio Htr] (cu & Hcu & Hdom & Hc0 & Hgc) Hcost Hedge.
  unfold astar_succ.
  assert (Hchild : exists v ss1 sv,
            astar_child ENV sc sk ss = Ok (v, ss1) /\
            in_order ss1 /\ traced ENV sk0 ss1 /\
            store ss1 !! curr = Some cu /\ hm_ ss1 !! hashkey cu = Some curr /\
            store ss1 !! v = Some sv /\ hm_ ss1 !! hashkey sv = Some v /\
            hashkey sv = sk).
  { destruct (hm_ ss !! sk) as [v|] eqn:E.
    - destruct (io_hm _ Hio _ _ E) as (sv & Hsv & Hk).
      exists v, ss, sv.
      split; [apply astar_child_found, E |].
      repeat (split; [assumption |]).
      split; [rewrite Hk; exact E | exact Hk].
    - eexists _, _, _.
      split; [rewrite (astar_child_new _ _ _ _ E); apply make_child_eq |].
      split.
      { apply (in_order_new_node ss sk _ (pq_ ss));
          [exact Hio | reflexivity | reflexivity | split; reflexivity
          | left; exact E |].
        left. split; reflexivity. }
      split.
      { apply (traced_new_node ENV sk0 ss sk _ (pq_ ss) Htr);
          [exact E | reflexivity | | intros e He; now left].
        simpl. intros Hf. elim (fin_PInf Hf). }
      simpl. split.
      { rewrite lookup_app_l; [exact Hcu | eapply lookup_lt_Some; exact Hcu]. }
      split; [rewrite lookup_insert_ne; [exact Hdom | congruence] |].
      split; [apply lookup_snoc |]. simpl.
      split; [apply lookup_insert_eq | reflexivity]. }
  destruct Hchild as (v & ss1 & sv & Hch & Hio1 & Htr1 & Hcu1 & Hdom1 & Hsv &
                      Hdomv & Hkv).
  apply wp_bind. eapply wp_eq; [exact Hch |].
  set (sv2 := push_pred_action_id act
                (push_pred_action_cost cost
                   (push_pred_hashkey (hashkey cu) sv))).
  destruct (io_pred_parallel _ Hio1 _ _ Hsv) as [P1 P2].
  assert (Hio2 : in_order (with_store (<[v := sv2]> (store ss1)) ss1)).
  { eapply in_order_update; [exact Hio1 | exact Hsv | reflexivity | | |].
    - simpl. intros k Hin. apply elem_of_app in Hin as [Hin | Hin];
        [now left | right].
      apply elem_of_cons in Hin as [-> | Hin];
        [eauto | apply elem_of_nil in Hin; destruct Hin].
    - split; simpl; rewrite !length_app; simpl; lia.
    - eapply open_ok_same; [reflexivity.. |]. apply (io_open _ Hio1 _ _ Hsv). }
  assert (Htr2 : traced ENV sk0 (with_store (<[v := sv2]> (store ss1)) ss1)).
  { eapply traced_update;
      [exact Htr1 | exact Hsv | reflexivity | reflexivity | auto | |].
    - intros _ _. simpl. destruct (pred_hashkey sv); discriminate.
    - intros i key Hkey. simpl in Hkey.
      destruct (decide (i < length (pred_hashkey sv))%nat) as [Hi | Hi].
      + left. simpl. rewrite lookup_app_l in Hkey by exact Hi.
        split; [exact Hkey |].
        rewrite !lookup_app_l by lia. auto.
      + right. rewrite lookup_app_r in Hkey by lia.
        destruct (i - length (pred_hashkey sv))%nat eqn:Ei; simpl in Hkey;
          [| discriminate].
        assert (i = length (pred_hashkey sv)) as -> by lia.
        inversion Hkey; subst key. clear Hkey.
        intros key Hkey. simpl in Hkey.
        rewrite lookup_app_r, Nat.sub_diag in Hkey by lia.
        inversion Hkey; subst key.
        exists curr, cu, cost, act. simpl.
        split; [exact Hdom1 | split; [exact Hcu1 |]].
        split; [rewrite lookup_app_r by lia;
                replace (_ - _)%nat with 0%nat by lia; reflexivity |].
        split; [rewrite lookup_app_r by lia;
                replace (_ - _)%nat with 0%nat by lia; reflexivity |].
        split; [exact Hgc | split; [exact Hcost |]].
        rewrite Hc0, Hkv. exact Hedge. }
  apply wp_bind. eapply wp_eq; [apply record_pred_eq; eassumption |].
  fold sv2.
  pose proof (lookup_lt_Some _ _ _ Hsv) as Hlt.
  set (ss2 := with_store (<[v := sv2]> (store ss1)) ss1) in *.
  assert (Hsv2 : store ss2 !! v = Some sv2)
    by (simpl; apply list_lookup_insert_eq; exact Hlt).
  assert (Hcu2 : exists cu2,
            store ss2 !! curr = Some cu2 /\ hashkey cu2 = hashkey cu /\
            coord cu2 = c0 /\ fin (g cu2)).
  { simpl. destruct (decide (v = curr)) as [<- | Hne].
    - exists sv2. rewrite list_lookup_insert_eq by exact Hlt.
      assert (sv = cu) as -> by congruence. simpl. auto.
    - exists cu. rewrite list_lookup_insert_ne by exact Hne. auto. }
  destruct Hcu2 as (cu2 & Hcu2 & Hk2 & Hc2 & Hg2).
  eapply (wp_astar_relax_s ENV sk0 curr v cost ss2 cu2 sv2 c0);
    [split; [exact Hio2 | exact Htr2] | exact Hcu2 | | exact Hc2 | exact Hg2
    | exact Hsv2 | exact Hdomv | | exact Hcost].
  - rewrite Hk2. exact Hdom1.
  - simpl. destruct (pred_hashkey sv); discriminate.
Qed.

Lemma wp_astar_process_s ENV sk0 curr s ss c0 :
  env_in_range ENV -> env_no_nan ENV ->
  (s < length (sc_coord (get_succ ENV c0)))%nat ->
  sound ENV sk0 ss -> node_at ss curr c0 ->
  wp (astar_process ENV curr (get_succ ENV c0) s)
     (fun _ ss' => sound ENV sk0 ss' /\ node_at ss' curr c0) ss.
Proof.
  intros Hr Hn Hs Hsound Hcurr. destruct (Hr c0) as (R1 & R2 & R3).
  unfold astar_process.
  destruct (lookup_lt_is_Some_2 (sc_cost (get_succ ENV c0)) s ltac:(lia))
    as [cost Hc].
  destruct (lookup_lt_is_Some_2 (sc_key (get_succ ENV c0)) s ltac:(lia))
    as [sk Hk].
  destruct (lookup_lt_is_Some_2 (sc_coord (get_succ ENV c0)) s ltac:(lia))
    as [sc Hsc].
  destruct (lookup_lt_is_Some_2 (sc_act_id (get_succ ENV c0)) s ltac:(lia))
    as [act Ha].
  apply wp_bind. eapply wp_index; [exact Hc |].
  destruct (isinf cost) eqn:Einf; [apply wp_ret; auto |].
  apply wp_bind. eapply wp_index; [exact Hk |].
  apply wp_bind. eapply wp_index; [exact Hsc |].
  apply wp_bind. eapply wp_index; [exact Ha |].
  apply wp_astar_succ_s; [assumption.. | eapply Hn; eassumption |].
  exists s. auto.
Qed.

Lemma wp_astar_expand_s ENV sk0 ss :
  env_in_range ENV -> env_no_nan ENV ->
  sound ENV sk0 ss -> pq_is_empty (pq_ ss) = false ->
  wp (astar_expand ENV)
     (fun u ss' => sound ENV sk0 ss' /\ node_ok ss' u /\
                   exists su, store ss' !! u = Some su /\ fin (g su)) ss.
Proof.
  intros Hr Hn [Hio Htr] Hq. destruct (pq_top_nonempty _ Hq) as (e & Htop).
  pose proof (pq_top_in _ _ Htop) as Hin.
  destruct (io_pq _ Hio e Hin) as (_ & s & Hs & Hdom).
  destruct (tr_queue _ _ _ Htr e Hin) as (s0 & Hs0 & Hfin).
  assert (s0 = s) as -> by congruence.
  unfold astar_expand.
  apply wp_bind. eapply wp_eq;
    [unfold pq_top_op; rewrite Htop; reflexivity |]. cbv zeta.
  apply wp_bind. eapply wp_eq; [unfold pq_pop; rewrite Htop; reflexivity |].
  pose proof (in_order_pop_close _ _ _ Hio Htop Hs) as Hio1.
  assert (Htr1 : traced ENV sk0
            (with_store (<[second e := set_iterationclosed true s]> (store ss))
               (with_pq (pq_remove (el_handle e) (pq_ ss)) ss))).
  { change (traced ENV sk0
              (with_pq (pq_remove (el_handle e) (pq_ ss))
                 (with_store
                    (<[second e := set_iterationclosed true s]> (store ss))
                    ss))).
    assert (Htr0 : traced ENV sk0
              (with_store
                 (<[second e := set_iterationclosed true s]> (store ss)) ss)).
    { eapply traced_update;
        [exact Htr | exact Hs | reflexivity | reflexivity | auto | |].
      - intros Hf Hne. simpl in *. eapply (tr_pred _ _ _ Htr); eassumption.
      - intros i key Hkey. left. auto. }
    apply traced_queue; [exact Htr0 |].
    intros e' He'. apply elem_remove in He' as [He' _].
    apply (tr_queue _ _ _ Htr0 e' He'). }
  apply wp_bind. eapply wp_modify; [exact Hs |].
  set (ss1 := with_store (<[second e := set_iterationclosed true s]> (store ss))
                (with_pq (pq_remove (el_handle e) (pq_ ss)) ss)) in *.
  assert (Hs1 : store ss1 !! second e = Some (set_iterationclosed true s)).
  { simpl. apply list_lookup_insert_eq. eapply lookup_lt_Some; exact Hs. }
  apply wp_bind. eapply wp_load; [exact Hs1 |]. cbv zeta.
  change (coord (set_iterationclosed true s)) with (coord s).
  apply wp_bind.
  eapply wp_mono;
    [| apply (wp_for_each
                (fun st => sound ENV sk0 st /\ node_at st (second e) (coord s)))].
  - intros [] ss2 [Hs2 (su & Hsu & Hreg & _ & Hg)]. apply wp_ret.
    split; [exact Hs2 | split; [exists su; auto | eauto]].
  - intros i st Hi [Hs' Hok'].
    apply wp_astar_process_s; try assumption.
    apply elem_of_seq in Hi. lia.
  - split; [split; assumption |]. exists (set_iterationclosed true s).
    split; [exact Hs1 | split; [exact Hdom | split; [reflexivity | exact Hfin]]].
Qed.

Lemma wp_astar_loop_s ENV sk0 fuel n max_expand max_t ss :
  env_in_range ENV -> env_no_nan ENV ->
  sound ENV sk0 ss -> pq_is_empty (pq_ ss) = false ->
  wp (astar_loop ENV fuel n max_expand max_t)
     (fun r ss' => sound ENV sk0 ss' /\
                   exists su, store ss' !! r.1.1 = Some su /\ fin (g su)) ss.
Proof.
  intros Hr Hn. revert n ss.
  induction fuel as [| fuel IH]; intros n ss Hs Hq; simpl; [exact I |].
  destruct (INT_MAX <=? n); [reflexivity |].
  apply wp_bind. eapply wp_mono; [| apply wp_astar_expand_s; eassumption].
  intros u ss1 (Hs1 & Hok1 & Hfin1). apply wp_bind.
  eapply wp_mono; [| apply wp_astar_checks; exact Hok1].
  intros v ss2 [-> Hc].
  destruct v; try (apply wp_ret; split; assumption).
  apply IH; auto.
Qed.

(** *** From the walk of the trace-back to a path *)

(** The primitives [prs], the last one first, lead along edges of the
    graph from the node of [start_key] to the node at [v]: each is what
    [forward_action] gives at the coordinate of a node for the action of
    an edge from that node to the key of the next. *)
Inductive path (ENV : env_base) (ss : StateSpace) (start_key : Key)
  : nat -> list Primitive -> Prop :=
| path_first v sv p sp cost act :
    store ss !! v = Some sv -> store ss !! p = Some sp ->
    hm_ ss !! start_key = Some p ->
    is_edge ENV (coord sp) (hashkey sv) cost act ->
    path ENV ss start_key v [forward_action ENV (coord sp) act]
| path_next v sv p sp cost act prs :
    store ss !! v = Some sv -> store ss !! p = Some sp ->
    is_edge ENV (coord sp) (hashkey sv) cost act ->
    path ENV ss start_key p prs ->
    path ENV ss start_key v (forward_action ENV (coord sp) act :: prs).

(** The step the trace-back takes is along a recorded edge. *)
Lemma takes_edge ENV sk ss curr c min_id parent sp act :
  sound ENV sk ss -> store ss !! curr = Some c ->
  takes ss c min_id parent sp act ->
  fin (g sp) /\ hm_ ss !! hashkey sp = Some parent /\
  exists cost, is_edge ENV (coord sp) (hashkey c) cost act.
Proof.
  intros [Hio Htr] Hc (Hmin & key & Hkey & Hact & Hhm & Hsp).
  destruct (tr_edges _ _ _ Htr curr c (Z.to_nat min_id) Hc key Hkey)
    as (p & sp' & cost & act' & Hhm' & Hsp' & _ & Hact' & Hg & _ & Hedge).
  assert (p = parent) as -> by congruence.
  assert (sp' = sp) as -> by congruence.
  assert (act' = act) as -> by congruence.
  destruct (io_hm _ Hio _ _ Hhm) as (sp0 & Hsp0 & Hk0).
  assert (sp0 = sp) as -> by congruence.
  split; [exact Hg | split; [rewrite Hk0; exact Hhm | eauto]].
Qed.

(** The scan finds a predecessor when there is one. *)
Lemma selects_some ENV sk ss curr c min_id :
  sound ENV sk ss -> store ss !! curr = Some c ->
  pred_hashkey c <> [] -> selects ss c min_id -> 0 <= min_id.
Proof.
  intros [Hio Htr] Hc Hne (mr & mg & Hscan).
  pose proof (scan_inv_final _ _ _ _ Hscan) as (Hmin & _ & Hsel).
  destruct Hsel as [(-> & -> & _) | (m & _ & _ & -> & _)]; [| lia].
  exfalso.
  destruct (pred_hashkey c) as [| k0 ks] eqn:Ep; [congruence |].
  assert (Hk : pred_hashkey c !! 0%nat = Some k0) by (rewrite Ep; reflexivity).
  destruct (tr_edges _ _ _ Htr curr c 0%nat Hc k0 Hk)
    as (p & sp & cost & act & Hhm & Hsp & Hco & _ & [zg Hg] & [zc Hcz] & _).
  assert (He : pred_entry ss c 0 = Some (g sp, cost)).
  { unfold pred_entry. rewrite Hk. simpl. rewrite Hhm. simpl.
    rewrite Hsp. simpl. rewrite Hco. reflexivity. }
  assert (Hlt : (0 < length (k0 :: ks))%nat) by (simpl; lia).
  pose proof (Hmin 0%nat _ _ Hlt He) as Hge.
  rewrite Hg, Hcz in Hge. discriminate Hge.
Qed.

Lemma walk_path ENV sk ss curr prs :
  sound ENV sk ss -> walk ENV ss sk curr prs ->
  forall c, store ss !! curr = Some c -> fin (g c) ->
    (prs = [] /\ hashkey c = sk) \/ path ENV ss sk curr prs.
Proof.
  intros Hs Hw. induction Hw as
    [curr c0 Hc0 Hp
    | curr c0 min_id Hc0 Hp Hsel Hneg
    | curr c0 min_id parent sp act Hc0 Hp Hsel Htakes Hstart
    | curr c0 min_id parent sp act prs Hc0 Hp Hsel Htakes Hstart Hw IH];
    intros c Hc Hfin.
  - left. split; [reflexivity |].
    assert (c0 = c) as -> by congruence.
    destruct (decide (hashkey c = sk)) as [| Hne]; [assumption |].
    elim (tr_pred _ _ _ (proj2 Hs) curr c Hc Hfin Hne Hp).
  - pose proof (selects_some _ _ _ _ _ _ Hs Hc0 Hp Hsel). lia.
  - right.
    destruct (takes_edge _ _ _ _ _ _ _ _ _ Hs Hc0 Htakes)
      as (_ & Hreg & cost & Hedge).
    destruct Htakes as (_ & key & _ & _ & _ & Hsp).
    eapply path_first; [exact Hc0 | exact Hsp | | exact Hedge].
    rewrite <- Hstart. exact Hreg.
  - right.
    destruct (takes_edge _ _ _ _ _ _ _ _ _ Hs Hc0 Htakes)
      as (Hg & Hreg & cost & Hedge).
    destruct Htakes as (_ & key & _ & _ & _ & Hsp).
    destruct (IH sp Hsp Hg) as [[_ Hk] | Hpath]; [congruence |].
    eapply path_next; [exact Hc0 | exact Hsp | exact Hedge | exact Hpath].
Qed.

(** The node of the start key, when Astar made it, is at the start
    coordinate. *)
Lemma Astar_start_node ENV fuel start_coord start_key traj max_expand max_t ss
    r ss' :
  pq_is_empty (pq_ ss) = true ->
  is_goal ENV start_coord = false ->
  Astar ENV fuel start_coord start_key traj max_expand max_t ss = Ok (r, ss') ->
  exists a0 s0, hm_ ss' !! start_key = Some a0 /\ store ss' !! a0 = Some s0 /\
                hashkey s0 = start_key /\ coord s0 = start_coord.
Proof.
  intros Hq Hg H. unfold Astar in H. rewrite Hg in H.
  apply bind_Ok in H as ([] & ss1 & Hinit & H).
  rewrite (astar_init_eq _ _ _ _ Hq) in Hinit. inversion Hinit; subst ss1.
  clear Hinit.
  lazymatch type of H with
  | ?m ?st = Ok _ =>
      assert (Hk : keeps same_node (hm_grows None) any_node m)
        by (unfold astar_finish; n_keeps);
      pose proof (Hk _ _ _ H) as (Hhm & _ & _ & Hold & _)
  end.
  simpl in Hhm, Hold.
  destruct (Hold (length (store ss)) _ (lookup_snoc _ _))
    as (s0 & Hs0 & Hk0 & Hc0).
  exists (length (store ss)), s0.
  split; [apply Hhm; [discriminate | apply lookup_insert_eq] |].
  split; [exact Hs0 | split; [exact Hk0 | exact Hc0]].
Qed.

(** X14.  The trajectory Astar returns is a path of the graph.  On a
    workspace in order whose records can be traced (a fresh one is, for any
    start key), with an environment whose costs are numbers or infinities
    and whose successor vectors can be read, and with the start key free
    when the queue is empty: when Astar returns [true], the loop ended on a
    node [u] that is a goal or at the horizon, and the trajectory leads
    from the node of the start key to [u] along edges the environment
    gives, one primitive for each edge, the first edge first; or it is
    empty and [u] is the start node itself.  When the call found the queue
    empty, the node of the start key is the one it made, at the start
    coordinate. *)
Theorem Astar_returns_a_path ENV fuel start_coord start_key traj max_expand
    max_t ss traj' ss' :
  env_in_range ENV -> env_no_nan ENV ->
  in_order ss -> traced ENV start_key ss ->
  (pq_is_empty (pq_ ss) = true -> hm_ ss !! start_key = None) ->
  Astar ENV fuel start_coord start_key traj max_expand max_t ss
  = Ok ((true, traj'), ss') ->
  (exists u su,
     store ss' !! u = Some su /\ terminal ENV max_t su /\
     ((traj' = [] /\ hashkey su = start_key) \/
      path ENV ss' start_key u (rev traj'))) /\
  (pq_is_empty (pq_ ss) = true ->
   exists a0 s0, hm_ ss' !! start_key = Some a0 /\
                 store ss' !! a0 = Some s0 /\ coord s0 = start_coord).
Proof.
  intros Hr Hn Hio Htr Hfree H. pose proof H as H0. unfold Astar in H.
  destruct (is_goal ENV start_coord) eqn:Eg.
  { apply ret_Ok in H as [H _]. inversion H. }
  split.
  2:{ intros Hq.
      destruct (Astar_start_node _ _ _ _ _ _ _ _ _ _ Hq Eg H0)
        as (a0 & s0 & Ha0 & Hs0 & _ & Hc0).
      eauto. }
  apply bind_Ok in H as ([] & ss1 & Hinit & H).
  apply bind_Ok in H as ([[u v] n] & ss2 & Hloop & H).
  pose proof (wp_Ok _ _ _ _ _
                (wp_astar_init_s ENV start_coord start_key ss
                   (conj Hio Htr) Hfree) Hinit) as [Hs1 Hq1].
  pose proof (wp_Ok _ _ _ _ _
                (wp_astar_loop_s ENV start_key fuel 0 max_expand max_t ss1
                   Hr Hn Hs1 Hq1) Hloop) as [Hs2 (su & Hsu & Hfin)].
  simpl in Hsu.
  pose proof (astar_loop_cap _ _ _ _ _ _ _ _ _ _ Hloop) as (_ & Hv1 & Hv2 & _).
  pose proof (astar_loop_verdict _ _ _ _ _ _ _ _ _ _ Hloop) as Hterm.
  unfold astar_finish in H.
  assert (Hv : reached v /\
               (traj'' ← recoverTraj ENV fuel u start_key; mret (true, traj''))
                 (with_expand_iteration n ss2) = Ok ((true, traj'), ss')).
  { unfold reached. destruct v; try congruence;
      try (apply ret_Ok in H as [H _]; inversion H; fail);
      (split; [auto |]);
      apply bind_Ok in H as ([] & ss3 & Hm & H);
      apply modify_ss_Ok in Hm; subst ss3; exact H. }
  destruct Hv as [Hv Hrec]. clear H.
  destruct (Hterm Hv) as (su' & Hsu' & Ht).
  assert (su' = su) as -> by congruence.
  apply bind_Ok in Hrec as (tr & ss3 & Hrec & Hret).
  apply ret_Ok in Hret as [Hret Heq]. subst ss3.
  inversion Hret; subst tr; clear Hret.
  pose proof (recoverTraj_rest _ _ _ _ _ _ _ Hrec) as Hrest.
  assert (Hst : store ss' = store ss2)
    by (exact (f_equal (fun x => fst (fst (fst (fst x)))) Hrest)).
  assert (Hpq : pq_ ss' = pq_ ss2)
    by (exact (f_equal (fun x => snd (fst (fst (fst x)))) Hrest)).
  assert (Hhm : hm_ ss' = hm_ ss2)
    by (exact (f_equal (fun x => snd (fst (fst x))) Hrest)).
  assert (Hs' : sound ENV start_key ss').
  { destruct Hs2 as [Hio2 Htr2].
    split; [eapply in_order_same | eapply traced_same]; eassumption. }
  destruct (recoverTraj_walk _ _ _ _ _ _ _ Hrec) as (prs & Hw & ->).
  exists u, su. rewrite Hst.
  split; [exact Hsu | split; [exact Ht |]].
  rewrite rev_involutive.
  destruct (walk_path _ _ _ _ _ Hs' Hw su) as [[-> Hk] | Hpath];
    [rewrite Hst; exact Hsu | exact Hfin | left; auto | right; exact Hpath].
Qed.

Lemma graph_env_no_nan edges goal heur :
  Forall (fun e => e_cost e <> NaN) edges ->
  env_no_nan (graph_env edges goal heur).
Proof.
  intros Hall c j cost Hc Hinf. simpl in Hc.
  apply list_lookup_fmap_Some in Hc as (e & -> & He).
  apply list_elem_of_lookup_2 in He.
  apply list_elem_of_filter in He as [_ He].
  rewrite Forall_forall in Hall. specialize (Hall e He).
  destruct (e_cost e); try discriminate; [eexists; reflexivity | congruence].
Qed.

(** On [line_env] from a fresh workspace: the two primitives lead from
    the node of the start key, at the start coordinate, to the goal node at
    address 2. *)
Lemma Astar_returns_a_path_witness :
  exists ss',
    Astar line_env 10 (at_pos 0) 0 [] (-1) (Fin 0) ss0
    = Ok ((true, [mkPrimitive (at_pos 0) 10;
                  mkPrimitive (mkCoord 1 (Fin 1)) 11]), ss') /\
    exists u,
      path line_env ss' 0 u [mkPrimitive (mkCoord 1 (Fin 1)) 11;
                             mkPrimitive (at_pos 0) 10].
Proof.
  assert (H : Astar line_env 10 (at_pos 0) 0 [] (-1) (Fin 0) ss0
              = Ok ((true, [mkPrimitive (at_pos 0) 10;
                            mkPrimitive (mkCoord 1 (Fin 1)) 11]),
                    after (Astar line_env 10 (at_pos 0) 0 [] (-1) (Fin 0) ss0)))
    by (vm_compute; reflexivity).
  eexists. split; [exact H |].
  assert (Hn : env_no_nan line_env)
    by (apply graph_env_no_nan; repeat constructor; discriminate).
  destruct (Astar_returns_a_path line_env 10 (at_pos 0) 0 [] (-1) (Fin 0) ss0
              _ _ (graph_env_in_range _ _ _) Hn
              (in_order_fresh _ _) (traced_fresh _ _ _ _)
              (fun _ => eq_refl) H)
    as ((u & su & _ & _ & [[Hnil _] | Hpath]) & _);
    [discriminate Hnil | exists u; exact Hpath].
Defined.

(** ** Costs that are never negative *)

(** The finite costs the environment gives are not negative. *)
Definition env_nonneg (ENV : env_base) : Prop :=
  forall c j cost, sc_cost (get_succ ENV c) !! j = Some cost ->
    isinf cost = false -> exists z, cost = Fin z /\ 0 <= z.

(** A g-value as the search leaves it: a number that is not negative, or
    +inf. *)
Definition g_nonneg (x : decimal) : Prop :=
  match x with Fin z => 0 <= z | PInf => True | _ => False end.

Definition nonneg (ss : StateSpace) : Prop :=
  forall a s, store ss !! a = Some s -> g_nonneg (g s).

(** The start key has its node, of the g-value 0. *)
Definition start_zero (start_key : Key) (ss : StateSpace) : Prop :=
  exists a s, hm_ ss !! start_key = Some a /\ store ss !! a = Some s /\
              g s = Fin 0.

Definition settled (start_key : Key) (ss : StateSpace) : Prop :=
  nonneg ss /\ start_zero start_key ss.

Lemma nonneg_fresh eps dt : nonneg (StateSpace_init eps dt).
Proof. intros a s H. destruct a; discriminate. Qed.

Lemma settled_frame sk ss ss' :
  frame same_g same_hm no_new ss ss' -> settled sk ss -> settled sk ss'.
Proof.
  intros Hf [Hn (a & s & Ha & Hs & Hg)].
  pose proof Hf as (Hhm & _ & _ & Hold & _). unfold same_hm in Hhm.
  split.
  - intros b sb' Hb. destruct (frame_no_new _ _ _ _ _ _ Hf Hb) as (sb & Hsb).
    destruct (Hold b sb Hsb) as (sb1 & Hsb1 & Hgb).
    assert (sb1 = sb') as -> by congruence.
    unfold same_g in Hgb. rewrite Hgb. exact (Hn b sb Hsb).
  - destruct (Hold a s Hs) as (s' & Hs' & Hg'). unfold same_g in Hg'.
    exists a, s'. rewrite <- Hhm. split; [exact Ha | split; [exact Hs' | congruence]].
Qed.

Lemma settled_same sk ss ss' :
  store ss' = store ss -> hm_ ss' = hm_ ss -> settled sk ss -> settled sk ss'.
Proof.
  intros Hs Hh [Hn Hz]. unfold settled, nonneg, start_zero.
  rewrite Hs, Hh. split; assumption.
Qed.

(** The attempt to improve a successor at a cost that is not negative. *)
Lemma astar_relax_settled sk curr v zcost ss x ss' :
  0 <= zcost -> settled sk ss ->
  astar_relax curr v (Fin zcost) ss = Ok (x, ss') -> settled sk ss'.
Proof.
  intros Hz [Hn (a & s & Ha & Hs & Hg)] H. unfold astar_relax in H.
  apply bind_Ok in H as (cu & ss1 & Hl & H).
  apply load_Ok in Hl as [Hcu ->]. cbv zeta in H.
  apply bind_Ok in H as (sv & ss1 & Hl' & H).
  apply load_Ok in Hl' as [Hv ->].
  destruct (ltb (add (g cu) (Fin zcost)) (g sv)) eqn:E.
  2:{ apply ret_Ok in H as [_ ->]. split; [exact Hn | exists a, s; auto]. }
  apply bind_Ok in H as (u & ss1 & Hmod & H).
  apply modify_Ok in Hmod as (sv' & Hsv' & ->).
  assert (sv' = sv) as -> by congruence.
  pose proof (lookup_lt_Some _ _ _ Hv) as Hlt.
  assert (Hf : frame same_g same_hm no_new
                 (with_store (<[v := set_g (add (g cu) (Fin zcost)) sv]>
                                (store ss)) ss) ss').
  { revert H.
    generalize (with_store (<[v := set_g (add (g cu) (Fin zcost)) sv]>
                              (store ss)) ss).
    intros ss1 H.
    lazymatch type of H with
    | ?m ss1 = Ok _ =>
        assert (Hk : keeps same_g same_hm no_new m) by sg_keeps
    end.
    eapply Hk, H. }
  apply (settled_frame _ _ _ Hf).
  pose proof (Hn curr cu Hcu) as Hgc.
  assert (Ht : exists zt, add (g cu) (Fin zcost) = Fin zt /\ 0 <= zt).
  { destruct (g cu) as [zc | | |] eqn:Egc; simpl in Hgc; try contradiction.
    - exists (zc + zcost). split; [reflexivity | lia].
    - simpl in E. destruct (g sv); discriminate E. }
  destruct Ht as (zt & Et & Hzt). rewrite Et in *.
  split.
  - intros b sb Hb. simpl in Hb. destruct (decide (v = b)) as [<- | Hne].
    + rewrite list_lookup_insert_eq in Hb by exact Hlt.
      inversion Hb; subst sb. simpl. exact Hzt.
    + rewrite list_lookup_insert_ne in Hb by exact Hne. exact (Hn b sb Hb).
  - exists a, s. simpl. split; [exact Ha | split; [| exact Hg]].
    destruct (decide (v = a)) as [<- | Hne].
    + assert (sv = s) as -> by congruence. rewrite Hg in E. simpl in E.
      apply Z.ltb_lt in E. lia.
    + rewrite list_lookup_insert_ne by exact Hne. exact Hs.
Qed.

Lemma astar_child_settled ENV sk0 sc sk ss v ss1 :
  settled sk0 ss -> astar_child ENV sc sk ss = Ok (v, ss1) -> settled sk0 ss1.
Proof.
  intros [Hn (a & s & Ha & Hs & Hg)] H.
  destruct (hm_ ss !! sk) as [v0|] eqn:E.
  - rewrite (astar_child_found _ _ _ _ _ E) in H. inversion H; subst v0 ss1.
    split; [exact Hn | exists a, s; auto].
  - rewrite (astar_child_new _ _ _ _ E), make_child_eq in H.
    inversion H; subst v ss1. clear H. split.
    + intros b sb Hb. simpl in Hb.
      destruct (decide (b < length (store ss))%nat) as [Hlt | Hge].
      * rewrite lookup_app_l in Hb by exact Hlt. exact (Hn b sb Hb).
      * rewrite lookup_app_r in Hb by lia.
        destruct (b - length (store ss))%nat; simpl in Hb; [| discriminate].
        inversion Hb; subst sb. exact I.
    + exists a, s. simpl.
      split; [rewrite lookup_insert_ne; [exact Ha | congruence] |].
      split; [| exact Hg].
      rewrite lookup_app_l; [exact Hs | eapply lookup_lt_Some; exact Hs].
Qed.

Lemma record_pred_g curr v cost act :
  keeps same_g same_hm no_new (record_pred curr v cost act).
Proof. unfold record_pred. sg_keeps. Qed.

Lemma astar_process_settled ENV sk0 curr c0 s ss x ss' :
  env_nonneg ENV -> settled sk0 ss ->
  astar_process ENV curr (get_succ ENV c0) s ss = Ok (x, ss') ->
  settled sk0 ss'.
Proof.
  intros Henv Hs H. unfold astar_process in H.
  apply bind_Ok in H as (cost & ss1 & Hi & H).
  apply index_Ok in Hi as [Hcost ->].
  destruct (isinf cost) eqn:Einf; [apply ret_Ok in H as [_ ->]; exact Hs |].
  destruct (Henv _ _ _ Hcost Einf) as (zcost & -> & Hz).
  apply bind_Ok in H as (sk & ss1 & Hi & H). apply index_Ok in Hi as [_ ->].
  apply bind_Ok in H as (sc & ss1 & Hi & H). apply index_Ok in Hi as [_ ->].
  apply bind_Ok in H as (act & ss1 & Hi & H). apply index_Ok in Hi as [_ ->].
  unfold astar_succ in H.
  apply bind_Ok in H as (v & ss1 & Hch & H).
  apply bind_Ok in H as ([] & ss2 & Hrec & H).
  eapply astar_relax_settled; [exact Hz | | exact H].
  eapply settled_frame; [eapply record_pred_g; exact Hrec |].
  eapply astar_child_settled; eassumption.
Qed.

Lemma for_each_inv (I : StateSpace -> Prop) l body ss x ss' :
  (forall s ss1 y ss2, s ∈ l -> I ss1 -> body s ss1 = Ok (y, ss2) -> I ss2) ->
  I ss -> for_each l body ss = Ok (x, ss') -> I ss'.
Proof.
  revert ss. induction l as [| s l IH]; intros ss Hb HI H; simpl in H.
  - apply ret_Ok in H as [_ ->]. exact HI.
  - apply bind_Ok in H as (y & ss1 & H1 & H).
    eapply IH; [| | exact H].
    + intros s' st y' st' Hin. apply Hb. now right.
    + eapply Hb; [now left | exact HI | exact H1].
Qed.

Lemma astar_expand_settled ENV sk0 ss u ss' :
  env_nonneg ENV -> settled sk0 ss ->
  astar_expand ENV ss = Ok (u, ss') -> settled sk0 ss'.
Proof.
  intros Henv Hs H. unfold astar_expand in H.
  apply bind_Ok in H as (e & ss1 & Htop & H).
  apply pq_top_op_Ok in Htop as [_ ->]. cbv zeta in H.
  apply bind_Ok in H as ([] & ss1 & Hpop & H).
  apply bind_Ok in H as ([] & ss2 & Hmod & H).
  apply bind_Ok in H as (cu & ss3 & Hl & H).
  apply load_Ok in Hl as [_ ->]. cbv zeta in H.
  apply bind_Ok in H as ([] & ss3 & Hloop & H).
  apply ret_Ok in H as [_ ->].
  assert (Hs2 : settled sk0 ss2).
  { assert (Hk : keeps same_g same_hm no_new
                   (pq_pop ;; modify (second e) (set_iterationclosed true)))
      by sg_keeps.
    eapply settled_frame; [| exact Hs].
    eapply (Hk ss tt ss2). unfold mbind, Op_bind. rewrite Hpop. exact Hmod. }
  eapply (for_each_inv (settled sk0)); [| exact Hs2 | exact Hloop].
  intros s st y st' _ Hst Hrun.
  eapply astar_process_settled; eassumption.
Qed.

Lemma astar_loop_settled ENV sk0 fuel n max_expand max_t ss r ss' :
  env_nonneg ENV -> settled sk0 ss ->
  astar_loop ENV fuel n max_expand max_t ss = Ok (r, ss') -> settled sk0 ss'.
Proof.
  intros Henv. revert n ss.
  induction fuel as [| fuel IH]; intros n ss Hs H; simpl in H;
    [discriminate |].
  destruct (INT_MAX <=? n); [discriminate |].
  apply bind_Ok in H as (u & ss1 & Hexp & H).
  apply bind_Ok in H as (v & ss2 & Hch & H).
  apply astar_checks_verdict in Hch as [-> _].
  pose proof (astar_expand_settled _ _ _ _ _ Henv Hs Hexp) as Hs1.
  destruct v; try (apply ret_Ok in H as [_ ->]; exact Hs1).
  eapply IH; eassumption.
Qed.

(** X16.  With costs that are never negative, the g-values stay in range
    and the start keeps the g-value 0.  When the environment gives no
    negative finite cost, every g-value of the workspace is a number that
    is not negative or +inf, and the start key is free when the queue is
    empty and has its node of g-value 0 otherwise, then after a call of
    Astar that returns every g-value is again a number that is not
    negative or +inf, and, unless the start is a goal, the start key has
    its node, with the g-value 0. *)
Theorem Astar_costs_not_negative ENV fuel start_coord start_key traj
    max_expand max_t ss r ss' :
  env_nonneg ENV -> nonneg ss ->
  (if pq_is_empty (pq_ ss) then hm_ ss !! start_key = None
   else start_zero start_key ss) ->
  Astar ENV fuel start_coord start_key traj max_expand max_t ss
  = Ok (r, ss') ->
  nonneg ss' /\
  (is_goal ENV start_coord = false -> start_zero start_key ss').
Proof.
  intros Henv Hn Hstart H. unfold Astar in H.
  destruct (is_goal ENV start_coord) eqn:Eg.
  { apply ret_Ok in H as [_ ->]. split; [exact Hn | discriminate]. }
  apply bind_Ok in H as ([] & ss1 & Hinit & H).
  apply bind_Ok in H as ([[u v] n] & ss2 & Hloop & H).
  assert (Hs1 : settled start_key ss1).
  { destruct (pq_is_empty (pq_ ss)) eqn:Hq.
    - rewrite (astar_init_eq _ _ _ _ Hq) in Hinit.
      inversion Hinit; subst ss1. clear Hinit. split.
      + intros b sb Hb. simpl in Hb.
        destruct (decide (b < length (store ss))%nat) as [Hlt | Hge].
        * rewrite lookup_app_l in Hb by exact Hlt. exact (Hn b sb Hb).
        * rewrite lookup_app_r in Hb by lia.
          destruct (b - length (store ss))%nat; simpl in Hb; [| discriminate].
          inversion Hb; subst sb. simpl. lia.
      + eexists _, _. simpl.
        split; [apply lookup_insert_eq | split; [apply lookup_snoc |]].
        reflexivity.
    - unfold astar_init, pq_empty, gets, mbind, Op_bind in Hinit.
      rewrite Hq in Hinit. apply ret_Ok in Hinit as [_ ->].
      split; assumption. }
  pose proof (astar_loop_settled _ _ _ _ _ _ _ _ _ Henv Hs1 Hloop) as Hs2.
  assert (Hs' : settled start_key ss').
  { unfold astar_finish in H.
    assert (Hrec : forall tr,
              (modify_ss (with_expand_iteration n) ;;
               traj' ← recoverTraj ENV fuel u start_key; mret (true, traj'))
                ss2 = Ok (tr, ss') -> settled start_key ss').
    { intros tr Hrun.
      apply bind_Ok in Hrun as ([] & ss3 & Hm & Hrun).
      apply modify_ss_Ok in Hm. subst ss3.
      apply bind_Ok in Hrun as (tr' & ss3 & Hrec & Hret).
      apply ret_Ok in Hret as [_ ->].
      pose proof (recoverTraj_rest _ _ _ _ _ _ _ Hrec) as Hrest.
      eapply settled_same; [| | exact Hs2].
      - exact (f_equal (fun x => fst (fst (fst (fst x)))) Hrest).
      - exact (f_equal (fun x => snd (fst (fst x))) Hrest). }
    destruct v; first [eapply Hrec; exact H
                      | apply ret_Ok in H as [_ ->]; exact Hs2]. }
  destruct Hs' as [Hn' Hz']. split; [exact Hn' | intros _; exact Hz'].
Qed.

Lemma graph_env_nonneg edges goal heur :
  Forall (fun e => g_nonneg (e_cost e)) edges ->
  env_nonneg (graph_env edges goal heur).
Proof.
  intros Hall c j cost Hc Hinf. simpl in Hc.
  apply list_lookup_fmap_Some in Hc as (e & -> & He).
  apply list_elem_of_lookup_2 in He.
  apply list_elem_of_filter in He as [_ He].
  rewrite Forall_forall in Hall. specialize (Hall e He).
  destruct (e_cost e); simpl in Hall; try discriminate; try contradiction.
  eexists. split; [reflexivity | exact Hall].
Qed.

(** On [line_env] from a fresh workspace, and then once more on the
    workspace the first call leaves, whose queue is not empty. *)
Lemma Astar_costs_not_negative_witness :
  start_zero 0 (after (Astar line_env 10 (at_pos 0) 0 [] (-1) (Fin 0) ss0)) /\
  nonneg (after (Astar line_env 10 (at_pos 0) 0 [] 1 (Fin 0)
                   (after (Astar line_env 10 (at_pos 0) 0 [] 1 (Fin 0) ss0)))).
Proof.
  assert (Henv : env_nonneg line_env).
  { apply graph_env_nonneg. repeat constructor; simpl; lia. }
  split.
  - destruct (Astar line_env 10 (at_pos 0) 0 [] (-1) (Fin 0) ss0)
      as [[r ss'] | f |] eqn:E; [| vm_compute in E; discriminate E..].
    exact (proj2 (Astar_costs_not_negative line_env 10 (at_pos 0) 0 [] (-1)
                    (Fin 0) ss0 r ss' Henv (nonneg_fresh _ _) eq_refl E)
                 eq_refl).
  - destruct (Astar line_env 10 (at_pos 0) 0 [] 1 (Fin 0) ss0)
      as [[r ss'] | f |] eqn:E; [| vm_compute in E; discriminate E..].
    destruct (Astar_costs_not_negative line_env 10 (at_pos 0) 0 [] 1
                (Fin 0) ss0 r ss' Henv (nonneg_fresh _ _) eq_refl E)
      as [Hn Hz].
    simpl after.
    destruct (Astar line_env 10 (at_pos 0) 0 [] 1 (Fin 0) ss')
      as [[r2 ss2] | f |] eqn:E2; simpl after;
      [| apply nonneg_fresh..].
    assert (Hq : pq_is_empty (pq_ ss') = false).
    { vm_compute in E. inversion E. reflexivity. }
    refine (proj1 (Astar_costs_not_negative line_env 10 (at_pos 0) 0 [] 1
                     (Fin 0) ss' r2 ss2 Henv Hn _ E2)).
    rewrite Hq. exact (Hz eq_refl).
Defined.
